(** * LoAT: a shallow embedding of the analysis driver, the recurrence
    engine, the relation helpers and the variable-name escaping.

    Part I holds the model, one module per source file; Part II holds the
    theorems.  Expressions of the algebra library are modelled by a small
    term language with an integer semantics; the recurrence solver, the
    asymptotic prover, the chainer and the clock are taken as inputs of the
    functions that call them. *)

From Stdlib Require Import ZArith List Bool Ascii String Lia.
From stdpp Require Import gmap sorting strings pretty.
Import ListNotations.

(* ===================================================================== *)
(** * Part I: the model                                                   *)
(* ===================================================================== *)

(** Indices are plain naturals, as the typedefs of the source. *)
Definition VariableIdx := nat.
Definition LocationIdx := nat.
Definition TransIdx := nat.
Bind Scope nat_scope with VariableIdx.
Bind Scope nat_scope with LocationIdx.
Bind Scope nat_scope with TransIdx.

(** ** expr/expression: the algebra library's terms *)

(** Modelled from the spec: the symbols of an Expression.  Besides program
    and temporary variables the recurrence engine uses the solver's index
    [n] and its placeholder [x(n-1)]; the cost may be the infinity symbol. *)
Inductive Symbol : Type :=
| SVar (v : VariableIdx)
| SRecN
| SRecPrev
| SInf.

(** Modelled from the spec: an Expression is an algebraic term over symbols
    and integer constants. *)
Inductive Expression : Type :=
| Num (z : Z)
| Sym (s : Symbol)
| Add (a b : Expression)
| Sub (a b : Expression)
| Mul (a b : Expression).

Definition Symbol_eqb (a b : Symbol) : bool :=
  match a, b with
  | SVar v, SVar w => Nat.eqb v w
  | SRecN, SRecN => true
  | SRecPrev, SRecPrev => true
  | SInf, SInf => true
  | _, _ => false
  end.

(** A valuation gives every symbol an integer. *)
Definition Valuation := Symbol -> Z.

Fixpoint eval (sigma : Valuation) (e : Expression) : Z :=
  match e with
  | Num z => z
  | Sym s => sigma s
  | Add a b => (eval sigma a + eval sigma b)%Z
  | Sub a b => (eval sigma a - eval sigma b)%Z
  | Mul a b => (eval sigma a * eval sigma b)%Z
  end.

(** [ex.is_zero()] *)
Definition is_zero (e : Expression) : bool :=
  match e with
  | Num 0 => true
  | _ => false
  end.

(** The comparison operators of a relational. *)
Inductive RelOp : Type := OpEq | OpNeq | OpLt | OpLe | OpGt | OpGe.

(** A relational [lhs op rhs]. *)
Record Relational : Type := mkRel {
  rel_op : RelOp;
  lhs : Expression;
  rhs : Expression
}.

Definition holds (sigma : Valuation) (r : Relational) : Prop :=
  match rel_op r with
  | OpEq => eval sigma (lhs r) = eval sigma (rhs r)
  | OpNeq => eval sigma (lhs r) <> eval sigma (rhs r)
  | OpLt => (eval sigma (lhs r) < eval sigma (rhs r))%Z
  | OpLe => (eval sigma (lhs r) <= eval sigma (rhs r))%Z
  | OpGt => (eval sigma (lhs r) > eval sigma (rhs r))%Z
  | OpGe => (eval sigma (lhs r) >= eval sigma (rhs r))%Z
  end.

(** ** expr/relation.cpp *)
Module Relation.

(** [info(relation_...)] flags *)
Definition relation_equal (ex : Relational) : bool :=
  match rel_op ex with OpEq => true | _ => false end.
Definition relation_not_equal (ex : Relational) : bool :=
  match rel_op ex with OpNeq => true | _ => false end.
Definition relation_less (ex : Relational) : bool :=
  match rel_op ex with OpLt => true | _ => false end.
Definition relation_less_or_equal (ex : Relational) : bool :=
  match rel_op ex with OpLe => true | _ => false end.
Definition relation_greater (ex : Relational) : bool :=
  match rel_op ex with OpGt => true | _ => false end.
Definition relation_greater_or_equal (ex : Relational) : bool :=
  match rel_op ex with OpGe => true | _ => false end.

(** A [Relational] is a relational with two operands by its type; what is
    left of the test is the exclusion of [!=]. *)
Definition isRelation (ex : Relational) : bool :=
  negb (relation_not_equal ex).

Definition isEquality (ex : Relational) : bool :=
  isRelation ex && relation_equal ex.

Definition isInequality (ex : Relational) : bool :=
  isRelation ex && negb (isEquality ex).

Definition isNormalizedInequality (ex : Relational) : bool :=
  isInequality ex && relation_greater ex && is_zero (rhs ex).

Definition transformInequalityGreater (rel : Relational) : Relational :=
  (* flip < or <= *)
  let rel :=
    if relation_less rel then mkRel OpGt (rhs rel) (lhs rel)
    else if relation_less_or_equal rel then mkRel OpGe (rhs rel) (lhs rel)
    else rel in
  (* change >= to >, assuming integer arithmetic *)
  if relation_greater_or_equal rel
  then mkRel OpGt (Add (lhs rel) (Num 1)) (rhs rel)
  else rel.

Definition normalizeInequality (rel : Relational) : Relational :=
  let greater := transformInequalityGreater rel in
  mkRel OpGt (Sub (lhs greater) (rhs greater)) (Num 0).

(** What a function returns whose C++ type is [Expression]: a relational,
    or a term that is none. *)
Inductive Ex : Type :=
| ExRel (r : Relational)
| ExTerm (e : Expression).

(** [replaceLhsRhs(rel, lhs, rhs)].  The last [return] of the source is
    [return lhs = rhs;], the assignment to the parameter [lhs], whose value
    is the term [rhs]; [None] stands for [unreachable()]. *)
Definition replaceLhsRhs (rel : Relational) (lhs rhs : Expression) : option Ex :=
  if relation_less_or_equal rel then Some (ExRel (mkRel OpLe lhs rhs))
  else if relation_greater rel then Some (ExRel (mkRel OpGt lhs rhs))
  else if relation_less rel then Some (ExRel (mkRel OpLt lhs rhs))
  else if relation_greater_or_equal rel then Some (ExRel (mkRel OpGe lhs rhs))
  else if relation_equal rel then Some (ExTerm rhs)
  else None.

Definition transformInequalityLessEq (rel : Relational) : Relational :=
  (* flip > or >= *)
  let rel :=
    if relation_greater rel then mkRel OpLt (rhs rel) (lhs rel)
    else if relation_greater_or_equal rel then mkRel OpLe (rhs rel) (lhs rel)
    else rel in
  (* change < to <=, assuming integer arithmetic *)
  if relation_less rel
  then mkRel OpLe (lhs rel) (Sub (rhs rel) (Num 1))
  else rel.

Definition transformInequalityLessOrLessEq (rel : Relational) : Relational :=
  if relation_greater_or_equal rel then mkRel OpLe (rhs rel) (lhs rel)
  else if relation_greater rel then mkRel OpLt (rhs rel) (lhs rel)
  else rel.

(** The unary minus of the algebra library: [-e] is the product [(-1) * e]. *)
Definition neg (e : Expression) : Expression := Mul (Num (-1)) e.

Definition negateLessEqInequality (relLessEq : Relational) : Relational :=
  mkRel OpLe (neg (lhs relLessEq)) (Sub (neg (rhs relLessEq)) (Num 1)).

End Relation.

(** ** itrs/itrs.cpp: escaping of variable names *)
Module ITRS.

Local Open Scope nat_scope.

(** [<cctype>] in the "C" locale, which the program never changes. *)
Definition isupper (c : ascii) : bool :=
  let n := nat_of_ascii c in (65 <=? n) && (n <=? 90).
Definition islower (c : ascii) : bool :=
  let n := nat_of_ascii c in (97 <=? n) && (n <=? 122).
Definition isdigit (c : ascii) : bool :=
  let n := nat_of_ascii c in (48 <=? n) && (n <=? 57).
Definition isalpha (c : ascii) : bool := isupper c || islower c.
Definition isalnum (c : ascii) : bool := isalpha c || isdigit c.

(** The body of the loop of [escapeVarname], on the character [name[i]]. *)
Definition escapeChar (c : ascii) : ascii :=
  let c := if Ascii.eqb c "I" then "Q"%char else c in
  if negb (isalnum c) then "_"%char else c.

(** The loop [for (i = 0; i < name.length(); ++i)]: every position is
    rewritten in place, left to right. *)
Fixpoint escapeLoop (name : string) : string :=
  match name with
  | EmptyString => EmptyString
  | String c rest => String (escapeChar c) (escapeLoop rest)
  end.

(** [name[0]] of a [std::string]: the terminating NUL when the string is
    empty. *)
Definition front (name : string) : ascii :=
  match name with
  | EmptyString => zero
  | String c _ => c
  end.

Definition escapeVarname (name : string) : string :=
  let name := escapeLoop name in
  if negb (isalpha (front name)) then String "q" name else name.

(** *** [std::string] and [boost::algorithm::trim] *)

(** [s.find(c, pos)]: the first position from [pos] on that holds [c];
    [None] is [npos]. *)
Fixpoint string_find (c : ascii) (s : string) (pos : nat) : option nat :=
  match s with
  | EmptyString => None
  | String d rest =>
    match pos with
    | O => if Ascii.eqb d c then Some 0 else option_map S (string_find c rest 0)
    | S pos => option_map S (string_find c rest pos)
    end
  end.

(** [s.rfind(c)]: the last position that holds [c]. *)
Fixpoint string_rfind (c : ascii) (s : string) : option nat :=
  match s with
  | EmptyString => None
  | String d rest =>
    match string_rfind c rest with
    | Some i => Some (S i)
    | None => if Ascii.eqb d c then Some 0 else None
    end
  end.

(** [s.substr(pos, len)] for [pos <= s.length()]: at most [len]
    characters, fewer at the end of the string. *)
Definition substr (s : string) (pos len : nat) : string := String.substring pos len s.

(** [isspace] in the "C" locale: the blank and the characters 9 to 13. *)
Definition isspace (c : ascii) : bool :=
  let n := nat_of_ascii c in (n =? 32) || ((9 <=? n) && (n <=? 13)).

Fixpoint trim_left (s : string) : string :=
  match s with
  | EmptyString => EmptyString
  | String c rest => if isspace c then trim_left rest else s
  end.

Fixpoint trim_right (s : string) : string :=
  match s with
  | EmptyString => EmptyString
  | String c rest =>
    match trim_right rest with
    | EmptyString => if isspace c then EmptyString else String c EmptyString
    | rest' => String c rest'
    end
  end.

(** [boost::algorithm::trim(s)]: the white space at both ends is removed. *)
Definition trim (s : string) : string := trim_left (trim_right s).

(** [s.empty()] *)
Definition emptyString (s : string) : bool :=
  match s with
  | EmptyString => true
  | _ => false
  end.

(** *** [parseFunapp] *)

(** The [FileError]s that [parseFunapp] throws, each with the line. *)
Inductive FileError : Type :=
| MissingOpenParen (line : string)
| BadCloseParen (line : string)
| EmptyArgument (line : string)
| EmptyLastArgument (line : string).

(** [line.rfind(')') != line.length()-1], as it is computed on [size_t]:
    for the empty line the right-hand side wraps around to [npos]. *)
Definition closeParenIsLast (line : string) : bool :=
  match string_rfind ")" line with
  | Some i => i =? String.length line - 1
  | None => String.length line =? 0
  end.

(** The [while ((pos = line.find(',',startpos)) != npos)] of
    [parseFunapp]: the arguments before the last one.  The result is the
    error thrown, or [startpos] and [args] as the loop leaves them; the
    outer [None] is the end of the fuel. *)
Fixpoint splitArgs (fuel : nat) (line : string) (startpos : nat) (args : list string)
    : option (FileError + nat * list string) :=
  match fuel with
  | O => None
  | S fuel =>
    match string_find "," line startpos with
    | Some pos =>
      let arg := trim (substr line startpos (pos - startpos)) in
      if emptyString arg then Some (inl (EmptyArgument line))
      else splitArgs fuel line (pos + 1) (args ++ [arg])
    | None => Some (inr (startpos, args))
    end
  end.

(** [parseFunapp(line, fun, args)]: the error thrown, or [fun] and [args].
    The difference [line.length()-1-startpos] does not wrap around where it
    is computed: the line ends in [)] and [startpos] is behind a character
    before it. *)
Definition parseFunapp (line : string) : option (FileError + string * list string) :=
  match string_find "(" line 0 with
  | None => Some (inl (MissingOpenParen line))
  | Some pos =>
    if negb (closeParenIsLast line) then Some (inl (BadCloseParen line))
    else
      let fun_ := substr line 0 pos in
      match splitArgs (S (String.length line)) line (pos + 1) [] with
      | None => None
      | Some (inl e) => Some (inl e)
      | Some (inr (startpos, args)) =>
        let lastarg := trim (substr line startpos (String.length line - 1 - startpos)) in
        if negb (emptyString lastarg) then Some (inr (fun_, args ++ [lastarg]))
        else match args with
             | [] => Some (inr (fun_, args))
             | _ => Some (inl (EmptyLastArgument line))
             end
      end
  end.

(** *** The variables and function symbols of a [Problem] *)

Definition VariableIndex := nat.
Definition FunctionSymbolIndex := nat.

(** The members of [Problem] that the functions below read and write.
    [varSymbols] holds the symbol made for each variable; the list
    [varSymbolList] of the source holds the same symbols. *)
Record Problem : Type := mkProblem {
  vars : list string;
  varMap : gmap string VariableIndex;
  varSymbols : list Symbol;
  freeVars : gset VariableIndex;
  functionSymbols : list string;
  functionSymbolVars : gmap FunctionSymbolIndex (list VariableIndex)
}.

(** [addVariable(name)] *)
Definition addVariable (p : Problem) (name : string) : VariableIndex * Problem :=
  let vi := List.length (vars p) in
  (vi, mkProblem (vars p ++ [name]) (<[name := vi]> (varMap p))
                 (varSymbols p ++ [SVar vi]) (freeVars p)
                 (functionSymbols p) (functionSymbolVars p)).

(** [INT_MAX] *)
Definition INT_MAX : Z := 2147483647.

(** The [while] of [getFreshName]; [num] is an [int], and [None] is the
    overflow of [num++], or the end of the fuel. *)
Fixpoint getFreshNameLoop (fuel : nat) (p : Problem) (basename name : string) (num : Z)
    : option string :=
  match fuel with
  | O => None
  | S fuel =>
    match varMap p !! name with
    | Some _ =>
      if Z.eqb num INT_MAX then None
      else getFreshNameLoop fuel p basename (basename +:+ "_" +:+ pretty num) (num + 1)%Z
    | None => Some name
    end
  end.

Definition getFreshName (fuel : nat) (p : Problem) (basename : string) : option string :=
  getFreshNameLoop fuel p basename basename 1%Z.

(** [addFreshVariable(basename, free)] *)
Definition addFreshVariable (fuel : nat) (p : Problem) (basename : string) (free : bool)
    : option (VariableIndex * Problem) :=
  match getFreshName fuel p basename with
  | None => None
  | Some name =>
    let '(v, p) := addVariable p name in
    Some (v, if free
             then mkProblem (vars p) (varMap p) (varSymbols p) ({[v]} ∪ freeVars p)
                            (functionSymbols p) (functionSymbolVars p)
             else p)
  end.

(** [getVarname(vi)]: the name that [addVariable] stored for [vi]. *)
Definition getVarname (p : Problem) (vi : VariableIndex) : option string := vars p !! vi.

(** [isFreeVar(var)], for the symbol of a variable. *)
Definition isFreeVar (p : Problem) (var : Symbol) : bool :=
  existsb (fun i => Symbol_eqb var (SVar i)) (elements (freeVars p)).

(** What the two loops of [printLhs] write between the parentheses. *)
Fixpoint printArgs (names : list string) : string :=
  match names with
  | [] => EmptyString
  | [name] => name
  | name :: rest => name +:+ "," +:+ printArgs rest
  end.

(** [printLhs(fun, os)]: the text written to [os]; [None] when the
    function symbol or one of its variables is not there. *)
Definition printLhs (p : Problem) (fun_ : FunctionSymbolIndex) : option string :=
  match functionSymbols p !! fun_, functionSymbolVars p !! fun_ with
  | Some name, Some funcVars =>
    match mapM (getVarname p) funcVars with
    | Some names => Some (name +:+ "(" +:+ printArgs names +:+ ")")
    | None => None
    end
  | _, _ => None
  end.

(** *** The declaration of the variables in [loadFromFile] *)

(** What the branch [(VAR ...)] of [loadFromFile] writes: the problem and
    its members [knownVars] and [escapeSymbols]. *)
Record Declarations : Type := mkDeclarations {
  problem : Problem;
  knownVars : gmap string VariableIndex;
  escapeSymbols : gmap string string
}.

(** The words that [ss >> varname] reads from a stream, one after the
    other: the maximal runs of characters that are no white space.  [cur]
    is the word that is being read. *)
Fixpoint words (cur s : string) : list string :=
  match s with
  | EmptyString => if emptyString cur then [] else [cur]
  | String c rest =>
    if isspace c
    then if emptyString cur then words EmptyString rest
         else cur :: words EmptyString rest
    else words (cur +:+ String c EmptyString) rest
  end.

(** The loop [while (ss >> varname)].  [addFreshVariable] is called with
    one argument, its flag [free] is taken to be [false] then. *)
Fixpoint declareVars (fuel : nat) (varnames : list string) (res : Declarations)
    : option Declarations :=
  match varnames with
  | [] => Some res
  | varname :: rest =>
    let escapedname := escapeVarname varname in
    match addFreshVariable fuel (problem res) escapedname false with
    | None => None
    | Some (vi, p) =>
      match getVarname p vi with
      | None => None
      | Some escapedname =>
        declareVars fuel rest
          (mkDeclarations p (<[escapedname := vi]> (knownVars res))
             (if String.eqb escapedname varname then escapeSymbols res
              else <[varname := escapedname]> (escapeSymbols res)))
      end
    end
  end.

(** The branch for a line [(VAR ...)], which ends with its closing
    parenthesis: the names are read from [line.substr(4, length - 1 - 4)]. *)
Definition declareLine (fuel : nat) (line : string) (res : Declarations)
    : option Declarations :=
  declareVars fuel (words EmptyString (substr line 4 (String.length line - 1 - 4))) res.

End ITRS.

(** ** Guards, updates and substitutions *)

(** A guard is a conjunction of relationals, kept in order. *)
Definition GuardList := list Relational.

(** [std::map<VariableIdx,Expression>]: an association list whose keys
    ascend strictly, so that iterating the list is iterating the map. *)
Definition UpdateMap := list (VariableIdx * Expression).

Fixpoint keysAscend (bound : option VariableIdx) (update : UpdateMap) : bool :=
  match update with
  | [] => true
  | (k, _) :: rest =>
    match bound with
    | None => true
    | Some b => Nat.ltb b k
    end && keysAscend (Some k) rest
  end.

(** The well-formedness of an [UpdateMap]: keys unique and ascending. *)
Definition UpdateMap_wf (update : UpdateMap) : bool := keysAscend None update.

Definition keys (update : UpdateMap) : list VariableIdx := map fst update.

(** [update.count(vi) > 0] *)
Definition UpdateMap_count (update : UpdateMap) (vi : VariableIdx) : bool :=
  existsb (Nat.eqb vi) (keys update).

(** [update.at(vi)]; [None] stands for [std::out_of_range]. *)
Fixpoint UpdateMap_at (update : UpdateMap) (vi : VariableIdx) : option Expression :=
  match update with
  | [] => None
  | (k, e) :: rest => if Nat.eqb k vi then Some e else UpdateMap_at rest vi
  end.

(** [update[vi] = e]: overwrite the entry or insert it at its place. *)
Fixpoint UpdateMap_set (update : UpdateMap) (vi : VariableIdx) (e : Expression) : UpdateMap :=
  match update with
  | [] => [(vi, e)]
  | (k, e') :: rest =>
    if Nat.eqb k vi then (k, e) :: rest
    else if Nat.ltb vi k then (vi, e) :: (k, e') :: rest
    else (k, e') :: UpdateMap_set rest vi e
  end.

(** [GiNaC::exmap] restricted to symbols on the left.  [exmap_set] is the
    assignment [m[s] = e]; the newest binding of a symbol is the one found. *)
Definition exmap := list (Symbol * Expression).

Fixpoint exmap_find (m : exmap) (s : Symbol) : option Expression :=
  match m with
  | [] => None
  | (s', e) :: rest => if Symbol_eqb s' s then Some e else exmap_find rest s
  end.

Definition exmap_set (m : exmap) (s : Symbol) (e : Expression) : exmap := (s, e) :: m.

(** [ex.subs(m)]: all symbols are replaced at once. *)
Fixpoint subs (m : exmap) (e : Expression) : Expression :=
  match e with
  | Num z => Num z
  | Sym s => match exmap_find m s with Some e' => e' | None => Sym s end
  | Add a b => Add (subs m a) (subs m b)
  | Sub a b => Sub (subs m a) (subs m b)
  | Mul a b => Mul (subs m a) (subs m b)
  end.

(** [ex.subs(s == e)] *)
Definition subs1 (s : Symbol) (by_ : Expression) (e : Expression) : Expression :=
  subs [(s, by_)] e.

(** The symbols of an expression, left to right. *)
Fixpoint symbolsOf (e : Expression) : list Symbol :=
  match e with
  | Num _ => []
  | Sym s => [s]
  | Add a b | Sub a b | Mul a b => symbolsOf a ++ symbolsOf b
  end.

(** ** its/variablemanager.h *)
Module VarMan.

(** The variable manager maps indices to GiNaC symbols and back; in the
    model the symbol of variable [idx] is [SVar idx]. *)
Definition getGinacSymbol (idx : VariableIdx) : Symbol := SVar idx.

(** [getVarIdx] over [getVariableNames()]: the indices of the variables of
    an expression.  The solver's symbols and the infinity symbol are no
    variables of the manager. *)
Definition getVarIdxs (e : Expression) : list VariableIdx :=
  flat_map (fun s => match s with SVar v => [v] | _ => [] end) (symbolsOf e).

End VarMan.

(** [LinearRule]: one right-hand side. *)
Record LinearRule : Type := mkLinearRule {
  lr_lhsLoc : LocationIdx;
  lr_guard : GuardList;
  lr_cost : Expression;
  lr_rhsLoc : LocationIdx;
  lr_update : UpdateMap
}.

(** ** meter/recurrence.cpp *)
Module Recurrence.

(** The recurrence solver (PURRS) is external: [solver rhs k init] is the
    exact solution of [x(n) = rhs] with [x(k) = init], if it finds one. *)
Definition Solver := Expression -> nat -> Expression -> option Expression.

(** A query to the solver, as it is logged. *)
Definition Query := (Expression * nat * Expression)%type.

(** The members of a [Recurrence] object.  [queries] is the log of the
    solver calls made so far, oldest first. *)
Record State : Type := mkState {
  addGuard : GuardList;
  knownPreRecurrences : exmap;
  queries : list Query
}.

(** The constructor. *)
Definition init : State := mkState [] [] [].

(** The test of the inner [for] of [dependencyOrder]: some variable of the
    right-hand side is updated, is not [up.first], and is not ordered yet. *)
Definition unresolved (update : UpdateMap) (orderedVars : gset VariableIdx)
    (up : VariableIdx * Expression) : bool :=
  existsb (fun vi => negb (Nat.eqb vi (fst up))
                     && UpdateMap_count update vi
                     && negb (bool_decide (vi ∈ orderedVars)))
          (VarMan.getVarIdxs (snd up)).

(** The first [for (auto up : update)] of the [while] body, run over the
    entries [todo] that are left. *)
Fixpoint orderPass (update todo : UpdateMap) (ordering : list VariableIdx)
    (orderedVars : gset VariableIdx) (changed : bool)
    : list VariableIdx * gset VariableIdx * bool :=
  match todo with
  | [] => (ordering, orderedVars, changed)
  | up :: rest =>
    if bool_decide (fst up ∈ orderedVars)
    then orderPass update rest ordering orderedVars changed
    else if unresolved update orderedVars up
    then orderPass update rest ordering orderedVars changed
    else orderPass update rest (ordering ++ [fst up]) ({[fst up]} ∪ orderedVars) true
  end.

(** The second [for (auto up : update)]: the first unordered variable
    becomes the target, every later one is equated with it. *)
Fixpoint pickTarget (todo : UpdateMap) (orderedVars : gset VariableIdx)
    (target : option Symbol) (addGuard : GuardList) (subs : exmap)
    : GuardList * exmap :=
  match todo with
  | [] => (addGuard, subs)
  | up :: rest =>
    if bool_decide (fst up ∈ orderedVars)
    then pickTarget rest orderedVars target addGuard subs
    else match target with
         | None =>
           pickTarget rest orderedVars (Some (VarMan.getGinacSymbol (fst up))) addGuard subs
         | Some t =>
           pickTarget rest orderedVars target
             (addGuard ++ [mkRel OpEq (Sym t) (Sym (VarMan.getGinacSymbol (fst up)))])
             (exmap_set subs (VarMan.getGinacSymbol (fst up)) (Sym t))
         end
  end.

(** [for (auto &up : update) up.second = up.second.subs(subs)] *)
Definition substituteAll (sub : exmap) (update : UpdateMap) : UpdateMap :=
  map (fun up => (fst up, subs sub (snd up))) update.

(** The [while] loop of [dependencyOrder]; [None] when the fuel runs out. *)
Fixpoint dependencyOrderLoop (fuel : nat) (update : UpdateMap)
    (ordering : list VariableIdx) (orderedVars : gset VariableIdx)
    (addGuard : GuardList) : option (list VariableIdx * UpdateMap * GuardList) :=
  match fuel with
  | O => None
  | S fuel =>
    if Nat.ltb (length ordering) (length update) then
      let '(ordering', orderedVars', changed) :=
        orderPass update update ordering orderedVars false in
      if changed
      then dependencyOrderLoop fuel update ordering' orderedVars' addGuard
      else
        let '(addGuard', sub) := pickTarget update orderedVars' None addGuard [] in
        dependencyOrderLoop fuel (substituteAll sub update) ordering' orderedVars' addGuard'
    else Some (ordering, update, addGuard)
  end.

(** [dependencyOrder(update)]: the ordering, the update as it was changed,
    and the new value of the member [addGuard]. *)
Definition dependencyOrder (fuel : nat) (update : UpdateMap) (st : State)
    : option (list VariableIdx * UpdateMap * State) :=
  match dependencyOrderLoop fuel update [] ∅ (addGuard st) with
  | None => None
  | Some (ordering, update', addGuard') =>
    Some (ordering, update', mkState addGuard' (knownPreRecurrences st) (queries st))
  end.

Section WithSolver.

Variable purrs : Solver.

(** [findUpdateRecurrence(update, target, result)]: the solution, or
    [None] for [false]; the query is logged. *)
Definition findUpdateRecurrence (update : Expression) (target : Symbol) (st : State)
    : option Expression * State :=
  let last := Sym SRecPrev in
  let rhs := subs1 target last update in
  (purrs rhs 1 update,
   mkState (addGuard st) (knownPreRecurrences st) (queries st ++ [(rhs, 1, update)])).

Definition findCostRecurrence (cost : Expression) (st : State)
    : option Expression * State :=
  let cost := subs (knownPreRecurrences st) cost in
  let rhs := Add (Sym SRecPrev) cost in
  (purrs rhs 0 (Num 0),
   mkState (addGuard st) (knownPreRecurrences st) (queries st ++ [(rhs, 0, Num 0)])).

(** The [for (VariableIdx vi : order)] of [calcIteratedUpdate].  The outer
    [None] is the exception of [update.at(vi)]. *)
Fixpoint solveInOrder (update : UpdateMap) (meterfunc : Expression)
    (order : list VariableIdx) (newUpdate : UpdateMap) (st : State)
    : option (bool * UpdateMap * State) :=
  match order with
  | [] => Some (true, newUpdate, st)
  | vi :: rest =>
    let target := VarMan.getGinacSymbol vi in
    match UpdateMap_at update vi with
    | None => None
    | Some rhs_vi =>
      let todo := subs (knownPreRecurrences st) rhs_vi in
      match findUpdateRecurrence todo target st with
      | (None, st) => Some (false, newUpdate, st)
      | (Some res, st) =>
        let st := mkState (addGuard st)
                    (exmap_set (knownPreRecurrences st) target
                       (subs1 SRecN (Sub (Sym SRecN) (Num 1)) res))
                    (queries st) in
        solveInOrder update meterfunc rest
          (UpdateMap_set newUpdate vi (subs1 SRecN meterfunc res)) st
      end
    end
  end.

Definition calcIteratedUpdate (fuel : nat) (oldUpdate : UpdateMap)
    (meterfunc : Expression) (newUpdate : UpdateMap) (st : State)
    : option (bool * UpdateMap * State) :=
  match dependencyOrder fuel oldUpdate st with
  | None => None
  | Some (order, update, st) => solveInOrder update meterfunc order newUpdate st
  end.

Definition calcIteratedCost (cost meterfunc : Expression) (st : State)
    : option Expression * State :=
  match findCostRecurrence cost st with
  | (None, st) => (None, st)
  | (Some costRec, st) => (Some (subs1 SRecN meterfunc costRec), st)
  end.

(** [calcIterated(varMan, rule, meterfunc)]: the returned flag, the rule
    as the call leaves it, and the solver queries that were made. *)
Definition calcIterated (fuel : nat) (rule : LinearRule) (meterfunc : Expression)
    : option (bool * LinearRule * list Query) :=
  let rec := init in
  match calcIteratedUpdate fuel (lr_update rule) meterfunc [] rec with
  | None => None
  | Some (false, _, rec) => Some (false, rule, queries rec)
  | Some (true, newUpdate, rec) =>
    match calcIteratedCost (lr_cost rule) meterfunc rec with
    | (None, rec) => Some (false, rule, queries rec)
    | (Some newCost, rec) =>
      Some (true,
            mkLinearRule (lr_lhsLoc rule) (lr_guard rule ++ addGuard rec) newCost
                         (lr_rhsLoc rule) newUpdate,
            queries rec)
    end
  end.

End WithSolver.

(** The fuel that [dependencyOrder] needs at most for an update. *)
Definition enoughFuel (update : UpdateMap) : nat := (2 * length update + 1)%nat.

(** A small solver, used to run the engine on examples: it solves
    [x(n) = c] and [x(n) = x(n-1) + c] for [c] free of [x(n-1)]. *)
Definition mentions (s : Symbol) (e : Expression) : bool :=
  existsb (Symbol_eqb s) (symbolsOf e).

Fixpoint Expression_eqb (a b : Expression) : bool :=
  match a, b with
  | Num x, Num y => Z.eqb x y
  | Sym s, Sym t => Symbol_eqb s t
  | Add a1 a2, Add b1 b2 | Sub a1 a2, Sub b1 b2 | Mul a1 a2, Mul b1 b2 =>
    Expression_eqb a1 b1 && Expression_eqb a2 b2
  | _, _ => false
  end.

Definition sampleSolver : Solver := fun rhs k init =>
  if negb (mentions SRecPrev rhs) then
    if Expression_eqb rhs init && negb (mentions SRecN rhs) then Some rhs else None
  else match rhs with
       | Sym SRecPrev => if mentions SRecN init then None else Some init
       | Add (Sym SRecPrev) c =>
         if mentions SRecPrev c || mentions SRecN c || mentions SRecN init then None
         else Some (Add init (Mul c (Sub (Sym SRecN) (Num (Z.of_nat k)))))
       | _ => None
       end.

(** *** Notions used to state the theorems about the engine *)

(** The keys that are not ordered yet, in the order of the map. *)
Definition unorderedKeys (update : UpdateMap) (orderedVars : gset VariableIdx) : list VariableIdx :=
  List.filter (fun k => negb (bool_decide (k ∈ orderedVars))) (keys update).

Definition cycleEqualities (t : VariableIdx) (others : list VariableIdx) : GuardList :=
  map (fun o => mkRel OpEq (Sym (SVar t)) (Sym (SVar o))) others.

Definition cycleSubs (t : VariableIdx) (others : list VariableIdx) : exmap :=
  rev (map (fun o => (SVar o, Sym (SVar t))) others).

Record PassInv (update : UpdateMap) (ordering : list VariableIdx) (orderedVars : gset VariableIdx) : Prop := {
  inv_nodup : List.NoDup ordering;
  inv_set : forall v, v ∈ orderedVars <-> In v ordering;
  inv_keys : forall v, In v ordering -> In v (keys update)
}.

Definition varEquality (update : UpdateMap) (r : Relational) : Prop :=
  exists t o, In t (keys update) /\ In o (keys update) /\ t <> o
              /\ r = mkRel OpEq (Sym (SVar t)) (Sym (SVar o)).

Definition OrderPost (update : UpdateMap) (ordering : list VariableIdx)
    (update' : UpdateMap) (eqs : GuardList) : Prop :=
  List.NoDup ordering
  /\ incl ordering (keys update)
  /\ length update <= length ordering
  /\ keys update' = keys update
  /\ Forall (varEquality update) eqs.

Definition solved (purrs : Solver) (q : Query) : Prop :=
  purrs (fst (fst q)) (snd (fst q)) (snd q) <> None.

(** An entry of the new update is a closed form the solver returned,
    with [n] replaced by the metering function. *)
Definition closedForm (purrs : Solver) (meterfunc : Expression) (qs : list Query)
    (entry : VariableIdx * Expression) : Prop :=
  exists rhs init res,
    In (rhs, 1, init) qs /\ purrs rhs 1 init = Some res
    /\ snd entry = subs1 SRecN meterfunc res.

End Recurrence.


(** ** Complexity classes *)

(** Modelled from the spec: [Unknown < Const < Poly(d) for d >= 1 < Exp <
    Infty], and [Poly(d1) < Poly(d2)] iff [d1 < d2]. *)
Inductive Complexity : Type :=
| Unknown
| Const
| Poly (d : positive)
| Exp
| Infty.

Module Cpx.

Definition tier (c : Complexity) : nat :=
  match c with
  | Unknown => 0
  | Const => 1
  | Poly _ => 2
  | Exp => 3
  | Infty => 4
  end.

Definition degree (c : Complexity) : nat :=
  match c with
  | Poly d => Pos.to_nat d
  | _ => 0
  end.

(** [a < b] *)
Definition ltb (a b : Complexity) : bool :=
  Nat.ltb (tier a) (tier b)
  || (Nat.eqb (tier a) (tier b) && Nat.ltb (degree a) (degree b)).

(** [a <= b], [a > b], [a >= b] and [a == b] *)
Definition leb (a b : Complexity) : bool := negb (ltb b a).
Definition gtb (a b : Complexity) : bool := ltb b a.
Definition geb (a b : Complexity) : bool := negb (ltb a b).
Definition eqb (a b : Complexity) : bool := leb a b && leb b a.

(** [std::max(a, b)] *)
Definition max (a b : Complexity) : Complexity := if ltb a b then b else a.

End Cpx.

(** Modelled from the spec: [RuntimeResult], [(cpx, bound, reduced_cpx,
    guard)]. *)
Record RuntimeResult : Type := mkResult {
  cpx : Complexity;
  bound : Expression;
  reducedCpx : Complexity;
  res_guard : GuardList
}.

(** Modelled from the spec: the default-constructed result "defaults to
    unknown complexity"; its bound is taken to be 0. *)
Definition defaultResult : RuntimeResult := mkResult Unknown (Num 0) Unknown [].

(** ** The rule store *)

(** Modelled from the spec: a rule [(lhs_loc, guard, cost, rhs)] whose
    right-hand side is a sequence of [(rhs_loc, update)]; it is linear when
    there is one. *)
Record RuleRhs : Type := mkRhs {
  rhs_loc : LocationIdx;
  rhs_update : UpdateMap
}.

Record Rule : Type := mkRule {
  lhsLoc : LocationIdx;
  guard : GuardList;
  cost : Expression;
  rhss : list RuleRhs
}.

(** Modelled from the spec: [Rule::dummyRule], "a trivially-true zero-cost
    rule". *)
Definition dummyRule (lhs rhs : LocationIdx) : Rule :=
  mkRule lhs [] (Num 0) [mkRhs rhs []].

Definition isLinearRule (r : Rule) : bool :=
  match rhss r with
  | [_] => true
  | _ => false
  end.

Definition rhsLocs (r : Rule) : list LocationIdx := map rhs_loc (rhss r).

Definition hasRhsLoc (loc : LocationIdx) (r : Rule) : bool :=
  existsb (Nat.eqb loc) (rhsLocs r).

(** Modelled from the spec: the rule store with the variable registry's
    set of temporaries.  Locations are kept in the order they were added;
    the rules are a map from their indices, which are handed out in
    ascending order and never reused. *)
Record ITSProblem : Type := mkITS {
  locations : list LocationIdx;
  rules : gmap TransIdx Rule;
  initialLocation : LocationIdx;
  nextTransIdx : TransIdx;
  temporaryVariables : list VariableIdx
}.

Module ITS.

Definition getInitialLocation (its : ITSProblem) : LocationIdx := initialLocation its.

Definition isInitialLocation (its : ITSProblem) (loc : LocationIdx) : bool :=
  Nat.eqb loc (initialLocation its).

Definition setInitialLocation (its : ITSProblem) (loc : LocationIdx) : ITSProblem :=
  mkITS (locations its) (rules its) loc (nextTransIdx its) (temporaryVariables its).

Definition getLocations (its : ITSProblem) : list LocationIdx := locations its.

(** A location that is not in the store yet is added and returned. *)
Definition addLocation (its : ITSProblem) : LocationIdx * ITSProblem :=
  let loc := S (list_max (locations its)) in
  (loc, mkITS (locations its ++ [loc]) (rules its) (initialLocation its)
              (nextTransIdx its) (temporaryVariables its)).

(** The rule gets the next index. *)
Definition addRule (its : ITSProblem) (rule : Rule) : TransIdx * ITSProblem :=
  let idx := nextTransIdx its in
  (idx, mkITS (locations its) (<[idx := rule]> (rules its)) (initialLocation its)
              (S idx) (temporaryVariables its)).

Definition removeRule (its : ITSProblem) (idx : TransIdx) : ITSProblem :=
  mkITS (locations its) (delete idx (rules its))
        (initialLocation its) (nextTransIdx its) (temporaryVariables its).

(** [getRuleMut(idx) = rule] *)
Definition setRule (its : ITSProblem) (idx : TransIdx) (rule : Rule) : ITSProblem :=
  mkITS (locations its) (<[idx := rule]> (rules its))
        (initialLocation its) (nextTransIdx its) (temporaryVariables its).

(** [None] for an index that is not in the store. *)
Definition getRule (its : ITSProblem) (idx : TransIdx) : option Rule :=
  rules its !! idx.

(** The rule with the given index, for a caller that reads its guard and
    cost only. *)
Definition getLinearRule (its : ITSProblem) (idx : TransIdx) : option Rule :=
  getRule its idx.

(** The indices of the store, ascending: the order of every iteration
    over rules. *)
Definition indices (its : ITSProblem) : list TransIdx :=
  merge_sort Nat.le (elements (dom (rules its))).

(** Whether the rule with index [idx] is in the store and satisfies [p]. *)
Definition ruleHas (its : ITSProblem) (p : Rule -> bool) (idx : TransIdx) : bool :=
  match getRule its idx with
  | Some r => p r
  | None => false
  end.

Definition isFrom (loc : LocationIdx) (r : Rule) : bool := Nat.eqb (lhsLoc r) loc.

Definition isFromTo (from to : LocationIdx) (r : Rule) : bool :=
  Nat.eqb (lhsLoc r) from && hasRhsLoc to r.

Definition getTransitionsFrom (its : ITSProblem) (loc : LocationIdx) : list TransIdx :=
  List.filter (ruleHas its (isFrom loc)) (indices its).

Definition getTransitionsFromTo (its : ITSProblem) (from to : LocationIdx) : list TransIdx :=
  List.filter (ruleHas its (isFromTo from to)) (indices its).

Definition hasTransitionsFrom (its : ITSProblem) (loc : LocationIdx) : bool :=
  existsb (ruleHas its (isFrom loc)) (indices its).

Definition hasTransitionsTo (its : ITSProblem) (loc : LocationIdx) : bool :=
  existsb (ruleHas its (hasRhsLoc loc)) (indices its).

(** Each successor once, in a fixed order. *)
Definition getSuccessorLocations (its : ITSProblem) (loc : LocationIdx) : list LocationIdx :=
  nodup Nat.eq_dec
    (flat_map (fun idx => match getRule its idx with
                          | Some r => if isFrom loc r then rhsLocs r else []
                          | None => []
                          end)
              (indices its)).

Definition isLinear (its : ITSProblem) : bool :=
  forallb (ruleHas its isLinearRule) (indices its).

Definition isEmpty (its : ITSProblem) : bool :=
  negb (hasTransitionsFrom its (initialLocation its)).

Definition isTempVar (its : ITSProblem) (v : VariableIdx) : bool :=
  existsb (Nat.eqb v) (temporaryVariables its).

(** The invariants of the store: every rule's locations exist, the initial
    location exists, and the indices in use lie below the next one. *)
Definition knownLocation (its : ITSProblem) (loc : LocationIdx) : bool :=
  existsb (Nat.eqb loc) (locations its).

Definition knownRule (its : ITSProblem) (r : Rule) : bool :=
  knownLocation its (lhsLoc r) && forallb (knownLocation its) (rhsLocs r).

Definition wf (its : ITSProblem) : bool :=
  forallb (fun idx => ruleHas its (knownRule its) idx && Nat.ltb idx (nextTransIdx its))
          (indices its)
  && knownLocation its (initialLocation its).

End ITS.

(** [cost.isInfSymbol()] and [cost.hasVariableWith(isTempVar)] *)
Definition isInfSymbol (e : Expression) : bool :=
  match e with
  | Sym SInf => true
  | _ => false
  end.

Definition hasVariableWith (p : VariableIdx -> bool) (e : Expression) : bool :=
  existsb p (VarMan.getVarIdxs e).

(** ** util/timeout: the clock *)

(** The answers the clock gives to the polls still to come; when a list is
    used up the time is over and every further poll is answered [true]. *)
Record Clock : Type := mkClock {
  softPolls : list bool;
  hardPolls : list bool;
  preprocessingPolls : list bool
}.

Module Timeout.

Definition soft (c : Clock) : bool * Clock :=
  match softPolls c with
  | [] => (true, c)
  | b :: rest => (b, mkClock rest (hardPolls c) (preprocessingPolls c))
  end.

Definition hard (c : Clock) : bool * Clock :=
  match hardPolls c with
  | [] => (true, c)
  | b :: rest => (b, mkClock (softPolls c) rest (preprocessingPolls c))
  end.

Definition preprocessing (c : Clock) : bool * Clock :=
  match preprocessingPolls c with
  | [] => (true, c)
  | b :: rest => (b, mkClock (softPolls c) (hardPolls c) rest)
  end.

End Timeout.

(** ** The collaborators of the driver *)

(** The answer of [AsymptoticBound::determineComplexity]. *)
Record AsymptoticResult : Type := mkAsymptotic {
  a_cpx : Complexity;
  a_reducedCpx : Complexity;
  a_cost : Expression
}.

(** Pruning, chaining, acceleration, rule simplification, the complexity
    estimate of the algebra library and the asymptotic prover are not part
    of the driver; each is a function of the store it is handed.  A field
    [Ns_f] stands for the function [Ns::f] of the source. *)
Record Collaborators : Type := mkCollaborators {
  getComplexity : Expression -> Complexity;
  AsymptoticBound_determineComplexity : ITSProblem -> GuardList -> Expression -> bool -> AsymptoticResult;
  Chaining_chainRules : ITSProblem -> Rule -> Rule -> option Rule;
  Pruning_removeUnsatInitialRules : ITSProblem -> bool * ITSProblem;
  Pruning_removeLeafsAndUnreachable : ITSProblem -> bool * ITSProblem;
  Pruning_removeSinkRhss : ITSProblem -> bool * ITSProblem;
  Pruning_removeDuplicateRules : ITSProblem -> list TransIdx -> bool -> bool * ITSProblem;
  Pruning_pruneParallelRules : ITSProblem -> bool * ITSProblem;
  Preprocess_tryToRemoveCost : GuardList -> bool * GuardList;
  Preprocess_simplifyRule : ITSProblem -> Rule -> bool * Rule;
  Accelerator_accelerateSimpleLoops :
    ITSProblem -> LocationIdx -> list TransIdx -> bool * ITSProblem * list TransIdx;
  Chaining_chainAcceleratedRules : ITSProblem -> list TransIdx -> bool -> bool * ITSProblem;
  Chaining_chainLinearPaths : ITSProblem -> bool * ITSProblem;
  Chaining_chainTreePaths : ITSProblem -> bool * ITSProblem;
  Chaining_eliminateALocation : ITSProblem -> bool * ITSProblem
}.

(** [AnalysisSettings], and the two macros of the build. *)
Record AnalysisSettings : Type := mkSettings {
  doPreprocessing : bool;
  eliminateCostConstraints : bool;
  FINAL_INFINITY_CHECK : bool;
  PRUNING_ENABLE : bool
}.

(** ** analysis/analysis.cpp *)
Module Analysis.

(** What the driver writes to the proof output while it computes the
    complexity, and its calls of the asymptotic prover. *)
Inductive Event : Type :=
| Skipping (rule : TransIdx)
| Computing (rule : TransIdx)
| ProverCall (rule : TransIdx) (g : GuardList) (c : Expression)
| FoundNew (c : Complexity)
| Unsound.

(** The state of the complexity computation: the best result so far, the
    clock and the output. *)
Record Scan : Type := mkScan {
  best : RuntimeResult;
  clock : Clock;
  output : list Event
}.

(** [container.empty()] *)
Definition emptyList {A : Type} (l : list A) : bool :=
  match l with
  | [] => true
  | _ => false
  end.

Section WithCollaborators.

Variable ext : Collaborators.
Variable cfg : AnalysisSettings.

(** *** Preprocessing *)

Definition ensureProperInitialLocation (its : ITSProblem) : bool * ITSProblem :=
  if ITS.hasTransitionsTo its (ITS.getInitialLocation its) then
    let '(newStart, its1) := ITS.addLocation its in
    let '(_, its2) := ITS.addRule its1 (dummyRule newStart (ITS.getInitialLocation its1)) in
    (true, ITS.setInitialLocation its2 newStart)
  else (false, its).

(** The inner loop of the first part of [preprocessRules]; the flag in the
    result tells that [Timeout::preprocessing()] fired.  [None]: an index
    that is not in the store. *)
Fixpoint simplifyRules (idxs : list TransIdx) (its : ITSProblem) (clk : Clock)
    (changed : bool) : option (bool * ITSProblem * Clock * bool) :=
  match idxs with
  | [] => Some (changed, its, clk, false)
  | idx :: rest =>
    let '(t, clk) := Timeout.preprocessing clk in
    if t then Some (changed, its, clk, true)
    else match ITS.getRule its idx with
         | None => None
         | Some rule =>
           let '(changed, rule) :=
             if eliminateCostConstraints cfg
             then let '(c, g) := Preprocess_tryToRemoveCost ext (guard rule) in
                  (c || changed, mkRule (lhsLoc rule) g (cost rule) (rhss rule))
             else (changed, rule) in
           let '(c, rule) := Preprocess_simplifyRule ext its rule in
           simplifyRules rest (ITS.setRule its idx rule) clk (c || changed)
         end
  end.

Fixpoint simplifyLocations (nodes : list LocationIdx) (its : ITSProblem) (clk : Clock)
    (changed : bool) : option (bool * ITSProblem * Clock * bool) :=
  match nodes with
  | [] => Some (changed, its, clk, false)
  | node :: rest =>
    match simplifyRules (ITS.getTransitionsFrom its node) its clk changed with
    | None => None
    | Some (changed, its, clk, true) => Some (changed, its, clk, true)
    | Some (changed, its, clk, false) => simplifyLocations rest its clk changed
    end
  end.

Fixpoint removeDuplicatesTo (node : LocationIdx) (succs : list LocationIdx)
    (its : ITSProblem) (clk : Clock) (changed : bool) : bool * ITSProblem * Clock * bool :=
  match succs with
  | [] => (changed, its, clk, false)
  | succ :: rest =>
    let '(t, clk) := Timeout.preprocessing clk in
    if t then (changed, its, clk, true)
    else let '(c, its) :=
           Pruning_removeDuplicateRules ext its (ITS.getTransitionsFromTo its node succ) true in
         removeDuplicatesTo node rest its clk (c || changed)
  end.

Fixpoint removeDuplicatesAt (nodes : list LocationIdx) (its : ITSProblem) (clk : Clock)
    (changed : bool) : bool * ITSProblem * Clock :=
  match nodes with
  | [] => (changed, its, clk)
  | node :: rest =>
    match removeDuplicatesTo node (ITS.getSuccessorLocations its node) its clk changed with
    | (changed, its, clk, true) => (changed, its, clk)
    | (changed, its, clk, false) => removeDuplicatesAt rest its clk changed
    end
  end.

Definition preprocessRules (its : ITSProblem) (clk : Clock)
    : option (bool * ITSProblem * Clock) :=
  let '(changed, its) := Pruning_removeLeafsAndUnreachable ext its in
  match simplifyLocations (ITS.getLocations its) its clk changed with
  | None => None
  | Some (changed, its, clk, true) => Some (changed, its, clk)
  | Some (changed, its, clk, false) =>
    Some (removeDuplicatesAt (ITS.getLocations its) its clk changed)
  end.

Definition isFullySimplified (its : ITSProblem) : bool :=
  forallb (fun node => ITS.isInitialLocation its node || negb (ITS.hasTransitionsFrom its node))
          (ITS.getLocations its).

(** *** Acceleration and chaining *)

Definition chainLinearPaths (its : ITSProblem) : bool * ITSProblem :=
  Chaining_chainLinearPaths ext its.

Definition chainTreePaths (its : ITSProblem) : bool * ITSProblem :=
  Chaining_chainTreePaths ext its.

Definition eliminateALocation (its : ITSProblem) : bool * ITSProblem :=
  Chaining_eliminateALocation ext its.

Definition chainAcceleratedLoops (its : ITSProblem) (acceleratedRules : list TransIdx)
    : bool * ITSProblem :=
  Chaining_chainAcceleratedRules ext its acceleratedRules false.

(** The loop of [accelerateSimpleLoops] over the locations. *)
Fixpoint accelerateAt (nodes : list LocationIdx) (its : ITSProblem) (clk : Clock)
    (acceleratedRules : list TransIdx) (res : bool)
    : bool * ITSProblem * Clock * list TransIdx :=
  match nodes with
  | [] => (res, its, clk, acceleratedRules)
  | node :: rest =>
    let '(r, its, acceleratedRules) :=
      Accelerator_accelerateSimpleLoops ext its node acceleratedRules in
    let res := r || res in
    let '(t, clk) := Timeout.soft clk in
    if t then (res, its, clk, acceleratedRules)
    else accelerateAt rest its clk acceleratedRules res
  end.

Definition accelerateSimpleLoops (its : ITSProblem) (clk : Clock)
    (acceleratedRules : list TransIdx) : bool * ITSProblem * Clock * list TransIdx :=
  accelerateAt (ITS.getLocations its) its clk acceleratedRules false.

Definition pruneRules (its : ITSProblem) : bool * ITSProblem :=
  let '(changed, its) := Pruning_removeLeafsAndUnreachable ext its in
  if PRUNING_ENABLE cfg
  then let '(c, its) := Pruning_pruneParallelRules ext its in (c || changed, its)
  else (changed, its).

(** *** Complexity computation *)

(** The loop of [getMaxComplexity]. *)
Fixpoint getMaxComplexity (its : ITSProblem) (rules : list TransIdx) (res : RuntimeResult)
    : option RuntimeResult :=
  match rules with
  | [] => Some res
  | rule :: rest =>
    match ITS.getRule its rule with
    | None => None
    | Some r =>
      let cpxRule := getComplexity ext (cost r) in
      if Cpx.gtb cpxRule (cpx res)
      then getMaxComplexity its rest (mkResult cpxRule (cost r) (reducedCpx res) (guard r))
      else getMaxComplexity its rest res
    end
  end.

Definition hasTempVar (its : ITSProblem) (cost : Expression) : bool :=
  negb (isInfSymbol cost) && hasVariableWith (ITS.isTempVar its) cost.

(** What both scans do once a rule is not skipped: the prover is called,
    and its answer replaces the best result if its class is greater.  The
    flag tells that the scan is over: the class is [Infty], or the hard
    timeout fired after the rule. *)
Definition checkRule (its : ITSProblem) (idx : TransIdx) (rule : Rule) (st : Scan)
    : Scan * bool :=
  let checkRes := AsymptoticBound_determineComplexity ext its (guard rule) (cost rule) true in
  let out := output st ++ [Computing idx; ProverCall idx (guard rule) (cost rule)] in
  if Cpx.gtb (a_cpx checkRes) (cpx (best st)) then
    let res := mkResult (a_cpx checkRes) (a_cost checkRes) (a_reducedCpx checkRes)
                        (guard rule) in
    let out := out ++ [FoundNew (a_cpx checkRes)] in
    if Cpx.geb (cpx res) Infty then (mkScan res (clock st) out, true)
    else let '(t, clk) := Timeout.hard (clock st) in (mkScan res clk out, t)
  else
    let '(t, clk) := Timeout.hard (clock st) in (mkScan (best st) clk out, t).

(** The body of the [for] of [getMaxRuntime]. *)
Definition visitRule (its : ITSProblem) (ruleIdx : TransIdx) (st : Scan)
    : option (Scan * bool) :=
  match ITS.getRule its ruleIdx with
  | None => None
  | Some rule =>
    let cpxUpperbound := getComplexity ext (cost rule) in
    if Cpx.leb cpxUpperbound (cpx (best st)) && negb (hasTempVar its (cost rule))
    then Some (mkScan (best st) (clock st) (output st ++ [Skipping ruleIdx]), false)
    else Some (checkRule its ruleIdx rule st)
  end.

Fixpoint scanRules (its : ITSProblem) (rules : list TransIdx) (st : Scan)
    : option (Scan * bool) :=
  match rules with
  | [] => Some (st, false)
  | ruleIdx :: rest =>
    match visitRule its ruleIdx st with
    | None => None
    | Some (st, true) => Some (st, true)
    | Some (st, false) => scanRules its rest st
    end
  end.

Definition getMaxRuntime (its : ITSProblem) (clk : Clock) : option Scan :=
  let rules := ITS.getTransitionsFrom its (ITS.getInitialLocation its) in
  if negb (FINAL_INFINITY_CHECK cfg) then
    match getMaxComplexity its rules defaultResult with
    | None => None
    | Some res => Some (mkScan res clk [Unsound])
    end
  else
    match scanRules its rules (mkScan defaultResult clk []) with
    | None => None
    | Some (st, _) => Some st
    end.

(** *** Complexity after a timeout *)

(** The inner [for] of [removeConstantPathsImpl]: the rules of constant or
    unknown cost among [rules] are removed. *)
Fixpoint removeConstantRules (rules : list TransIdx) (its : ITSProblem)
    : option ITSProblem :=
  match rules with
  | [] => Some its
  | rule :: rest =>
    match ITS.getRule its rule with
    | None => None
    | Some r =>
      if Cpx.leb (getComplexity ext (cost r)) Const
      then removeConstantRules rest (ITS.removeRule its rule)
      else removeConstantRules rest its
    end
  end.

(** The [for (LocationIdx next : its.getSuccessorLocations(curr))] of
    [removeConstantPathsImpl] and its [return]; [impl] is the function
    itself, for the recursive call. *)
Fixpoint visitSuccessors
    (impl : ITSProblem -> Clock -> LocationIdx -> gset LocationIdx ->
            option (bool * ITSProblem * Clock * gset LocationIdx))
    (curr : LocationIdx) (succs : list LocationIdx) (its : ITSProblem) (clk : Clock)
    (visited : gset LocationIdx)
    : option (bool * ITSProblem * Clock * gset LocationIdx) :=
  match succs with
  | [] => Some (emptyList (ITS.getTransitionsFrom its curr), its, clk, visited)
  | next :: rest =>
    let '(t, clk) := Timeout.hard clk in
    if t then Some (false, its, clk, visited)
    else match impl its clk next visited with
         | None => None
         | Some (true, its, clk, visited) =>
           match removeConstantRules (ITS.getTransitionsFromTo its curr next) its with
           | None => None
           | Some its => visitSuccessors impl curr rest its clk visited
           end
         | Some (false, its, clk, visited) => visitSuccessors impl curr rest its clk visited
         end
  end.

(** [removeConstantPathsImpl]; the recursion is bounded by [fuel], and
    [None] is the end of the fuel or an index that is not in the store. *)
Fixpoint removeConstantPathsImpl (fuel : nat) (its : ITSProblem) (clk : Clock)
    (curr : LocationIdx) (visited : gset LocationIdx)
    : option (bool * ITSProblem * Clock * gset LocationIdx) :=
  match fuel with
  | O => None
  | S fuel =>
    if bool_decide (curr ∈ visited) then Some (true, its, clk, visited)
    else visitSuccessors (removeConstantPathsImpl fuel) curr
           (ITS.getSuccessorLocations its curr) its clk ({[curr]} ∪ visited)
  end.

Definition removeConstantPathsAfterTimeout (fuel : nat) (its : ITSProblem) (clk : Clock)
    : option (ITSProblem * Clock) :=
  match removeConstantPathsImpl fuel its clk (ITS.getInitialLocation its) ∅ with
  | None => None
  | Some (_, its, clk, _) => Some (its, clk)
  end.

(** How a phase of [getMaxPartialResult] ends: it falls through, or jumps
    to [done], or to [abort]. *)
Inductive Exit : Type := Through | Done | Abort.

(** The body of the first [for] of [getMaxPartialResult]. *)
Definition visitRulePartial (its : ITSProblem) (trans : TransIdx) (st : Scan)
    : option (Scan * Exit) :=
  match ITS.getLinearRule its trans with
  | None => None
  | Some rule =>
    if Cpx.leb (getComplexity ext (cost rule)) (Cpx.max (cpx (best st)) Const)
       && negb (hasTempVar its (cost rule))
    then Some (st, Through)
    else
      let checkRes := AsymptoticBound_determineComplexity ext its (guard rule) (cost rule) true in
      let out := output st ++ [Computing trans; ProverCall trans (guard rule) (cost rule)] in
      if Cpx.gtb (a_cpx checkRes) (cpx (best st)) then
        let res := mkResult (a_cpx checkRes) (a_cost checkRes) (a_reducedCpx checkRes)
                            (guard rule) in
        let out := out ++ [FoundNew (a_cpx checkRes)] in
        if Cpx.geb (cpx res) Infty then Some (mkScan res (clock st) out, Done)
        else let '(t, clk) := Timeout.hard (clock st) in
             Some (mkScan res clk out, if t then Abort else Through)
      else
        let '(t, clk) := Timeout.hard (clock st) in
        Some (mkScan (best st) clk out, if t then Abort else Through)
  end.

Fixpoint scanRulesPartial (its : ITSProblem) (rules : list TransIdx) (st : Scan)
    : option (Scan * Exit) :=
  match rules with
  | [] => Some (st, Through)
  | trans :: rest =>
    match visitRulePartial its trans st with
    | None => None
    | Some (st, Through) => scanRulesPartial its rest st
    | Some (st, e) => Some (st, e)
    end
  end.

(** [for (TransIdx second : its.getTransitionsFrom(succ))] *)
Fixpoint chainWithSeconds (first : TransIdx) (seconds : list TransIdx)
    (its : ITSProblem) (clk : Clock) : option (ITSProblem * Clock * Exit) :=
  match seconds with
  | [] => Some (its, clk, Through)
  | second :: rest =>
    match ITS.getRule its first, ITS.getRule its second with
    | Some r1, Some r2 =>
      let its := match Chaining_chainRules ext its r1 r2 with
                 | Some chained => snd (ITS.addRule its chained)
                 | None => its
                 end in
      let '(t, clk) := Timeout.hard clk in
      if t then Some (its, clk, Abort)
      else chainWithSeconds first rest its clk
    | _, _ => None
    end
  end.

(** [for (TransIdx first : its.getTransitionsFromTo(initial,succ))] *)
Fixpoint chainFirsts (succ : LocationIdx) (firsts : list TransIdx)
    (its : ITSProblem) (clk : Clock) : option (ITSProblem * Clock * Exit) :=
  match firsts with
  | [] => Some (its, clk, Through)
  | first :: rest =>
    match chainWithSeconds first (ITS.getTransitionsFrom its succ) its clk with
    | None => None
    | Some (its, clk, Through) => chainFirsts succ rest (ITS.removeRule its first) clk
    | Some (its, clk, e) => Some (its, clk, e)
    end
  end.

(** [for (LocationIdx succ : succs)] *)
Fixpoint chainSuccessors (initial : LocationIdx) (succs : list LocationIdx)
    (its : ITSProblem) (clk : Clock) : option (ITSProblem * Clock * Exit) :=
  match succs with
  | [] => Some (its, clk, Through)
  | succ :: rest =>
    match chainFirsts succ (ITS.getTransitionsFromTo its initial succ) its clk with
    | None => None
    | Some (its, clk, Through) => chainSuccessors initial rest its clk
    | Some (its, clk, e) => Some (its, clk, e)
    end
  end.

(** The [while (true)] of [getMaxPartialResult]; the result is the best
    result with the clock and the output, and the store as it is left. *)
Fixpoint partialLoop (fuel : nat) (initial : LocationIdx) (its : ITSProblem) (st : Scan)
    : option (Scan * ITSProblem) :=
  match fuel with
  | O => None
  | S fuel =>
    let '(t, clk) := Timeout.hard (clock st) in
    let st := mkScan (best st) clk (output st) in
    if t then Some (st, its)
    else
      match scanRulesPartial its (ITS.getTransitionsFrom its initial) st with
      | None => None
      | Some (st, Through) =>
        let succs := ITS.getSuccessorLocations its initial in
        if emptyList succs then Some (st, its)
        else
          match chainSuccessors initial succs its (clock st) with
          | None => None
          | Some (its, clk, Through) =>
            partialLoop fuel initial its (mkScan (best st) clk (output st))
          | Some (its, clk, _) => Some (mkScan (best st) clk (output st), its)
          end
      | Some (st, _) => Some (st, its)
      end
  end.

Definition getMaxPartialResult (fuel : nat) (its : ITSProblem) (clk : Clock)
    : option (Scan * ITSProblem) :=
  partialLoop fuel (ITS.getInitialLocation its) its (mkScan defaultResult clk []).

(** *** The main algorithm *)

(** The body of [do { ... } while (changed)] in [run]: the flag [changed],
    the store, the clock, [acceleratedOnce], [nonlinearProblem], and whether
    a soft timeout left the loop. *)
Definition simplifyRound (its : ITSProblem) (clk : Clock)
    (acceleratedOnce nonlinearProblem : bool)
    : bool * ITSProblem * Clock * bool * bool * bool :=
  let '(changed, its) :=
    if nonlinearProblem
    then let '(c, its) := Pruning_removeSinkRhss ext its in (c, its)
    else (false, its) in
  let '(t, clk) := Timeout.soft clk in
  if t then (changed, its, clk, acceleratedOnce, nonlinearProblem, true) else
  let '(r, its, clk, acceleratedRules) := accelerateSimpleLoops its clk [] in
  let changed := r || changed in
  let acceleratedOnce := r || acceleratedOnce in
  let '(t, clk) := Timeout.soft clk in
  if t then (changed, its, clk, acceleratedOnce, nonlinearProblem, true) else
  let '(r, its) := chainAcceleratedLoops its acceleratedRules in
  let changed := r || changed in
  let '(t, clk) := Timeout.soft clk in
  if t then (changed, its, clk, acceleratedOnce, nonlinearProblem, true) else
  let '(r, its) := Pruning_removeLeafsAndUnreachable ext its in
  let changed := r || changed in
  let '(t, clk) := Timeout.soft clk in
  if t then (changed, its, clk, acceleratedOnce, nonlinearProblem, true) else
  let '(r, its) := chainLinearPaths its in
  let changed := r || changed in
  let '(t, clk) := Timeout.soft clk in
  if t then (changed, its, clk, acceleratedOnce, nonlinearProblem, true) else
  let nonlinearProblem :=
    if changed && nonlinearProblem then negb (ITS.isLinear its) else nonlinearProblem in
  (changed, its, clk, acceleratedOnce, nonlinearProblem, false).

(** [do { ... } while (changed)] *)
Fixpoint simplifyLoop (fuel : nat) (its : ITSProblem) (clk : Clock)
    (acceleratedOnce nonlinearProblem : bool)
    : option (ITSProblem * Clock * bool * bool) :=
  match fuel with
  | O => None
  | S fuel =>
    match simplifyRound its clk acceleratedOnce nonlinearProblem with
    | (changed, its, clk, acceleratedOnce, nonlinearProblem, broke) =>
      if broke then Some (its, clk, acceleratedOnce, nonlinearProblem)
      else if changed then simplifyLoop fuel its clk acceleratedOnce nonlinearProblem
      else Some (its, clk, acceleratedOnce, nonlinearProblem)
    end
  end.

(** [while (!isFullySimplified()) { ... }] *)
Fixpoint mainLoop (fuel : nat) (its : ITSProblem) (clk : Clock)
    (acceleratedOnce nonlinearProblem : bool) : option (ITSProblem * Clock) :=
  match fuel with
  | O => None
  | S fuel' =>
    if isFullySimplified its then Some (its, clk)
    else
      match simplifyLoop fuel its clk acceleratedOnce nonlinearProblem with
      | None => None
      | Some (its, clk, acceleratedOnce, nonlinearProblem) =>
        if isFullySimplified its then Some (its, clk)
        else
          let its :=
            let '(r, its) := chainTreePaths its in
            if r then its else snd (eliminateALocation its) in
          let '(t, clk) := Timeout.soft clk in
          if t then Some (its, clk) else
          let its := if acceleratedOnce then snd (pruneRules its) else its in
          let '(t, clk) := Timeout.soft clk in
          if t then Some (its, clk)
          else mainLoop fuel' its clk acceleratedOnce nonlinearProblem
      end
  end.

(** The last lines of [run]: a result of unknown complexity becomes
    [O(1)] with bound 1. *)
Definition constantIfUnknown (runtime : RuntimeResult) : RuntimeResult :=
  if Cpx.eqb (cpx runtime) Unknown
  then mkResult Const (Num 1) (reducedCpx runtime) []
  else runtime.

(** [run()]: the result, with the store, the clock and the output as they
    are left. *)
Definition run (fuel : nat) (its : ITSProblem) (clk : Clock)
    : option (RuntimeResult * ITSProblem * Clock * list Event) :=
  let '(_, its) := ensureProperInitialLocation its in
  let '(_, its) := Pruning_removeUnsatInitialRules ext its in
  let runtime := defaultResult in
  let acceleratedOnce := false in
  let nonlinearProblem := negb (ITS.isLinear its) in
  if ITS.isEmpty its then Some (runtime, its, clk, [])
  else
    match (if doPreprocessing cfg
           then match preprocessRules its clk with
                | None => None
                | Some (_, its, clk) => Some (its, clk)
                end
           else Some (its, clk)) with
    | None => None
    | Some (its, clk) =>
      match mainLoop fuel its clk acceleratedOnce nonlinearProblem with
      | None => None
      | Some (its, clk) =>
        let '(_, clk) := Timeout.soft clk in
        let its :=
          if isFullySimplified its
          then snd (Pruning_removeDuplicateRules ext its
                      (ITS.getTransitionsFrom its (ITS.getInitialLocation its)) false)
          else its in
        if negb (isFullySimplified its) then
          match removeConstantPathsAfterTimeout fuel its clk with
          | None => None
          | Some (its, clk) =>
            match getMaxPartialResult fuel its clk with
            | None => None
            | Some (st, its) =>
              Some (constantIfUnknown (best st), its, clock st, output st)
            end
          end
        else
          match getMaxRuntime its clk with
          | None => None
          | Some st => Some (constantIfUnknown (best st), its, clock st, output st)
          end
      end
    end.

End WithCollaborators.

End Analysis.

(** ** itrs/itrs.cpp, continued: the members that work on terms *)
Module ITRSParser.
Import ITRS.

(** [getGinacSymbol(vi)]: the symbol that [addVariable] made for [vi]. *)
Definition getGinacSymbol (vi : VariableIndex) : Symbol := SVar vi.

(** The members that the parser of a rule works on: the problem, the
    substitution [symbolSubs] and the set [boundSymbols]. *)
Record RuleParser : Type := mkRuleParser {
  rp_problem : Problem;
  symbolSubs : exmap;
  boundSymbols : list Symbol
}.

(** [boundSymbols.count(sym)] is not 0. *)
Definition isBound (st : RuleParser) (sym : Symbol) : bool :=
  existsb (Symbol_eqb sym) (boundSymbols st).

(** [replaceUnboundedWithFresh(checkSymbols)]: the loop over the symbols
    of the set, given in its order; [added] is the flag of the same name. *)
Fixpoint replaceUnboundedWithFresh (fuel : nat) (checkSymbols : list Symbol)
    (st : RuleParser) (added : bool) : option (bool * RuleParser) :=
  match checkSymbols with
  | [] => Some (added, st)
  | sym :: rest =>
    if isBound st sym then replaceUnboundedWithFresh fuel rest st added
    else
      match addFreshVariable fuel (rp_problem st) "free" false with
      | None => None
      | Some (vFree, p) =>
        let p := mkProblem (vars p) (varMap p) (varSymbols p) ({[vFree]} ∪ freeVars p)
                           (functionSymbols p) (functionSymbolVars p) in
        let freeSym := getGinacSymbol vFree in
        replaceUnboundedWithFresh fuel rest
          (mkRuleParser p (exmap_set (symbolSubs st) sym (Sym freeSym))
                        (freeSym :: boundSymbols st))
          true
      end
  end.

End ITRSParser.

(** ** Specification-level definitions *)

(** What the escaping does to one character, in the words of the
    specification: [I] becomes [Q], any other character that is not
    alphanumeric becomes [_], the rest is kept. *)
Definition replacedChar (c : ascii) : ascii :=
  if Ascii.eqb c "I" then "Q"%char
  else if ITRS.isalnum c then c
  else "_"%char.

(** The cost mentions a temporary variable. *)
Definition mentionsTemp (its : ITSProblem) (c : Expression) : Prop :=
  exists v, In (SVar v) (symbolsOf c) /\ In v (temporaryVariables its).

(** *** Notions used to state the theorems about [removeConstantPaths] *)

Definition constantCost (ext : Collaborators) (r : Rule) : bool :=
  Cpx.leb (getComplexity ext (cost r)) Const.

Definition subStore (its' its : ITSProblem) : Prop :=
  (forall idx r, ITS.getRule its' idx = Some r -> ITS.getRule its idx = Some r)
  /\ locations its' = locations its
  /\ initialLocation its' = initialLocation its
  /\ nextTransIdx its' = nextTransIdx its
  /\ temporaryVariables its' = temporaryVariables its.

(** The locations that rules lead to. *)
Definition targets (its : ITSProblem) : gset LocationIdx :=
  list_to_set (flat_map (fun idx => match ITS.getRule its idx with
                                    | Some r => rhsLocs r
                                    | None => []
                                    end) (ITS.indices its)).

Inductive Reach (its : ITSProblem) (V : gset LocationIdx) : LocationIdx -> LocationIdx -> Prop :=
| Reach_refl (a : LocationIdx) : a ∉ V -> Reach its V a a
| Reach_step (a m n : LocationIdx) (idx : TransIdx) (r : Rule) :
    Reach its V a m -> ITS.getRule its idx = Some r -> lhsLoc r = m ->
    In n (rhsLocs r) -> n ∉ V -> Reach its V a n.

Record CallSpec (ext : Collaborators) (its : ITSProblem) (V : gset LocationIdx)
    (curr : LocationIdx) (b : bool) (its' : ITSProblem) (V' : gset LocationIdx) : Prop := {
  cs_sub : subStore its' its;
  cs_mono : V ⊆ V';
  cs_curr : curr ∈ V';
  cs_removed : forall idx r,
    ITS.getRule its idx = Some r -> ITS.getRule its' idx = None ->
    constantCost ext r = true /\ lhsLoc r ∈ V' /\ lhsLoc r ∉ V;
  cs_closed : ITS.isLinear its = true -> b = true -> curr ∉ V ->
    forall m, m ∈ V' -> m ∉ V ->
    forall idx r, ITS.getRule its idx = Some r -> lhsLoc r = m ->
      ITS.getRule its' idx = None /\ forall l, In l (rhsLocs r) -> l ∈ V';
  cs_seen : curr ∈ V -> b = true /\ its' = its /\ V' = V
}.

Record LoopInv (ext : Collaborators) (its0 : ITSProblem) (curr : LocationIdx)
    (V : gset LocationIdx) (done : list LocationIdx) (its_t : ITSProblem)
    (V_t : gset LocationIdx) : Prop := {
  li_sub : subStore its_t its0;
  li_mono : {[curr]} ∪ V ⊆ V_t;
  li_removed : forall idx r,
    ITS.getRule its0 idx = Some r -> ITS.getRule its_t idx = None ->
    constantCost ext r = true /\ lhsLoc r ∈ V_t /\ lhsLoc r ∉ V;
  li_from_curr : forall idx r,
    ITS.getRule its0 idx = Some r -> lhsLoc r = curr -> ITS.getRule its_t idx = None ->
    exists n, In n done /\ In n (rhsLocs r);
  li_progress : ITS.isLinear its0 = true ->
    (exists idx r n, ITS.getRule its_t idx = Some r /\ lhsLoc r = curr
                     /\ In n done /\ In n (rhsLocs r))
    \/ ((forall n, In n done -> n ∈ V_t)
        /\ (forall idx r n, ITS.getRule its0 idx = Some r -> lhsLoc r = curr ->
              In n done -> In n (rhsLocs r) -> ITS.getRule its_t idx = None)
        /\ (forall m, m ∈ V_t -> m ∉ {[curr]} ∪ V ->
            forall idx r, ITS.getRule its0 idx = Some r -> lhsLoc r = m ->
              ITS.getRule its_t idx = None /\ forall l, In l (rhsLocs r) -> l ∈ V_t))
}.

(** *** The calls that a traversal makes *)

(** A call of [removeConstantPathsImpl]: the fuel, the store and the clock
    it is given, the location [curr] and the set [visited]. *)
Record Call : Type := mkCall {
  c_fuel : nat;
  c_its : ITSProblem;
  c_clk : Clock;
  c_curr : LocationIdx;
  c_visited : gset LocationIdx
}.

(** What the call returns. *)
Definition answer (ext : Collaborators) (c : Call)
    : option (bool * ITSProblem * Clock * gset LocationIdx) :=
  Analysis.removeConstantPathsImpl ext (c_fuel c) (c_its c) (c_clk c) (c_curr c)
    (c_visited c).

(** The loop of a call at [curr], started with the store [its0], the clock
    [clk0] and the set [V0], has gone through the successors [done] without
    a hard timeout, and its store, clock and set are now [its_t], [clk_t]
    and [V_t].  For each successor the timeout was polled, the traversal
    [impl] was called, and after the answer [true] the rules of constant or
    unknown cost from [curr] to the successor were removed. *)
Inductive loopReaches (ext : Collaborators)
    (impl : ITSProblem -> Clock -> LocationIdx -> gset LocationIdx ->
            option (bool * ITSProblem * Clock * gset LocationIdx))
    (curr : LocationIdx) (its0 : ITSProblem) (clk0 : Clock) (V0 : gset LocationIdx)
    : list LocationIdx -> ITSProblem -> Clock -> gset LocationIdx -> Prop :=
| loop_start : loopReaches ext impl curr its0 clk0 V0 [] its0 clk0 V0
| loop_next (done : list LocationIdx) (next : LocationIdx)
    (its_t its_n its_x : ITSProblem) (clk_t clk1 clk_n : Clock)
    (V_t V_n : gset LocationIdx) (bn : bool) :
    loopReaches ext impl curr its0 clk0 V0 done its_t clk_t V_t ->
    Timeout.hard clk_t = (false, clk1) ->
    impl its_t clk1 next V_t = Some (bn, its_n, clk_n, V_n) ->
    (if bn
     then Analysis.removeConstantRules ext (ITS.getTransitionsFromTo its_n curr next) its_n
     else Some its_n) = Some its_x ->
    loopReaches ext impl curr its0 clk0 V0 (done ++ [next]) its_x clk_n V_n.

(** The loop of the call [c] calls the traversal [c'] of a successor. *)
Inductive callsDirectly (ext : Collaborators) : Call -> Call -> Prop :=
| calls_intro (f : nat) (its its_t : ITSProblem) (clk clk_t clk1 : Clock)
    (curr next : LocationIdx) (V V_t : gset LocationIdx)
    (done rest : list LocationIdx) :
    curr ∉ V ->
    ITS.getSuccessorLocations its curr = done ++ next :: rest ->
    loopReaches ext (Analysis.removeConstantPathsImpl ext f) curr
                its clk ({[curr]} ∪ V) done its_t clk_t V_t ->
    Timeout.hard clk_t = (false, clk1) ->
    callsDirectly ext (mkCall (S f) its clk curr V) (mkCall f its_t clk1 next V_t).

(** In the course of the call [c], the loop at the location [m] calls the
    traversal [c']: the loop of [c] itself, or the loop of a call made in
    the course of [c]. *)
Inductive madeWithin (ext : Collaborators) : Call -> LocationIdx -> Call -> Prop :=
| made_here (c c' : Call) : callsDirectly ext c c' -> madeWithin ext c (c_curr c) c'
| made_below (c c1 c' : Call) (m : LocationIdx) :
    callsDirectly ext c c1 -> madeWithin ext c1 m c' -> madeWithin ext c m c'.

(** *** The chaining level of [getMaxPartialResult], in the words of the
    specification: for every successor [s] of the initial location and
    every pair of a rule [first] from the initial location to [s] and a rule
    [second] leaving [s], the chain is added if there is one; then [first]
    is deleted. *)
Definition addChain (ext : Collaborators) (first : TransIdx) (its : ITSProblem)
    (second : TransIdx) : ITSProblem :=
  match ITS.getRule its first, ITS.getRule its second with
  | Some r1, Some r2 =>
    match Chaining_chainRules ext its r1 r2 with
    | Some chained => snd (ITS.addRule its chained)
    | None => its
    end
  | _, _ => its
  end.

Definition chainFirst (ext : Collaborators) (succ : LocationIdx) (its : ITSProblem)
    (first : TransIdx) : ITSProblem :=
  ITS.removeRule
    (fold_left (addChain ext first) (ITS.getTransitionsFrom its succ) its) first.

Definition chainInto (ext : Collaborators) (initial : LocationIdx) (its : ITSProblem)
    (succ : LocationIdx) : ITSProblem :=
  fold_left (chainFirst ext succ) (ITS.getTransitionsFromTo its initial succ) its.

Definition chainLevel (ext : Collaborators) (initial : LocationIdx) (its : ITSProblem)
    : ITSProblem :=
  fold_left (chainInto ext initial) (ITS.getSuccessorLocations its initial) its.

(** *** What the hard polls between two states of the clock answered *)

(** Every poll was answered [false]. *)
Definition quietTicks (c c' : Clock) : Prop :=
  softPolls c' = softPolls c
  /\ preprocessingPolls c' = preprocessingPolls c
  /\ exists n, hardPolls c = repeat false n ++ hardPolls c'.

(** The last poll was answered [true], the ones before it [false]. *)
Definition hardFired (c c' : Clock) : Prop :=
  softPolls c' = softPolls c
  /\ preprocessingPolls c' = preprocessingPolls c
  /\ exists n, hardPolls c = repeat false n ++ true :: hardPolls c'
               \/ (hardPolls c = repeat false n /\ hardPolls c' = []).

(** Why [getMaxPartialResult] returns: the best class is [Infty], or the
    initial location has no successors in the store that is left, in both
    cases with no hard timeout; or the hard timeout fired. *)
Definition StopReason (initial : LocationIdx) (clk : Clock) (st' : Analysis.Scan)
    (its' : ITSProblem) : Prop :=
  (cpx (Analysis.best st') = Infty /\ quietTicks clk (Analysis.clock st'))
  \/ (ITS.getSuccessorLocations its' initial = [] /\ quietTicks clk (Analysis.clock st'))
  \/ hardFired clk (Analysis.clock st').

(** *** The store as [run] has it once the initial location is proper and
    the unsatisfiable initial rules are removed *)
Definition groomed (ext : Collaborators) (its : ITSProblem) : ITSProblem :=
  snd (Pruning_removeUnsatInitialRules ext (snd (Analysis.ensureProperInitialLocation its))).

(** Inputs on which the recurrence engine is run in Part II. *)
Definition swapUpdate : UpdateMap := [(0, Sym (SVar 1)); (1, Sym (SVar 0))].

Definition decrementRule : LinearRule :=
  mkLinearRule 1 [mkRel OpGt (Sym (SVar 0)) (Num 0)] (Num 1) 1
    [(0, Add (Sym (SVar 0)) (Num (-1)))].

Definition constantFeedRule : LinearRule :=
  mkLinearRule 1 [] (Num 1) 1
    [(0, Num 5); (1, Add (Sym (SVar 1)) (Sym (SVar 0)))].

(** Collaborators on which the driver is run in Part II: a complexity
    estimate that reads [Const] for a cost without variables and [Poly 1]
    otherwise, a prover that agrees with it, a chainer that adds the costs,
    and transformations that leave the store as it is. *)
Definition sampleComplexity (e : Expression) : Complexity :=
  if isInfSymbol e then Infty
  else if Analysis.emptyList (VarMan.getVarIdxs e) then Const else Poly 1.

Definition sampleProver (its : ITSProblem) (g : GuardList) (c : Expression) (final : bool)
    : AsymptoticResult :=
  mkAsymptotic (sampleComplexity c) (sampleComplexity c) c.

Definition sampleChain (its : ITSProblem) (r1 r2 : Rule) : option Rule :=
  Some (mkRule (lhsLoc r1) (guard r1 ++ guard r2) (Add (cost r1) (cost r2)) (rhss r2)).

Definition idle (its : ITSProblem) : bool * ITSProblem := (false, its).

Definition sampleCollaborators : Collaborators :=
  mkCollaborators sampleComplexity sampleProver sampleChain
    idle idle idle (fun its _ _ => (false, its)) idle
    (fun g => (false, g)) (fun _ r => (false, r))
    (fun its _ acc => (false, its, acc)) (fun its _ _ => (false, its))
    idle idle idle.

Definition defaultSettings : AnalysisSettings := mkSettings true false true true.

(** A clock on which no timeout fires during the first twenty polls. *)
Definition quietClock : Clock :=
  mkClock (repeat false 20) (repeat false 20) (repeat false 20).

Definition linearRule (from to : LocationIdx) (c : Expression) : Rule :=
  mkRule from [] c [mkRhs to []].

(** Stores: no rule at all; one rule of cost 1 from the initial location;
    a self-loop at the initial location; and the rules [0 -> 1], [1 -> 2],
    [2 -> 1] of cost 1 with the rule [1 -> 3] of cost [x]. *)
Definition emptyStore : ITSProblem := mkITS [0] ∅ 0 0 [].

Definition oneRuleStore : ITSProblem :=
  mkITS [0; 1] (list_to_map [(0, linearRule 0 1 (Num 1))]) 0 1 [].

Definition selfLoopStore : ITSProblem :=
  mkITS [0] (list_to_map [(0, linearRule 0 0 (Num 1))]) 0 1 [].

Definition loopStore : ITSProblem :=
  mkITS [0; 1; 2; 3]
    (list_to_map [(0, linearRule 0 1 (Num 1)); (1, linearRule 1 2 (Num 1));
                  (2, linearRule 2 1 (Num 1)); (3, linearRule 1 3 (Sym (SVar 0)))])
    0 4 [].

(** ** Notions and inputs for the parser of the ITS format *)

(** A plain argument: not empty, no white space at its ends, no comma. *)
Definition plainArg (a : string) : Prop :=
  a <> EmptyString /\ ITRS.trim a = a /\ ITRS.string_find "," a 0 = None.

(** The names that [getFreshName] tries, in order. *)
Definition candidate (basename : string) (k : nat) : string :=
  match k with
  | O => basename
  | S _ => basename +:+ "_" +:+ pretty (Z.of_nat k)
  end.

(** The two maps of the variables agree. *)
Definition consistent (p : ITRS.Problem) : Prop :=
  forall name vi, ITRS.varMap p !! name = Some vi <-> ITRS.vars p !! vi = Some name.

(** Problems: no variable; the variables [x] and [y] of the function
    symbol [f]; the names [x] and [x_1] in use. *)
Definition emptyProblem : ITRS.Problem := ITRS.mkProblem [] ∅ [] ∅ [] ∅.

Definition sampleProblem : ITRS.Problem :=
  ITRS.mkProblem ["x"; "y"]%string (list_to_map [("x"%string, 0); ("y"%string, 1)])
                 [SVar 0; SVar 1] ∅
                 ["f"%string] (list_to_map [(0, [0; 1])]).

Definition crowdedProblem : ITRS.Problem :=
  ITRS.mkProblem ["x"; "x_1"]%string (list_to_map [("x"%string, 0); ("x_1"%string, 1)])
                 [SVar 0; SVar 1] ∅ [] ∅.

(** ** Notions for the recurrence engine *)

(** In [update] the right-hand side of [v] mentions the updated variable
    [w], which is not [v] itself. *)
Definition dependsOn (update : UpdateMap) (v w : VariableIdx) : Prop :=
  exists e, UpdateMap_at update v = Some e
            /\ In w (VarMan.getVarIdxs e) /\ In w (keys update) /\ w <> v.

(** Every variable of the ordering comes after the variables that it
    depends on. *)
Definition respectsDependencies (update : UpdateMap) (ordering : list VariableIdx) : Prop :=
  forall l1 v l2, ordering = l1 ++ v :: l2 -> forall w, dependsOn update v w -> In w l1.

(** The right-hand side [e] of [v] mentions no updated variable but [v]. *)
Definition selfContained (update : UpdateMap) (v : VariableIdx) (e : Expression) : Prop :=
  forall w, In w (VarMan.getVarIdxs e) -> In w (keys update) -> w = v.

(** What is assumed of the solver: a solution it returns for the initial
    condition [x(k) = init] has the value of [init] at [n = k]. *)
Definition respectsInitialCondition (purrs : Recurrence.Solver) : Prop :=
  forall rhs k init res,
    purrs rhs k init = Some res ->
    forall sigma : Valuation, sigma SRecN = Z.of_nat k -> eval sigma res = eval sigma init.

(** The rule with the update [x <- x + 2, y <- 7]. *)
Definition independentRule : LinearRule :=
  mkLinearRule 1 [] (Num 1) 1
    [(0, Add (Sym (SVar 0)) (Num 2)); (1, Num 7)].

(** An update whose dependencies form no cycle: [x <- y, y <- z + 1]. *)
Definition chainUpdate : UpdateMap :=
  [(0, Sym (SVar 1)); (1, Add (Sym (SVar 2)) (Num 1))].

(** ** Notions for the complexity computation *)

(** The settings of a build without the final asymptotic check. *)
Definition uncheckedSettings : AnalysisSettings := mkSettings true false false true.

(** The answer of the asymptotic prover for a rule. *)
Definition proverAnswer (ext : Collaborators) (its : ITSProblem) (rule : Rule)
    : AsymptoticResult :=
  AsymptoticBound_determineComplexity ext its (guard rule) (cost rule) true.

(** [rule] is a rule of the store that leaves the initial location. *)
Definition initialRule (its : ITSProblem) (idx : TransIdx) (rule : Rule) : Prop :=
  ITS.getRule its idx = Some rule /\ lhsLoc rule = ITS.getInitialLocation its.

(** The rules [0 -> 1] of cost 1, [0 -> 1] of cost [x] and [0 -> 1] of
    cost [x + 1], all from the initial location. *)
Definition parallelStore : ITSProblem :=
  mkITS [0; 1]
    (list_to_map [(0, linearRule 0 1 (Num 1)); (1, linearRule 0 1 (Sym (SVar 0)));
                  (2, linearRule 0 1 (Add (Sym (SVar 0)) (Num 1)))])
    0 3 [].

(** [getComplexity] is an upper bound of the class that the prover answers,
    for the rules leaving the initial location. *)
Definition upperBounded (ext : Collaborators) (its : ITSProblem) : Prop :=
  forall idx rule, initialRule its idx rule ->
    Cpx.leb (a_cpx (proverAnswer ext its rule)) (getComplexity ext (cost rule)) = true.

(** The hard timeout does not fire at the next [n] polls. *)
Definition hardQuiet (n : nat) (clk : Clock) : Prop :=
  exists rest, hardPolls clk = repeat false n ++ rest.

(** The result that the answer of the prover for [rule] gives. *)
Definition proverResult (ext : Collaborators) (its : ITSProblem) (rule : Rule)
    : RuntimeResult :=
  mkResult (a_cpx (proverAnswer ext its rule)) (a_cost (proverAnswer ext its rule))
           (a_reducedCpx (proverAnswer ext its rule)) (guard rule).

(** ** Notions for the preprocessing *)

(** The transformations that [preprocessRules] calls tell the truth: one
    that returns [false] has changed nothing. *)
Record honestFlags (ext : Collaborators) : Prop := {
  honest_removeLeafs : forall its,
    fst (Pruning_removeLeafsAndUnreachable ext its) = false ->
    snd (Pruning_removeLeafsAndUnreachable ext its) = its;
  honest_removeCost : forall g,
    fst (Preprocess_tryToRemoveCost ext g) = false ->
    snd (Preprocess_tryToRemoveCost ext g) = g;
  honest_simplifyRule : forall its rule,
    fst (Preprocess_simplifyRule ext its rule) = false ->
    snd (Preprocess_simplifyRule ext its rule) = rule;
  honest_removeDuplicates : forall its idxs compareRhss,
    fst (Pruning_removeDuplicateRules ext its idxs compareRhss) = false ->
    snd (Pruning_removeDuplicateRules ext its idxs compareRhss) = its
}.

(** The settings with the preprocessing switched off. *)
Definition plainSettings : AnalysisSettings := mkSettings false false true true.

(** ** Notions for the declaration of the variables *)

(** The registered name [n] comes from the declared name [w]: it is the
    escaped name, or the escaped name with a counter. *)
Definition registeredFor (w n : string) : Prop :=
  exists k, n = candidate (ITRS.escapeVarname w) k.

Definition emptyDeclarations : ITRS.Declarations :=
  ITRS.mkDeclarations emptyProblem ∅ ∅.

(** ** Notions for the free variables of a rule *)

(** The substitution of the parser leads to bound symbols only. *)
Definition boundedSubs (st : ITRSParser.RuleParser) : Prop :=
  forall s e, exmap_find (ITRSParser.symbolSubs st) s = Some e ->
    forall t, In t (symbolsOf e) -> In t (ITRSParser.boundSymbols st).

(** The symbol of a variable that the problem has. *)
Definition knownSymbol (p : ITRS.Problem) (s : Symbol) : Prop :=
  exists i, s = SVar i /\ i < length (ITRS.vars p).

(** The parser after the left-hand side [f(x)] of a rule over the
    variables [x] and [y]: [x] is bound, [y] is not. *)
Definition sampleParser : ITRSParser.RuleParser :=
  ITRSParser.mkRuleParser sampleProblem [] [SVar 0].

(* ===================================================================== *)
(** * Part II: the theorems                                               *)
(* ===================================================================== *)

(** ** Relations *)

Lemma holds_transformInequalityGreater (sigma : Valuation) (rel : Relational) :
  Relation.isInequality rel = true ->
  holds sigma (Relation.transformInequalityGreater rel) <-> holds sigma rel.
Proof.
  destruct rel as [op l r]; destruct op; cbn; intros H; try discriminate;
    unfold holds; cbn; lia.
Qed.

Lemma transformInequalityGreater_greater (rel : Relational) :
  Relation.isInequality rel = true ->
  rel_op (Relation.transformInequalityGreater rel) = OpGt.
Proof.
  destruct rel as [op l r]; destruct op; cbn; intros H; try discriminate; reflexivity.
Qed.

(** C10: for every inequality the result of [normalizeInequality] is a
    normalized inequality, that is [e > 0] with a strict greater-than and
    the right-hand side 0, and it holds in exactly the integer valuations in
    which the input holds; [a >= b] becomes [(a + 1) - b > 0] and [a <= b]
    becomes [(b + 1) - a > 0]. *)
Theorem normalizeInequality_correct (rel : Relational) :
  Relation.isInequality rel = true ->
  Relation.isNormalizedInequality (Relation.normalizeInequality rel) = true
  /\ rel_op (Relation.normalizeInequality rel) = OpGt
  /\ rhs (Relation.normalizeInequality rel) = Num 0
  /\ (forall sigma : Valuation,
        holds sigma (Relation.normalizeInequality rel) <-> holds sigma rel)
  /\ (rel_op rel = OpGe ->
        lhs (Relation.normalizeInequality rel)
        = Sub (Add (lhs rel) (Num 1)) (rhs rel))
  /\ (rel_op rel = OpLe ->
        lhs (Relation.normalizeInequality rel)
        = Sub (Add (rhs rel) (Num 1)) (lhs rel)).
Proof.
  intros Hineq. repeat split.
  - intros H. pose proof (proj1 (holds_transformInequalityGreater sigma rel Hineq)) as Ht.
    apply Ht. clear Ht.
    pose proof (transformInequalityGreater_greater rel Hineq) as Hop.
    unfold Relation.normalizeInequality, holds in *. cbn in H.
    rewrite Hop. lia.
  - intros H. apply (holds_transformInequalityGreater sigma rel Hineq) in H.
    pose proof (transformInequalityGreater_greater rel Hineq) as Hop.
    unfold Relation.normalizeInequality, holds in *. cbn.
    rewrite Hop in H. lia.
  - destruct rel as [op l r]; cbn; intros ->; reflexivity.
  - destruct rel as [op l r]; cbn; intros ->; reflexivity.
Qed.

(** The theorem at [x >= 3]. *)
Lemma normalizeInequality_correct_witness :
  Relation.isInequality (mkRel OpGe (Sym (SVar 0)) (Num 3)) = true
  /\ Relation.normalizeInequality (mkRel OpGe (Sym (SVar 0)) (Num 3))
     = mkRel OpGt (Sub (Add (Sym (SVar 0)) (Num 1)) (Num 3)) (Num 0)
  /\ Relation.isNormalizedInequality
       (Relation.normalizeInequality (mkRel OpGe (Sym (SVar 0)) (Num 3))) = true.
Proof.
  split; [reflexivity | split; [reflexivity | ]].
  exact (proj1 (normalizeInequality_correct (mkRel OpGe (Sym (SVar 0)) (Num 3)) eq_refl)).
Defined.

(** ** Escaping of variable names *)

Lemma escapeChar_replacedChar (c : ascii) : ITRS.escapeChar c = replacedChar c.
Proof.
  destruct c as [[] [] [] [] [] [] [] []]; reflexivity.
Qed.

Lemma escapeChar_safe (c : ascii) :
  (ITRS.isalnum (ITRS.escapeChar c) = true \/ ITRS.escapeChar c = "_"%char)
  /\ ITRS.escapeChar c <> "I"%char.
Proof.
  destruct c as [[] [] [] [] [] [] [] []]; vm_compute;
    (split; [ first [left; reflexivity | right; reflexivity] | discriminate ]).
Qed.

Lemma escapeLoop_length (name : string) :
  String.length (ITRS.escapeLoop name) = String.length name.
Proof.
  induction name as [|c rest IH]; cbn; [reflexivity | now rewrite IH].
Qed.

Lemma escapeLoop_get (name : string) (i : nat) :
  String.get i (ITRS.escapeLoop name) = option_map ITRS.escapeChar (String.get i name).
Proof.
  revert i; induction name as [|c rest IH]; intros i; cbn; [reflexivity |].
  destruct i; cbn; [reflexivity | apply IH].
Qed.

Lemma isalpha_isalnum (c : ascii) : ITRS.isalpha c = true -> ITRS.isalnum c = true.
Proof.
  unfold ITRS.isalnum. intros ->. reflexivity.
Qed.

(** C9: on a non-empty name the escaping rewrites every character in place
    ([I] to [Q], other non-alphanumeric characters to [_]) and prepends [q]
    exactly when the rewritten name does not start with a letter; the result
    starts with a letter, consists of alphanumeric characters and [_], and
    contains no [I]. *)
Theorem escapeVarname_spec (name : string) :
  name <> EmptyString ->
  String.length (ITRS.escapeLoop name) = String.length name
  /\ (forall (i : nat) (c : ascii), String.get i name = Some c ->
        String.get i (ITRS.escapeLoop name) = Some (replacedChar c))
  /\ ITRS.escapeVarname name
     = (if ITRS.isalpha (ITRS.front (ITRS.escapeLoop name))
        then ITRS.escapeLoop name
        else String "q" (ITRS.escapeLoop name))
  /\ ITRS.isalpha (ITRS.front (ITRS.escapeVarname name)) = true
  /\ (forall (i : nat) (c : ascii), String.get i (ITRS.escapeVarname name) = Some c ->
        (ITRS.isalnum c = true \/ c = "_"%char) /\ c <> "I"%char).
Proof.
  intros Hne. split; [apply escapeLoop_length |]. split.
  { intros i c Hget. rewrite escapeLoop_get, Hget. cbn.
    now rewrite escapeChar_replacedChar. }
  split.
  { unfold ITRS.escapeVarname. now destruct (ITRS.isalpha _). }
  assert (Hbody : forall (i : nat) (c : ascii),
             String.get i (ITRS.escapeLoop name) = Some c ->
             (ITRS.isalnum c = true \/ c = "_"%char) /\ c <> "I"%char).
  { intros i c Hget. rewrite escapeLoop_get in Hget.
    destruct (String.get i name) as [d|]; cbn in Hget; [|discriminate].
    injection Hget as <-. apply escapeChar_safe. }
  unfold ITRS.escapeVarname.
  destruct (ITRS.isalpha (ITRS.front (ITRS.escapeLoop name))) eqn:Halpha; cbn.
  - split; [exact Halpha | exact Hbody].
  - split; [reflexivity |].
    intros [|i] c Hget; cbn in Hget.
    + injection Hget as <-. split; [left; reflexivity | discriminate].
    + eapply Hbody; eassumption.
Qed.

(** The theorem at the name [9I'x]. *)
Lemma escapeVarname_spec_witness :
  ITRS.escapeVarname "9I'x" = "q9Q_x"%string
  /\ ITRS.isalpha (ITRS.front (ITRS.escapeVarname "9I'x")) = true.
Proof.
  split; [reflexivity |].
  assert (Hne : "9I'x"%string <> EmptyString) by discriminate.
  exact (proj1 (proj2 (proj2 (proj2 (escapeVarname_spec "9I'x" Hne))))).
Defined.

(** ** The recurrence engine *)
Module RecurrenceFacts.
Import Recurrence.

Lemma keysAscend_lt b update k :
  keysAscend (Some b) update = true -> In k (keys update) -> b < k.
Proof.
  revert b; induction update as [|[k' e] rest IH]; intros b; cbn; [tauto|].
  intros H [->|Hin].
  - apply andb_prop in H as [H _]. apply Nat.ltb_lt in H. exact H.
  - apply andb_prop in H as [H1 H2]. apply Nat.ltb_lt in H1.
    specialize (IH _ H2 Hin). lia.
Qed.

Lemma keysAscend_weaken b update :
  keysAscend (Some b) update = true -> keysAscend None update = true.
Proof.
  destruct update as [|[k e] rest]; cbn; [reflexivity|].
  intros H. apply andb_prop in H as [_ H]. exact H.
Qed.

Lemma UpdateMap_wf_NoDup update : UpdateMap_wf update = true -> List.NoDup (keys update).
Proof.
  unfold UpdateMap_wf. induction update as [|[k e] rest IH]; cbn; intros H.
  - apply List.NoDup_nil.
  - apply List.NoDup_cons.
    + intros Hin. pose proof (keysAscend_lt _ _ _ H Hin). lia.
    + apply IH. eapply keysAscend_weaken. exact H.
Qed.

Lemma UpdateMap_count_In update vi : UpdateMap_count update vi = true <-> In vi (keys update).
Proof.
  unfold UpdateMap_count. rewrite existsb_exists. split.
  - intros [x [Hin Heq]]. apply Nat.eqb_eq in Heq. now subst.
  - intros Hin. exists vi. split; [exact Hin | apply Nat.eqb_refl].
Qed.

Lemma keys_substituteAll sub update : keys (substituteAll sub update) = keys update.
Proof.
  unfold keys, substituteAll. rewrite map_map. reflexivity.
Qed.

Lemma length_substituteAll sub (update : UpdateMap) : length (substituteAll sub update) = length update.
Proof. unfold substituteAll. apply length_map. Qed.

(** *** The ordering pass *)

Lemma orderPass_changed_true update todo ordering oV :
  snd (orderPass update todo ordering oV true) = true.
Proof.
  revert ordering oV; induction todo as [|up rest IH]; intros; cbn; [reflexivity|].
  case_bool_decide; [apply IH|]. destruct (unresolved _ _ _); apply IH.
Qed.

Lemma orderPass_inv update todo ordering oV changed :
  PassInv update ordering oV ->
  (forall v, In v (keys todo) -> In v (keys update)) ->
  match orderPass update todo ordering oV changed with
  | (ordering', oV', changed') =>
    PassInv update ordering' oV'
    /\ length ordering <= length ordering'
    /\ (changed' = false -> ordering' = ordering /\ oV' = oV /\ changed = false)
    /\ (changed = false -> changed' = true -> length ordering < length ordering')
  end.
Proof.
  revert ordering oV changed; induction todo as [|up rest IH]; intros ordering oV changed Hinv Hsub; cbn.
  - split; [exact Hinv|]. split; [lia|]. split; [auto|]. intros ->. discriminate.
  - assert (Hsub' : forall v, In v (keys rest) -> In v (keys update)).
    { intros v Hv. apply Hsub. right. exact Hv. }
    case_bool_decide as Hmem; [apply IH; auto|].
    destruct (unresolved update oV up); [apply IH; auto|].
    assert (Hinv' : PassInv update (ordering ++ [fst up]) ({[fst up]} ∪ oV)).
    { destruct Hinv as [Hnd Hset Hkeys]. split.
      - apply List.NoDup_app; [exact Hnd | apply List.NoDup_cons; [intros [] | apply List.NoDup_nil] | ].
        intros x Hx; cbn. intros [<-|[]]. apply Hmem. apply Hset. exact Hx.
      - intros v. rewrite elem_of_union, elem_of_singleton, in_app_iff, Hset. cbn. intuition.
      - intros v Hv. apply in_app_iff in Hv as [Hv|[<-|[]]]; [auto|]. apply Hsub. now left. }
    specialize (IH (ordering ++ [fst up]) ({[fst up]} ∪ oV) true Hinv' Hsub').
    pose proof (orderPass_changed_true update rest (ordering ++ [fst up]) ({[fst up]} ∪ oV)) as Htrue.
    destruct (orderPass update rest (ordering ++ [fst up]) ({[fst up]} ∪ oV) true) as [[ordering' oV'] changed'].
    cbn in Htrue. subst changed'.
    destruct IH as (Hi & Hlen & _ & _). rewrite length_app in Hlen. cbn in Hlen.
    split; [exact Hi|]. split; [lia|]. split; [discriminate|]. intros; lia.
Qed.

Lemma orderPass_progress update todo ordering oV changed up :
  In up todo -> fst up ∉ oV -> unresolved update oV up = false ->
  snd (orderPass update todo ordering oV changed) = true.
Proof.
  revert ordering oV changed; induction todo as [|hd rest IH]; intros ordering oV changed Hin Hnot Hres; [destruct Hin|].
  cbn. destruct Hin as [->|Hin].
  - case_bool_decide; [contradiction|]. rewrite Hres. apply orderPass_changed_true.
  - case_bool_decide; [eapply IH; eauto|].
    destruct (unresolved update oV hd); [eapply IH; eauto|].
    apply orderPass_changed_true.
Qed.

(** *** Breaking a cycle *)

Lemma pickTarget_some todo oV t ag sb :
  pickTarget todo oV (Some (SVar t)) ag sb
  = (ag ++ cycleEqualities t (unorderedKeys todo oV),
     cycleSubs t (unorderedKeys todo oV) ++ sb).
Proof.
  revert ag sb; induction todo as [|up rest IH]; intros ag sb; cbn.
  - now rewrite app_nil_r.
  - unfold unorderedKeys; cbn. case_bool_decide; cbn; [apply IH|].
    rewrite IH. unfold VarMan.getGinacSymbol, exmap_set, cycleSubs. cbn.
    now rewrite <- !app_assoc.
Qed.

Lemma pickTarget_none update oV ag :
  pickTarget update oV None ag []
  = match unorderedKeys update oV with
    | [] => (ag, [])
    | t :: others => (ag ++ cycleEqualities t others, cycleSubs t others)
    end.
Proof.
  induction update as [|up rest IH]; cbn; [reflexivity|].
  unfold unorderedKeys in *; cbn. case_bool_decide; cbn; [apply IH|].
  unfold VarMan.getGinacSymbol. rewrite pickTarget_some. now rewrite app_nil_r.
Qed.

Lemma Symbol_eqb_eq a b : Symbol_eqb a b = true <-> a = b.
Proof.
  destruct a, b; cbn; split; intros H; try discriminate; try reflexivity.
  - apply Nat.eqb_eq in H. now subst.
  - injection H as ->. apply Nat.eqb_refl.
Qed.

Lemma exmap_find_app m1 m2 s :
  exmap_find (m1 ++ m2) s
  = match exmap_find m1 s with Some e => Some e | None => exmap_find m2 s end.
Proof.
  induction m1 as [|[s' e] m1 IH]; cbn; [reflexivity|].
  destruct (Symbol_eqb s' s); [reflexivity | apply IH].
Qed.

Lemma exmap_find_cycleSubs t others s :
  exmap_find (cycleSubs t others) s
  = match s with
    | SVar o => if existsb (Nat.eqb o) others then Some (Sym (SVar t)) else None
    | _ => None
    end.
Proof.
  unfold cycleSubs. induction others as [|o others IH]; cbn.
  - now destruct s.
  - rewrite exmap_find_app, IH. destruct s as [v| | |]; cbn; try reflexivity.
    destruct (existsb (Nat.eqb v) others); [now rewrite orb_true_r|].
    rewrite orb_false_r. rewrite (Nat.eqb_sym o v). now destruct (Nat.eqb v o).
Qed.

Lemma getVarIdxs_In e v : In v (VarMan.getVarIdxs e) <-> In (SVar v) (symbolsOf e).
Proof.
  unfold VarMan.getVarIdxs. rewrite in_flat_map. split.
  - intros [s [Hs Hv]]. destruct s; cbn in Hv; try tauto. destruct Hv as [->|[]]. exact Hs.
  - intros H. exists (SVar v). split; [exact H | now left].
Qed.

Lemma symbolsOf_subs_cycle t others e v :
  In (SVar v) (symbolsOf (subs (cycleSubs t others) e)) ->
  v = t \/ (In (SVar v) (symbolsOf e) /\ ~ In v others).
Proof.
  induction e as [z|s|a IHa b IHb|a IHa b IHb|a IHa b IHb];
    [cbn; tauto | | cbn; rewrite !in_app_iff; tauto ..].
  cbn [subs]. rewrite exmap_find_cycleSubs. destruct s as [o| | |]; cbn;
    try (intros [H|[]]; discriminate).
  destruct (existsb (Nat.eqb o) others) eqn:Hex; cbn.
  - intros [H|[]]. left. now injection H.
  - intros [H|[]]. injection H as ->. right. split; [now left|].
    intros Hin. assert (existsb (Nat.eqb v) others = true) as Habs; [|congruence].
    apply existsb_exists. exists v. split; [exact Hin | apply Nat.eqb_refl].
Qed.

Lemma unorderedKeys_In update oV v :
  In v (unorderedKeys update oV) <-> In v (keys update) /\ v ∉ oV.
Proof.
  unfold unorderedKeys. rewrite filter_In. rewrite negb_true_iff, bool_decide_eq_false. tauto.
Qed.

Lemma unorderedKeys_NoDup update oV :
  List.NoDup (keys update) -> List.NoDup (unorderedKeys update oV).
Proof. intros H. now apply List.NoDup_filter. Qed.

Lemma unorderedKeys_nonempty update ordering oV :
  List.NoDup (keys update) -> PassInv update ordering oV ->
  length ordering < length update -> unorderedKeys update oV <> [].
Proof.
  intros Hnd [Hnd' Hset Hk] Hlen Hnil.
  assert (Hincl : incl (keys update) ordering).
  { intros v Hv. destruct (decide (v ∈ oV)) as [Hin|Hnin]; [now apply Hset|].
    assert (In v (unorderedKeys update oV)) as Habs by now apply unorderedKeys_In.
    rewrite Hnil in Habs. destruct Habs. }
  pose proof (List.NoDup_incl_length Hnd Hincl) as Hle.
  unfold keys in Hle. rewrite length_map in Hle. lia.
Qed.

Lemma unorderedKeys_substituteAll sub update oV :
  unorderedKeys (substituteAll sub update) oV = unorderedKeys update oV.
Proof. unfold unorderedKeys. now rewrite keys_substituteAll. Qed.

Lemma UpdateMap_count_substituteAll sub update vi :
  UpdateMap_count (substituteAll sub update) vi = UpdateMap_count update vi.
Proof. unfold UpdateMap_count. now rewrite keys_substituteAll. Qed.

(** After the substitution the target itself is resolved. *)
Lemma target_resolved update oV t others :
  List.NoDup (keys update) ->
  unorderedKeys update oV = t :: others ->
  exists up, In up (substituteAll (cycleSubs t others) update)
             /\ (fst up ∉ oV)
             /\ unresolved (substituteAll (cycleSubs t others) update) oV up = false.
Proof.
  intros Hnd Hun.
  assert (Ht : In t (keys update) /\ t ∉ oV).
  { apply unorderedKeys_In. rewrite Hun. now left. }
  destruct Ht as [Hkey Hnot]. unfold keys in Hkey. apply in_map_iff in Hkey as [[t' e] [Heq Hin]].
  cbn in Heq. subst t'.
  exists (t, subs (cycleSubs t others) e). split; [|split; [exact Hnot|]].
  - unfold substituteAll. apply in_map_iff. exists (t, e). split; [reflexivity | exact Hin].
  - unfold unresolved. cbn. apply not_true_is_false. intros Hex.
    apply existsb_exists in Hex as [vi [Hvi Hcond]].
    apply andb_prop in Hcond as [Hcond Hnotin]. apply andb_prop in Hcond as [Hne Hcnt].
    apply negb_true_iff, Nat.eqb_neq in Hne. apply negb_true_iff, bool_decide_eq_false in Hnotin.
    rewrite UpdateMap_count_substituteAll in Hcnt. apply UpdateMap_count_In in Hcnt.
    apply getVarIdxs_In, symbolsOf_subs_cycle in Hvi as [->|[_ Hno]]; [congruence|].
    assert (In vi (t :: others)) as [->|Hin']; [| congruence | contradiction].
    rewrite <- Hun. now apply unorderedKeys_In.
Qed.

(** *** The loop terminates *)

Lemma PassInv_keys u1 u2 ordering oV :
  keys u1 = keys u2 -> PassInv u1 ordering oV -> PassInv u2 ordering oV.
Proof.
  intros Hk [H1 H2 H3]. split; auto. intros v Hv. rewrite <- Hk. auto.
Qed.

Lemma OrderPost_keys u1 u2 ordering update' eqs eqs0 :
  keys u1 = keys u2 -> Forall (varEquality u2) eqs0 ->
  OrderPost u1 ordering update' eqs -> OrderPost u2 ordering update' (eqs0 ++ eqs).
Proof.
  intros Hk H0 (H1 & H2 & H3 & H4 & H5). unfold OrderPost.
  assert (Hlen : length u1 = length u2).
  { rewrite <- (length_map fst u1), <- (length_map fst u2). unfold keys in Hk. now rewrite Hk. }
  rewrite <- Hk, <- Hlen. repeat split; auto.
  apply List.Forall_app. split; [exact H0|].
  eapply List.Forall_impl; [|exact H5]. intros r (t & o & ? & ? & ? & ?).
  exists t, o. rewrite <- Hk. auto.
Qed.

Lemma cycleEqualities_varEquality update oV t others :
  List.NoDup (keys update) -> unorderedKeys update oV = t :: others ->
  Forall (varEquality update) (cycleEqualities t others).
Proof.
  intros Hnd Hun. pose proof (unorderedKeys_NoDup update oV Hnd) as Hnd'.
  rewrite Hun in Hnd'. apply List.NoDup_cons_iff in Hnd' as [Hnot _].
  unfold cycleEqualities. apply List.Forall_map. apply List.Forall_forall. intros o Ho.
  exists t, o. repeat split.
  - eapply unorderedKeys_In. rewrite Hun. now left.
  - eapply unorderedKeys_In. rewrite Hun. now right.
  - intros ->. contradiction.
Qed.

Lemma dependencyOrderLoop_total (k : nat) :
  (forall fuel update ordering oV ag,
      List.NoDup (keys update) -> PassInv update ordering oV ->
      length update - length ordering <= k -> 2 * k + 1 <= fuel ->
      exists ordering' update' eqs,
        dependencyOrderLoop fuel update ordering oV ag = Some (ordering', update', ag ++ eqs)
        /\ OrderPost update ordering' update' eqs)
  /\ (forall fuel update ordering oV ag,
      List.NoDup (keys update) -> PassInv update ordering oV ->
      length update - length ordering <= k + 1 -> 2 * k + 2 <= fuel ->
      (exists up, In up update /\ (fst up ∉ oV) /\ unresolved update oV up = false) ->
      exists ordering' update' eqs,
        dependencyOrderLoop fuel update ordering oV ag = Some (ordering', update', ag ++ eqs)
        /\ OrderPost update ordering' update' eqs).
Proof.
  assert (Hdone : forall fuel update ordering oV ag,
             PassInv update ordering oV -> 1 <= fuel ->
             Nat.ltb (length ordering) (length update) = false ->
             exists ordering' update' eqs,
               dependencyOrderLoop fuel update ordering oV ag = Some (ordering', update', ag ++ eqs)
               /\ OrderPost update ordering' update' eqs).
  { intros fuel update ordering oV ag [Hnd Hset Hk] Hfuel Hlt.
    destruct fuel as [|fuel]; [lia|]. cbn [dependencyOrderLoop]. rewrite Hlt.
    exists ordering, update, []. rewrite app_nil_r. split; [reflexivity|].
    apply Nat.ltb_ge in Hlt. repeat split; auto. }
  assert (Hprimed : forall k',
             (forall fuel update ordering oV ag,
                 List.NoDup (keys update) -> PassInv update ordering oV ->
                 length update - length ordering <= k' -> 2 * k' + 1 <= fuel ->
                 exists ordering' update' eqs,
                   dependencyOrderLoop fuel update ordering oV ag = Some (ordering', update', ag ++ eqs)
                   /\ OrderPost update ordering' update' eqs) ->
             forall fuel update ordering oV ag,
               List.NoDup (keys update) -> PassInv update ordering oV ->
               length update - length ordering <= k' + 1 -> 2 * k' + 2 <= fuel ->
               (exists up, In up update /\ (fst up ∉ oV) /\ unresolved update oV up = false) ->
               exists ordering' update' eqs,
                 dependencyOrderLoop fuel update ordering oV ag = Some (ordering', update', ag ++ eqs)
                 /\ OrderPost update ordering' update' eqs).
  { intros k' IH fuel update ordering oV ag Hnd Hinv Hk Hfuel (up & Hin & Hnot & Hres).
    destruct (Nat.ltb (length ordering) (length update)) eqn:Hlt;
      [|apply Hdone; auto; lia].
    destruct fuel as [|fuel]; [lia|]. cbn [dependencyOrderLoop]. rewrite Hlt.
    pose proof (orderPass_inv update update ordering oV false Hinv (fun v H => H)) as Hpass.
    pose proof (orderPass_progress update update ordering oV false up Hin Hnot Hres) as Hprog.
    destruct (orderPass update update ordering oV false) as [[ordering' oV'] changed].
    cbn in Hprog. subst changed. destruct Hpass as (Hinv' & _ & _ & Hgrow).
    specialize (Hgrow eq_refl eq_refl).
    apply IH; auto; lia. }
  induction k as [|k [IH1 IH2]].
  - assert (H0 : forall fuel update ordering oV ag,
               List.NoDup (keys update) -> PassInv update ordering oV ->
               length update - length ordering <= 0 -> 2 * 0 + 1 <= fuel ->
               exists ordering' update' eqs,
                 dependencyOrderLoop fuel update ordering oV ag = Some (ordering', update', ag ++ eqs)
                 /\ OrderPost update ordering' update' eqs).
    { intros fuel update ordering oV ag Hnd Hinv Hk Hfuel.
      apply Hdone; auto; try lia. apply Nat.ltb_ge. lia. }
    split; [exact H0 | apply Hprimed; exact H0].
  - assert (HS : forall fuel update ordering oV ag,
               List.NoDup (keys update) -> PassInv update ordering oV ->
               length update - length ordering <= S k -> 2 * S k + 1 <= fuel ->
               exists ordering' update' eqs,
                 dependencyOrderLoop fuel update ordering oV ag = Some (ordering', update', ag ++ eqs)
                 /\ OrderPost update ordering' update' eqs).
    { intros fuel update ordering oV ag Hnd Hinv Hk Hfuel.
      destruct (Nat.ltb (length ordering) (length update)) eqn:Hlt;
        [|apply Hdone; auto; lia].
      destruct fuel as [|fuel]; [lia|]. cbn [dependencyOrderLoop]. rewrite Hlt.
      pose proof (orderPass_inv update update ordering oV false Hinv (fun v H => H)) as Hpass.
      destruct (orderPass update update ordering oV false) as [[ordering' oV'] changed].
      destruct Hpass as (Hinv' & Hle & Hsame & Hgrow). destruct changed.
      - specialize (Hgrow eq_refl eq_refl). apply IH1; auto; lia.
      - destruct (Hsame eq_refl) as (-> & -> & _).
        apply Nat.ltb_lt in Hlt.
        pose proof (unorderedKeys_nonempty update ordering oV Hnd Hinv Hlt) as Hne.
        rewrite pickTarget_none.
        destruct (unorderedKeys update oV) as [|t others] eqn:Hun; [congruence|].
        destruct (target_resolved update oV t others Hnd Hun) as (up & Hup).
        destruct (IH2 fuel (substituteAll (cycleSubs t others) update) ordering oV
                      (ag ++ cycleEqualities t others)) as (o' & u' & eqs & Hrun & Hpost).
        + now rewrite keys_substituteAll.
        + eapply PassInv_keys; [|exact Hinv]. now rewrite keys_substituteAll.
        + rewrite length_substituteAll. replace (k + 1) with (S k) by lia. exact Hk.
        + lia.
        + exists up. exact Hup.
        + exists o', u', (cycleEqualities t others ++ eqs). split.
          * rewrite Hrun. now rewrite app_assoc.
          * eapply OrderPost_keys; [apply keys_substituteAll | | exact Hpost].
            eapply cycleEqualities_varEquality; eauto. }
    split; [exact HS | apply Hprimed; exact HS].
Qed.

(** *** Solving in order *)

Lemma UpdateMap_at_Some update v :
  In v (keys update) -> exists e, UpdateMap_at update v = Some e.
Proof.
  induction update as [|[k e] rest IH]; cbn; [tauto|].
  intros [->|Hin].
  - rewrite Nat.eqb_refl. eauto.
  - destruct (Nat.eqb k v); eauto.
Qed.

Lemma UpdateMap_set_In update k e entry :
  In entry (UpdateMap_set update k e) -> entry = (k, e) \/ In entry update.
Proof.
  induction update as [|[k' e'] rest IH]; cbn [UpdateMap_set].
  - intros [<-|[]]. now left.
  - destruct (Nat.eqb k' k) eqn:Hk; [|destruct (Nat.ltb k k')].
    + apply Nat.eqb_eq in Hk. subst k'. intros H. apply in_inv in H as [<-|H]; auto.
      right. now right.
    + intros H. apply in_inv in H as [<-|H]; auto.
    + intros H. apply in_inv in H as [<-|H]; [right; now left|].
      destruct (IH H); auto. right. now right.
Qed.

Lemma keys_UpdateMap_set update k e v :
  In v (keys (UpdateMap_set update k e)) <-> v = k \/ In v (keys update).
Proof.
  induction update as [|[k' e'] rest IH]; cbn [UpdateMap_set].
  - cbn. intuition.
  - destruct (Nat.eqb k' k) eqn:Hk; [|destruct (Nat.ltb k k')].
    + apply Nat.eqb_eq in Hk. subst k'. cbn. intuition.
    + cbn. intuition.
    + cbn [keys map fst In] in *. rewrite IH. intuition.
Qed.

Lemma keysAscend_set b update k e :
  keysAscend b update = true ->
  match b with Some b' => b' < k | None => True end ->
  keysAscend b (UpdateMap_set update k e) = true.
Proof.
  revert b; induction update as [|[k' e'] rest IH]; intros b Hasc Hb;
    cbn [UpdateMap_set keysAscend] in *.
  - rewrite andb_true_r. destruct b; [now apply Nat.ltb_lt | reflexivity].
  - apply andb_prop in Hasc as [H1 H2].
    destruct (Nat.eqb k' k) eqn:Hk; [|destruct (Nat.ltb k k') eqn:Hlt];
      cbn [keysAscend].
    + apply Nat.eqb_eq in Hk. subst k'. now rewrite H1, H2.
    + rewrite Hlt, H2. rewrite !andb_true_r.
      destruct b; [now apply Nat.ltb_lt | reflexivity].
    + rewrite H1. cbn [andb]. apply IH; [exact H2|].
      apply Nat.eqb_neq in Hk. apply Nat.ltb_ge in Hlt. lia.
Qed.

Lemma UpdateMap_wf_set update k e :
  UpdateMap_wf update = true -> UpdateMap_wf (UpdateMap_set update k e) = true.
Proof. intros H. now apply keysAscend_set. Qed.

Lemma solveInOrder_spec purrs update meterfunc order :
  forall newUpdate st,
    incl order (keys update) ->
    exists b newUpdate' known qs,
      solveInOrder purrs update meterfunc order newUpdate st
      = Some (b, newUpdate', mkState (addGuard st) known (queries st ++ qs))
      /\ (b = true ->
            Forall (solved purrs) qs
            /\ length qs = length order
            /\ (forall v, In v (keys newUpdate') <-> In v (keys newUpdate) \/ In v order)
            /\ (UpdateMap_wf newUpdate = true -> UpdateMap_wf newUpdate' = true)
            /\ (forall entry, In entry newUpdate' ->
                  In entry newUpdate \/ closedForm purrs meterfunc qs entry))
      /\ (b = false -> Exists (fun q => ~ solved purrs q) qs).
Proof.
  induction order as [|vi rest IH]; intros newUpdate st Hincl.
  - exists true, newUpdate, (knownPreRecurrences st), []. cbn. rewrite app_nil_r.
    destruct st; cbn. split; [reflexivity|]. split; [|discriminate].
    intros _. repeat split; auto; tauto.
  - cbn [solveInOrder].
    destruct (UpdateMap_at_Some update vi) as [rhs_vi Hat]; [apply Hincl; now left|].
    rewrite Hat. unfold findUpdateRecurrence. cbn [addGuard knownPreRecurrences queries].
    set (todo := subs (knownPreRecurrences st) rhs_vi).
    set (q := (subs1 (VarMan.getGinacSymbol vi) (Sym SRecPrev) todo, 1, todo)).
    destruct (purrs (subs1 (VarMan.getGinacSymbol vi) (Sym SRecPrev) todo) 1 todo) as [res|] eqn:Hsol.
    + match goal with |- context [solveInOrder _ _ _ rest ?nu ?s] =>
        destruct (IH nu s) as (b & nu' & known & qs & Hrun & Htrue & Hfalse) end.
      { intros v Hv. apply Hincl. now right. }
      cbn [addGuard knownPreRecurrences queries] in Hrun.
      exists b, nu', known, (q :: qs). split.
      { rewrite Hrun. now rewrite <- app_assoc. }
      split.
      * intros Hb. destruct (Htrue Hb) as (Hall & Hlen & Hkeys & Hwf & Hentries).
        split; [constructor; [unfold solved, q; cbn; congruence | exact Hall]|].
        split; [cbn; lia|]. split.
        { intros v. rewrite Hkeys, keys_UpdateMap_set. cbn. intuition. }
        split.
        { intros H. apply Hwf. now apply UpdateMap_wf_set. }
        intros entry Hentry. destruct (Hentries entry Hentry) as [Hold|(r & i & s & Hin & Hs & He)].
        -- apply UpdateMap_set_In in Hold as [->|Hold]; [|now left].
           right. exists (subs1 (VarMan.getGinacSymbol vi) (Sym SRecPrev) todo), todo, res.
           split; [now left|]. split; [exact Hsol | reflexivity].
        -- right. exists r, i, s. split; [now right | auto].
      * intros Hb. apply Exists_cons_tl. auto.
    + exists false, newUpdate, (knownPreRecurrences st), [q]. split; [reflexivity|].
      split; [discriminate|]. intros _. apply Exists_cons_hd. unfold solved, q. cbn. congruence.
Qed.

Lemma dependencyOrder_total (update : UpdateMap) (st : State) (fuel : nat) :
  UpdateMap_wf update = true -> enoughFuel update <= fuel ->
  exists ordering update' eqs,
    dependencyOrder fuel update st
    = Some (ordering, update',
            mkState (addGuard st ++ eqs) (knownPreRecurrences st) (queries st))
    /\ OrderPost update ordering update' eqs.
Proof.
  intros Hwf Hfuel. apply UpdateMap_wf_NoDup in Hwf.
  destruct (proj1 (dependencyOrderLoop_total (length update)) fuel update [] ∅ (addGuard st))
    as (ordering & update' & eqs & Hrun & Hpost); auto.
  - split; [apply List.NoDup_nil | | intros v []].
    intros v. split; [intros H; now apply not_elem_of_empty in H | intros []].
  - lia.
  - exists ordering, update', eqs. unfold dependencyOrder. rewrite Hrun. auto.
Qed.

Lemma OrderPost_Permutation update ordering update' eqs :
  List.NoDup (keys update) -> OrderPost update ordering update' eqs ->
  Permutation ordering (keys update) /\ length ordering = length update.
Proof.
  intros Hnd (H1 & H2 & H3 & H4 & H5).
  assert (Hlen : length (keys update) = length update) by apply length_map.
  pose proof (List.NoDup_incl_length H1 H2) as Hle.
  split; [|lia]. apply NoDup_Permutation_bis; auto. lia.
Qed.

Lemma Forall_Exists_contra {A} (P : A -> Prop) (l : list A) :
  Forall P l -> Exists (fun x => ~ P x) l -> False.
Proof.
  intros HF HE. apply List.Exists_exists in HE as (x & Hin & Hx).
  apply Hx. eapply List.Forall_forall; eauto.
Qed.

Lemma stuck_step fuel upd ordering oV ag t others :
  orderPass upd upd ordering oV false = (ordering, oV, false) ->
  length ordering < length upd ->
  unorderedKeys upd oV = t :: others ->
  dependencyOrderLoop (S fuel) upd ordering oV ag
  = dependencyOrderLoop fuel (substituteAll (cycleSubs t others) upd) ordering oV
      (ag ++ cycleEqualities t others).
Proof.
  intros Hpass Hlt Hun. cbn [dependencyOrderLoop].
  apply Nat.ltb_lt in Hlt. rewrite Hlt, Hpass, pickTarget_none, Hun. reflexivity.
Qed.

(** C3: [calcIterated] returns for every rule whose update is well formed.
    If the solver fails on one of the recurrences it is asked, for an
    updated variable or for the cost, the answer is [false] and the rule is
    the given one, with its guard, cost and update; and [false] is answered
    in this case only.  If the answer is [true], every recurrence was
    solved, one for each updated variable and one for the cost; the guard
    is the old one with constraints appended, the updated variables are the
    same, each update is the closed form of its recurrence with the
    metering function for [n], and so is the cost. *)
Theorem calcIterated_all_or_nothing (purrs : Solver) (fuel : nat)
    (rule : LinearRule) (meterfunc : Expression) :
  UpdateMap_wf (lr_update rule) = true ->
  enoughFuel (lr_update rule) <= fuel ->
  exists b rule' qs,
    calcIterated purrs fuel rule meterfunc = Some (b, rule', qs)
    /\ (Exists (fun q => ~ solved purrs q) qs -> b = false /\ rule' = rule)
    /\ (b = false -> rule' = rule /\ Exists (fun q => ~ solved purrs q) qs)
    /\ (b = true ->
          Forall (solved purrs) qs
          /\ length qs = S (length (lr_update rule))
          /\ lr_lhsLoc rule' = lr_lhsLoc rule
          /\ lr_rhsLoc rule' = lr_rhsLoc rule
          /\ (exists eqs, lr_guard rule' = lr_guard rule ++ eqs)
          /\ (forall v, In v (keys (lr_update rule')) <-> In v (keys (lr_update rule)))
          /\ (forall entry, In entry (lr_update rule') -> closedForm purrs meterfunc qs entry)
          /\ (exists rhs res,
                In (rhs, 0, Num 0) qs /\ purrs rhs 0 (Num 0) = Some res
                /\ lr_cost rule' = subs1 SRecN meterfunc res)).
Proof.
  intros Hwf Hfuel.
  destruct (dependencyOrder_total (lr_update rule) init fuel Hwf Hfuel)
    as (ordering & update' & eqs & Hdep & Hpost).
  pose proof (OrderPost_Permutation _ _ _ _ (UpdateMap_wf_NoDup _ Hwf) Hpost) as [Hperm Hlen].
  destruct Hpost as (Hnd & Hincl & _ & Hkeys & _).
  unfold calcIterated, calcIteratedUpdate. rewrite Hdep.
  destruct (solveInOrder_spec purrs update' meterfunc ordering []
              (mkState (addGuard init ++ eqs) (knownPreRecurrences init) (queries init)))
    as (b & nu & known & qs & Hrun & Htrue & Hfalse).
  { now rewrite Hkeys. }
  rewrite Hrun. cbn [addGuard queries init app] in *. destruct b.
  - destruct (Htrue eq_refl) as (Hall & Hqlen & Hnukeys & _ & Hentries).
    unfold calcIteratedCost, findCostRecurrence. cbn [addGuard knownPreRecurrences queries].
    set (rhs := Add (Sym SRecPrev) (subs known (lr_cost rule))).
    destruct (purrs rhs 0 (Num 0)) as [res|] eqn:Hcost.
    + exists true, (mkLinearRule (lr_lhsLoc rule) (lr_guard rule ++ eqs)
                      (subs1 SRecN meterfunc res) (lr_rhsLoc rule) nu),
             (qs ++ [(rhs, 0, Num 0)]).
      split; [reflexivity|].
      assert (Hall' : Forall (solved purrs) (qs ++ [(rhs, 0, Num 0)])).
      { apply List.Forall_app. split; [exact Hall|]. constructor; [|constructor].
        unfold solved; cbn. congruence. }
      split; [intros HE; destruct (Forall_Exists_contra _ _ Hall' HE)|].
      split; [discriminate|]. intros _. cbn.
      split; [exact Hall'|]. split; [rewrite length_app; cbn; lia|].
      split; [reflexivity|]. split; [reflexivity|]. split; [eauto|]. split.
      { intros v. rewrite Hnukeys. cbn. split.
        - intros [[]|H]. eapply Permutation_in; eauto.
        - intros H. right. eapply Permutation_in; [symmetry|]; eauto. }
      split.
      { intros entry Hentry. destruct (Hentries entry Hentry) as [[]|(r & i & s & Hin & Hs & He)].
        exists r, i, s. split; [apply in_or_app; now left | auto]. }
      exists rhs, res. split; [apply in_or_app; right; now left | auto].
    + exists false, rule, (qs ++ [(rhs, 0, Num 0)]). split; [reflexivity|].
      assert (HE : Exists (fun q => ~ solved purrs q) (qs ++ [(rhs, 0, Num 0)])).
      { apply List.Exists_app. right. constructor. unfold solved; cbn. congruence. }
      split; [auto|]. split; [auto|]. discriminate.
  - exists false, rule, qs. split; [reflexivity|].
    split; [auto|]. split; [auto|]. discriminate.
Qed.

Lemma solveInOrder_addGuard purrs update meterfunc order :
  forall newUpdate st b newUpdate' st',
    solveInOrder purrs update meterfunc order newUpdate st = Some (b, newUpdate', st') ->
    addGuard st' = addGuard st.
Proof.
  induction order as [|vi rest IH]; intros nu st b nu' st' Hrun; cbn in Hrun.
  - now injection Hrun as _ _ <-.
  - destruct (UpdateMap_at update vi) as [rhs_vi|]; [|discriminate].
    destruct (purrs _ _ _) as [res|].
    + apply IH in Hrun. exact Hrun.
    + now injection Hrun as _ _ <-.
Qed.

Lemma calcIterated_guard purrs fuel rule meterfunc ordering update' st' b rule' qs :
  dependencyOrder fuel (lr_update rule) init = Some (ordering, update', st') ->
  calcIterated purrs fuel rule meterfunc = Some (b, rule', qs) ->
  (b = true -> lr_guard rule' = lr_guard rule ++ addGuard st'
               /\ lr_lhsLoc rule' = lr_lhsLoc rule /\ lr_rhsLoc rule' = lr_rhsLoc rule)
  /\ (b = false -> rule' = rule).
Proof.
  intros Hdep. unfold calcIterated, calcIteratedUpdate. rewrite Hdep.
  destruct (solveInOrder purrs update' meterfunc ordering [] st') as [[[b0 nu] st'']|] eqn:Hrun;
    [|discriminate].
  apply solveInOrder_addGuard in Hrun. destruct b0.
  - unfold calcIteratedCost, findCostRecurrence.
    destruct (purrs _ _ _) as [res|]; intros H; injection H as <- <- _; cbn.
    + rewrite Hrun. split; [auto | discriminate].
    + split; [discriminate | auto].
  - intros H; injection H as <- <- _. split; [discriminate | auto].
Qed.

Lemma calcIterated_total purrs fuel rule meterfunc :
  UpdateMap_wf (lr_update rule) = true ->
  enoughFuel (lr_update rule) <= fuel ->
  exists b rule' qs, calcIterated purrs fuel rule meterfunc = Some (b, rule', qs).
Proof.
  intros Hwf Hfuel.
  destruct (dependencyOrder_total (lr_update rule) init fuel Hwf Hfuel)
    as (ordering & update' & eqs & Hdep & Hpost).
  destruct Hpost as (_ & Hincl & _ & Hkeys & _).
  unfold calcIterated, calcIteratedUpdate. rewrite Hdep.
  destruct (solveInOrder_spec purrs update' meterfunc ordering []
              (mkState (addGuard init ++ eqs) (knownPreRecurrences init) (queries init)))
    as (b & nu & known & qs & Hrun & _).
  { now rewrite Hkeys. }
  rewrite Hrun. destruct b; [|eauto].
  unfold calcIteratedCost, findCostRecurrence. destruct (purrs _ _ _); eauto.
Qed.

(** C5: for every well-formed update map [dependencyOrder] returns, with
    fuel for two turns of its loop per variable: an ordering that is a
    permutation of the updated variables without repetition, an update of
    the same variables, and constraints that are each an equality between
    two updated variables.  [calcIterated] on a rule with this update
    returns as well; when it succeeds the guard of the rule it returns is
    the guard of the given rule followed by these constraints, and when it
    fails the rule is the given one.  Second part: a turn of the loop in
    which the pass over the update orders no further variable, while some
    are left, does not fail: the first unordered variable [t] is the
    representative, the others are replaced by it in the update, the
    equalities of [t] with each of them are appended to the constraints,
    and the loop goes on. *)
Theorem dependencyOrder_breaks_cycles (update : UpdateMap) (fuel : nat) :
  UpdateMap_wf update = true ->
  enoughFuel update <= fuel ->
  (exists ordering update' eqs,
      dependencyOrder fuel update init = Some (ordering, update', mkState eqs [] [])
      /\ Permutation ordering (keys update)
      /\ List.NoDup ordering
      /\ keys update' = keys update
      /\ Forall (varEquality update) eqs
      /\ (forall purrs rule meterfunc,
            lr_update rule = update ->
            exists b rule' qs,
              calcIterated purrs fuel rule meterfunc = Some (b, rule', qs)
              /\ (b = true -> lr_guard rule' = lr_guard rule ++ eqs)
              /\ (b = false -> rule' = rule)))
  /\ (forall fuel' upd ordering orderedVars guard t others,
        orderPass upd upd ordering orderedVars false = (ordering, orderedVars, false) ->
        length ordering < length upd ->
        unorderedKeys upd orderedVars = t :: others ->
        dependencyOrderLoop (S fuel') upd ordering orderedVars guard
        = dependencyOrderLoop fuel' (substituteAll (cycleSubs t others) upd) ordering
            orderedVars (guard ++ cycleEqualities t others)).
Proof.
  intros Hwf Hfuel. split; [|intros; now apply stuck_step].
  destruct (dependencyOrder_total update init fuel Hwf Hfuel)
    as (ordering & update' & eqs & Hdep & Hpost).
  cbn [addGuard knownPreRecurrences queries init app] in Hdep.
  exists ordering, update', eqs. split; [exact Hdep|].
  destruct (OrderPost_Permutation _ _ _ _ (UpdateMap_wf_NoDup _ Hwf) Hpost) as [Hperm _].
  destruct Hpost as (Hnd & _ & _ & Hkeys & Heqs).
  repeat (split; [assumption|]).
  intros purrs rule meterfunc Hrule. subst update.
  destruct (calcIterated_total purrs fuel rule meterfunc Hwf Hfuel)
    as (b & rule' & qs & Hrun).
  exists b, rule', qs. split; [exact Hrun|].
  destruct (calcIterated_guard _ _ _ _ _ _ _ _ _ _ Hdep Hrun) as [Ht Hf].
  split; [|exact Hf]. intros Hb. now destruct (Ht Hb).
Qed.

Lemma dependencyOrder_breaks_cycles_witness :
  dependencyOrder 5 swapUpdate init
  = Some ([0; 1],
          [(0, Sym (SVar 0)); (1, Sym (SVar 0))],
          mkState [mkRel OpEq (Sym (SVar 0)) (Sym (SVar 1))] [] [])
  /\ exists ordering update' eqs,
       dependencyOrder 5 swapUpdate init = Some (ordering, update', mkState eqs [] [])
       /\ Permutation ordering (keys swapUpdate).
Proof.
  split; [reflexivity|].
  assert (Hfuel : enoughFuel swapUpdate <= 5) by (cbn; lia).
  destruct (proj1 (dependencyOrder_breaks_cycles swapUpdate 5 eq_refl Hfuel))
    as (ordering & update' & eqs & Hrun & Hperm & _).
  exists ordering, update', eqs. split; assumption.
Defined.

Lemma calcIterated_all_or_nothing_witness :
  (exists rule' qs,
      calcIterated sampleSolver 3 decrementRule (Sym (SVar 0)) = Some (true, rule', qs))
  /\ exists b rule' qs,
       calcIterated (fun _ _ _ => None) 3 decrementRule (Sym (SVar 0)) = Some (b, rule', qs)
       /\ (b = false -> rule' = decrementRule /\ Exists (fun q => ~ solved (fun _ _ _ => None) q) qs).
Proof.
  split; [eexists; eexists; reflexivity|].
  assert (Hfuel : enoughFuel (lr_update decrementRule) <= 3) by (cbn; lia).
  destruct (calcIterated_all_or_nothing (fun _ _ _ => None) 3 decrementRule (Sym (SVar 0))
              eq_refl Hfuel) as (b & rule' & qs & Hrun & _ & Hfalse & _).
  exists b, rule', qs. split; assumption.
Defined.

Lemma eval_subs sigma m e :
  eval sigma (subs m e)
  = eval (fun s => match exmap_find m s with
                   | Some e' => eval sigma e'
                   | None => sigma s
                   end) e.
Proof.
  induction e as [z|s|a IHa b IHb|a IHa b IHb|a IHa b IHb]; cbn;
    try (now rewrite IHa, IHb); try reflexivity.
  now destruct (exmap_find m s).
Qed.

(** C4: the rule with the update [x <- 5, y <- y + x] is accelerated with
    the metering function 1.  The acceleration succeeds, and the update it
    stores for [y] evaluates to [y + 5] in every valuation, while the
    update of the rule evaluates to [y + x]: the two differ where [x] is
    not 5, as in the valuation that is 0 everywhere.  The closed form 5 of
    [x] holds from the first iteration on, and it is used for the value of
    [x] before the first iteration too. *)
Theorem calcIterated_constant_feed :
  exists rule' qs e,
    calcIterated sampleSolver (enoughFuel (lr_update constantFeedRule))
      constantFeedRule (Num 1) = Some (true, rule', qs)
    /\ UpdateMap_at (lr_update rule') 1 = Some e
    /\ (forall sigma : Valuation, eval sigma e = (sigma (SVar 1) + 5)%Z)
    /\ (forall sigma : Valuation,
          eval sigma (Add (Sym (SVar 1)) (Sym (SVar 0))) = (sigma (SVar 1) + sigma (SVar 0))%Z)
    /\ eval (fun _ => 0%Z) e <> eval (fun _ => 0%Z) (Add (Sym (SVar 1)) (Sym (SVar 0))).
Proof.
  eexists. eexists. eexists. split; [vm_compute; reflexivity|].
  split; [reflexivity|]. split; [intros sigma; cbn; lia|].
  split; [reflexivity|]. cbn. lia.
Qed.

End RecurrenceFacts.

(** ** The rule store *)
Module StoreFacts.

Lemma indices_In (its : ITSProblem) (idx : TransIdx) :
  In idx (ITS.indices its) <-> is_Some (ITS.getRule its idx).
Proof.
  unfold ITS.indices, ITS.getRule. rewrite <- list_elem_of_In.
  rewrite merge_sort_Permutation. rewrite elem_of_elements. apply elem_of_dom.
Qed.

Lemma indices_NoDup (its : ITSProblem) : List.NoDup (ITS.indices its).
Proof.
  unfold ITS.indices. apply NoDup_ListNoDup.
  rewrite merge_sort_Permutation. apply NoDup_elements.
Qed.

Lemma indices_Sorted (its : ITSProblem) : Sorted Nat.le (ITS.indices its).
Proof.
  unfold ITS.indices. apply Sorted_merge_sort. intros x y. unfold Nat.le. lia.
Qed.

Lemma ruleHas_true (its : ITSProblem) (p : Rule -> bool) (idx : TransIdx) :
  ITS.ruleHas its p idx = true <-> exists r, ITS.getRule its idx = Some r /\ p r = true.
Proof.
  unfold ITS.ruleHas. destruct (ITS.getRule its idx) as [r|].
  - split; [eauto | intros (r' & [= <-] & H); exact H].
  - split; [discriminate | intros (r' & [=] & _)].
Qed.

Lemma filter_ruleHas_In (its : ITSProblem) (p : Rule -> bool) (idx : TransIdx) :
  In idx (List.filter (ITS.ruleHas its p) (ITS.indices its))
  <-> exists r, ITS.getRule its idx = Some r /\ p r = true.
Proof.
  rewrite filter_In, indices_In, ruleHas_true. split.
  - intros [_ H]. exact H.
  - intros (r & Hr & Hp). split; [rewrite Hr; eauto | eauto].
Qed.

Lemma existsb_ruleHas (its : ITSProblem) (p : Rule -> bool) :
  existsb (ITS.ruleHas its p) (ITS.indices its) = true
  <-> exists idx r, ITS.getRule its idx = Some r /\ p r = true.
Proof.
  rewrite existsb_exists. split.
  - intros (idx & _ & H). apply ruleHas_true in H. eauto.
  - intros (idx & r & Hr & Hp). exists idx. split.
    + apply indices_In. rewrite Hr. eauto.
    + apply ruleHas_true. eauto.
Qed.

Lemma getTransitionsFrom_In (its : ITSProblem) (loc : LocationIdx) (idx : TransIdx) :
  In idx (ITS.getTransitionsFrom its loc)
  <-> exists r, ITS.getRule its idx = Some r /\ lhsLoc r = loc.
Proof.
  unfold ITS.getTransitionsFrom. rewrite filter_ruleHas_In. unfold ITS.isFrom.
  split; intros (r & Hr & H); exists r; (split; [exact Hr|]); now apply Nat.eqb_eq.
Qed.

Lemma hasRhsLoc_In (loc : LocationIdx) (r : Rule) :
  hasRhsLoc loc r = true <-> In loc (rhsLocs r).
Proof.
  unfold hasRhsLoc. rewrite existsb_exists. split.
  - intros (x & Hx & Heq). apply Nat.eqb_eq in Heq. now subst.
  - intros H. exists loc. split; [exact H | apply Nat.eqb_refl].
Qed.

Lemma getTransitionsFromTo_In (its : ITSProblem) (from to : LocationIdx) (idx : TransIdx) :
  In idx (ITS.getTransitionsFromTo its from to)
  <-> exists r, ITS.getRule its idx = Some r /\ lhsLoc r = from /\ In to (rhsLocs r).
Proof.
  unfold ITS.getTransitionsFromTo. rewrite filter_ruleHas_In. unfold ITS.isFromTo.
  split; intros (r & Hr & H); exists r; (split; [exact Hr|]).
  - apply andb_prop in H as [H1 H2]. split; [now apply Nat.eqb_eq | now apply hasRhsLoc_In].
  - destruct H as [H1 H2]. apply andb_true_intro. split; [now apply Nat.eqb_eq | now apply hasRhsLoc_In].
Qed.

Lemma hasTransitionsTo_true (its : ITSProblem) (loc : LocationIdx) :
  ITS.hasTransitionsTo its loc = true
  <-> exists idx r, ITS.getRule its idx = Some r /\ In loc (rhsLocs r).
Proof.
  unfold ITS.hasTransitionsTo. rewrite existsb_ruleHas.
  split; intros (idx & r & Hr & H); exists idx, r; (split; [exact Hr|]); now apply hasRhsLoc_In.
Qed.

Lemma hasTransitionsFrom_true (its : ITSProblem) (loc : LocationIdx) :
  ITS.hasTransitionsFrom its loc = true
  <-> exists idx r, ITS.getRule its idx = Some r /\ lhsLoc r = loc.
Proof.
  unfold ITS.hasTransitionsFrom. rewrite existsb_ruleHas. unfold ITS.isFrom.
  split; intros (idx & r & Hr & H); exists idx, r; (split; [exact Hr|]); now apply Nat.eqb_eq.
Qed.

Lemma getSuccessorLocations_In (its : ITSProblem) (loc next : LocationIdx) :
  In next (ITS.getSuccessorLocations its loc)
  <-> exists idx r, ITS.getRule its idx = Some r /\ lhsLoc r = loc /\ In next (rhsLocs r).
Proof.
  unfold ITS.getSuccessorLocations. rewrite nodup_In, in_flat_map. split.
  - intros (idx & _ & H). destruct (ITS.getRule its idx) as [r|] eqn:Hr; [|destruct H].
    unfold ITS.isFrom in H. destruct (Nat.eqb (lhsLoc r) loc) eqn:Hl; [|destruct H].
    apply Nat.eqb_eq in Hl. eauto.
  - intros (idx & r & Hr & Hl & Hin). exists idx. split.
    + apply indices_In. rewrite Hr. eauto.
    + rewrite Hr. unfold ITS.isFrom. apply Nat.eqb_eq in Hl. now rewrite Hl.
Qed.

Lemma knownLocation_In (its : ITSProblem) (loc : LocationIdx) :
  ITS.knownLocation its loc = true <-> In loc (locations its).
Proof.
  unfold ITS.knownLocation. rewrite existsb_exists. split.
  - intros (x & Hx & Heq). apply Nat.eqb_eq in Heq. now subst.
  - intros H. exists loc. split; [exact H | apply Nat.eqb_refl].
Qed.

(** What the invariant of the store says. *)
Lemma wf_spec (its : ITSProblem) :
  ITS.wf its = true ->
  In (initialLocation its) (locations its)
  /\ forall idx r, ITS.getRule its idx = Some r ->
       In (lhsLoc r) (locations its)
       /\ (forall loc, In loc (rhsLocs r) -> In loc (locations its))
       /\ idx < nextTransIdx its.
Proof.
  unfold ITS.wf. intros H. apply andb_prop in H as [Hrules Hinit].
  split; [now apply knownLocation_In|].
  intros idx r Hr. rewrite forallb_forall in Hrules.
  assert (Hin : In idx (ITS.indices its)) by (apply indices_In; rewrite Hr; eauto).
  specialize (Hrules idx Hin). apply andb_prop in Hrules as [Hk Hlt].
  apply ruleHas_true in Hk as (r' & Hr' & Hk). rewrite Hr in Hr'. injection Hr' as <-.
  unfold ITS.knownRule in Hk. apply andb_prop in Hk as [Hl Hrs].
  split; [now apply knownLocation_In|]. split; [|now apply Nat.ltb_lt].
  intros loc Hloc. rewrite forallb_forall in Hrs. apply knownLocation_In. now apply Hrs.
Qed.

Lemma fresh_location (its : ITSProblem) (loc : LocationIdx) :
  In loc (locations its) -> loc < S (list_max (locations its)).
Proof.
  intros H. pose proof (proj1 (list_max_le (locations its) (list_max (locations its))) (Nat.le_refl _)) as Hall.
  rewrite List.Forall_forall in Hall. specialize (Hall loc H). lia.
Qed.

End StoreFacts.

Module GroomingFacts.
Import StoreFacts.

(** C6: in a well-formed store, after [ensureProperInitialLocation] no
    rule leads to the initial location.  If a rule led to the old initial
    location, the answer is [true]: a location that was not in the store is
    appended to the locations, a rule with an index that was not in use,
    an empty guard, the cost 0 and an empty update leads from it to the old
    initial location, and it is the initial location; the other rules are
    as they were.  If no rule led to the initial location, the answer is
    [false] and the store is the given one. *)
Theorem ensureProperInitialLocation_spec (its : ITSProblem) :
  ITS.wf its = true ->
  ITS.hasTransitionsTo (snd (Analysis.ensureProperInitialLocation its))
    (ITS.getInitialLocation (snd (Analysis.ensureProperInitialLocation its))) = false
  /\ (ITS.hasTransitionsTo its (ITS.getInitialLocation its) = true ->
        fst (Analysis.ensureProperInitialLocation its) = true
        /\ exists (newStart : LocationIdx) (idx : TransIdx),
             ~ In newStart (locations its)
             /\ ITS.getRule its idx = None
             /\ locations (snd (Analysis.ensureProperInitialLocation its))
                = locations its ++ [newStart]
             /\ rules (snd (Analysis.ensureProperInitialLocation its))
                = <[idx := mkRule newStart [] (Num 0)
                             [mkRhs (ITS.getInitialLocation its) []]]> (rules its)
             /\ ITS.getInitialLocation (snd (Analysis.ensureProperInitialLocation its))
                = newStart)
  /\ (ITS.hasTransitionsTo its (ITS.getInitialLocation its) = false ->
        Analysis.ensureProperInitialLocation its = (false, its)).
Proof.
  intros Hwf. destruct (wf_spec its Hwf) as [Hinit Hrules].
  unfold Analysis.ensureProperInitialLocation.
  destruct (ITS.hasTransitionsTo its (ITS.getInitialLocation its)) eqn:Hto; cbn.
  - set (newStart := S (list_max (locations its))).
    assert (Hfresh : ~ In newStart (locations its)).
    { intros Hin. apply fresh_location in Hin. unfold newStart in Hin. lia. }
    assert (Hnew : ITS.getRule its (nextTransIdx its) = None).
    { destruct (ITS.getRule its (nextTransIdx its)) as [r|] eqn:Hr; [|reflexivity].
      destruct (Hrules _ _ Hr) as (_ & _ & Hlt). lia. }
    split; [|split; [|discriminate]].
    + apply not_true_is_false. intros Hin.
      apply hasTransitionsTo_true in Hin as (idx & r & Hr & Hloc).
      unfold ITS.getInitialLocation, ITS.setInitialLocation, ITS.getRule in *. cbn in *.
      destruct (decide (nextTransIdx its = idx)) as [<-|Hne].
      * rewrite lookup_insert_eq in Hr. injection Hr as <-. cbn in Hloc.
        destruct Hloc as [Heq|[]]. apply Hfresh. fold newStart. rewrite <- Heq. exact Hinit.
      * rewrite lookup_insert_ne in Hr by exact Hne.
        destruct (Hrules _ _ Hr) as (_ & Hrhs & _). apply Hfresh. now apply Hrhs.
    + intros _. split; [reflexivity|]. exists newStart, (nextTransIdx its).
      repeat split; auto.
  - split; [exact Hto|]. split; [discriminate | reflexivity].
Qed.

(** The theorem at a store whose initial location has a self-loop. *)
Lemma ensureProperInitialLocation_spec_witness :
  ITS.wf selfLoopStore = true
  /\ fst (Analysis.ensureProperInitialLocation selfLoopStore) = true
  /\ ITS.hasTransitionsTo (snd (Analysis.ensureProperInitialLocation selfLoopStore))
       (ITS.getInitialLocation (snd (Analysis.ensureProperInitialLocation selfLoopStore))) = false.
Proof.
  split; [reflexivity|]. split; [reflexivity|].
  exact (proj1 (ensureProperInitialLocation_spec selfLoopStore eq_refl)).
Defined.

End GroomingFacts.

(** ** The scan of [getMaxRuntime] *)
Module ScanFacts.
Import StoreFacts Analysis.

Lemma indices_StronglySorted (its : ITSProblem) : StronglySorted Nat.lt (ITS.indices its).
Proof.
  pose proof (indices_NoDup its) as Hnd.
  assert (Hle : StronglySorted Nat.le (ITS.indices its)).
  { unfold ITS.indices. apply StronglySorted_merge_sort.
    - intros x y z. unfold Nat.le. lia.
    - intros x y. unfold Nat.le. lia. }
  induction Hle as [|x l Hs IH Hall]; [constructor|].
  apply List.NoDup_cons_iff in Hnd as [Hnot Hnd]. constructor; [auto|].
  rewrite List.Forall_forall in *. intros y Hy. specialize (Hall y Hy).
  unfold Nat.le, Nat.lt in *. assert (x <> y) by (intros ->; contradiction). lia.
Qed.

Lemma StronglySorted_filter {A} (R : A -> A -> Prop) (p : A -> bool) (l : list A) :
  StronglySorted R l -> StronglySorted R (List.filter p l).
Proof.
  induction 1 as [|x l Hs IH Hall]; cbn; [constructor|].
  destruct (p x); [|exact IH]. constructor; [exact IH|].
  rewrite List.Forall_forall in *. intros y Hy. apply filter_In in Hy as [Hy _]. auto.
Qed.

Lemma getTransitionsFrom_sorted (its : ITSProblem) (loc : LocationIdx) :
  StronglySorted Nat.lt (ITS.getTransitionsFrom its loc).
Proof. apply StronglySorted_filter, indices_StronglySorted. Qed.

Lemma Cpx_leb_gtb (a b : Complexity) : Cpx.leb a b = negb (Cpx.gtb a b).
Proof. reflexivity. Qed.

Lemma Cpx_ltb_irrefl (a : Complexity) : Cpx.ltb a a = false.
Proof.
  unfold Cpx.ltb. rewrite !Nat.ltb_irrefl. now rewrite andb_false_r.
Qed.

Lemma Cpx_geb_Infty (a : Complexity) : Cpx.geb a Infty = true <-> a = Infty.
Proof.
  destruct a; cbn; split; intros H; try discriminate; reflexivity.
Qed.

Lemma hasTempVar_mentionsTemp (its : ITSProblem) (c : Expression) :
  hasTempVar its c = true <-> mentionsTemp its c.
Proof.
  unfold hasTempVar, mentionsTemp, hasVariableWith. split.
  - intros H. apply andb_prop in H as [_ H]. apply existsb_exists in H as (v & Hv & Ht).
    exists v. split.
    + unfold VarMan.getVarIdxs in Hv. apply in_flat_map in Hv as (s & Hs & Hv).
      destruct s; cbn in Hv; try tauto. destruct Hv as [->|[]]. exact Hs.
    + unfold ITS.isTempVar in Ht. apply existsb_exists in Ht as (w & Hw & Heq).
      apply Nat.eqb_eq in Heq. now subst.
  - intros (v & Hv & Ht). apply andb_true_intro. split.
    + destruct c as [z|s|a b|a b|a b]; try reflexivity.
      destruct s; try reflexivity. cbn in Hv. destruct Hv as [H|[]]. discriminate.
    + apply existsb_exists. exists v. split.
      * unfold VarMan.getVarIdxs. apply in_flat_map. exists (SVar v). split; [exact Hv | now left].
      * unfold ITS.isTempVar. apply existsb_exists. exists v. split; [exact Ht | apply Nat.eqb_refl].
Qed.

Section Scan.

Variable ext : Collaborators.
Variable its : ITSProblem.

Lemma scanRules_app (pre post : list TransIdx) (st : Scan) :
  scanRules ext its (pre ++ post) st
  = match scanRules ext its pre st with
    | Some (st1, false) => scanRules ext its post st1
    | other => other
    end.
Proof.
  revert st; induction pre as [|idx pre IH]; intros st; cbn; [reflexivity|].
  destruct (visitRule ext its idx st) as [[st1 [|]]|]; auto.
Qed.

Lemma visitRule_total (idx : TransIdx) (st : Scan) :
  is_Some (ITS.getRule its idx) -> is_Some (visitRule ext its idx st).
Proof.
  intros [rule Hr]. unfold visitRule. rewrite Hr.
  destruct (_ && _); eauto.
Qed.

Lemma scanRules_total (rules : list TransIdx) (st : Scan) :
  (forall idx, In idx rules -> is_Some (ITS.getRule its idx)) ->
  is_Some (scanRules ext its rules st).
Proof.
  revert st; induction rules as [|idx rest IH]; intros st Hin; cbn; [eauto|].
  destruct (visitRule_total idx st) as [[st1 stop] Hv]; [apply Hin; now left|].
  rewrite Hv. destruct stop; [eauto|]. apply IH. intros i Hi. apply Hin. now right.
Qed.

(** A scan that goes on has not reached [Infty]. *)
Lemma visitRule_below_Infty (idx : TransIdx) (st st1 : Scan) :
  cpx (best st) <> Infty ->
  visitRule ext its idx st = Some (st1, false) -> cpx (best st1) <> Infty.
Proof.
  intros Hb. unfold visitRule. destruct (ITS.getRule its idx) as [rule|]; [|discriminate].
  destruct (_ && _); [intros H; inversion H; subst; cbn; exact Hb|].
  intros H. injection H as H. unfold checkRule in H.
  destruct (Cpx.gtb _ _).
  - cbn [cpx] in H. destruct (Cpx.geb _ Infty) eqn:Hge; [discriminate|].
    destruct (Timeout.hard (clock st)) as [t clk]. inversion H; subst; cbn.
    intros Heq. rewrite Heq in Hge. discriminate.
  - destruct (Timeout.hard (clock st)) as [t clk]. inversion H; subst; cbn. exact Hb.
Qed.

Lemma scanRules_below_Infty (rules : list TransIdx) (st st1 : Scan) :
  cpx (best st) <> Infty ->
  scanRules ext its rules st = Some (st1, false) -> cpx (best st1) <> Infty.
Proof.
  revert st; induction rules as [|idx rest IH]; intros st Hb; cbn.
  - intros [= <-]. exact Hb.
  - destruct (visitRule ext its idx st) as [[st2 [|]]|] eqn:Hv; try discriminate.
    apply IH. eapply visitRule_below_Infty; eauto.
Qed.

End Scan.


(** C2: with the final asymptotic check enabled, [getMaxRuntime] scans
    the rules that leave the initial location by ascending index, from the
    default result, and returns the best result of the scan.  For a rule
    [idx] that the scan reaches, with [st1] the state before it: the prover
    is called for the guard and the cost of the rule if and only if the
    complexity of the cost is greater than the best class so far or the
    cost mentions a temporary variable; the best result is kept, or the
    prover was called and answered a class greater than the best one, and
    its answer with the guard of the rule is the new best result; if the
    best class is [Infty] after the rule, the scan stops there and this
    state is the result; the scan stops there too if the hard timeout
    fires; otherwise it goes on with the rules after [idx]. *)
Theorem getMaxRuntime_scan (ext : Collaborators) (cfg : AnalysisSettings)
    (its : ITSProblem) (clk : Clock) :
  FINAL_INFINITY_CHECK cfg = true ->
  StronglySorted Nat.lt (ITS.getTransitionsFrom its (ITS.getInitialLocation its))
  /\ (exists st stop,
        scanRules ext its (ITS.getTransitionsFrom its (ITS.getInitialLocation its))
          (mkScan defaultResult clk []) = Some (st, stop)
        /\ getMaxRuntime ext cfg its clk = Some st)
  /\ forall pre idx post st1,
       ITS.getTransitionsFrom its (ITS.getInitialLocation its) = pre ++ idx :: post ->
       scanRules ext its pre (mkScan defaultResult clk []) = Some (st1, false) ->
       exists rule st2 stop ev,
         ITS.getRule its idx = Some rule
         /\ lhsLoc rule = ITS.getInitialLocation its
         /\ visitRule ext its idx st1 = Some (st2, stop)
         /\ output st2 = output st1 ++ ev
         /\ (In (ProverCall idx (guard rule) (cost rule)) ev
             <-> Cpx.gtb (getComplexity ext (cost rule)) (cpx (best st1)) = true
                 \/ mentionsTemp its (cost rule))
         /\ (best st2 = best st1
             \/ (In (ProverCall idx (guard rule) (cost rule)) ev
                 /\ Cpx.gtb (a_cpx (AsymptoticBound_determineComplexity ext its
                                      (guard rule) (cost rule) true))
                            (cpx (best st1)) = true
                 /\ best st2
                    = mkResult
                        (a_cpx (AsymptoticBound_determineComplexity ext its
                                  (guard rule) (cost rule) true))
                        (a_cost (AsymptoticBound_determineComplexity ext its
                                   (guard rule) (cost rule) true))
                        (a_reducedCpx (AsymptoticBound_determineComplexity ext its
                                         (guard rule) (cost rule) true))
                        (guard rule)))
         /\ (cpx (best st2) = Infty -> stop = true)
         /\ (stop = true -> getMaxRuntime ext cfg its clk = Some st2)
         /\ (stop = false ->
               scanRules ext its (ITS.getTransitionsFrom its (ITS.getInitialLocation its))
                 (mkScan defaultResult clk [])
               = scanRules ext its post st2).
Proof.
  intros Hcheck. split; [apply getTransitionsFrom_sorted|].
  assert (Hall : forall idx, In idx (ITS.getTransitionsFrom its (ITS.getInitialLocation its)) ->
                             is_Some (ITS.getRule its idx)).
  { intros idx Hin. apply getTransitionsFrom_In in Hin as (r & Hr & _). rewrite Hr. eauto. }
  split.
  { destruct (scanRules_total ext its _ (mkScan defaultResult clk []) Hall) as [[st stop] Hs].
    exists st, stop. split; [exact Hs|]. unfold getMaxRuntime. now rewrite Hcheck, Hs. }
  intros pre idx post st1 Hsplit Hpre.
  assert (Hin : In idx (ITS.getTransitionsFrom its (ITS.getInitialLocation its))).
  { rewrite Hsplit. apply in_or_app. right. now left. }
  apply getTransitionsFrom_In in Hin as (rule & Hr & Hlhs).
  assert (Hbelow : cpx (best st1) <> Infty).
  { eapply scanRules_below_Infty; [|exact Hpre]. cbn. discriminate. }
  assert (Hrun : forall st2 stop, visitRule ext its idx st1 = Some (st2, stop) ->
             (stop = true -> getMaxRuntime ext cfg its clk = Some st2)
             /\ (stop = false ->
                   scanRules ext its (ITS.getTransitionsFrom its (ITS.getInitialLocation its))
                     (mkScan defaultResult clk [])
                   = scanRules ext its post st2)).
  { intros st2 stop Hv. unfold getMaxRuntime. rewrite Hcheck. cbn [negb].
    rewrite Hsplit, scanRules_app, Hpre. cbn [scanRules]. rewrite Hv.
    split; intros ->; reflexivity. }
  exists rule. unfold visitRule in *. rewrite Hr in *.
  rewrite Cpx_leb_gtb in *.
  destruct (Cpx.gtb (getComplexity ext (cost rule)) (cpx (best st1))) eqn:Hgt; cbn [negb andb] in *.
  - (* the class can improve *)
    unfold checkRule in *.
    set (checkRes := AsymptoticBound_determineComplexity ext its (guard rule) (cost rule) true) in *.
    destruct (Cpx.gtb (a_cpx checkRes) (cpx (best st1))) eqn:Hbetter.
    + cbn [cpx] in *. destruct (Cpx.geb (a_cpx checkRes) Infty) eqn:Hinf.
      * eexists _, true, _. split; [reflexivity|]. split; [exact Hlhs|].
        split; [reflexivity|]. split; [cbn; rewrite <- app_assoc; reflexivity|].
        split; [split; [auto | intros _; cbn; auto]|].
        split; [right; split; [cbn; auto | split; [first [exact Hbetter | reflexivity] | reflexivity]]|].
        split; [reflexivity|]. apply Hrun. reflexivity.
      * destruct (Timeout.hard (clock st1)) as [t clk'] eqn:Hhard.
        eexists _, t, _. split; [reflexivity|]. split; [exact Hlhs|].
        split; [reflexivity|]. split; [cbn; rewrite <- app_assoc; reflexivity|].
        split; [split; [auto | intros _; cbn; auto]|].
        split; [right; split; [cbn; auto | split; [first [exact Hbetter | reflexivity] | reflexivity]]|].
        split; [cbn; intros Heq; rewrite Heq in Hinf; discriminate|].
        apply Hrun. reflexivity.
    + destruct (Timeout.hard (clock st1)) as [t clk'] eqn:Hhard.
      eexists _, t, _. split; [reflexivity|]. split; [exact Hlhs|].
      split; [reflexivity|]. split; [reflexivity|].
      split; [split; [auto | intros _; cbn; auto]|].
      split; [left; reflexivity|].
      split; [cbn; intros Heq; contradiction|].
      apply Hrun. reflexivity.
  - destruct (hasTempVar its (cost rule)) eqn:Htemp; cbn [negb] in *.
    + unfold checkRule in *.
      set (checkRes := AsymptoticBound_determineComplexity ext its (guard rule) (cost rule) true) in *.
      assert (Hm : mentionsTemp its (cost rule)) by now apply hasTempVar_mentionsTemp.
      destruct (Cpx.gtb (a_cpx checkRes) (cpx (best st1))) eqn:Hbetter.
      * cbn [cpx] in *. destruct (Cpx.geb (a_cpx checkRes) Infty) eqn:Hinf.
        -- eexists _, true, _. split; [reflexivity|]. split; [exact Hlhs|].
           split; [reflexivity|]. split; [cbn; rewrite <- app_assoc; reflexivity|].
           split; [split; [auto | intros _; cbn; auto]|].
           split; [right; split; [cbn; auto | split; [first [exact Hbetter | reflexivity] | reflexivity]]|].
           split; [reflexivity|]. apply Hrun. reflexivity.
        -- destruct (Timeout.hard (clock st1)) as [t clk'] eqn:Hhard.
           eexists _, t, _. split; [reflexivity|]. split; [exact Hlhs|].
           split; [reflexivity|]. split; [cbn; rewrite <- app_assoc; reflexivity|].
           split; [split; [auto | intros _; cbn; auto]|].
           split; [right; split; [cbn; auto | split; [first [exact Hbetter | reflexivity] | reflexivity]]|].
           split; [cbn; intros Heq; rewrite Heq in Hinf; discriminate|].
           apply Hrun. reflexivity.
      * destruct (Timeout.hard (clock st1)) as [t clk'] eqn:Hhard.
        eexists _, t, _. split; [reflexivity|]. split; [exact Hlhs|].
        split; [reflexivity|]. split; [reflexivity|].
        split; [split; [auto | intros _; cbn; auto]|].
        split; [left; reflexivity|].
        split; [cbn; intros Heq; contradiction|].
        apply Hrun. reflexivity.
    + (* skipped *)
      eexists _, false, _. split; [reflexivity|]. split; [exact Hlhs|].
      split; [reflexivity|]. split; [reflexivity|].
      split.
      { split.
        - intros [H|[]]. discriminate.
        - intros [H|H]; [discriminate|].
          apply hasTempVar_mentionsTemp in H. congruence. }
      split; [left; reflexivity|].
      split; [cbn; intros Heq; contradiction|].
      apply Hrun. reflexivity.
Qed.

(** The theorem at the store with one rule. *)
Lemma getMaxRuntime_scan_witness :
  FINAL_INFINITY_CHECK defaultSettings = true
  /\ exists st stop,
       scanRules sampleCollaborators oneRuleStore
         (ITS.getTransitionsFrom oneRuleStore (ITS.getInitialLocation oneRuleStore))
         (mkScan defaultResult quietClock []) = Some (st, stop)
       /\ getMaxRuntime sampleCollaborators defaultSettings oneRuleStore quietClock = Some st.
Proof.
  split; [reflexivity|].
  exact (proj1 (proj2 (getMaxRuntime_scan sampleCollaborators defaultSettings
                         oneRuleStore quietClock eq_refl))).
Defined.

End ScanFacts.

(** ** Removing constant paths *)
Module RemoveConstantFacts.
Import StoreFacts Analysis.

Lemma subStore_refl its : subStore its its.
Proof. repeat split; auto. Qed.

Lemma subStore_trans a b c : subStore a b -> subStore b c -> subStore a c.
Proof.
  intros (H1 & H2 & H3 & H4 & H5) (G1 & G2 & G3 & G4 & G5).
  repeat split; try congruence. auto.
Qed.

Lemma subStore_None a b idx :
  subStore a b -> ITS.getRule b idx = None -> ITS.getRule a idx = None.
Proof.
  intros [H _] Hb. destruct (ITS.getRule a idx) as [r|] eqn:Ha; [|reflexivity].
  apply H in Ha. congruence.
Qed.

Lemma subStore_Some a b idx r r' :
  subStore a b -> ITS.getRule b idx = Some r -> ITS.getRule a idx = Some r' -> r' = r.
Proof. intros [H _] Hb Ha. apply H in Ha. congruence. Qed.

Lemma getRule_removeRule its i j :
  ITS.getRule (ITS.removeRule its i) j = if decide (i = j) then None else ITS.getRule its j.
Proof.
  unfold ITS.getRule, ITS.removeRule. cbn. destruct (decide (i = j)) as [->|Hne].
  - apply lookup_delete_eq.
  - now apply lookup_delete_ne.
Qed.

Lemma subStore_removeRule its i : subStore (ITS.removeRule its i) its.
Proof.
  split; [|repeat split]. intros idx r. rewrite getRule_removeRule.
  destruct (decide (i = idx)); [discriminate | auto].
Qed.

Lemma isLinear_spec its :
  ITS.isLinear its = true <-> forall idx r, ITS.getRule its idx = Some r -> isLinearRule r = true.
Proof.
  unfold ITS.isLinear. rewrite forallb_forall. split.
  - intros H idx r Hr. assert (Hin : In idx (ITS.indices its)) by (apply indices_In; rewrite Hr; eauto).
    specialize (H idx Hin). apply ruleHas_true in H as (r' & Hr' & Hl). congruence.
  - intros H idx Hin. apply indices_In in Hin as [r Hr]. apply ruleHas_true. eauto.
Qed.

Lemma subStore_isLinear a b : subStore a b -> ITS.isLinear b = true -> ITS.isLinear a = true.
Proof.
  intros [H _] Hb. apply isLinear_spec. intros idx r Hr. apply H in Hr.
  eapply isLinear_spec; eauto.
Qed.

Lemma isLinearRule_one r l1 l2 :
  isLinearRule r = true -> In l1 (rhsLocs r) -> In l2 (rhsLocs r) -> l1 = l2.
Proof.
  unfold isLinearRule, rhsLocs. destruct (rhss r) as [|x [|y rest]]; try discriminate.
  cbn. intros _ [<-|[]] [<-|[]]. reflexivity.
Qed.

Lemma isLinearRule_target r : isLinearRule r = true -> exists l, rhsLocs r = [l].
Proof.
  unfold isLinearRule, rhsLocs. destruct (rhss r) as [|x [|y rest]]; try discriminate.
  intros _. exists (rhs_loc x). reflexivity.
Qed.

Lemma Cpx_leb_gtb_neg (a b : Complexity) : Cpx.leb a b = negb (Cpx.gtb a b).
Proof. reflexivity. Qed.

Section WithCollaborators.

Variable ext : Collaborators.

Lemma removeConstantRules_spec (idxs : list TransIdx) :
  forall its,
    List.NoDup idxs ->
    (forall i, In i idxs -> is_Some (ITS.getRule its i)) ->
    exists its',
      removeConstantRules ext idxs its = Some its'
      /\ subStore its' its
      /\ forall i r, ITS.getRule its i = Some r ->
           ITS.getRule its' i
           = if existsb (Nat.eqb i) idxs && constantCost ext r then None else Some r.
Proof.
  induction idxs as [|idx rest IH]; intros its Hnd Hall.
  - exists its. split; [reflexivity|]. split; [apply subStore_refl|]. intros i r Hr. exact Hr.
  - apply List.NoDup_cons_iff in Hnd as [Hnot Hnd].
    destruct (Hall idx) as [r0 Hr0]; [now left|]. cbn [removeConstantRules]. rewrite Hr0.
    fold (constantCost ext r0).
    destruct (constantCost ext r0) eqn:Hc.
    + destruct (IH (ITS.removeRule its idx) Hnd) as (its' & Hrun & Hsub & Hspec).
      { intros i Hi. rewrite getRule_removeRule. destruct (decide (idx = i)) as [->|_]; [contradiction|].
        apply Hall. now right. }
      exists its'. split; [exact Hrun|]. split.
      { eapply subStore_trans; [exact Hsub | apply subStore_removeRule]. }
      intros i r Hr. cbn [existsb]. destruct (Nat.eqb i idx) eqn:Heq.
      * apply Nat.eqb_eq in Heq. subst i. cbn. rewrite Hr in Hr0. injection Hr0 as ->. rewrite Hc.
        eapply subStore_None; [exact Hsub|]. rewrite getRule_removeRule.
        destruct (decide (idx = idx)); [reflexivity | contradiction].
      * apply Nat.eqb_neq in Heq. cbn. apply Hspec. rewrite getRule_removeRule.
        destruct (decide (idx = i)); [congruence | exact Hr].
    + destruct (IH its Hnd) as (its' & Hrun & Hsub & Hspec).
      { intros i Hi. apply Hall. now right. }
      exists its'. split; [exact Hrun|]. split; [exact Hsub|].
      intros i r Hr. cbn [existsb]. destruct (Nat.eqb i idx) eqn:Heq.
      * apply Nat.eqb_eq in Heq. subst i. rewrite Hr in Hr0. injection Hr0 as ->.
        rewrite (Hspec idx r0 Hr). rewrite Hc. now rewrite !andb_false_r.
      * cbn. apply Hspec. exact Hr.
Qed.

Lemma getTransitionsFromTo_NoDup its from to : List.NoDup (ITS.getTransitionsFromTo its from to).
Proof. apply List.NoDup_filter, indices_NoDup. Qed.


(** One pass of the loop body keeps the invariant. *)
Lemma LoopInv_step (its0 : ITSProblem) (curr : LocationIdx) (V : gset LocationIdx)
    (done rest : list LocationIdx) (next : LocationIdx)
    (its_t its_n its_x : ITSProblem) (V_t V_n : gset LocationIdx) (bn : bool) :
  curr ∉ V ->
  List.NoDup (done ++ next :: rest) ->
  In next (ITS.getSuccessorLocations its0 curr) ->
  LoopInv ext its0 curr V done its_t V_t ->
  CallSpec ext its_t V_t next bn its_n V_n ->
  subStore its_x its_n ->
  (forall idx r, ITS.getRule its_n idx = Some r -> ITS.getRule its_x idx = None ->
     bn = true /\ constantCost ext r = true /\ lhsLoc r = curr /\ In next (rhsLocs r)) ->
  LoopInv ext its0 curr V (done ++ [next]) its_x V_n.
Proof.
  intros Hcurr Hnd Hsucc [J1 J2 J3 J6 J7] [S1 S2 S3 S4 S5 S6] X1 X2.
  assert (Hnext : ~ In next done).
  { intros Hin. apply List.NoDup_remove_2 in Hnd. apply Hnd. apply in_or_app. now left. }
  assert (HV : forall x, x ∈ V -> x ∈ V_t).
  { intros x Hx. apply J2, elem_of_union. now right. }
  assert (HcurrVt : curr ∈ V_t).
  { apply J2, elem_of_union. left. now apply elem_of_singleton. }
  (* a rule that leaves [curr] survives the nested call *)
  assert (Hkeep : forall idx r, ITS.getRule its_t idx = Some r -> lhsLoc r = curr ->
                                ITS.getRule its_n idx = Some r).
  { intros idx r Hr Hl. destruct (ITS.getRule its_n idx) as [r'|] eqn:Hn.
    - f_equal. exact (subStore_Some _ _ _ _ _ S1 Hr Hn).
    - destruct (S4 idx r Hr Hn) as (_ & _ & Hnot). rewrite Hl in Hnot. contradiction. }
  assert (X0 : subStore its_x its0).
  { exact (subStore_trans _ _ _ X1 (subStore_trans _ _ _ S1 J1)). }
  split.
  - exact X0.
  - intros x Hx. apply S2, J2, Hx.
  - intros idx r Hr Hx.
    destruct (ITS.getRule its_t idx) as [r1|] eqn:Ht.
    + assert (r1 = r) by exact (subStore_Some _ _ _ _ _ J1 Hr Ht). subst r1.
      destruct (ITS.getRule its_n idx) as [r2|] eqn:Hn.
      * assert (r2 = r) by exact (subStore_Some _ _ _ _ _ S1 Ht Hn). subst r2.
        destruct (X2 idx r Hn Hx) as (_ & Hc & Hl & _).
        split; [exact Hc|]. rewrite Hl. split; [apply S2, HcurrVt | exact Hcurr].
      * destruct (S4 idx r Ht Hn) as (Hc & Hin & Hnot). split; [exact Hc|].
        split; [exact Hin | intros Hv; apply Hnot, HV, Hv].
    + destruct (J3 idx r Hr Ht) as (Hc & Hin & Hnot). split; [exact Hc|].
      split; [apply S2, Hin | exact Hnot].
  - intros idx r Hr Hl Hx.
    destruct (ITS.getRule its_t idx) as [r1|] eqn:Ht.
    + assert (r1 = r) by exact (subStore_Some _ _ _ _ _ J1 Hr Ht). subst r1.
      pose proof (Hkeep idx r Ht Hl) as Hn.
      destruct (X2 idx r Hn Hx) as (_ & _ & _ & Hin).
      exists next. split; [apply in_or_app; right; now left | exact Hin].
    + destruct (J6 idx r Hr Hl Ht) as (n & Hn & Hin).
      exists n. split; [apply in_or_app; now left | exact Hin].
  - intros Hlin. pose proof (proj1 (isLinear_spec its0) Hlin) as Hlin0.
    destruct (J7 Hlin) as [(idx & r & n & Hr & Hl & Hn & Hin)|(G1 & G2 & G3)].
    + (* a rule to an earlier successor is still there *)
      left. exists idx, r, n. pose proof (Hkeep idx r Hr Hl) as Hrn.
      split; [|split; [exact Hl | split; [apply in_or_app; now left | exact Hin]]].
      destruct (ITS.getRule its_x idx) as [r'|] eqn:Hx.
      * f_equal. exact (subStore_Some _ _ _ _ _ X1 Hrn Hx).
      * destruct (X2 idx r Hrn Hx) as (_ & _ & _ & Hin').
        assert (n = next); [|subst n; contradiction].
        apply (isLinearRule_one r); [|exact Hin|exact Hin'].
        exact (Hlin0 idx r (proj1 J1 idx r Hr)).
    + destruct (ITS.getTransitionsFromTo its_x curr next) as [|idx others] eqn:Hleft.
      * (* every rule from [curr] to [next] is gone *)
        right.
        assert (Hgone : forall idx r, ITS.getRule its0 idx = Some r -> lhsLoc r = curr ->
                                      In next (rhsLocs r) -> ITS.getRule its_x idx = None).
        { intros idx r Hr Hl Hin. destruct (ITS.getRule its_x idx) as [r'|] eqn:Hx; [|reflexivity].
          assert (r' = r).
          { eapply subStore_Some; [exact X0|exact Hr|exact Hx]. }
          subst r'.
          assert (Habs : In idx (ITS.getTransitionsFromTo its_x curr next)).
          { apply getTransitionsFromTo_In. eauto. }
          rewrite Hleft in Habs. destruct Habs. }
        assert (Hbn : bn = true).
        { apply getSuccessorLocations_In in Hsucc as (idx & r & Hr & Hl & Hin).
          assert (Ht : ITS.getRule its_t idx = Some r).
          { destruct (ITS.getRule its_t idx) as [r'|] eqn:Ht.
            - f_equal. exact (subStore_Some _ _ _ _ _ J1 Hr Ht).
            - destruct (J6 idx r Hr Hl Ht) as (n & Hn & Hin').
              assert (n = next); [|subst n; contradiction].
              apply (isLinearRule_one r); [|exact Hin'|exact Hin].
              exact (Hlin0 idx r Hr). }
          pose proof (Hkeep idx r Ht Hl) as Hn.
          pose proof (Hgone idx r Hr Hl Hin) as Hx.
          now destruct (X2 idx r Hn Hx). }
        split; [|split].
        -- intros n Hn. apply in_app_or in Hn as [Hn|[<-|[]]]; [|exact S3].
           apply S2, G1, Hn.
        -- intros idx r n Hr Hl Hn Hin. apply in_app_or in Hn as [Hn|[<-|[]]].
           ++ eapply subStore_None; [exact X1|]. eapply subStore_None; [exact S1|]. eauto.
           ++ eauto.
        -- intros m Hm Hnot idx r Hr Hl.
           destruct (decide (m ∈ V_t)) as [Hmt|Hmt].
           ++ destruct (G3 m Hmt Hnot idx r Hr Hl) as [Hg Ht]. split.
              ** eapply subStore_None; [exact X1|]. eapply subStore_None; [exact S1|]. exact Hg.
              ** intros l Hin. apply S2, Ht, Hin.
           ++ assert (Hnv : next ∉ V_t).
              { intros Hin. destruct (S6 Hin) as (_ & _ & ->). contradiction. }
              assert (Ht : ITS.getRule its_t idx = Some r).
              { destruct (ITS.getRule its_t idx) as [r'|] eqn:Ht.
                - f_equal. exact (subStore_Some _ _ _ _ _ J1 Hr Ht).
                - destruct (J3 idx r Hr Ht) as (_ & Hin & _). rewrite Hl in Hin. contradiction. }
              destruct (S5 (subStore_isLinear _ _ J1 Hlin) Hbn Hnv m Hm Hmt idx r Ht Hl) as [Hg Hcl].
              split; [|exact Hcl]. eapply subStore_None; [exact X1 | exact Hg].
      * (* a rule from [curr] to [next] is left *)
        left. assert (Hin : In idx (ITS.getTransitionsFromTo its_x curr next)).
        { rewrite Hleft. now left. }
        apply getTransitionsFromTo_In in Hin as (r & Hr & Hl & Hin).
        exists idx, r, next. split; [exact Hr|]. split; [exact Hl|].
        split; [apply in_or_app; right; now left | exact Hin].
Qed.


(** When the loop is left, the invariant gives what the call promises. *)
Lemma LoopInv_CallSpec (its0 : ITSProblem) (curr : LocationIdx) (V : gset LocationIdx)
    (done : list LocationIdx) (its_t : ITSProblem) (V_t : gset LocationIdx) (b : bool) :
  curr ∉ V ->
  LoopInv ext its0 curr V done its_t V_t ->
  (b = true -> done = ITS.getSuccessorLocations its0 curr
               /\ ITS.getTransitionsFrom its_t curr = []) ->
  CallSpec ext its0 V curr b its_t V_t.
Proof.
  intros Hcurr [J1 J2 J3 J6 J7] Hb.
  assert (HcurrVt : curr ∈ V_t).
  { apply J2, elem_of_union. left. now apply elem_of_singleton. }
  split; auto.
  - intros x Hx. apply J2, elem_of_union. now right.
  - intros Hlin Htrue _ m Hm Hnot idx r Hr Hl.
    destruct (Hb Htrue) as [-> Hnone].
    pose proof (proj1 (isLinear_spec its0) Hlin) as Hlin0.
    destruct (J7 Hlin) as [(idx' & r' & n & Hr' & Hl' & _)|(G1 & G2 & G3)].
    { assert (Habs : In idx' (ITS.getTransitionsFrom its_t curr)).
      { apply getTransitionsFrom_In. eauto. }
      rewrite Hnone in Habs. destruct Habs. }
    destruct (decide (m = curr)) as [->|Hne].
    + assert (Hsucc : forall l, In l (rhsLocs r) -> In l (ITS.getSuccessorLocations its0 curr)).
      { intros l Hin. apply getSuccessorLocations_In. eauto. }
      split.
      * destruct (isLinearRule_target r (Hlin0 idx r Hr)) as [l Hl1].
        assert (Hin : In l (rhsLocs r)) by (rewrite Hl1; now left).
        apply (G2 idx r l Hr Hl); [apply Hsucc, Hin | exact Hin].
      * intros l Hin. apply G1, Hsucc, Hin.
    + apply (G3 m Hm); auto. intros Hin. apply elem_of_union in Hin as [Hin|Hin]; [|contradiction].
      apply elem_of_singleton in Hin. contradiction.
  - intros Hin. contradiction.
Qed.

Lemma visitSuccessors_spec
    (impl : ITSProblem -> Clock -> LocationIdx -> gset LocationIdx ->
            option (bool * ITSProblem * Clock * gset LocationIdx)) :
  (forall its clk curr V b its' clk' V',
      impl its clk curr V = Some (b, its', clk', V') -> CallSpec ext its V curr b its' V') ->
  forall rest done its0 curr V its_t clk_t V_t b its' clk' V',
    curr ∉ V ->
    ITS.getSuccessorLocations its0 curr = done ++ rest ->
    LoopInv ext its0 curr V done its_t V_t ->
    visitSuccessors ext impl curr rest its_t clk_t V_t = Some (b, its', clk', V') ->
    CallSpec ext its0 V curr b its' V'.
Proof.
  intros IH. induction rest as [|next rest IHrest];
    intros done its0 curr V its_t clk_t V_t b its' clk' V' Hcurr Hsuccs Hinv Hrun.
  - cbn in Hrun. injection Hrun as <- <- <- <-. rewrite app_nil_r in Hsuccs.
    apply (LoopInv_CallSpec its0 curr V done); auto.
    intros Hb. split; [auto|].
    destruct (ITS.getTransitionsFrom its_t curr); [reflexivity | discriminate].
  - cbn [visitSuccessors] in Hrun.
    destruct (Timeout.hard clk_t) as [[|] clk1].
    { injection Hrun as <- <- <- <-.
      apply (LoopInv_CallSpec its0 curr V done); auto. discriminate. }
    destruct (impl its_t clk1 next V_t) as [[[[bn its_n] clk_n] V_n]|] eqn:Hnested; [|discriminate].
    pose proof (IH _ _ _ _ _ _ _ _ Hnested) as Hspec.
    assert (Hnd : List.NoDup (done ++ next :: rest)).
    { rewrite <- Hsuccs. apply NoDup_nodup. }
    assert (Hin : In next (ITS.getSuccessorLocations its0 curr)).
    { rewrite Hsuccs. apply in_or_app. right. now left. }
    assert (Hsuccs' : ITS.getSuccessorLocations its0 curr = (done ++ [next]) ++ rest).
    { rewrite Hsuccs, <- app_assoc. reflexivity. }
    destruct bn.
    + destruct (removeConstantRules_spec (ITS.getTransitionsFromTo its_n curr next) its_n)
        as (its_r & Hrem & Hsub & Hrules).
      { apply getTransitionsFromTo_NoDup. }
      { intros i Hi. apply getTransitionsFromTo_In in Hi as (r & Hr & _). rewrite Hr. eauto. }
      rewrite Hrem in Hrun.
      apply (IHrest (done ++ [next]) its0 curr V its_r clk_n V_n b its' clk' V'); auto.
      apply (LoopInv_step its0 curr V done rest next its_t its_n its_r V_t V_n true); auto.
      intros idx r Hr Hx. rewrite (Hrules idx r Hr) in Hx.
      destruct (existsb (Nat.eqb idx) (ITS.getTransitionsFromTo its_n curr next)) eqn:Hex;
        [|discriminate].
      destruct (constantCost ext r) eqn:Hc; [|discriminate].
      apply existsb_exists in Hex as (i & Hi & Heq). apply Nat.eqb_eq in Heq. subst i.
      apply getTransitionsFromTo_In in Hi as (r' & Hr' & Hl & Hto).
      rewrite Hr in Hr'. injection Hr' as <-. auto.
    + apply (IHrest (done ++ [next]) its0 curr V its_n clk_n V_n b its' clk' V'); auto.
      apply (LoopInv_step its0 curr V done rest next its_t its_n its_n V_t V_n false); auto.
      * apply subStore_refl.
      * intros idx r Hr Hx. congruence.
Qed.

Lemma removeConstantPathsImpl_spec (fuel : nat) :
  forall its clk curr V b its' clk' V',
    removeConstantPathsImpl ext fuel its clk curr V = Some (b, its', clk', V') ->
    CallSpec ext its V curr b its' V'.
Proof.
  induction fuel as [|fuel IH]; intros its clk curr V b its' clk' V' Hrun; [discriminate|].
  cbn [removeConstantPathsImpl] in Hrun. case_bool_decide as Hin.
  - injection Hrun as <- <- <- <-. split; auto.
    + apply subStore_refl.
    + intros idx r Hr Hn. congruence.
    + intros _ _ Hnot. contradiction.
  - apply (visitSuccessors_spec (removeConstantPathsImpl ext fuel) IH
             (ITS.getSuccessorLocations its curr) [] its curr V its clk ({[curr]} ∪ V)
             b its' clk' V');
      auto.
    split.
    + apply subStore_refl.
    + reflexivity.
    + intros idx r Hr Hn. congruence.
    + intros idx r Hr _ Hn. congruence.
    + intros _. right. split; [intros n []|]. split; [intros idx r n _ _ []|].
      intros m Hm Hnot. contradiction.
Qed.

(** Everything that can be reached from a location whose call answers
    [true] has been visited by the call. *)
Lemma Reach_visited (its : ITSProblem) (V : gset LocationIdx) (curr : LocationIdx)
    (its' : ITSProblem) (V' : gset LocationIdx) (n : LocationIdx) :
  CallSpec ext its V curr true its' V' ->
  ITS.isLinear its = true -> curr ∉ V ->
  Reach its V curr n -> n ∈ V' /\ n ∉ V.
Proof.
  intros Hspec Hlin Hcurr Hreach. induction Hreach as [a Ha|a m n idx r Hreach IH Hr Hl Hin Hn].
  - split; [eapply cs_curr; eauto | exact Ha].
  - destruct (IH Hspec Hcurr) as [Hm Hnot]. split; [|exact Hn].
    destruct (cs_closed _ _ _ _ _ _ _ Hspec Hlin eq_refl Hcurr m Hm Hnot idx r Hr Hl) as [_ Hcl].
    apply Hcl, Hin.
Qed.


(** *** The traversal ends *)

Lemma targets_In (its : ITSProblem) (l : LocationIdx) :
  l ∈ targets its <-> exists idx r, ITS.getRule its idx = Some r /\ In l (rhsLocs r).
Proof.
  unfold targets. rewrite elem_of_list_to_set, list_elem_of_In, in_flat_map. split.
  - intros (idx & _ & H). destruct (ITS.getRule its idx) as [r|] eqn:Hr; [eauto | destruct H].
  - intros (idx & r & Hr & Hin). exists idx. split.
    + apply indices_In. rewrite Hr. eauto.
    + now rewrite Hr.
Qed.

Lemma subStore_targets (a b : ITSProblem) (l : LocationIdx) :
  subStore a b -> l ∈ targets a -> l ∈ targets b.
Proof.
  intros [H _] Hl. apply targets_In in Hl as (idx & r & Hr & Hin).
  apply targets_In. exists idx, r. split; [apply H, Hr | exact Hin].
Qed.

Lemma visitSuccessors_total (fuel : nat) (U : gset LocationIdx) :
  (forall its clk curr V,
      (forall l, l ∈ targets its -> l ∈ U) -> curr ∈ U -> size (U ∖ V) < fuel ->
      is_Some (removeConstantPathsImpl ext fuel its clk curr V)) ->
  forall rest curr its clk V,
    (forall l, l ∈ targets its -> l ∈ U) ->
    (forall l, In l rest -> l ∈ U) ->
    size (U ∖ V) < fuel ->
    is_Some (visitSuccessors ext (removeConstantPathsImpl ext fuel) curr rest its clk V).
Proof.
  intros IH. induction rest as [|next rest IHrest]; intros curr its clk V HU Hrest Hsize.
  - cbn. eauto.
  - cbn [visitSuccessors]. destruct (Timeout.hard clk) as [[|] clk1]; [eauto|].
    destruct (IH its clk1 next V HU) as [[[[bn its_n] clk_n] V_n] Hnested];
      [apply Hrest; now left | exact Hsize |].
    rewrite Hnested. apply removeConstantPathsImpl_spec in Hnested as [S1 S2 _ _ _ _].
    assert (Hsize' : size (U ∖ V_n) < fuel).
    { eapply Nat.le_lt_trans; [|exact Hsize]. apply subseteq_size.
      intros x Hx. apply elem_of_difference in Hx as [Hx Hnot]. apply elem_of_difference.
      split; [exact Hx|]. intros Hv. apply Hnot, S2, Hv. }
    assert (HU' : forall l, l ∈ targets its_n -> l ∈ U).
    { intros l Hl. apply HU. eapply subStore_targets; eauto. }
    destruct bn.
    + destruct (removeConstantRules_spec (ITS.getTransitionsFromTo its_n curr next) its_n)
        as (its_r & Hrem & Hsub & _).
      { apply getTransitionsFromTo_NoDup. }
      { intros i Hi. apply getTransitionsFromTo_In in Hi as (r & Hr & _). rewrite Hr. eauto. }
      rewrite Hrem. apply IHrest; auto.
      * intros l Hl. apply HU'. eapply subStore_targets; eauto.
      * intros l Hl. apply Hrest. now right.
    + apply IHrest; auto. intros l Hl. apply Hrest. now right.
Qed.

Lemma removeConstantPathsImpl_total (U : gset LocationIdx) (fuel : nat) :
  forall its clk curr V,
    (forall l, l ∈ targets its -> l ∈ U) -> curr ∈ U -> size (U ∖ V) < fuel ->
    is_Some (removeConstantPathsImpl ext fuel its clk curr V).
Proof.
  induction fuel as [|fuel IH]; intros its clk curr V HU Hcurr Hsize; [lia|].
  cbn [removeConstantPathsImpl]. case_bool_decide as Hin; [eauto|].
  assert (Hless : size (U ∖ ({[curr]} ∪ V)) < size (U ∖ V)).
  { apply subset_size. split.
    - intros x Hx. apply elem_of_difference in Hx as [Hx Hnot]. apply elem_of_difference.
      split; [exact Hx|]. intros Hv. apply Hnot, elem_of_union. now right.
    - intros Hsub. assert (Hc : curr ∈ U ∖ ({[curr]} ∪ V)).
      { apply Hsub, elem_of_difference. split; assumption. }
      apply elem_of_difference in Hc as [_ Hc]. apply Hc, elem_of_union. left.
      now apply elem_of_singleton. }
  destruct fuel as [|fuel]; [lia|].
  apply (visitSuccessors_total (S fuel) U IH); auto; [|lia].
  intros l Hl. apply HU, targets_In. apply getSuccessorLocations_In in Hl as (idx & r & Hr & _ & Hin').
  eauto.
Qed.


(** *** The calls of the traversal and the rules they remove *)

(** The loop, run over the successors it has gone through, is where the
    relation says. *)
Lemma loopReaches_run
    (impl : ITSProblem -> Clock -> LocationIdx -> gset LocationIdx ->
            option (bool * ITSProblem * Clock * gset LocationIdx))
    (curr : LocationIdx) (its0 : ITSProblem) (clk0 : Clock) (V0 : gset LocationIdx)
    (done : list LocationIdx) (its_t : ITSProblem) (clk_t : Clock) (V_t : gset LocationIdx) :
  loopReaches ext impl curr its0 clk0 V0 done its_t clk_t V_t ->
  forall rest,
    visitSuccessors ext impl curr (done ++ rest) its0 clk0 V0
    = visitSuccessors ext impl curr rest its_t clk_t V_t.
Proof.
  induction 1 as [|done next its_t its_n its_x clk_t clk1 clk_n V_t V_n bn Hreach IH
                   Hpoll Hcall Hrem]; intros rest; [reflexivity|].
  rewrite <- app_assoc. cbn [app]. rewrite IH. cbn [visitSuccessors].
  rewrite Hpoll, Hcall. destruct bn; [now rewrite Hrem | now injection Hrem as ->].
Qed.

Lemma removeConstantRules_run (its : ITSProblem) (from to : LocationIdx) :
  exists its',
    removeConstantRules ext (ITS.getTransitionsFromTo its from to) its = Some its'
    /\ subStore its' its
    /\ forall i r, ITS.getRule its i = Some r -> lhsLoc r = from -> In to (rhsLocs r) ->
         constantCost ext r = true -> ITS.getRule its' i = None.
Proof.
  destruct (removeConstantRules_spec (ITS.getTransitionsFromTo its from to) its)
    as (its' & Hrem & Hsub & Hrules).
  { apply getTransitionsFromTo_NoDup. }
  { intros i Hi. apply getTransitionsFromTo_In in Hi as (r & Hr & _). rewrite Hr. eauto. }
  exists its'. split; [exact Hrem|]. split; [exact Hsub|].
  intros i r Hr Hfrom Hto Hc. rewrite (Hrules i r Hr), Hc, andb_true_r.
  replace (existsb (Nat.eqb i) (ITS.getTransitionsFromTo its from to)) with true;
    [reflexivity|].
  symmetry. apply existsb_exists. exists i. split; [|apply Nat.eqb_refl].
  apply getTransitionsFromTo_In. eauto.
Qed.

(** The loop adds no rule and changes none. *)
Lemma visitSuccessors_sub (fuel : nat) (curr : LocationIdx) (rest : list LocationIdx) :
  forall its clk V b its' clk' V',
    visitSuccessors ext (removeConstantPathsImpl ext fuel) curr rest its clk V
    = Some (b, its', clk', V') ->
    subStore its' its.
Proof.
  induction rest as [|next rest IH]; intros its clk V b its' clk' V'; cbn [visitSuccessors].
  - intros [= _ <- _ _]. apply subStore_refl.
  - destruct (Timeout.hard clk) as [[|] clk1]; [intros [= _ <- _ _]; apply subStore_refl|].
    destruct (removeConstantPathsImpl ext fuel its clk1 next V)
      as [[[[bn its_n] clk_n] V_n]|] eqn:Hcall; [|discriminate].
    apply removeConstantPathsImpl_spec in Hcall. pose proof (cs_sub _ _ _ _ _ _ _ Hcall) as Hsub.
    destruct bn.
    + destruct (removeConstantRules_run its_n curr next) as (its_r & Hrem & Hsubr & _).
      rewrite Hrem. intros Hrun. apply IH in Hrun.
      exact (subStore_trans _ _ _ Hrun (subStore_trans _ _ _ Hsubr Hsub)).
    + intros Hrun. apply IH in Hrun. exact (subStore_trans _ _ _ Hrun Hsub).
Qed.

(** A call that the loop makes returns when the loop does; what it leaves
    in the store is all that the loop can leave; and after the answer
    [true] the rules of constant or unknown cost to the successor are
    removed for good. *)
Lemma callsDirectly_removed (c c' : Call) (b : bool) (its' : ITSProblem) (clk' : Clock)
    (V' : gset LocationIdx) :
  callsDirectly ext c c' ->
  answer ext c = Some (b, its', clk', V') ->
  exists bn its_n clk_n V_n,
    answer ext c' = Some (bn, its_n, clk_n, V_n)
    /\ subStore its' its_n
    /\ (bn = true ->
        forall idx r, ITS.getRule its_n idx = Some r -> lhsLoc r = c_curr c ->
          In (c_curr c') (rhsLocs r) -> constantCost ext r = true ->
          ITS.getRule its' idx = None).
Proof.
  intros Hcalls. destruct Hcalls as [f its its_t clk clk_t clk1 curr next V V_t done rest
                                      Hcurr Hsuccs Hreach Hpoll].
  unfold answer. cbn [c_fuel c_its c_clk c_curr c_visited removeConstantPathsImpl].
  rewrite bool_decide_eq_false_2 by exact Hcurr.
  rewrite Hsuccs, (loopReaches_run _ _ _ _ _ _ _ _ _ Hreach). cbn [visitSuccessors].
  rewrite Hpoll.
  destruct (removeConstantPathsImpl ext f its_t clk1 next V_t)
    as [[[[bn its_n] clk_n] V_n]|] eqn:Hcall; [|discriminate].
  intros Hrun. exists bn, its_n, clk_n, V_n. split; [reflexivity|].
  destruct bn.
  - destruct (removeConstantRules_run its_n curr next) as (its_r & Hrem & Hsubr & Hgone).
    rewrite Hrem in Hrun. apply visitSuccessors_sub in Hrun.
    split; [exact (subStore_trans _ _ _ Hrun Hsubr)|].
    intros _ idx r Hr Hfrom Hto Hc. eapply subStore_None; [exact Hrun|]. eauto.
  - apply visitSuccessors_sub in Hrun. split; [exact Hrun | discriminate].
Qed.

Lemma madeWithin_removed (c c' : Call) (m : LocationIdx) :
  madeWithin ext c m c' ->
  forall b its' clk' V',
    answer ext c = Some (b, its', clk', V') ->
    exists bn its_n clk_n V_n,
      answer ext c' = Some (bn, its_n, clk_n, V_n)
      /\ subStore its' its_n
      /\ (bn = true ->
          forall idx r, ITS.getRule its_n idx = Some r -> lhsLoc r = m ->
            In (c_curr c') (rhsLocs r) -> constantCost ext r = true ->
            ITS.getRule its' idx = None).
Proof.
  induction 1 as [c c' Hcalls|c c1 c' m Hcalls Hwithin IH]; intros b its' clk' V' Hrun.
  - exact (callsDirectly_removed c c' b its' clk' V' Hcalls Hrun).
  - destruct (callsDirectly_removed c c1 b its' clk' V' Hcalls Hrun)
      as (b1 & its_1 & clk_1 & V_1 & Hrun1 & Hsub1 & _).
    destruct (IH b1 its_1 clk_1 V_1 Hrun1) as (bn & its_n & clk_n & V_n & Hrunn & Hsubn & Hgone).
    exists bn, its_n, clk_n, V_n. split; [exact Hrunn|].
    split; [exact (subStore_trans _ _ _ Hsub1 Hsubn)|].
    intros Hbn idx r Hr Hfrom Hto Hc. eapply subStore_None; [exact Hsub1|]. eauto.
Qed.

(** A call at a location that was visited answers [true]. *)
Lemma answer_seen (c : Call) (bn : bool) (its_n : ITSProblem) (clk_n : Clock)
    (V_n : gset LocationIdx) :
  answer ext c = Some (bn, its_n, clk_n, V_n) -> c_curr c ∈ c_visited c -> bn = true.
Proof.
  intros Hrun Hin. apply removeConstantPathsImpl_spec in Hrun.
  now destruct (cs_seen _ _ _ _ _ _ _ Hrun Hin).
Qed.

(** A rule is removed only after a traversal of one of its targets, called
    by the loop at its source, has answered [true]. *)
Lemma removed_visitSuccessors (f : nat) (its0 : ITSProblem) (clk0 : Clock)
    (curr : LocationIdx) (V : gset LocationIdx) :
  curr ∉ V ->
  (forall c b its' clk' V' idx r,
      c_fuel c = f -> answer ext c = Some (b, its', clk', V') ->
      ITS.getRule (c_its c) idx = Some r -> ITS.getRule its' idx = None ->
      exists c' its_n clk_n V_n,
        madeWithin ext c (lhsLoc r) c' /\ In (c_curr c') (rhsLocs r)
        /\ answer ext c' = Some (true, its_n, clk_n, V_n)) ->
  forall rest done its_t clk_t V_t b its' clk' V' idx r,
    ITS.getSuccessorLocations its0 curr = done ++ rest ->
    loopReaches ext (removeConstantPathsImpl ext f) curr its0 clk0 ({[curr]} ∪ V)
                done its_t clk_t V_t ->
    visitSuccessors ext (removeConstantPathsImpl ext f) curr rest its_t clk_t V_t
    = Some (b, its', clk', V') ->
    ITS.getRule its_t idx = Some r -> ITS.getRule its' idx = None ->
    exists c' its_n clk_n V_n,
      madeWithin ext (mkCall (S f) its0 clk0 curr V) (lhsLoc r) c'
      /\ In (c_curr c') (rhsLocs r)
      /\ answer ext c' = Some (true, its_n, clk_n, V_n).
Proof.
  intros Hcurr IHf. induction rest as [|next rest IH];
    intros done its_t clk_t V_t b its' clk' V' idx r Hsuccs Hreach Hrun Hr Hgone.
  - cbn in Hrun. injection Hrun as _ <- _ _. congruence.
  - cbn [visitSuccessors] in Hrun.
    destruct (Timeout.hard clk_t) as [[|] clk1] eqn:Hpoll;
      [injection Hrun as _ <- _ _; congruence|].
    destruct (removeConstantPathsImpl ext f its_t clk1 next V_t)
      as [[[[bn its_n] clk_n] V_n]|] eqn:Hcall; [|discriminate].
    assert (Hdirect : callsDirectly ext (mkCall (S f) its0 clk0 curr V)
                                    (mkCall f its_t clk1 next V_t)).
    { eapply calls_intro; eauto. }
    assert (Hsuccs' : ITS.getSuccessorLocations its0 curr = (done ++ [next]) ++ rest).
    { rewrite Hsuccs, <- app_assoc. reflexivity. }
    destruct (ITS.getRule its_n idx) as [r'|] eqn:Hn.
    + assert (r' = r).
      { apply removeConstantPathsImpl_spec in Hcall.
        exact (subStore_Some _ _ _ _ _ (cs_sub _ _ _ _ _ _ _ Hcall) Hr Hn). }
      subst r'. destruct bn.
      * destruct (removeConstantRules_spec (ITS.getTransitionsFromTo its_n curr next) its_n)
          as (its_r & Hrem & Hsubr & Hrules).
        { apply getTransitionsFromTo_NoDup. }
        { intros i Hi. apply getTransitionsFromTo_In in Hi as (r0 & Hr0 & _).
          rewrite Hr0. eauto. }
        rewrite Hrem in Hrun.
        destruct (ITS.getRule its_r idx) as [r'|] eqn:Hx.
        -- assert (r' = r) by exact (subStore_Some _ _ _ _ _ Hsubr Hn Hx). subst r'.
           apply (IH (done ++ [next]) its_r clk_n V_n b its' clk' V' idx r); auto.
           eapply loop_next; eauto.
        -- rewrite (Hrules idx r Hn) in Hx.
           destruct (existsb (Nat.eqb idx) (ITS.getTransitionsFromTo its_n curr next)) eqn:Hex;
             [|discriminate].
           apply existsb_exists in Hex as (i & Hi & Heq). apply Nat.eqb_eq in Heq. subst i.
           apply getTransitionsFromTo_In in Hi as (r' & Hr' & Hl & Hto).
           rewrite Hn in Hr'. injection Hr' as <-.
           exists (mkCall f its_t clk1 next V_t), its_n, clk_n, V_n.
           split; [|split; [exact Hto | exact Hcall]].
           rewrite Hl. exact (made_here ext _ _ Hdirect).
      * apply (IH (done ++ [next]) its_n clk_n V_n b its' clk' V' idx r); auto.
        eapply loop_next; eauto.
    + destruct (IHf (mkCall f its_t clk1 next V_t) bn its_n clk_n V_n idx r
                    eq_refl Hcall Hr Hn) as (c' & its_m & clk_m & V_m & Hwithin & Hto & Hans).
      exists c', its_m, clk_m, V_m. split; [|split; assumption].
      exact (made_below ext _ _ _ _ Hdirect Hwithin).
Qed.

Lemma removed_madeWithin (fuel : nat) :
  forall c b its' clk' V' idx r,
    c_fuel c = fuel -> answer ext c = Some (b, its', clk', V') ->
    ITS.getRule (c_its c) idx = Some r -> ITS.getRule its' idx = None ->
    exists c' its_n clk_n V_n,
      madeWithin ext c (lhsLoc r) c' /\ In (c_curr c') (rhsLocs r)
      /\ answer ext c' = Some (true, its_n, clk_n, V_n).
Proof.
  induction fuel as [|f IH]; intros [f0 its clk curr V] b its' clk' V' idx r Hfuel Hrun Hr Hgone;
    cbn [c_fuel c_its] in *; subst f0; unfold answer in Hrun;
    cbn [c_fuel c_its c_clk c_curr c_visited] in Hrun; [discriminate|].
  cbn [removeConstantPathsImpl] in Hrun. case_bool_decide as Hin.
  - injection Hrun as _ <- _ _. congruence.
  - exact (removed_visitSuccessors f its clk curr V Hin IH
             (ITS.getSuccessorLocations its curr) [] its clk ({[curr]} ∪ V)
             b its' clk' V' idx r eq_refl
             (loop_start ext _ curr its clk ({[curr]} ∪ V)) Hrun Hr Hgone).
Qed.

(** C8 (amended): with fuel for the locations not yet visited,
    [removeConstantPathsImpl] returns; called at the initial location with
    no location visited, its store and clock are the ones that
    [removeConstantPathsAfterTimeout] leaves.  Every rule whose cost has a
    complexity greater than [Const] is kept; no rule is added or changed.
    At a location that was visited before, the answer is [true] and the
    store is left as it is.  At a location not visited before, in a store
    with linear rules only, the answer [true] means that every rule that
    leaves a location reachable over locations not visited before has a
    cost of complexity at most [Const], and has been removed.  The rules
    that are removed are these: whenever, in the course of the call, the
    loop at a location [m] calls the traversal of a successor [n], this
    traversal returns; it answers [true] if [n] was visited before; and
    when it answers [true], every rule from [m] to [n] whose cost has a
    complexity of at most [Const] is removed, whatever is reachable from
    [n].  No other rule is removed: a rule that is removed has a cost of
    complexity at most [Const], and the traversal of one of its targets,
    called by the loop at its source, has answered [true]. *)
Theorem removeConstantPaths_sound (fuel : nat) (its : ITSProblem) (clk : Clock)
    (curr : LocationIdx) (V : gset LocationIdx) :
  size (({[curr]} ∪ targets its) ∖ V) < fuel ->
  exists b its' clk' V',
    removeConstantPathsImpl ext fuel its clk curr V = Some (b, its', clk', V')
    /\ (curr = ITS.getInitialLocation its -> V = ∅ ->
          removeConstantPathsAfterTimeout ext fuel its clk = Some (its', clk'))
    /\ (forall idx r, ITS.getRule its idx = Some r ->
          Cpx.gtb (getComplexity ext (cost r)) Const = true ->
          ITS.getRule its' idx = Some r)
    /\ (forall idx r, ITS.getRule its' idx = Some r -> ITS.getRule its idx = Some r)
    /\ (curr ∈ V -> b = true /\ its' = its)
    /\ (ITS.isLinear its = true -> curr ∉ V -> b = true ->
          forall n idx r,
            Reach its V curr n -> ITS.getRule its idx = Some r -> lhsLoc r = n ->
            Cpx.leb (getComplexity ext (cost r)) Const = true
            /\ ITS.getRule its' idx = None)
    /\ (forall m c',
          madeWithin ext (mkCall fuel its clk curr V) m c' ->
          exists bn its_n clk_n V_n,
            answer ext c' = Some (bn, its_n, clk_n, V_n)
            /\ (c_curr c' ∈ c_visited c' -> bn = true)
            /\ (bn = true ->
                forall idx r, ITS.getRule its idx = Some r -> lhsLoc r = m ->
                  In (c_curr c') (rhsLocs r) ->
                  Cpx.leb (getComplexity ext (cost r)) Const = true ->
                  ITS.getRule its' idx = None))
    /\ (forall idx r, ITS.getRule its idx = Some r -> ITS.getRule its' idx = None ->
          Cpx.leb (getComplexity ext (cost r)) Const = true
          /\ exists c' its_n clk_n V_n,
               madeWithin ext (mkCall fuel its clk curr V) (lhsLoc r) c'
               /\ In (c_curr c') (rhsLocs r)
               /\ answer ext c' = Some (true, its_n, clk_n, V_n)).
Proof.
  intros Hfuel.
  destruct (removeConstantPathsImpl_total ({[curr]} ∪ targets its) fuel its clk curr V)
    as [[[[b its'] clk'] V'] Hrun]; auto.
  { intros l Hl. apply elem_of_union. now right. }
  { apply elem_of_union. left. now apply elem_of_singleton. }
  exists b, its', clk', V'. split; [exact Hrun|].
  pose proof (removeConstantPathsImpl_spec fuel _ _ _ _ _ _ _ _ Hrun) as Hspec.
  split.
  { intros -> ->. unfold removeConstantPathsAfterTimeout. now rewrite Hrun. }
  split.
  { intros idx r Hr Hgt. destruct (ITS.getRule its' idx) as [r'|] eqn:Hr'.
    - f_equal. exact (subStore_Some _ _ _ _ _ (cs_sub _ _ _ _ _ _ _ Hspec) Hr Hr').
    - destruct (cs_removed _ _ _ _ _ _ _ Hspec idx r Hr Hr') as [Hc _].
      unfold constantCost in Hc. rewrite Cpx_leb_gtb_neg in Hc. rewrite Hgt in Hc. discriminate. }
  split; [exact (proj1 (cs_sub _ _ _ _ _ _ _ Hspec))|].
  split.
  { intros Hin. destruct (cs_seen _ _ _ _ _ _ _ Hspec Hin) as (? & ? & _). auto. }
  split.
  { intros Hlin Hcurr -> n idx r Hreach Hr Hl.
    destruct (Reach_visited its V curr its' V' n Hspec Hlin Hcurr Hreach) as [Hn Hnot].
    destruct (cs_closed _ _ _ _ _ _ _ Hspec Hlin eq_refl Hcurr n Hn Hnot idx r Hr Hl)
      as [Hgone _].
    split; [|exact Hgone].
    now destruct (cs_removed _ _ _ _ _ _ _ Hspec idx r Hr Hgone). }
  split.
  { intros m c' Hwithin.
    destruct (madeWithin_removed _ _ _ Hwithin b its' clk' V' Hrun)
      as (bn & its_n & clk_n & V_n & Hans & Hsub & Hgone).
    exists bn, its_n, clk_n, V_n. split; [exact Hans|].
    split; [exact (answer_seen c' bn its_n clk_n V_n Hans)|].
    intros Hbn idx r Hr Hfrom Hto Hc.
    destruct (ITS.getRule its' idx) as [r'|] eqn:Hr'; [|reflexivity].
    pose proof (proj1 Hsub idx r' Hr') as Hn.
    assert (r' = r).
    { exact (subStore_Some _ _ _ _ _ (cs_sub _ _ _ _ _ _ _ Hspec) Hr Hr'). }
    subst r'. rewrite <- Hr'. exact (Hgone Hbn idx r Hn Hfrom Hto Hc). }
  intros idx r Hr Hgone.
  split; [now destruct (cs_removed _ _ _ _ _ _ _ Hspec idx r Hr Hgone)|].
  exact (removed_madeWithin fuel (mkCall fuel its clk curr V) b its' clk' V' idx r
           eq_refl Hrun Hr Hgone).
Qed.

End WithCollaborators.
Lemma loopStore_fuel : size (({[0]} ∪ targets loopStore) ∖ ∅) < 6.
Proof. apply Nat.ltb_lt. vm_compute. reflexivity. Defined.

(** The theorem at the store with a loop between the locations 1 and 2.
    The rule 3, of cost [x], is kept.  The loop at the location 2 calls the
    traversal of the location 1, which was visited: it answers [true], and
    the rule 2 from 2 to 1, of cost 1, is removed. *)
Lemma removeConstantPaths_sound_witness :
  size (({[0]} ∪ targets loopStore) ∖ ∅) < 6
  /\ exists b its' clk' V',
       removeConstantPathsImpl sampleCollaborators 6 loopStore quietClock 0 ∅
       = Some (b, its', clk', V')
       /\ ITS.getRule its' 3 = Some (linearRule 1 3 (Sym (SVar 0)))
       /\ ITS.getRule its' 2 = None.
Proof.
  split; [exact loopStore_fuel|].
  destruct (removeConstantPaths_sound sampleCollaborators 6 loopStore
              quietClock 0 ∅ loopStore_fuel)
    as (b & its' & clk' & V' & Hrun & _ & Hkeep & _ & _ & _ & Hremoved & _).
  exists b, its', clk', V'. split; [exact Hrun|].
  split; [apply Hkeep; reflexivity|].
  set (clk1 := snd (Timeout.hard quietClock)).
  set (clk2 := snd (Timeout.hard clk1)).
  set (clk3 := snd (Timeout.hard clk2)).
  set (c1 := mkCall 5 loopStore clk1 1 ({[0]} ∪ ∅)).
  set (c2 := mkCall 4 loopStore clk2 2 ({[1]} ∪ ({[0]} ∪ ∅))).
  set (c3 := mkCall 3 loopStore clk3 1 ({[2]} ∪ ({[1]} ∪ ({[0]} ∪ ∅)))).
  assert (H01 : callsDirectly sampleCollaborators (mkCall 6 loopStore quietClock 0 ∅) c1).
  { apply (calls_intro sampleCollaborators 5 loopStore loopStore quietClock quietClock clk1
             0 1 ∅ ({[0]} ∪ ∅) [] []).
    - apply not_elem_of_empty.
    - reflexivity.
    - apply loop_start.
    - reflexivity. }
  assert (H12 : callsDirectly sampleCollaborators c1 c2).
  { apply (calls_intro sampleCollaborators 4 loopStore loopStore clk1 clk1 clk2
             1 2 ({[0]} ∪ ∅) ({[1]} ∪ ({[0]} ∪ ∅)) [] [3]).
    - intros Hin. apply elem_of_union in Hin as [Hin|Hin].
      + apply elem_of_singleton in Hin. discriminate.
      + now apply not_elem_of_empty in Hin.
    - reflexivity.
    - apply loop_start.
    - reflexivity. }
  assert (H23 : callsDirectly sampleCollaborators c2 c3).
  { apply (calls_intro sampleCollaborators 3 loopStore loopStore clk2 clk2 clk3
             2 1 ({[1]} ∪ ({[0]} ∪ ∅)) ({[2]} ∪ ({[1]} ∪ ({[0]} ∪ ∅))) [] []).
    - intros Hin. apply elem_of_union in Hin as [Hin|Hin].
      + apply elem_of_singleton in Hin. discriminate.
      + apply elem_of_union in Hin as [Hin|Hin].
        * apply elem_of_singleton in Hin. discriminate.
        * now apply not_elem_of_empty in Hin.
    - reflexivity.
    - apply loop_start.
    - reflexivity. }
  destruct (Hremoved 2 c3) as (bn & its_n & clk_n & V_n & _ & Hseen & Hgone).
  { exact (made_below _ _ _ _ _ H01 (made_below _ _ _ _ _ H12 (made_here _ _ _ H23))). }
  apply (Hgone (Hseen ltac:(apply elem_of_union; right; apply elem_of_union; left;
                            now apply elem_of_singleton))
               2 (linearRule 2 1 (Num 1))); try reflexivity.
  now left.
Defined.

(** C8, as it is stated, fails: the rule 2, of constant cost, enters the
    location 1 and is removed, although the rule 3, which leaves the
    location 1, has a cost of complexity [Poly 1]. *)
Lemma removeConstantPaths_removes_loop_rule :
  exists b its' clk' V',
    removeConstantPathsImpl sampleCollaborators 6 loopStore quietClock 0 ∅
    = Some (b, its', clk', V')
    /\ ITS.getRule loopStore 2 = Some (linearRule 2 1 (Num 1))
    /\ Cpx.leb (getComplexity sampleCollaborators (Num 1)) Const = true
    /\ ITS.getRule its' 2 = None
    /\ ITS.getRule loopStore 3 = Some (linearRule 1 3 (Sym (SVar 0)))
    /\ ITS.getRule its' 3 = Some (linearRule 1 3 (Sym (SVar 0)))
    /\ Cpx.gtb (getComplexity sampleCollaborators (Sym (SVar 0))) Const = true.
Proof.
  eexists _, _, _, _. split; [vm_compute; reflexivity|].
  repeat split; vm_compute; reflexivity.
Qed.

End RemoveConstantFacts.

(** ** The partial result *)
Module PartialFacts.
Import StoreFacts Analysis.

Lemma quietTicks_refl c : quietTicks c c.
Proof. repeat split. exists 0. reflexivity. Qed.

Lemma quietTicks_trans a b c : quietTicks a b -> quietTicks b c -> quietTicks a c.
Proof.
  intros (H1 & H2 & n & Hn) (G1 & G2 & m & Hm). repeat split; try congruence.
  exists (n + m). rewrite Hn, Hm, repeat_app, <- app_assoc. reflexivity.
Qed.

Lemma quietTicks_hardFired a b c : quietTicks a b -> hardFired b c -> hardFired a c.
Proof.
  intros (H1 & H2 & n & Hn) (G1 & G2 & m & Hm). repeat split; try congruence.
  exists (n + m). rewrite Hn, repeat_app, <- app_assoc. destruct Hm as [Hm|[Hm Hc]].
  - left. now rewrite Hm.
  - right. now rewrite Hm.
Qed.

Lemma quietTicks_length c c' :
  quietTicks c c' -> length (hardPolls c') <= length (hardPolls c).
Proof. intros (_ & _ & n & Hn). rewrite Hn, length_app. lia. Qed.

(** One poll of the hard timeout. *)
Lemma hard_cases (c : Clock) :
  (fst (Timeout.hard c) = false /\ quietTicks c (snd (Timeout.hard c))
   /\ length (hardPolls (snd (Timeout.hard c))) < length (hardPolls c))
  \/ (fst (Timeout.hard c) = true /\ hardFired c (snd (Timeout.hard c))).
Proof.
  unfold Timeout.hard. destruct (hardPolls c) as [|[|] rest] eqn:Hp; cbn.
  - right. split; [reflexivity|]. repeat split. exists 0. right. now rewrite Hp.
  - right. split; [reflexivity|]. repeat split. exists 0. left. now rewrite Hp.
  - left. split; [reflexivity|]. split; [|lia]. repeat split. exists 1. now rewrite Hp.
Qed.


Section WithCollaborators.

Variable ext : Collaborators.

(** *** The scan *)

Lemma scanRulesPartial_app (its : ITSProblem) (pre post : list TransIdx) (st : Scan) :
  scanRulesPartial ext its (pre ++ post) st
  = match scanRulesPartial ext its pre st with
    | Some (st1, Through) => scanRulesPartial ext its post st1
    | other => other
    end.
Proof.
  revert st; induction pre as [|idx pre IH]; intros st; cbn; [reflexivity|].
  destruct (visitRulePartial ext its idx st) as [[st1 [| |]]|]; auto.
Qed.

(** What the visit of one rule does. *)
Lemma visitRulePartial_spec (its : ITSProblem) (idx : TransIdx) (rule : Rule) (st : Scan) :
  ITS.getRule its idx = Some rule ->
  exists st2 e ev,
    visitRulePartial ext its idx st = Some (st2, e)
    /\ output st2 = output st ++ ev
    /\ (In (ProverCall idx (guard rule) (cost rule)) ev
        <-> Cpx.gtb (getComplexity ext (cost rule)) (Cpx.max (cpx (best st)) Const) = true
            \/ mentionsTemp its (cost rule))
    /\ (best st2 = best st
        \/ (In (ProverCall idx (guard rule) (cost rule)) ev
            /\ Cpx.gtb (a_cpx (AsymptoticBound_determineComplexity ext its
                                 (guard rule) (cost rule) true))
                       (cpx (best st)) = true
            /\ best st2
               = mkResult
                   (a_cpx (AsymptoticBound_determineComplexity ext its
                             (guard rule) (cost rule) true))
                   (a_cost (AsymptoticBound_determineComplexity ext its
                              (guard rule) (cost rule) true))
                   (a_reducedCpx (AsymptoticBound_determineComplexity ext its
                                    (guard rule) (cost rule) true))
                   (guard rule)))
    /\ match e with
       | Through => quietTicks (clock st) (clock st2)
                    /\ (cpx (best st) <> Infty -> cpx (best st2) <> Infty)
       | Done => quietTicks (clock st) (clock st2) /\ cpx (best st2) = Infty
       | Abort => hardFired (clock st) (clock st2)
       end.
Proof.
  intros Hr. unfold visitRulePartial, ITS.getLinearRule. rewrite Hr.
  rewrite ScanFacts.Cpx_leb_gtb.
  set (checkRes := AsymptoticBound_determineComplexity ext its (guard rule) (cost rule) true).
  assert (Hcheck : forall (P : Prop), P ->
    exists st2 e ev,
      (if Cpx.gtb (a_cpx checkRes) (cpx (best st)) then
         if Cpx.geb (cpx (mkResult (a_cpx checkRes) (a_cost checkRes)
                            (a_reducedCpx checkRes) (guard rule))) Infty
         then Some (mkScan (mkResult (a_cpx checkRes) (a_cost checkRes)
                              (a_reducedCpx checkRes) (guard rule)) (clock st)
                      ((output st ++ [Computing idx; ProverCall idx (guard rule) (cost rule)])
                       ++ [FoundNew (a_cpx checkRes)]), Done)
         else let '(t, clk) := Timeout.hard (clock st) in
              Some (mkScan (mkResult (a_cpx checkRes) (a_cost checkRes)
                              (a_reducedCpx checkRes) (guard rule)) clk
                      ((output st ++ [Computing idx; ProverCall idx (guard rule) (cost rule)])
                       ++ [FoundNew (a_cpx checkRes)]), if t then Abort else Through)
       else let '(t, clk) := Timeout.hard (clock st) in
            Some (mkScan (best st) clk
                    (output st ++ [Computing idx; ProverCall idx (guard rule) (cost rule)]),
                  if t then Abort else Through)) = Some (st2, e)
      /\ output st2 = output st ++ ev
      /\ (In (ProverCall idx (guard rule) (cost rule)) ev <-> P)
      /\ (best st2 = best st
          \/ (In (ProverCall idx (guard rule) (cost rule)) ev
              /\ Cpx.gtb (a_cpx checkRes) (cpx (best st)) = true
              /\ best st2 = mkResult (a_cpx checkRes) (a_cost checkRes)
                              (a_reducedCpx checkRes) (guard rule)))
      /\ match e with
         | Through => quietTicks (clock st) (clock st2)
                      /\ (cpx (best st) <> Infty -> cpx (best st2) <> Infty)
         | Done => quietTicks (clock st) (clock st2) /\ cpx (best st2) = Infty
         | Abort => hardFired (clock st) (clock st2)
         end).
  { intros P HP. destruct (Cpx.gtb (a_cpx checkRes) (cpx (best st))) eqn:Hbetter.
    - cbn [cpx]. destruct (Cpx.geb (a_cpx checkRes) Infty) eqn:Hinf.
      + eexists _, Done, _. split; [reflexivity|]. split; [cbn; rewrite <- app_assoc; reflexivity|].
        split; [split; [auto | intros _; cbn; auto]|].
        split; [right; split; [cbn; auto | split; reflexivity]|].
        cbn. split; [apply quietTicks_refl | now apply ScanFacts.Cpx_geb_Infty].
      + destruct (hard_cases (clock st)) as [(Ht & Hq & _)|(Ht & Hf)];
          destruct (Timeout.hard (clock st)) as [t clk]; cbn in Ht; subst t.
        * eexists _, Through, _. split; [reflexivity|].
          split; [cbn; rewrite <- app_assoc; reflexivity|].
          split; [split; [auto | intros _; cbn; auto]|].
          split; [right; split; [cbn; auto | split; reflexivity]|].
          cbn. split; [exact Hq|]. intros _ Heq. rewrite Heq in Hinf. discriminate.
        * eexists _, Abort, _. split; [reflexivity|].
          split; [cbn; rewrite <- app_assoc; reflexivity|].
          split; [split; [auto | intros _; cbn; auto]|].
          split; [right; split; [cbn; auto | split; reflexivity]|].
          exact Hf.
    - destruct (hard_cases (clock st)) as [(Ht & Hq & _)|(Ht & Hf)];
        destruct (Timeout.hard (clock st)) as [t clk]; cbn in Ht; subst t.
      + eexists _, Through, _. split; [reflexivity|]. split; [reflexivity|].
        split; [split; [auto | intros _; cbn; auto]|]. split; [left; reflexivity|].
        cbn. split; [exact Hq | auto].
      + eexists _, Abort, _. split; [reflexivity|]. split; [reflexivity|].
        split; [split; [auto | intros _; cbn; auto]|]. split; [left; reflexivity|].
        exact Hf. }
  destruct (Cpx.gtb (getComplexity ext (cost rule)) (Cpx.max (cpx (best st)) Const)) eqn:Hgt;
    cbn [negb andb].
  - apply Hcheck. now left.
  - destruct (hasTempVar its (cost rule)) eqn:Htemp; cbn [negb].
    + apply Hcheck. right. now apply ScanFacts.hasTempVar_mentionsTemp.
    + exists st, Through, []. split; [reflexivity|]. split; [now rewrite app_nil_r|].
      split.
      { split; [intros []|]. intros [H|H]; [discriminate|].
        apply ScanFacts.hasTempVar_mentionsTemp in H. congruence. }
      split; [left; reflexivity|]. split; [apply quietTicks_refl | auto].
Qed.

Lemma scanRulesPartial_spec (its : ITSProblem) (rules : list TransIdx) :
  forall st,
    (forall idx, In idx rules -> is_Some (ITS.getRule its idx)) ->
    exists st' e,
      scanRulesPartial ext its rules st = Some (st', e)
      /\ match e with
         | Through => quietTicks (clock st) (clock st')
                      /\ (cpx (best st) <> Infty -> cpx (best st') <> Infty)
         | Done => quietTicks (clock st) (clock st') /\ cpx (best st') = Infty
         | Abort => hardFired (clock st) (clock st')
         end.
Proof.
  induction rules as [|idx rest IH]; intros st Hall.
  - exists st, Through. split; [reflexivity|]. split; [apply quietTicks_refl | auto].
  - destruct (Hall idx) as [rule Hr]; [now left|].
    destruct (visitRulePartial_spec its idx rule st Hr) as (st2 & e & ev & Hv & _ & _ & _ & He).
    cbn [scanRulesPartial]. rewrite Hv. destruct e.
    + destruct (IH st2) as (st' & e' & Hs & He'); [intros i Hi; apply Hall; now right|].
      exists st', e'. split; [exact Hs|]. destruct He as [Hq Hb]. destruct e'.
      * destruct He' as [Hq' Hb']. split; [eapply quietTicks_trans; eauto | auto].
      * destruct He' as [Hq' Hb']. split; [eapply quietTicks_trans; eauto | auto].
      * eapply quietTicks_hardFired; eauto.
    + exists st2, Done. split; [reflexivity | exact He].
    + exists st2, Abort. split; [reflexivity | exact He].
Qed.


(** *** The chaining level *)

Lemma addRule_grows (its : ITSProblem) (rule : Rule) (i : TransIdx) :
  is_Some (ITS.getRule its i) -> is_Some (ITS.getRule (snd (ITS.addRule its rule)) i).
Proof.
  unfold ITS.getRule, ITS.addRule. cbn. intros H.
  destruct (decide (nextTransIdx its = i)) as [->|Hne].
  - rewrite lookup_insert_eq. eauto.
  - now rewrite lookup_insert_ne.
Qed.

Lemma chainWithSeconds_spec (first : TransIdx) (seconds : list TransIdx) :
  forall its clk,
    is_Some (ITS.getRule its first) ->
    (forall s, In s seconds -> is_Some (ITS.getRule its s)) ->
    exists its' clk' e,
      chainWithSeconds ext first seconds its clk = Some (its', clk', e)
      /\ (forall i, is_Some (ITS.getRule its i) -> is_Some (ITS.getRule its' i))
      /\ match e with
         | Through => its' = fold_left (addChain ext first) seconds its
                      /\ quietTicks clk clk'
         | Done => False
         | Abort => hardFired clk clk'
         end.
Proof.
  induction seconds as [|second rest IH]; intros its clk Hfirst Hall.
  - exists its, clk, Through. split; [reflexivity|]. split; [auto|].
    split; [reflexivity | apply quietTicks_refl].
  - cbn [chainWithSeconds fold_left]. unfold addChain at 2.
    destruct Hfirst as [r1 Hr1]. destruct (Hall second) as [r2 Hr2]; [now left|].
    rewrite Hr1, Hr2.
    set (its1 := match Chaining_chainRules ext its r1 r2 with
                 | Some chained => snd (ITS.addRule its chained)
                 | None => its
                 end).
    assert (Hgrow : forall i, is_Some (ITS.getRule its i) -> is_Some (ITS.getRule its1 i)).
    { intros i Hi. unfold its1. destruct (Chaining_chainRules ext its r1 r2); [|exact Hi].
      now apply addRule_grows. }
    destruct (hard_cases clk) as [(Ht & Hq & _)|(Ht & Hf)];
      destruct (Timeout.hard clk) as [t clk1]; cbn in Ht; subst t.
    + destruct (IH its1 clk1) as (its' & clk' & e & Hrun & Hg & He).
      { apply Hgrow. rewrite Hr1. eauto. }
      { intros s Hs. apply Hgrow, Hall. now right. }
      exists its', clk', e. split; [exact Hrun|]. split; [auto|].
      destruct e; auto.
      * destruct He as [-> Hq']. split; [reflexivity | eapply quietTicks_trans; eauto].
      * eapply quietTicks_hardFired; eauto.
    + exists its1, clk1, Abort. split; [reflexivity|]. split; [exact Hgrow | exact Hf].
Qed.

Lemma getRule_removeRule_other (its : ITSProblem) (i j : TransIdx) :
  i <> j -> ITS.getRule (ITS.removeRule its i) j = ITS.getRule its j.
Proof. intros Hne. unfold ITS.getRule, ITS.removeRule. cbn. now apply lookup_delete_ne. Qed.

Lemma chainFirsts_spec (succ : LocationIdx) (firsts : list TransIdx) :
  forall its clk,
    List.NoDup firsts ->
    (forall f, In f firsts -> is_Some (ITS.getRule its f)) ->
    exists its' clk' e,
      chainFirsts ext succ firsts its clk = Some (its', clk', e)
      /\ match e with
         | Through => its' = fold_left (chainFirst ext succ) firsts its
                      /\ quietTicks clk clk'
         | Done => False
         | Abort => hardFired clk clk'
         end.
Proof.
  induction firsts as [|first rest IH]; intros its clk Hnd Hall.
  - exists its, clk, Through. split; [reflexivity|]. split; [reflexivity | apply quietTicks_refl].
  - apply List.NoDup_cons_iff in Hnd as [Hnot Hnd]. cbn [chainFirsts fold_left].
    destruct (chainWithSeconds_spec first (ITS.getTransitionsFrom its succ) its clk)
      as (its1 & clk1 & e & Hrun & Hgrow & He).
    { apply Hall. now left. }
    { intros s Hs. apply getTransitionsFrom_In in Hs as (r & Hr & _). rewrite Hr. eauto. }
    rewrite Hrun. destruct e; [|destruct He|].
    + destruct He as [-> Hq].
      destruct (IH (ITS.removeRule (fold_left (addChain ext first)
                                      (ITS.getTransitionsFrom its succ) its) first) clk1)
        as (its' & clk' & e & Hrun' & He'); [exact Hnd| |].
      { intros f Hf. rewrite getRule_removeRule_other by (intros ->; contradiction).
        apply Hgrow, Hall. now right. }
      exists its', clk', e. split; [exact Hrun'|]. destruct e; auto.
      * destruct He' as [-> Hq']. split; [reflexivity | eapply quietTicks_trans; eauto].
      * eapply quietTicks_hardFired; eauto.
    + exists its1, clk1, Abort. split; [reflexivity | exact He].
Qed.

Lemma chainSuccessors_spec (initial : LocationIdx) (succs : list LocationIdx) :
  forall its clk,
    exists its' clk' e,
      chainSuccessors ext initial succs its clk = Some (its', clk', e)
      /\ match e with
         | Through => its' = fold_left (chainInto ext initial) succs its
                      /\ quietTicks clk clk'
         | Done => False
         | Abort => hardFired clk clk'
         end.
Proof.
  induction succs as [|succ rest IH]; intros its clk.
  - exists its, clk, Through. split; [reflexivity|]. split; [reflexivity | apply quietTicks_refl].
  - cbn [chainSuccessors fold_left].
    destruct (chainFirsts_spec succ (ITS.getTransitionsFromTo its initial succ) its clk)
      as (its1 & clk1 & e & Hrun & He).
    { apply List.NoDup_filter, indices_NoDup. }
    { intros f Hf. apply getTransitionsFromTo_In in Hf as (r & Hr & _). rewrite Hr. eauto. }
    rewrite Hrun. destruct e; [|destruct He|].
    + destruct He as [-> Hq]. fold (chainInto ext initial its succ).
      destruct (IH (chainInto ext initial its succ) clk1) as (its' & clk' & e & Hrun' & He').
      exists its', clk', e. split; [exact Hrun'|]. destruct e; auto.
      * destruct He' as [-> Hq']. split; [reflexivity | eapply quietTicks_trans; eauto].
      * eapply quietTicks_hardFired; eauto.
    + exists its1, clk1, Abort. split; [reflexivity | exact He].
Qed.


(** *** The loop *)

(** One turn of the loop: it returns for one of the three reasons, or it
    has scanned the rules of the initial location without reaching [Infty],
    found successors, chained one level, and goes on; no hard timeout fired
    on the way. *)
Lemma partialLoop_turn (fuel : nat) (initial : LocationIdx) (its : ITSProblem) (st : Scan) :
  (exists st' its',
      partialLoop ext (S fuel) initial its st = Some (st', its')
      /\ StopReason initial (clock st) st' its')
  \/ (exists clk0 st1 clk2,
        Timeout.hard (clock st) = (false, clk0)
        /\ scanRulesPartial ext its (ITS.getTransitionsFrom its initial)
             (mkScan (best st) clk0 (output st)) = Some (st1, Through)
        /\ ITS.getSuccessorLocations its initial <> []
        /\ chainSuccessors ext initial (ITS.getSuccessorLocations its initial) its (clock st1)
           = Some (chainLevel ext initial its, clk2, Through)
        /\ quietTicks (clock st) clk2
        /\ length (hardPolls clk2) < length (hardPolls (clock st))
        /\ (cpx (best st) <> Infty -> cpx (best st1) <> Infty)
        /\ partialLoop ext (S fuel) initial its st
           = partialLoop ext fuel initial (chainLevel ext initial its)
               (mkScan (best st1) clk2 (output st1))).
Proof.
  cbn [partialLoop].
  destruct (hard_cases (clock st)) as [(Ht & Hq & Hlen)|(Ht & Hf)];
    destruct (Timeout.hard (clock st)) as [t clk0]; cbn [fst snd] in *; subst t.
  2:{ left. eexists _, _. split; [reflexivity|]. right. right. exact Hf. }
  destruct (scanRulesPartial_spec its (ITS.getTransitionsFrom its initial)
              (mkScan (best st) clk0 (output st))) as (st1 & e & Hscan & He).
  { intros idx Hin. apply getTransitionsFrom_In in Hin as (r & Hr & _). rewrite Hr. eauto. }
  rewrite Hscan. cbn [clock best] in He. destruct e.
  - destruct He as [Hq1 Hb].
    destruct (ITS.getSuccessorLocations its initial) as [|succ succs] eqn:Hsuccs.
    + left. eexists _, _. split; [reflexivity|]. right. left.
      split; [exact Hsuccs | eapply quietTicks_trans; eauto].
    + cbn [emptyList].
      destruct (chainSuccessors_spec initial (succ :: succs) its (clock st1))
        as (its2 & clk2 & e & Hchain & He).
      rewrite Hchain. destruct e; [|destruct He|].
      * destruct He as [-> Hq2]. right. exists clk0, st1, clk2.
        split; [reflexivity|]. split; [exact Hscan|]. split; [discriminate|].
        unfold chainLevel. rewrite ?Hsuccs. split; [exact Hchain|].
        split; [eapply quietTicks_trans; [exact Hq|]; eapply quietTicks_trans; eauto|].
        split; [|split; [exact Hb | reflexivity]].
        apply quietTicks_length in Hq1, Hq2. cbn in Hq1. lia.
      * left. eexists _, _. split; [reflexivity|]. right. right. cbn.
        eapply quietTicks_hardFired; [exact Hq|]. eapply quietTicks_hardFired; eauto.
  - left. eexists _, _. split; [reflexivity|]. left. destruct He as [Hq1 Hb].
    split; [exact Hb | eapply quietTicks_trans; eauto].
  - left. eexists _, _. split; [reflexivity|]. right. right.
    eapply quietTicks_hardFired; eauto.
Qed.

Lemma StopReason_quiet (initial : LocationIdx) (c c' : Clock) (st' : Scan) (its' : ITSProblem) :
  quietTicks c c' -> StopReason initial c' st' its' -> StopReason initial c st' its'.
Proof.
  intros Hq [[H1 H2]|[[H1 H2]|H]].
  - left. split; [exact H1 | eapply quietTicks_trans; eauto].
  - right. left. split; [exact H1 | eapply quietTicks_trans; eauto].
  - right. right. eapply quietTicks_hardFired; eauto.
Qed.

Lemma partialLoop_total (initial : LocationIdx) (fuel : nat) :
  forall its st,
    length (hardPolls (clock st)) < fuel ->
    exists st' its',
      partialLoop ext fuel initial its st = Some (st', its')
      /\ StopReason initial (clock st) st' its'.
Proof.
  induction fuel as [|fuel IH]; intros its st Hfuel; [lia|].
  destruct (partialLoop_turn fuel initial its st)
    as [Hstop|(clk0 & st1 & clk2 & _ & _ & _ & _ & Hq & Hlen & _ & Hnext)]; [exact Hstop|].
  destruct (IH (chainLevel ext initial its) (mkScan (best st1) clk2 (output st1)))
    as (st' & its' & Hrun & Hreason); [cbn; lia|].
  exists st', its'. split; [now rewrite Hnext|].
  eapply StopReason_quiet; eauto.
Qed.


(** C7 (amended): with fuel for the hard polls that are left,
    [getMaxPartialResult] returns, and it returns for one of three reasons:
    the best class is [Infty], or the initial location has no successor, or
    the hard timeout fired.  Every turn of its loop either returns for one
    of these reasons, or it polls the hard timeout, scans the rules that
    leave the initial location to the end without reaching [Infty], chains
    one level from the start ([chainLevel]: each rule to a successor with
    each rule leaving that successor, the chains added and the first rule
    deleted), and goes on with the store and the clock that are left.  In
    the scan, for a rule [idx] that is reached: the prover is called if and
    only if the complexity of the cost is greater than the maximum of the
    best class so far and [Const], or the cost mentions a temporary
    variable; the best result is replaced only by an answer of the prover
    of a greater class; the scan ends with [Infty], or when the hard
    timeout fires after the rule. *)
Theorem getMaxPartialResult_phases (fuel : nat) (its : ITSProblem) (clk : Clock) :
  length (hardPolls clk) < fuel ->
  (exists st' its',
      getMaxPartialResult ext fuel its clk = Some (st', its')
      /\ StopReason (ITS.getInitialLocation its) clk st' its')
  /\ (forall fuel' its_t st,
        (exists st' its',
            partialLoop ext (S fuel') (ITS.getInitialLocation its) its_t st = Some (st', its')
            /\ StopReason (ITS.getInitialLocation its) (clock st) st' its')
        \/ (exists clk0 st1 clk2,
              Timeout.hard (clock st) = (false, clk0)
              /\ scanRulesPartial ext its_t
                   (ITS.getTransitionsFrom its_t (ITS.getInitialLocation its))
                   (mkScan (best st) clk0 (output st)) = Some (st1, Through)
              /\ ITS.getSuccessorLocations its_t (ITS.getInitialLocation its) <> []
              /\ chainSuccessors ext (ITS.getInitialLocation its)
                   (ITS.getSuccessorLocations its_t (ITS.getInitialLocation its)) its_t
                   (clock st1)
                 = Some (chainLevel ext (ITS.getInitialLocation its) its_t, clk2, Through)
              /\ quietTicks (clock st) clk2
              /\ length (hardPolls clk2) < length (hardPolls (clock st))
              /\ (cpx (best st) <> Infty -> cpx (best st1) <> Infty)
              /\ partialLoop ext (S fuel') (ITS.getInitialLocation its) its_t st
                 = partialLoop ext fuel' (ITS.getInitialLocation its)
                     (chainLevel ext (ITS.getInitialLocation its) its_t)
                     (mkScan (best st1) clk2 (output st1))))
  /\ (forall its_t pre idx post st0 st1,
        ITS.getTransitionsFrom its_t (ITS.getInitialLocation its) = pre ++ idx :: post ->
        scanRulesPartial ext its_t pre st0 = Some (st1, Through) ->
        exists rule st2 e ev,
          ITS.getRule its_t idx = Some rule
          /\ lhsLoc rule = ITS.getInitialLocation its
          /\ visitRulePartial ext its_t idx st1 = Some (st2, e)
          /\ scanRulesPartial ext its_t (pre ++ idx :: post) st0
             = match e with
               | Through => scanRulesPartial ext its_t post st2
               | _ => Some (st2, e)
               end
          /\ output st2 = output st1 ++ ev
          /\ (In (ProverCall idx (guard rule) (cost rule)) ev
              <-> Cpx.gtb (getComplexity ext (cost rule)) (Cpx.max (cpx (best st1)) Const)
                  = true
                  \/ mentionsTemp its_t (cost rule))
          /\ (best st2 = best st1
              \/ (In (ProverCall idx (guard rule) (cost rule)) ev
                  /\ Cpx.gtb (a_cpx (AsymptoticBound_determineComplexity ext its_t
                                       (guard rule) (cost rule) true))
                             (cpx (best st1)) = true
                  /\ best st2
                     = mkResult
                         (a_cpx (AsymptoticBound_determineComplexity ext its_t
                                   (guard rule) (cost rule) true))
                         (a_cost (AsymptoticBound_determineComplexity ext its_t
                                    (guard rule) (cost rule) true))
                         (a_reducedCpx (AsymptoticBound_determineComplexity ext its_t
                                          (guard rule) (cost rule) true))
                         (guard rule)))
          /\ match e with
             | Through => quietTicks (clock st1) (clock st2)
                          /\ (cpx (best st1) <> Infty -> cpx (best st2) <> Infty)
             | Done => quietTicks (clock st1) (clock st2) /\ cpx (best st2) = Infty
             | Abort => hardFired (clock st1) (clock st2)
             end).
Proof.
  intros Hfuel. split; [|split].
  - unfold getMaxPartialResult.
    apply (partialLoop_total (ITS.getInitialLocation its) fuel its
             (mkScan defaultResult clk [])). exact Hfuel.
  - intros fuel' its_t st. apply partialLoop_turn.
  - intros its_t pre idx post st0 st1 Hsplit Hpre.
    assert (Hin : In idx (ITS.getTransitionsFrom its_t (ITS.getInitialLocation its))).
    { rewrite Hsplit. apply in_or_app. right. now left. }
    apply getTransitionsFrom_In in Hin as (rule & Hr & Hl).
    destruct (visitRulePartial_spec its_t idx rule st1 Hr)
      as (st2 & e & ev & Hv & Hout & Hcall & Hbest & He).
    exists rule, st2, e, ev. split; [exact Hr|]. split; [exact Hl|]. split; [exact Hv|].
    split.
    { rewrite scanRulesPartial_app, Hpre. cbn [scanRulesPartial]. rewrite Hv.
      now destruct e. }
    auto.
Qed.

End WithCollaborators.

(** The theorem at the store with one rule. *)
Lemma getMaxPartialResult_phases_witness :
  length (hardPolls quietClock) < 21
  /\ exists st' its',
       getMaxPartialResult sampleCollaborators 21 oneRuleStore quietClock = Some (st', its')
       /\ StopReason (ITS.getInitialLocation oneRuleStore) quietClock st' its'.
Proof.
  assert (Hfuel : length (hardPolls quietClock) < 21) by (cbn; lia).
  split; [exact Hfuel|].
  exact (proj1 (getMaxPartialResult_phases sampleCollaborators 21 oneRuleStore quietClock
                  Hfuel)).
Defined.

(** C7, as it is stated, fails: the rule 0 of the store with one rule has
    a cost of complexity [Const] and no temporary variable, and the best
    class is [Unknown] when it is visited; [getMaxRuntime] calls the prover
    for it, [getMaxPartialResult] skips it. *)
Lemma getMaxPartialResult_skips_constant_rule :
  ITS.getTransitionsFrom oneRuleStore (ITS.getInitialLocation oneRuleStore) = [0]
  /\ ITS.getRule oneRuleStore 0 = Some (linearRule 0 1 (Num 1))
  /\ getComplexity sampleCollaborators (Num 1) = Const
  /\ (exists st,
        getMaxRuntime sampleCollaborators defaultSettings oneRuleStore quietClock = Some st
        /\ output st = [Computing 0; ProverCall 0 [] (Num 1); FoundNew Const])
  /\ (exists st,
        scanRulesPartial sampleCollaborators oneRuleStore [0]
          (mkScan defaultResult quietClock []) = Some (st, Through)
        /\ output st = [])
  /\ (exists st its',
        getMaxPartialResult sampleCollaborators 21 oneRuleStore quietClock = Some (st, its')
        /\ output st = []).
Proof.
  split; [reflexivity|]. split; [reflexivity|]. split; [reflexivity|].
  split; [eexists; split; vm_compute; reflexivity|].
  split; [eexists; split; vm_compute; reflexivity|].
  eexists _, _; split; vm_compute; reflexivity.
Qed.

End PartialFacts.

(** ** The driver *)
Module RunFacts.
Import Analysis StoreFacts.

Lemma soft_cases (c : Clock) :
  (fst (Timeout.soft c) = true)
  \/ (fst (Timeout.soft c) = false
      /\ length (softPolls (snd (Timeout.soft c))) < length (softPolls c)).
Proof.
  unfold Timeout.soft. destruct (softPolls c) as [|[|] rest]; cbn; auto.
Qed.

Lemma soft_length (c : Clock) :
  length (softPolls (snd (Timeout.soft c))) <= length (softPolls c).
Proof.
  unfold Timeout.soft. destruct (softPolls c) as [|b rest] eqn:Hc; cbn; [rewrite Hc; cbn|]; lia.
Qed.

Lemma Cpx_eqb_Unknown (c : Complexity) : Cpx.eqb c Unknown = true <-> c = Unknown.
Proof.
  split; [|intros ->; reflexivity]. destruct c; cbn; try discriminate; reflexivity.
Qed.

Lemma constantIfUnknown_known (r : RuntimeResult) : cpx (constantIfUnknown r) <> Unknown.
Proof.
  unfold constantIfUnknown. destruct (Cpx.eqb (cpx r) Unknown) eqn:He; cbn; [discriminate|].
  intros Hu. apply Cpx_eqb_Unknown in Hu. congruence.
Qed.

Lemma constantIfUnknown_fallback (r : RuntimeResult) :
  cpx r = Unknown ->
  cpx (constantIfUnknown r) = Const /\ bound (constantIfUnknown r) = Num 1
  /\ res_guard (constantIfUnknown r) = [].
Proof.
  intros Hu. unfold constantIfUnknown. rewrite Hu. cbn. auto.
Qed.

Lemma constantIfUnknown_keeps (r : RuntimeResult) :
  cpx r <> Unknown -> constantIfUnknown r = r.
Proof.
  intros Hu. unfold constantIfUnknown. destruct (Cpx.eqb (cpx r) Unknown) eqn:He; [|reflexivity].
  apply Cpx_eqb_Unknown in He. contradiction.
Qed.

Section WithCollaborators.

Variable ext : Collaborators.
Variable cfg : AnalysisSettings.

(** *** The loops of the simplification end with the soft timeout *)

Lemma accelerateAt_soft (nodes : list LocationIdx) :
  forall its clk acc res,
    length (softPolls (snd (fst (accelerateAt ext nodes its clk acc res))))
    <= length (softPolls clk).
Proof.
  induction nodes as [|node rest IH]; intros its clk acc res; cbn [accelerateAt].
  - cbn. lia.
  - destruct (Accelerator_accelerateSimpleLoops ext its node acc) as [[r its1] acc1].
    pose proof (soft_length clk) as Hs.
    destruct (Timeout.soft clk) as [[|] clk1]; cbn [fst snd] in *; [exact Hs|].
    etransitivity; [apply IH | exact Hs].
Qed.

Lemma simplifyRound_soft (its : ITSProblem) (clk : Clock) (a nl : bool) :
  match simplifyRound ext its clk a nl with
  | (_, _, clk', _, _, broke) =>
    length (softPolls clk') <= length (softPolls clk)
    /\ (broke = false -> length (softPolls clk') < length (softPolls clk))
  end.
Proof.
  unfold simplifyRound.
  destruct (if nl then _ else _) as [changed its0].
  pose proof (soft_length clk) as H0.
  destruct (soft_cases clk) as [Ht|[Ht Hl]];
    destruct (Timeout.soft clk) as [t clk1]; cbn [fst snd] in *; subst t;
    [split; [lia | discriminate]|].
  unfold accelerateSimpleLoops.
  pose proof (accelerateAt_soft (ITS.getLocations its0) its0 clk1 [] false) as Hacc.
  destruct (accelerateAt ext _ its0 clk1 [] false) as [[[r its2] clk2] acc]. cbn [fst snd] in Hacc.
  pose proof (soft_length clk2) as H2.
  destruct (Timeout.soft clk2) as [[|] clk3]; cbn [fst snd] in *; [split; [lia | discriminate]|].
  destruct (chainAcceleratedLoops ext its2 acc) as [r3 its3].
  pose proof (soft_length clk3) as H3.
  destruct (Timeout.soft clk3) as [[|] clk4]; cbn [fst snd] in *; [split; [lia | discriminate]|].
  destruct (Pruning_removeLeafsAndUnreachable ext its3) as [r4 its4].
  pose proof (soft_length clk4) as H4.
  destruct (Timeout.soft clk4) as [[|] clk5]; cbn [fst snd] in *; [split; [lia | discriminate]|].
  destruct (chainLinearPaths ext its4) as [r5 its5].
  pose proof (soft_length clk5) as H5.
  destruct (Timeout.soft clk5) as [[|] clk6]; cbn [fst snd] in *; [split; [lia | discriminate]|].
  split; intros; lia.
Qed.

Lemma simplifyLoop_total (n : nat) :
  forall its clk a nl,
    length (softPolls clk) <= n ->
    exists its' clk' a' nl',
      simplifyLoop ext (S n) its clk a nl = Some (its', clk', a', nl')
      /\ length (softPolls clk') <= length (softPolls clk).
Proof.
  induction n as [|n IH]; intros its clk a nl Hn; cbn [simplifyLoop];
    pose proof (simplifyRound_soft its clk a nl) as Hr;
    destruct (simplifyRound ext its clk a nl) as [[[[[changed its1] clk1] a1] nl1] broke];
    destruct Hr as [Hle Hlt].
  - destruct broke; [eauto 10|]. specialize (Hlt eq_refl). lia.
  - destruct broke; [eauto 10|]. specialize (Hlt eq_refl).
    destruct changed; [|eauto 10].
    destruct (IH its1 clk1 a1 nl1) as (its' & clk' & a' & nl' & Hrun & Hlen); [lia|].
    exists its', clk', a', nl'. split; [exact Hrun | lia].
Qed.

(** More fuel does not change a result. *)
Lemma simplifyLoop_mono (fuel : nat) :
  forall its clk a nl res,
    simplifyLoop ext fuel its clk a nl = Some res ->
    simplifyLoop ext (S fuel) its clk a nl = Some res.
Proof.
  induction fuel as [|fuel IH]; intros its clk a nl res; [discriminate|].
  intros H. cbn [simplifyLoop] in *.
  destruct (simplifyRound ext its clk a nl) as [[[[[changed its1] clk1] a1] nl1] broke].
  destruct broke; [exact H|]. destruct changed; [|exact H]. apply IH, H.
Qed.

Lemma simplifyLoop_mono_le (fuel fuel' : nat) its clk a nl res :
  fuel <= fuel' ->
  simplifyLoop ext fuel its clk a nl = Some res ->
  simplifyLoop ext fuel' its clk a nl = Some res.
Proof.
  induction 1 as [|m _ IH]; [auto|]. intros H. apply simplifyLoop_mono, IH, H.
Qed.

Lemma mainLoop_total (n : nat) :
  forall its clk a nl,
    length (softPolls clk) <= n ->
    exists its' clk', mainLoop ext cfg (S n) its clk a nl = Some (its', clk').
Proof.
  induction n as [|n IH]; intros its clk a nl Hn; cbn [mainLoop];
    (destruct (isFullySimplified its); [eauto|]).
  - destruct (simplifyLoop_total 0 its clk a nl Hn) as (its1 & clk1 & a1 & nl1 & Hrun & Hlen).
    rewrite Hrun. destruct (isFullySimplified its1); [eauto|].
    destruct (chainTreePaths ext its1) as [r its2].
    destruct (soft_cases clk1) as [Ht|[Ht Hl]];
      destruct (Timeout.soft clk1) as [t clk2]; cbn [fst snd] in *; subst t; [eauto|lia].
  - destruct (simplifyLoop_total (S n) its clk a nl Hn) as (its1 & clk1 & a1 & nl1 & Hrun & Hlen).
    rewrite Hrun. destruct (isFullySimplified its1); [eauto|].
    destruct (chainTreePaths ext its1) as [r its2].
    destruct (soft_cases clk1) as [Ht|[Ht Hl]];
      destruct (Timeout.soft clk1) as [t clk2]; cbn [fst snd] in *; subst t; [eauto|].
    pose proof (soft_length clk2) as H2.
    destruct (Timeout.soft clk2) as [[|] clk3]; cbn [fst snd] in *; [eauto|].
    apply IH. lia.
Qed.

Lemma mainLoop_mono (fuel : nat) :
  forall its clk a nl res,
    mainLoop ext cfg fuel its clk a nl = Some res ->
    mainLoop ext cfg (S fuel) its clk a nl = Some res.
Proof.
  induction fuel as [|fuel IH]; intros its clk a nl res; [discriminate|].
  intros H. remember (S fuel) as fuel1 eqn:Hfuel. cbn [mainLoop]. subst fuel1.
  cbn [mainLoop] in H.
  destruct (isFullySimplified its); [exact H|].
  destruct (simplifyLoop ext (S fuel) its clk a nl) as [[[[its1 clk1] a1] nl1]|] eqn:Hs;
    [|discriminate].
  rewrite (simplifyLoop_mono _ _ _ _ _ _ Hs).
  destruct (isFullySimplified its1); [exact H|].
  destruct (chainTreePaths ext its1) as [r its2].
  destruct (Timeout.soft clk1) as [[|] clk2]; [exact H|].
  destruct (Timeout.soft clk2) as [[|] clk3]; [exact H|].
  apply IH, H.
Qed.

Lemma mainLoop_mono_le (fuel fuel' : nat) its clk a nl res :
  fuel <= fuel' ->
  mainLoop ext cfg fuel its clk a nl = Some res ->
  mainLoop ext cfg fuel' its clk a nl = Some res.
Proof.
  induction 1 as [|m _ IH]; [auto|]. intros H. apply mainLoop_mono, IH, H.
Qed.

(** *** No step of the driver asks the store for a rule it has not *)

Lemma getRule_setRule (its : ITSProblem) (idx i : TransIdx) (rule : Rule) :
  is_Some (ITS.getRule its i) -> is_Some (ITS.getRule (ITS.setRule its idx rule) i).
Proof.
  unfold ITS.getRule, ITS.setRule. cbn. intros H.
  destruct (decide (idx = i)) as [->|Hne].
  - rewrite lookup_insert_eq. eauto.
  - rewrite lookup_insert_ne; auto.
Qed.

Lemma simplifyRules_total (idxs : list TransIdx) :
  forall its clk changed,
    (forall i, In i idxs -> is_Some (ITS.getRule its i)) ->
    is_Some (simplifyRules ext cfg idxs its clk changed).
Proof.
  induction idxs as [|idx rest IH]; intros its clk changed Hin; cbn [simplifyRules]; [eauto|].
  destruct (Timeout.preprocessing clk) as [[|] clk1]; [eauto|].
  destruct (Hin idx) as [rule Hr]; [now left|]. rewrite Hr.
  destruct (if eliminateCostConstraints cfg then _ else _) as [changed1 rule1].
  destruct (Preprocess_simplifyRule ext its rule1) as [c rule2].
  apply IH. intros i Hi. apply getRule_setRule, Hin. now right.
Qed.

Lemma simplifyLocations_total (nodes : list LocationIdx) :
  forall its clk changed, is_Some (simplifyLocations ext cfg nodes its clk changed).
Proof.
  induction nodes as [|node rest IH]; intros its clk changed; cbn [simplifyLocations]; [eauto|].
  destruct (simplifyRules_total (ITS.getTransitionsFrom its node) its clk changed)
    as [[[[c its1] clk1] t] Hrun].
  { intros i Hi. apply getTransitionsFrom_In in Hi as (r & Hr & _). rewrite Hr. eauto. }
  rewrite Hrun. destruct t; [eauto | apply IH].
Qed.

Lemma preprocessRules_total (its : ITSProblem) (clk : Clock) :
  is_Some (preprocessRules ext cfg its clk).
Proof.
  unfold preprocessRules. destruct (Pruning_removeLeafsAndUnreachable ext its) as [changed its1].
  destruct (simplifyLocations_total (ITS.getLocations its1) its1 clk changed)
    as [[[[c its2] clk2] t] Hrun].
  rewrite Hrun. destruct t; eauto.
Qed.

Lemma getMaxComplexity_total (its : ITSProblem) (rules : list TransIdx) :
  forall res,
    (forall i, In i rules -> is_Some (ITS.getRule its i)) ->
    is_Some (getMaxComplexity ext its rules res).
Proof.
  induction rules as [|rule rest IH]; intros res Hin; cbn [getMaxComplexity]; [eauto|].
  destruct (Hin rule) as [r Hr]; [now left|]. rewrite Hr.
  destruct (Cpx.gtb _ _); apply IH; intros i Hi; apply Hin; now right.
Qed.

Lemma getMaxRuntime_total (its : ITSProblem) (clk : Clock) :
  is_Some (getMaxRuntime ext cfg its clk).
Proof.
  assert (Hin : forall i, In i (ITS.getTransitionsFrom its (ITS.getInitialLocation its)) ->
                          is_Some (ITS.getRule its i)).
  { intros i Hi. apply getTransitionsFrom_In in Hi as (r & Hr & _). rewrite Hr. eauto. }
  unfold getMaxRuntime. destruct (negb (FINAL_INFINITY_CHECK cfg)).
  - destruct (getMaxComplexity_total its _ defaultResult Hin) as [res Hres].
    rewrite Hres. eauto.
  - destruct (ScanFacts.scanRules_total ext its _ (mkScan defaultResult clk []) Hin)
      as [[st stop] Hscan].
    rewrite Hscan. eauto.
Qed.

(** *** More fuel does not change the result of the extraction *)

Lemma visitSuccessors_mono
    (impl impl' : ITSProblem -> Clock -> LocationIdx -> gset LocationIdx ->
                  option (bool * ITSProblem * Clock * gset LocationIdx)) :
  (forall its clk curr V res, impl its clk curr V = Some res -> impl' its clk curr V = Some res) ->
  forall succs curr its clk V res,
    visitSuccessors ext impl curr succs its clk V = Some res ->
    visitSuccessors ext impl' curr succs its clk V = Some res.
Proof.
  intros Himpl. induction succs as [|next rest IH]; intros curr its clk V res;
    cbn [visitSuccessors]; [auto|].
  destruct (Timeout.hard clk) as [[|] clk1]; [auto|].
  destruct (impl its clk1 next V) as [[[[b its1] clk2] V1]|] eqn:Hcall; [|discriminate].
  rewrite (Himpl _ _ _ _ _ Hcall). destruct b; [|apply IH].
  destruct (removeConstantRules ext _ its1); [apply IH | discriminate].
Qed.

Lemma removeConstantPathsImpl_mono (fuel : nat) :
  forall its clk curr V res,
    removeConstantPathsImpl ext fuel its clk curr V = Some res ->
    removeConstantPathsImpl ext (S fuel) its clk curr V = Some res.
Proof.
  induction fuel as [|fuel IH]; intros its clk curr V res; [discriminate|].
  intros H. remember (S fuel) as fuel1 eqn:Hfuel. cbn [removeConstantPathsImpl]. subst fuel1.
  cbn [removeConstantPathsImpl] in H.
  destruct (bool_decide (curr ∈ V)); [exact H|].
  eapply visitSuccessors_mono; [exact IH | exact H].
Qed.

Lemma removeConstantPathsImpl_mono_le (fuel fuel' : nat) its clk curr V res :
  fuel <= fuel' ->
  removeConstantPathsImpl ext fuel its clk curr V = Some res ->
  removeConstantPathsImpl ext fuel' its clk curr V = Some res.
Proof.
  induction 1 as [|m _ IH]; [auto|]. intros H. apply removeConstantPathsImpl_mono, IH, H.
Qed.

Lemma partialLoop_mono (fuel : nat) :
  forall initial its st res,
    partialLoop ext fuel initial its st = Some res ->
    partialLoop ext (S fuel) initial its st = Some res.
Proof.
  induction fuel as [|fuel IH]; intros initial its st res; [discriminate|].
  intros H. remember (S fuel) as fuel1 eqn:Hfuel. cbn [partialLoop]. subst fuel1.
  cbn [partialLoop] in H.
  destruct (Timeout.hard (clock st)) as [[|] clk0]; [exact H|]. cbv zeta in *.
  destruct (scanRulesPartial ext its _ _) as [[st1 [| |]]|]; try exact H.
  destruct (emptyList _); [exact H|].
  destruct (chainSuccessors ext initial _ its (clock st1)) as [[[its2 clk2] [| |]]|]; try exact H.
  apply IH, H.
Qed.

Lemma partialLoop_mono_le (fuel fuel' : nat) initial its st res :
  fuel <= fuel' ->
  partialLoop ext fuel initial its st = Some res ->
  partialLoop ext fuel' initial its st = Some res.
Proof.
  induction 1 as [|m _ IH]; [auto|]. intros H. apply partialLoop_mono, IH, H.
Qed.

(** *** The result of [run] *)

Lemma removeConstantPathsAfterTimeout_total (its : ITSProblem) (clk : Clock) :
  exists fuel0 its' clk',
    forall fuel, fuel0 <= fuel ->
      removeConstantPathsAfterTimeout ext fuel its clk = Some (its', clk').
Proof.
  set (U := {[ITS.getInitialLocation its]} ∪ targets its).
  destruct (RemoveConstantFacts.removeConstantPathsImpl_total ext U (S (size (U ∖ ∅)))
              its clk (ITS.getInitialLocation its) ∅)
    as [[[[b its'] clk'] V] Hrun].
  { intros l Hl. apply elem_of_union. now right. }
  { apply elem_of_union. left. now apply elem_of_singleton. }
  { lia. }
  exists (S (size (U ∖ ∅))), its', clk'. intros fuel Hfuel.
  unfold removeConstantPathsAfterTimeout.
  now rewrite (removeConstantPathsImpl_mono_le _ _ _ _ _ _ _ Hfuel Hrun).
Qed.

Lemma getMaxPartialResult_total (its : ITSProblem) (clk : Clock) :
  exists fuel0 st its',
    forall fuel, fuel0 <= fuel -> getMaxPartialResult ext fuel its clk = Some (st, its').
Proof.
  destruct (PartialFacts.partialLoop_total ext (ITS.getInitialLocation its)
              (S (length (hardPolls clk))) its (mkScan defaultResult clk []))
    as (st & its' & Hrun & _); [cbn; lia|].
  exists (S (length (hardPolls clk))), st, its'. intros fuel Hfuel.
  unfold getMaxPartialResult. exact (partialLoop_mono_le _ _ _ _ _ _ Hfuel Hrun).
Qed.

(** C1 (amended): with enough fuel [run] returns a result, the same for
    any larger fuel.  If the initial location of the groomed store has no
    outgoing rule, the result is the default one, of complexity [Unknown].
    Otherwise its complexity is not [Unknown]: it is the best result of
    [getMaxRuntime] on a fully simplified store or of
    [getMaxPartialResult], unless that one is of complexity [Unknown];
    then it is [Const] with bound 1 and an empty guard. *)
Theorem run_result (its : ITSProblem) (clk : Clock) :
  exists fuel0 r its' clk' out,
    (forall fuel, fuel0 <= fuel -> run ext cfg fuel its clk = Some (r, its', clk', out))
    /\ (ITS.isEmpty (groomed ext its) = true -> r = defaultResult)
    /\ (ITS.isEmpty (groomed ext its) = false ->
        cpx r <> Unknown
        /\ exists its2 clk2 st,
             ((isFullySimplified its2 = true /\ getMaxRuntime ext cfg its2 clk2 = Some st)
              \/ exists fuel its3, getMaxPartialResult ext fuel its2 clk2 = Some (st, its3))
             /\ clk' = clock st /\ out = output st
             /\ (cpx (best st) = Unknown ->
                 cpx r = Const /\ bound r = Num 1 /\ res_guard r = [])
             /\ (cpx (best st) <> Unknown -> r = best st)).
Proof.
  unfold groomed, run.
  destruct (ensureProperInitialLocation its) as [b0 its0]. cbn [snd].
  destruct (Pruning_removeUnsatInitialRules ext its0) as [b1 its1]. cbn [snd].
  destruct (ITS.isEmpty its1) eqn:Hempty.
  { exists 0, defaultResult, its1, clk, [].
    split; [intros; reflexivity|]. split; [reflexivity | discriminate]. }
  assert (Hpre : exists its2 clk2,
             (if doPreprocessing cfg
              then match preprocessRules ext cfg its1 clk with
                   | None => None
                   | Some (_, its, clk) => Some (its, clk)
                   end
              else Some (its1, clk)) = Some (its2, clk2)).
  { destruct (doPreprocessing cfg); [|eauto].
    destruct (preprocessRules_total its1 clk) as [[[c its2] clk2] Hp]. rewrite Hp. eauto. }
  destruct Hpre as (its2 & clk2 & Hpre). rewrite Hpre.
  destruct (mainLoop_total (length (softPolls clk2)) its2 clk2 false (negb (ITS.isLinear its1)))
    as (its3 & clk3 & Hmain); [lia|].
  destruct (Timeout.soft clk3) as [t clk4] eqn:Hsoft.
  set (its4 := if isFullySimplified its3
               then snd (Pruning_removeDuplicateRules ext its3
                           (ITS.getTransitionsFrom its3 (ITS.getInitialLocation its3)) false)
               else its3).
  destruct (isFullySimplified its4) eqn:Hfull.
  - destruct (getMaxRuntime_total its4 clk4) as [st Hst].
    exists (S (length (softPolls clk2))), (constantIfUnknown (best st)), its4, (clock st), (output st).
    split.
    { intros fuel Hfuel. rewrite (mainLoop_mono_le _ _ _ _ _ _ _ Hfuel Hmain).
      rewrite Hsoft. fold its4. rewrite Hfull. cbn [negb]. now rewrite Hst. }
    split; [discriminate|]. intros _. split; [apply constantIfUnknown_known|].
    exists its4, clk4, st. split; [left; split; [exact Hfull | exact Hst]|]. split; [reflexivity|]. split; [reflexivity|].
    split; [apply constantIfUnknown_fallback | apply constantIfUnknown_keeps].
  - destruct (removeConstantPathsAfterTimeout_total its4 clk4) as (fuel1 & its5 & clk5 & Hrem).
    destruct (getMaxPartialResult_total its5 clk5) as (fuel2 & st & its6 & Hpart).
    exists (Nat.max (S (length (softPolls clk2))) (Nat.max fuel1 fuel2)),
           (constantIfUnknown (best st)), its6, (clock st), (output st).
    split.
    { intros fuel Hfuel.
      rewrite (mainLoop_mono_le (S (length (softPolls clk2))) fuel _ _ _ _ _ ltac:(lia) Hmain).
      rewrite Hsoft. fold its4. rewrite Hfull. cbn [negb].
      rewrite (Hrem fuel ltac:(lia)). now rewrite (Hpart fuel ltac:(lia)). }
    split; [discriminate|]. intros _. split; [apply constantIfUnknown_known|].
    exists its5, clk5, st. split; [right; exists fuel2, its6; apply Hpart; lia|].
    split; [reflexivity|]. split; [reflexivity|].
    split; [apply constantIfUnknown_fallback | apply constantIfUnknown_keeps].
Qed.

End WithCollaborators.

(** On the store with a self-loop at the initial location nothing is
    derived, and the result is [Const] with bound 1 and an empty guard. *)
Example run_self_loop_constant :
  exists r its' clk' out,
    run sampleCollaborators defaultSettings 21 selfLoopStore quietClock
    = Some (r, its', clk', out)
    /\ cpx r = Const /\ bound r = Num 1 /\ res_guard r = [] /\ out = [].
Proof.
  eexists _, _, _, _. split; [vm_compute; reflexivity|].
  repeat split; reflexivity.
Qed.

(** C1, as it is stated, fails: the store without rules is empty, and the
    result of [run] on it is the default result, of complexity [Unknown]
    and not [Const]. *)
Lemma run_empty_store_unknown :
  ITS.isEmpty emptyStore = true
  /\ run sampleCollaborators defaultSettings 1 emptyStore quietClock
     = Some (defaultResult, emptyStore, quietClock, [])
  /\ cpx defaultResult = Unknown.
Proof. repeat split; vm_compute; reflexivity. Qed.

End RunFacts.

(** ** Relations: the other transformations *)
Module RelationFacts.
Import Relation.

(** [replaceLhsRhs] keeps the operator of an inequality and installs the
    two given sides; with the sides of the relation itself it gives the
    relation back.  For an equality the result is no relation: it is the
    term given for the right-hand side. *)
Theorem replaceLhsRhs_operator (rel : Relational) (l r : Expression) :
  (isInequality rel = true ->
     replaceLhsRhs rel l r = Some (ExRel (mkRel (rel_op rel) l r))
     /\ replaceLhsRhs rel (lhs rel) (rhs rel) = Some (ExRel rel))
  /\ (isEquality rel = true -> replaceLhsRhs rel l r = Some (ExTerm r))
  /\ (isRelation rel = false -> replaceLhsRhs rel l r = None).
Proof.
  destruct rel as [op a b]; destruct op; cbn;
    (split; [|split]); intros H; try discriminate; auto.
Qed.

(** [transformInequalityLessEq] turns every inequality into a [<=] that
    holds in exactly the same integer valuations; [a < b] becomes
    [a <= b - 1], and [>], [>=] are flipped first. *)
Theorem transformInequalityLessEq_correct (rel : Relational) :
  isInequality rel = true ->
  rel_op (transformInequalityLessEq rel) = OpLe
  /\ (forall sigma : Valuation, holds sigma (transformInequalityLessEq rel) <-> holds sigma rel)
  /\ (rel_op rel = OpLt ->
        transformInequalityLessEq rel = mkRel OpLe (lhs rel) (Sub (rhs rel) (Num 1)))
  /\ (rel_op rel = OpGt ->
        transformInequalityLessEq rel = mkRel OpLe (rhs rel) (Sub (lhs rel) (Num 1)))
  /\ (rel_op rel = OpGe -> transformInequalityLessEq rel = mkRel OpLe (rhs rel) (lhs rel))
  /\ (rel_op rel = OpLe -> transformInequalityLessEq rel = rel).
Proof.
  destruct rel as [op a b]; destruct op; cbn; intros H; try discriminate;
    (split; [reflexivity|]); (split; [intros sigma; unfold holds; cbn; lia|]);
    repeat split; intros; try discriminate; reflexivity.
Qed.

(** The theorem at [x > 3]. *)
Lemma transformInequalityLessEq_correct_witness :
  isInequality (mkRel OpGt (Sym (SVar 0)) (Num 3)) = true
  /\ transformInequalityLessEq (mkRel OpGt (Sym (SVar 0)) (Num 3))
     = mkRel OpLe (Num 3) (Sub (Sym (SVar 0)) (Num 1)).
Proof.
  split; [reflexivity|].
  exact (proj1 (proj2 (proj2 (proj2
    (transformInequalityLessEq_correct (mkRel OpGt (Sym (SVar 0)) (Num 3)) eq_refl))))
    eq_refl).
Defined.

(** [transformInequalityGreater] and [transformInequalityLessEq] lead to
    the same integer constraint from either side: each applied to the
    result of the other holds exactly where the input holds, with the
    operator of the one applied last. *)
Theorem transformInequality_compose (rel : Relational) :
  isInequality rel = true ->
  isInequality (transformInequalityGreater rel) = true
  /\ isInequality (transformInequalityLessEq rel) = true
  /\ rel_op (transformInequalityLessEq (transformInequalityGreater rel)) = OpLe
  /\ rel_op (transformInequalityGreater (transformInequalityLessEq rel)) = OpGt
  /\ (forall sigma : Valuation,
        (holds sigma (transformInequalityLessEq (transformInequalityGreater rel))
         <-> holds sigma rel)
        /\ (holds sigma (transformInequalityGreater (transformInequalityLessEq rel))
            <-> holds sigma rel)).
Proof.
  destruct rel as [op a b]; destruct op; cbn; intros H; try discriminate;
    repeat (split; [reflexivity|]); intros sigma; unfold holds; cbn; lia.
Qed.

(** The theorem at [x <= y]. *)
Lemma transformInequality_compose_witness :
  isInequality (mkRel OpLe (Sym (SVar 0)) (Sym (SVar 1))) = true
  /\ rel_op (transformInequalityGreater
               (transformInequalityLessEq (mkRel OpLe (Sym (SVar 0)) (Sym (SVar 1))))) = OpGt.
Proof.
  split; [reflexivity|].
  exact (proj1 (proj2 (proj2 (proj2
    (transformInequality_compose (mkRel OpLe (Sym (SVar 0)) (Sym (SVar 1))) eq_refl))))).
Defined.

(** [transformInequalityLessOrLessEq] never returns [>] or [>=]: these are
    flipped, with the sides exchanged and the strictness kept, and
    everything else is returned as it is.  The result holds in exactly the
    same valuations, and a second application changes nothing. *)
Theorem transformInequalityLessOrLessEq_correct (rel : Relational) :
  isRelation rel = true ->
  (rel_op (transformInequalityLessOrLessEq rel) = OpLt
   \/ rel_op (transformInequalityLessOrLessEq rel) = OpLe
   \/ rel_op (transformInequalityLessOrLessEq rel) = OpEq)
  /\ (forall sigma : Valuation,
        holds sigma (transformInequalityLessOrLessEq rel) <-> holds sigma rel)
  /\ (rel_op rel = OpGt -> transformInequalityLessOrLessEq rel = mkRel OpLt (rhs rel) (lhs rel))
  /\ (rel_op rel = OpGe -> transformInequalityLessOrLessEq rel = mkRel OpLe (rhs rel) (lhs rel))
  /\ transformInequalityLessOrLessEq (transformInequalityLessOrLessEq rel)
     = transformInequalityLessOrLessEq rel.
Proof.
  destruct rel as [op a b]; destruct op; cbn; intros H; try discriminate;
    (split; [auto|]); (split; [intros sigma; unfold holds; cbn; lia|]);
    repeat split; intros; try discriminate; reflexivity.
Qed.

(** The theorem at [x >= 3]. *)
Lemma transformInequalityLessOrLessEq_correct_witness :
  isRelation (mkRel OpGe (Sym (SVar 0)) (Num 3)) = true
  /\ transformInequalityLessOrLessEq (mkRel OpGe (Sym (SVar 0)) (Num 3))
     = mkRel OpLe (Num 3) (Sym (SVar 0)).
Proof.
  split; [reflexivity|].
  exact (proj1 (proj2 (proj2 (proj2
    (transformInequalityLessOrLessEq_correct (mkRel OpGe (Sym (SVar 0)) (Num 3)) eq_refl))))
    eq_refl).
Defined.

(** [negateLessEqInequality] returns, for [a <= b], the inequality
    [-a <= -b - 1], which holds in exactly the integer valuations in which
    [a <= b] does not; negating twice gives an inequality that holds where
    the first one does. *)
Theorem negateLessEqInequality_correct (rel : Relational) :
  rel_op rel = OpLe ->
  rel_op (negateLessEqInequality rel) = OpLe
  /\ isInequality (negateLessEqInequality rel) = true
  /\ (forall sigma : Valuation,
        holds sigma (negateLessEqInequality rel) <-> ~ holds sigma rel)
  /\ (forall sigma : Valuation,
        holds sigma (negateLessEqInequality (negateLessEqInequality rel)) <-> holds sigma rel).
Proof.
  destruct rel as [op a b]; cbn; intros ->.
  repeat (split; [reflexivity|]).
  split; intros sigma; unfold holds; cbn; lia.
Qed.

(** The theorem at [x <= 3]. *)
Lemma negateLessEqInequality_correct_witness :
  rel_op (mkRel OpLe (Sym (SVar 0)) (Num 3)) = OpLe
  /\ rel_op (negateLessEqInequality (mkRel OpLe (Sym (SVar 0)) (Num 3))) = OpLe.
Proof.
  split; [reflexivity|].
  exact (proj1 (negateLessEqInequality_correct (mkRel OpLe (Sym (SVar 0)) (Num 3)) eq_refl)).
Defined.

End RelationFacts.

(** ** The parser of function applications *)
Module FunappFacts.
Import ITRS.

Local Open Scope nat_scope.

(** *** Strings *)

Lemma append_cons (c : ascii) (a b : string) : String c a +:+ b = String c (a +:+ b).
Proof. reflexivity. Qed.

Lemma append_nil_l (b : string) : EmptyString +:+ b = b.
Proof. reflexivity. Qed.

Lemma append_nil_r (s : string) : s +:+ EmptyString = s.
Proof.
  induction s as [|c s IH]; [reflexivity | now rewrite append_cons, IH].
Qed.

Lemma append_assoc (a b c : string) : (a +:+ b) +:+ c = a +:+ (b +:+ c).
Proof.
  induction a as [|x a IH]; [reflexivity | now rewrite !append_cons, IH].
Qed.

Lemma length_append (a b : string) :
  String.length (a +:+ b) = String.length a + String.length b.
Proof.
  induction a as [|x a IH]; [reflexivity | rewrite append_cons; cbn; now rewrite IH].
Qed.

Lemma substring_zero_append (a b : string) :
  String.substring 0 (String.length a) (a +:+ b) = a.
Proof.
  induction a as [|x a IH]; [now destruct b | rewrite append_cons; cbn; now rewrite IH].
Qed.

Lemma substring_skip_append (a b : string) (n : nat) :
  String.substring (String.length a) n (a +:+ b) = String.substring 0 n b.
Proof.
  induction a as [|x a IH]; [reflexivity | rewrite append_cons; exact IH].
Qed.

Lemma substring_none (s : string) (n : nat) : String.substring n 0 s = EmptyString.
Proof.
  revert n; induction s as [|c s IH]; intros [|n]; cbn; auto.
Qed.

Lemma string_find_bounds (c : ascii) (s : string) :
  forall pos i, string_find c s pos = Some i -> pos <= i < String.length s.
Proof.
  induction s as [|d rest IH]; intros pos i; cbn; [discriminate|].
  destruct pos as [|pos].
  - destruct (Ascii.eqb d c); [intros [= <-]; lia|].
    destruct (string_find c rest 0) as [j|] eqn:Hf; cbn; [|discriminate].
    intros [= <-]. apply IH in Hf. lia.
  - destruct (string_find c rest pos) as [j|] eqn:Hf; cbn; [|discriminate].
    intros [= <-]. apply IH in Hf. lia.
Qed.

(** No [c] between the start and the position found. *)
Lemma string_find_before (c : ascii) (s : string) :
  forall pos i, string_find c s pos = Some i ->
                string_find c (String.substring pos (i - pos) s) 0 = None.
Proof.
  induction s as [|d rest IH]; intros pos i; cbn; [discriminate|].
  destruct pos as [|pos].
  - destruct (Ascii.eqb d c) eqn:Hd; [intros [= <-]; reflexivity|].
    destruct (string_find c rest 0) as [j|] eqn:Hf; cbn; [|discriminate].
    intros [= <-]. cbn. rewrite Hd. apply IH in Hf. rewrite Nat.sub_0_r in Hf.
    now rewrite Hf.
  - destruct (string_find c rest pos) as [j|] eqn:Hf; cbn; [|discriminate].
    intros [= <-]. apply IH in Hf. exact Hf.
Qed.

(** No [c] from the start on when none is found. *)
Lemma string_find_none (c : ascii) (s : string) :
  forall pos n, string_find c s pos = None ->
                string_find c (String.substring pos n s) 0 = None.
Proof.
  induction s as [|d rest IH]; intros pos n; cbn.
  - intros _. now destruct pos, n.
  - destruct pos as [|pos].
    + destruct (Ascii.eqb d c) eqn:Hd; [discriminate|].
      destruct (string_find c rest 0) as [j|] eqn:Hf; cbn; [discriminate|].
      intros _. destruct n as [|n]; [reflexivity|]. cbn. rewrite Hd.
      now rewrite (IH 0 n Hf).
    + destruct (string_find c rest pos) as [j|] eqn:Hf; cbn; [discriminate|].
      intros _. now apply IH.
Qed.

(** The string splits at the position found. *)
Lemma string_find_split (c : ascii) (s : string) (i : nat) :
  string_find c s 0 = Some i ->
  exists rest, s = String.substring 0 i s +:+ String c rest.
Proof.
  revert i; induction s as [|d s IH]; intros i; cbn; [discriminate|].
  destruct (Ascii.eqb d c) eqn:Hd.
  - intros [= <-]. apply Ascii.eqb_eq in Hd. subst d. now exists s.
  - destruct (string_find c s 0) as [j|] eqn:Hf; cbn; [|discriminate].
    intros [= <-]. destruct (IH j eq_refl) as [rest Hrest]. exists rest. cbn.
    rewrite append_cons. now rewrite <- Hrest.
Qed.

Lemma string_find_append_skip (c : ascii) (a b : string) (k : nat) :
  string_find c (a +:+ b) (String.length a + k)
  = option_map (Nat.add (String.length a)) (string_find c b k).
Proof.
  induction a as [|x a IH].
  - rewrite append_nil_l. cbn. now destruct (string_find c b k).
  - rewrite append_cons. cbn. rewrite IH. now destruct (string_find c b k).
Qed.

Lemma string_find_append_none (c : ascii) (a b : string) :
  string_find c a 0 = None ->
  string_find c (a +:+ b) 0 = option_map (Nat.add (String.length a)) (string_find c b 0).
Proof.
  induction a as [|x a IH].
  { intros _. rewrite append_nil_l. cbn. now destruct (string_find c b 0). }
  rewrite append_cons. cbn.
  destruct (Ascii.eqb x c); [discriminate|].
  destruct (string_find c a 0) eqn:Hf; cbn; [discriminate|]. intros _.
  rewrite (IH eq_refl). now destruct (string_find c b 0).
Qed.

Lemma string_rfind_last (c : ascii) (s : string) :
  string_rfind c (s +:+ String c EmptyString) = Some (String.length s).
Proof.
  induction s as [|d s IH]; [rewrite append_nil_l; cbn; now rewrite Ascii.eqb_refl|].
  rewrite append_cons. cbn. now rewrite IH.
Qed.

Lemma string_rfind_bounds (c : ascii) (s : string) (i : nat) :
  string_rfind c s = Some i -> i < String.length s.
Proof.
  revert i; induction s as [|d s IH]; intros i; cbn; [discriminate|].
  destruct (string_rfind c s) as [j|]; [intros [= <-]; specialize (IH j eq_refl); lia|].
  destruct (Ascii.eqb d c); [intros [= <-]; lia | discriminate].
Qed.

(** A string whose last [c] is its last character ends in [c]. *)
Lemma string_rfind_ends (c : ascii) (s : string) :
  string_rfind c s = Some (String.length s - 1) ->
  exists s', s = s' +:+ String c EmptyString.
Proof.
  induction s as [|d s IH]; cbn; [discriminate|].
  destruct (string_rfind c s) as [j|] eqn:Hr.
  - intros [= Hj]. pose proof (string_rfind_bounds _ _ _ Hr) as Hb.
    destruct IH as [s' Hs']; [f_equal; lia|]. exists (String d s').
    rewrite append_cons. now rewrite <- Hs'.
  - destruct (Ascii.eqb d c) eqn:Hd; [|discriminate]. intros [= H0].
    apply Ascii.eqb_eq in Hd. subst d.
    destruct s; [now exists EmptyString | cbn in H0; lia].
Qed.

(** *** Trimming *)

Lemma trim_left_idem (s : string) : trim_left (trim_left s) = trim_left s.
Proof.
  induction s as [|c s IH]; cbn; [reflexivity|].
  destruct (isspace c) eqn:Hc; [exact IH | cbn; now rewrite Hc].
Qed.

Lemma trim_right_idem (s : string) : trim_right (trim_right s) = trim_right s.
Proof.
  induction s as [|c s IH]; cbn; [reflexivity|].
  destruct (trim_right s) as [|d t] eqn:Ht.
  - destruct (isspace c) eqn:Hc; cbn; [reflexivity | now rewrite Hc].
  - change (trim_right (String c (String d t))) with
      (match trim_right (String d t) with
       | EmptyString => if isspace c then EmptyString else String c EmptyString
       | rest' => String c rest'
       end).
    now rewrite IH.
Qed.

Lemma trim_right_cons (c : ascii) (s : string) :
  isspace c = false -> trim_right (String c s) = String c (trim_right s).
Proof. intros Hc. cbn. destruct (trim_right s); [now rewrite Hc | reflexivity]. Qed.

Lemma trim_left_right (s : string) : trim_right (trim_left s) = trim_left (trim_right s).
Proof.
  induction s as [|c s IH]; [reflexivity|].
  destruct (isspace c) eqn:Hc.
  - cbn [trim_left]. rewrite Hc, IH. cbn [trim_right].
    destruct (trim_right s) as [|d t]; [now rewrite Hc | cbn; now rewrite Hc].
  - rewrite (trim_right_cons c s Hc). cbn [trim_left]. rewrite Hc.
    now rewrite (trim_right_cons c s Hc).
Qed.

Lemma trim_idem (s : string) : trim (trim s) = trim s.
Proof.
  unfold trim. rewrite <- (trim_left_right (trim_left (trim_right s))).
  rewrite trim_left_idem, trim_left_right. rewrite trim_right_idem. reflexivity.
Qed.

Lemma trim_left_find_none (c : ascii) (s : string) :
  string_find c s 0 = None -> string_find c (trim_left s) 0 = None.
Proof.
  induction s as [|d s IH]; cbn; [auto|].
  destruct (Ascii.eqb d c) eqn:Hd; [discriminate|].
  destruct (string_find c s 0) eqn:Hf; cbn; [discriminate|]. intros _.
  destruct (isspace d); [now apply IH | cbn; now rewrite Hd, Hf].
Qed.

Lemma trim_right_find_none (c : ascii) (s : string) :
  string_find c s 0 = None -> string_find c (trim_right s) 0 = None.
Proof.
  induction s as [|d s IH]; cbn; [auto|].
  destruct (Ascii.eqb d c) eqn:Hd; [discriminate|].
  destruct (string_find c s 0) eqn:Hf; cbn; [discriminate|]. intros _.
  specialize (IH eq_refl).
  destruct (trim_right s) as [|e t].
  - destruct (isspace d); cbn; [reflexivity | now rewrite Hd].
  - cbn in *. rewrite Hd. destruct (Ascii.eqb e c); [discriminate|].
    destruct (string_find c t 0); [discriminate | reflexivity].
Qed.

Lemma trim_find_none (c : ascii) (s : string) :
  string_find c s 0 = None -> string_find c (trim s) 0 = None.
Proof. intros H. now apply trim_left_find_none, trim_right_find_none. Qed.

Lemma emptyString_false (s : string) : emptyString s = false <-> s <> EmptyString.
Proof. destruct s; cbn; split; congruence. Qed.

(** *** Arguments as [parseFunapp] accepts them *)

Lemma splitArgs_spec (fuel : nat) (line : string) :
  forall startpos args,
    String.length line - startpos < fuel ->
    Forall plainArg args ->
    exists res,
      splitArgs fuel line startpos args = Some res
      /\ match res with
         | inl e => e = EmptyArgument line
         | inr (startpos', args') =>
           startpos <= startpos' /\ Forall plainArg args'
           /\ string_find "," line startpos' = None
           /\ (startpos' = startpos \/ startpos' <= String.length line)
         end.
Proof.
  induction fuel as [|fuel IH]; intros startpos args Hfuel Hargs.
  - lia.
  - cbn [splitArgs].
    destruct (string_find "," line startpos) as [pos|] eqn:Hfind.
    + pose proof (string_find_bounds _ _ _ _ Hfind) as Hb.
      destruct (emptyString _) eqn:He; [exists (inl (EmptyArgument line)); auto|].
      destruct (IH (pos + 1) (args ++ [trim (substr line startpos (pos - startpos))]))
        as (res & Hrun & Hres); [lia | |].
      { apply Forall_app. split; [exact Hargs|]. constructor; [|constructor].
        split; [now apply emptyString_false|]. split; [apply trim_idem|].
        apply trim_find_none. unfold substr. eapply string_find_before; eauto. }
      exists res. split; [exact Hrun|]. destruct res as [e|[sp' args']]; [exact Hres|].
      destruct Hres as (H1 & H2 & H3 & H4). split; [lia|]. split; [exact H2|].
      split; [exact H3|]. right. destruct H4 as [->|H4]; lia.
    + exists (inr (startpos, args)). split; [reflexivity|]. auto.
Qed.

Lemma append_ends (d : ascii) (a x s' : string) :
  a +:+ x = s' +:+ String d EmptyString -> x <> EmptyString ->
  exists body, x = body +:+ String d EmptyString.
Proof.
  revert s'; induction a as [|e a IH]; intros s' Heq Hx.
  - rewrite append_nil_l in Heq. now exists s'.
  - rewrite append_cons in Heq. destruct s' as [|e' s''].
    + rewrite append_nil_l in Heq. injection Heq as _ Heq.
      destruct a; [rewrite append_nil_l in Heq; contradiction | discriminate].
    + rewrite append_cons in Heq. injection Heq as _ Heq. eapply IH; eauto.
Qed.

(** [parseFunapp] returns for every line.  A line without [(] is refused.
    In an application that it accepts, the function name holds no [(], no
    argument is empty, holds a comma, or starts or ends with white space,
    and the line is the name, [(], some text and [)]. *)
Theorem parseFunapp_accepts (line : string) :
  (exists res, parseFunapp line = Some res)
  /\ (string_find "(" line 0 = None ->
      parseFunapp line = Some (inl (MissingOpenParen line)))
  /\ (forall (f : string) (args : list string),
        parseFunapp line = Some (inr (f, args)) ->
        string_find "(" f 0 = None
        /\ Forall plainArg args
        /\ exists body, line = f +:+ "(" +:+ body +:+ ")").
Proof.
  unfold parseFunapp.
  destruct (string_find "(" line 0) as [pos|] eqn:Hopen.
  2:{ split; [eauto|]. split; [reflexivity | discriminate]. }
  destruct (closeParenIsLast line) eqn:Hclose; cbn [negb].
  2:{ split; [eauto|]. split; [discriminate | discriminate]. }
  destruct (splitArgs_spec (S (String.length line)) line (pos + 1) [])
    as (res & Hrun & Hres); [lia | constructor |].
  rewrite Hrun. destruct res as [e|[startpos args]].
  { split; [eauto|]. split; discriminate. }
  destruct Hres as (Hle & Hargs & Hnone & _).
  set (lastarg := trim (substr line startpos (String.length line - 1 - startpos))).
  assert (Hlast : emptyString lastarg = false -> plainArg lastarg).
  { intros He. split; [now apply emptyString_false|]. split; [apply trim_idem|].
    apply trim_find_none, string_find_none, Hnone. }
  assert (Hshape : exists body, line = substr line 0 pos +:+ "(" +:+ body +:+ ")").
  { destruct (string_find_split _ _ _ Hopen) as [rest Hrest].
    unfold closeParenIsLast in Hclose.
    destruct (string_rfind ")" line) as [i|] eqn:Hr.
    - apply Nat.eqb_eq in Hclose. subst i.
      destruct (string_rfind_ends _ _ Hr) as [s' Hs'].
      rewrite Hrest in Hs' at 1.
      destruct (append_ends _ _ _ _ Hs') as [body Hbody]; [discriminate|].
      destruct body as [|b body].
      + rewrite append_nil_l in Hbody. discriminate.
      + rewrite append_cons in Hbody. injection Hbody as <- ->.
        exists body. exact Hrest.
    - apply Nat.eqb_eq in Hclose. apply string_find_bounds in Hopen. lia. }
  assert (Hfun : string_find "(" (substr line 0 pos) 0 = None).
  { pose proof (string_find_before _ _ _ _ Hopen) as H. now rewrite Nat.sub_0_r in H. }
  destruct (emptyString lastarg) eqn:He; cbn [negb].
  - destruct args as [|a args].
    + split; [eauto|]. split; [discriminate|]. intros f args [= <- <-]. auto.
    + split; [eauto|]. split; discriminate.
  - split; [eauto|]. split; [discriminate|]. intros f args' [= <- <-].
    split; [exact Hfun|]. split; [|exact Hshape].
    apply Forall_app. split; [exact Hargs|]. constructor; [auto | constructor].
Qed.

(** *** Reading back what [printLhs] writes *)

Lemma splitArgs_printArgs (f : string) (names : list string) :
  forall (line pre : string) (acc : list string) (fuel : nat),
    line = pre +:+ printArgs names +:+ ")" ->
    Forall plainArg names -> names <> [] ->
    String.length (printArgs names) < fuel ->
    match splitArgs fuel line (String.length pre) acc with
    | None => None
    | Some (inl e) => Some (inl e)
    | Some (inr (startpos, args)) =>
      let lastarg := trim (substr line startpos (String.length line - 1 - startpos)) in
      if negb (emptyString lastarg) then Some (inr (f, args ++ [lastarg]))
      else match args with
           | [] => Some (inr (f, args))
           | _ => Some (inl (EmptyLastArgument line))
           end
    end = Some (inr (f, acc ++ names)).
Proof.
  induction names as [|x rest IH]; intros line pre acc fuel Hline Hplain Hne Hfuel;
    [contradiction|].
  inversion Hplain as [|? ? [Hx [Htrim Hcomma]] Hrest]; subst.
  destruct fuel as [|fuel]; [lia|]. cbn [splitArgs].
  destruct rest as [|y rest].
  - cbn [printArgs]. cbn [printArgs] in Hfuel.
    replace (String.length pre) with (String.length pre + 0) at 1 by lia.
    rewrite string_find_append_skip, (string_find_append_none _ x ")" Hcomma).
    cbn [string_find option_map Ascii.eqb]. cbn.
    rewrite !length_append. cbn [String.length].
    replace (String.length pre + (String.length x + 1) - 1 - String.length pre)
      with (String.length x) by lia.
    unfold substr. rewrite substring_skip_append, substring_zero_append, Htrim.
    apply emptyString_false in Hx. rewrite Hx. reflexivity.
  - change (printArgs (x :: y :: rest)) with (x +:+ "," +:+ printArgs (y :: rest)) in *.
    rewrite !length_append in Hfuel. cbn [String.length] in Hfuel.
    assert (Hline : pre +:+ (x +:+ "," +:+ printArgs (y :: rest)) +:+ ")"
                    = (pre +:+ x +:+ ",") +:+ printArgs (y :: rest) +:+ ")").
    { now rewrite !append_assoc. }
    set (line := pre +:+ (x +:+ "," +:+ printArgs (y :: rest)) +:+ ")") in *.
    specialize (IH line (pre +:+ x +:+ ",") (acc ++ [x]) fuel Hline Hrest
                   ltac:(discriminate) ltac:(lia)).
    replace (String.length (pre +:+ x +:+ ",")) with (String.length pre + String.length x + 1)
      in IH by (rewrite !length_append; cbn [String.length]; lia).
    rewrite <- app_assoc in IH. cbn [app] in IH.
    assert (Hfind : string_find "," line (String.length pre)
                    = Some (String.length pre + String.length x)).
    { unfold line.
      replace (String.length pre) with (String.length pre + 0) at 1 by lia.
      rewrite string_find_append_skip, !append_assoc.
      rewrite (string_find_append_none _ x _ Hcomma).
      rewrite append_cons. cbn [string_find]. rewrite Ascii.eqb_refl. cbn.
      f_equal. lia. }
    rewrite Hfind.
    replace (String.length pre + String.length x - String.length pre)
      with (String.length x) by lia.
    assert (Hsub : substr line (String.length pre) (String.length x) = x).
    { unfold substr, line. rewrite substring_skip_append, append_assoc.
      apply substring_zero_append. }
    rewrite Hsub, Htrim.
    pose proof Hx as Hx'. apply emptyString_false in Hx'. rewrite Hx'.
    exact IH.
Qed.

Lemma parseFunapp_printArgs (name : string) (names : list string) :
  string_find "(" name 0 = None -> Forall plainArg names ->
  parseFunapp (name +:+ "(" +:+ printArgs names +:+ ")") = Some (inr (name, names)).
Proof.
  intros Hname Hnames. unfold parseFunapp.
  set (line := name +:+ "(" +:+ printArgs names +:+ ")").
  assert (Hopen : string_find "(" line 0 = Some (String.length name)).
  { unfold line. rewrite (string_find_append_none _ name _ Hname).
    rewrite append_cons. cbn [string_find]. rewrite Ascii.eqb_refl. cbn. f_equal. lia. }
  assert (Hlen : String.length line = String.length name + 1 + String.length (printArgs names) + 1).
  { unfold line. rewrite !length_append. cbn [String.length]. lia. }
  assert (Hclose : closeParenIsLast line = true).
  { unfold closeParenIsLast.
    replace line with ((name +:+ "(" +:+ printArgs names) +:+ ")") at 1
      by (unfold line; now rewrite !append_assoc).
    rewrite string_rfind_last, !length_append, Hlen. cbn [String.length].
    apply Nat.eqb_eq. lia. }
  assert (Hfun : substr line 0 (String.length name) = name).
  { unfold substr, line. apply substring_zero_append. }
  rewrite Hopen, Hclose. cbn [negb]. cbv zeta. rewrite Hfun.
  replace (String.length name + 1) with (String.length (name +:+ "("))
    by (rewrite length_append; reflexivity).
  destruct names as [|x rest].
  - cbn [splitArgs].
    assert (Hnone : string_find "," line (String.length (name +:+ "(")) = None).
    { unfold line. cbn [printArgs].
      replace (name +:+ "(" +:+ EmptyString +:+ ")") with ((name +:+ "(") +:+ ")")
        by (now rewrite !append_assoc).
      replace (String.length (name +:+ "(")) with (String.length (name +:+ "(") + 0) by lia.
      now rewrite string_find_append_skip. }
    rewrite Hnone, Hlen, length_append. cbn [printArgs String.length].
    replace (String.length name + 1 + 0 + 1 - 1 - (String.length name + 1)) with 0 by lia.
    unfold substr. now rewrite substring_none.
  - apply (splitArgs_printArgs name (x :: rest) line (name +:+ "(") []);
      [unfold line; now rewrite !append_assoc | exact Hnames | discriminate | lia].
Qed.

(** What [printLhs] writes for a function symbol is read back by
    [parseFunapp] as the name of the symbol and the names of its variables,
    when the name holds no [(] and the names of the variables are plain:
    not empty, without comma and without white space at their ends. *)
Theorem parseFunapp_printLhs (p : Problem) (f : FunctionSymbolIndex)
    (name : string) (funcVars : list VariableIndex) :
  functionSymbols p !! f = Some name ->
  functionSymbolVars p !! f = Some funcVars ->
  string_find "(" name 0 = None ->
  (forall vi, In vi funcVars -> exists v, getVarname p vi = Some v /\ plainArg v) ->
  exists names text,
    mapM (getVarname p) funcVars = Some names
    /\ printLhs p f = Some text
    /\ text = name +:+ "(" +:+ printArgs names +:+ ")"
    /\ parseFunapp text = Some (inr (name, names)).
Proof.
  intros Hname Hvars Hparen Hplain.
  assert (Hnames : exists names,
             mapM (getVarname p) funcVars = Some names /\ Forall plainArg names).
  { clear Hvars. induction funcVars as [|vi rest IH].
    - exists []. split; [reflexivity | constructor].
    - destruct (Hplain vi) as (v & Hv & Hpl); [now left|].
      destruct IH as (names & Hm & Hall); [intros w Hw; apply Hplain; now right|].
      exists (v :: names). split; [|now constructor].
      cbn. rewrite Hv. cbn. now rewrite Hm. }
  destruct Hnames as (names & Hm & Hall).
  exists names, (name +:+ "(" +:+ printArgs names +:+ ")").
  split; [exact Hm|]. split; [unfold printLhs; now rewrite Hname, Hvars, Hm|].
  split; [reflexivity|]. now apply parseFunapp_printArgs.
Qed.

(** The theorem at the function symbol [f] with the variables [x] and [y]. *)
Lemma parseFunapp_printLhs_witness :
  printLhs sampleProblem 0 = Some "f(x,y)"
  /\ exists names text,
       mapM (getVarname sampleProblem) [0; 1] = Some names
       /\ printLhs sampleProblem 0 = Some text
       /\ text = "f" +:+ "(" +:+ printArgs names +:+ ")"
       /\ parseFunapp text = Some (inr ("f", names)).
Proof.
  split; [reflexivity|].
  apply (parseFunapp_printLhs sampleProblem 0 "f" [0; 1]); try reflexivity.
  intros vi [<-|[<-|[]]]; eexists; (split; [reflexivity|]);
    (split; [discriminate | split; reflexivity]).
Defined.

End FunappFacts.

(** ** The variables of a problem *)
Module VariableFacts.
Import ITRS FunappFacts.

Local Open Scope nat_scope.

Lemma candidate_inj (basename : string) (i j : nat) :
  candidate basename i = candidate basename j -> i = j.
Proof.
  assert (Hlen : forall k, basename <> basename +:+ "_" +:+ pretty (Z.of_nat (S k))).
  { intros k Heq. apply (f_equal String.length) in Heq.
    rewrite length_append in Heq. cbn [String.append String.length] in Heq.
    rewrite append_cons in Heq. cbn [String.length] in Heq. lia. }
  destruct i as [|i], j as [|j]; unfold candidate; intros Heq; auto.
  - now apply Hlen in Heq.
  - symmetry in Heq. now apply Hlen in Heq.
  - apply String.app_inj in Heq. apply String.app_inj in Heq.
    apply pretty_Z_inj in Heq. lia.
Qed.

(** The names tried so far are in the map, so they are no more than the
    map has keys. *)
Lemma candidates_bound (p : Problem) (basename : string) (n : nat) :
  (forall j, j < n -> is_Some (varMap p !! candidate basename j)) ->
  n <= size (varMap p).
Proof.
  intros Hall.
  assert (Hnd : NoDup (candidate basename <$> seq 0 n)).
  { apply NoDup_fmap_2_strong; [|apply NoDup_seq].
    intros i j _ _. apply candidate_inj. }
  transitivity (size (list_to_set (C := gset string) (candidate basename <$> seq 0 n))).
  { rewrite size_list_to_set by exact Hnd. now rewrite length_fmap, length_seq. }
  rewrite <- size_dom. apply subseteq_size.
  intros x Hx. apply elem_of_list_to_set, list_elem_of_fmap in Hx as (j & -> & Hj).
  apply elem_of_seq in Hj. apply elem_of_dom, Hall. lia.
Qed.

Lemma getFreshNameLoop_spec (p : Problem) (basename : string) (fuel : nat) :
  forall n,
    (forall j, j < n -> is_Some (varMap p !! candidate basename j)) ->
    size (varMap p) - n < fuel ->
    (Z.of_nat (size (varMap p)) < INT_MAX)%Z ->
    exists k,
      n <= k
      /\ getFreshNameLoop fuel p basename (candidate basename n) (Z.of_nat n + 1)
         = Some (candidate basename k)
      /\ varMap p !! candidate basename k = None
      /\ forall j, j < k -> is_Some (varMap p !! candidate basename j).
Proof.
  induction fuel as [|fuel IH]; intros n Hall Hfuel Hmax; [lia|].
  cbn [getFreshNameLoop].
  destruct (varMap p !! candidate basename n) as [vi|] eqn:Hn.
  - assert (Hall' : forall j, j < S n -> is_Some (varMap p !! candidate basename j)).
    { intros j Hj. destruct (decide (j = n)) as [->|Hne]; [eauto | apply Hall; lia]. }
    pose proof (candidates_bound p basename (S n) Hall') as Hbound.
    destruct (Z.eqb_spec (Z.of_nat n + 1) INT_MAX) as [Heq|_]; [lia|].
    destruct (IH (S n) Hall') as (k & Hk & Hrun & Hfresh & Hbelow); [lia | exact Hmax |].
    exists k. split; [lia|]. split; [|auto].
    replace (Z.of_nat n + 1 + 1)%Z with (Z.of_nat (S n) + 1)%Z by lia.
    replace (Z.of_nat n + 1)%Z with (Z.of_nat (S n)) by lia. exact Hrun.
  - exists n. auto.
Qed.

Lemma getFreshName_some (p : Problem) (basename : string) (fuel : nat) :
  size (varMap p) < fuel ->
  (Z.of_nat (size (varMap p)) < INT_MAX)%Z ->
  exists name,
    getFreshName fuel p basename = Some name
    /\ varMap p !! name = None
    /\ (varMap p !! basename = None -> name = basename).
Proof.
  intros Hfuel Hmax.
  destruct (getFreshNameLoop_spec p basename fuel 0) as (k & _ & Hrun & Hfresh & Hbelow);
    [lia | lia | exact Hmax |].
  exists (candidate basename k). split; [exact Hrun|]. split; [exact Hfresh|].
  intros Hbase. destruct k as [|k]; [reflexivity|].
  destruct (Hbelow 0) as [vi Hvi]; [lia|]. cbn in Hvi. congruence.
Qed.

(** [getFreshName] returns a name that is not in use: the base name if it
    is free, and else the first of [basename_1], [basename_2], ... that is
    free.  The map must have fewer than [INT_MAX] keys, so that the counter
    does not overflow. *)
Theorem getFreshName_fresh (p : Problem) (basename : string) (fuel : nat) :
  size (varMap p) < fuel ->
  (Z.of_nat (size (varMap p)) < INT_MAX)%Z ->
  exists name,
    getFreshName fuel p basename = Some name
    /\ varMap p !! name = None
    /\ (varMap p !! basename = None -> name = basename)
    /\ (is_Some (varMap p !! basename) ->
        exists k : Z,
          (1 <= k)%Z
          /\ name = basename +:+ "_" +:+ pretty k
          /\ forall j : Z, (1 <= j < k)%Z ->
                           is_Some (varMap p !! (basename +:+ "_" +:+ pretty j))).
Proof.
  intros Hfuel Hmax.
  destruct (getFreshNameLoop_spec p basename fuel 0) as (k & _ & Hrun & Hfresh & Hbelow);
    [lia | lia | exact Hmax |].
  exists (candidate basename k). split; [exact Hrun|]. split; [exact Hfresh|]. split.
  - intros Hbase. destruct k as [|k]; [reflexivity|].
    destruct (Hbelow 0) as [vi Hvi]; [lia|]. cbn in Hvi. congruence.
  - intros [vi Hbase]. destruct k as [|k]; [cbn in Hfresh; congruence|].
    exists (Z.of_nat (S k)). split; [lia|]. split; [reflexivity|].
    intros j Hj. specialize (Hbelow (Z.to_nat j) ltac:(lia)).
    destruct (Z.to_nat j) as [|j'] eqn:Hj'; [lia|].
    unfold candidate in Hbelow. now replace (Z.of_nat (S j')) with j in Hbelow by lia.
Qed.

(** The theorem at a problem in which [x] and [x_1] are in use. *)
Lemma crowdedProblem_size : size (varMap crowdedProblem) = 2.
Proof. vm_compute. reflexivity. Defined.

Lemma getFreshName_fresh_witness :
  getFreshName 3 crowdedProblem "x" = Some "x_2"
  /\ exists name,
       getFreshName 3 crowdedProblem "x" = Some name
       /\ varMap crowdedProblem !! name = None.
Proof.
  split; [vm_compute; reflexivity|].
  destruct (getFreshName_fresh crowdedProblem "x" 3) as (name & Hrun & Hfresh & _).
  - rewrite crowdedProblem_size. lia.
  - rewrite crowdedProblem_size. reflexivity.
  - exists name. split; assumption.
Defined.

(** [addFreshVariable] on a problem whose two maps agree: the new variable
    gets the next index and a name that was not in use, the base name if
    that was free; the maps agree again, the names of the old variables are
    as they were, and the variable is recorded as free exactly when this
    was asked. *)
Theorem addFreshVariable_spec (p : Problem) (basename : string) (free : bool) (fuel : nat) :
  consistent p ->
  size (varMap p) < fuel ->
  (Z.of_nat (size (varMap p)) < INT_MAX)%Z ->
  exists name p',
    addFreshVariable fuel p basename free = Some (List.length (vars p), p')
    /\ varMap p !! name = None
    /\ (varMap p !! basename = None -> name = basename)
    /\ vars p' = vars p ++ [name]
    /\ varMap p' = <[name := List.length (vars p)]> (varMap p)
    /\ getVarname p' (List.length (vars p)) = Some name
    /\ (forall vi v, getVarname p vi = Some v -> getVarname p' vi = Some v)
    /\ consistent p'
    /\ freeVars p' = (if free then {[List.length (vars p)]} ∪ freeVars p else freeVars p)
    /\ functionSymbols p' = functionSymbols p
    /\ functionSymbolVars p' = functionSymbolVars p.
Proof.
  intros Hcons Hfuel Hmax. unfold consistent in Hcons.
  destruct (getFreshName_some p basename fuel Hfuel Hmax) as (name & Hrun & Hfresh & Hbase).
  set (n := List.length (vars p)).
  set (p1 := snd (addVariable p name)).
  exists name, (if free
                then mkProblem (vars p1) (varMap p1) (varSymbols p1) ({[n]} ∪ freeVars p1)
                               (functionSymbols p1) (functionSymbolVars p1)
                else p1).
  assert (Hmid : (vars p ++ [name]) !! n = Some name).
  { unfold n. rewrite lookup_app_r by lia. now rewrite Nat.sub_diag. }
  assert (Hold : forall vi v, vars p !! vi = Some v -> (vars p ++ [name]) !! vi = Some v).
  { intros vi v Hv. now apply lookup_app_l_Some. }
  assert (Hcons' : forall name' vi,
             <[name := n]> (varMap p) !! name' = Some vi
             <-> (vars p ++ [name]) !! vi = Some name').
  { intros name' vi. destruct (decide (name = name')) as [<-|Hne].
    - rewrite lookup_insert_eq. split.
      + intros [= <-]. exact Hmid.
      + intros Hv. apply lookup_app_Some in Hv as [Hv|[Hge Hv]].
        * apply Hcons in Hv. congruence.
        * apply list_lookup_singleton_Some in Hv as [Hv _]. f_equal. unfold n. lia.
    - rewrite lookup_insert_ne by exact Hne. rewrite Hcons. split.
      + apply Hold.
      + intros Hv. apply lookup_app_Some in Hv as [Hv|[Hge Hv]]; [exact Hv|].
        apply list_lookup_singleton_Some in Hv as [_ Hv]. congruence. }
  unfold addFreshVariable. rewrite Hrun. unfold addVariable. fold n.
  split; [now destruct free|]. split; [exact Hfresh|]. split; [exact Hbase|].
  destruct free; (split; [reflexivity|]); (split; [reflexivity|]);
    (split; [exact Hmid|]); (split; [exact Hold|]); (split; [exact Hcons'|]);
    repeat split; reflexivity.
Qed.

(** The theorem at the problem without variables. *)
Lemma emptyProblem_consistent : consistent emptyProblem.
Proof.
  intros name vi. cbn. rewrite lookup_empty. split; [discriminate | now destruct vi].
Defined.

Lemma addFreshVariable_spec_witness :
  exists name p',
    addFreshVariable 1 emptyProblem "free" true = Some (0, p')
    /\ vars p' = [name] /\ freeVars p' = {[0]} ∪ ∅.
Proof.
  destruct (addFreshVariable_spec emptyProblem "free" true 1 emptyProblem_consistent)
    as (name & p' & Hrun & _ & _ & Hvars & _ & _ & _ & _ & Hfree & _).
  - vm_compute. lia.
  - reflexivity.
  - exists name, p'. split; [exact Hrun|]. split; [exact Hvars | exact Hfree].
Defined.

End VariableFacts.

(** ** More on the escaping of variable names *)
Module EscapeFacts.
Import ITRS FunappFacts.

Lemma escapeChar_idem (c : ascii) : escapeChar (escapeChar c) = escapeChar c.
Proof. destruct c as [[] [] [] [] [] [] [] []]; reflexivity. Qed.

Lemma escapeChar_plain (c : ascii) :
  isspace (escapeChar c) = false /\ Ascii.eqb (escapeChar c) "," = false.
Proof. destruct c as [[] [] [] [] [] [] [] []]; split; reflexivity. Qed.

Lemma escapeLoop_idem (name : string) : escapeLoop (escapeLoop name) = escapeLoop name.
Proof.
  induction name as [|c rest IH]; cbn; [reflexivity | now rewrite escapeChar_idem, IH].
Qed.

Lemma isalpha_plain (c : ascii) :
  isalpha c = true -> isspace c = false /\ Ascii.eqb c "," = false.
Proof. destruct c as [[] [] [] [] [] [] [] []]; cbn; intros H; try discriminate; auto. Qed.

Lemma escapeLoop_trim_right (name : string) :
  trim_right (escapeLoop name) = escapeLoop name.
Proof.
  induction name as [|c rest IH]; [reflexivity|].
  cbn [escapeLoop]. rewrite trim_right_cons by apply escapeChar_plain. now rewrite IH.
Qed.

Lemma escapeLoop_no_comma (name : string) : string_find "," (escapeLoop name) 0 = None.
Proof.
  induction name as [|c rest IH]; [reflexivity|].
  cbn [escapeLoop string_find]. rewrite (proj2 (escapeChar_plain c)). now rewrite IH.
Qed.

(** Escaping an escaped name changes nothing, and the escaped name is a
    plain argument, as [parseFunapp] reads it back: it is not empty, it
    holds no comma, and no white space at its ends. *)
Theorem escapeVarname_idempotent (name : string) :
  escapeVarname (escapeVarname name) = escapeVarname name
  /\ plainArg (escapeVarname name).
Proof.
  unfold escapeVarname.
  destruct (isalpha (front (escapeLoop name))) eqn:Halpha; cbn [negb].
  - rewrite escapeLoop_idem, Halpha. cbn [negb]. split; [reflexivity|].
    destruct (escapeLoop name) as [|c rest] eqn:Hloop; [discriminate|].
    cbn [front] in Halpha. destruct (isalpha_plain c Halpha) as [Hspace Hcomma].
    split; [discriminate|]. split.
    + unfold trim. rewrite <- Hloop, escapeLoop_trim_right, Hloop. cbn. now rewrite Hspace.
    + rewrite <- Hloop. apply escapeLoop_no_comma.
  - cbn [escapeLoop front]. rewrite escapeLoop_idem.
    change (escapeChar "q") with "q"%char. cbn [isalpha isupper islower front negb].
    split; [reflexivity|]. split; [discriminate|]. split.
    + unfold trim. rewrite trim_right_cons by reflexivity.
      rewrite escapeLoop_trim_right. reflexivity.
    + cbn [string_find]. change (Ascii.eqb "q" ",") with false.
      now rewrite escapeLoop_no_comma.
Qed.

End EscapeFacts.

(** ** The recurrence engine: the order of the variables *)
Module OrderFacts.
Import Recurrence RecurrenceFacts.

Lemma UpdateMap_at_In update v e :
  List.NoDup (keys update) -> In (v, e) update -> UpdateMap_at update v = Some e.
Proof.
  induction update as [|[k e'] rest IH]; cbn; [tauto|].
  intros Hnd [Heq|Hin].
  - injection Heq as -> ->. now rewrite Nat.eqb_refl.
  - apply List.NoDup_cons_iff in Hnd as [Hnot Hnd].
    destruct (Nat.eqb_spec k v) as [->|_]; [|now apply IH].
    exfalso. apply Hnot. apply in_map_iff. exists (v, e). auto.
Qed.

Lemma UpdateMap_at_keys update v e : UpdateMap_at update v = Some e -> In v (keys update).
Proof.
  induction update as [|[k e'] rest IH]; cbn; [discriminate|].
  destruct (Nat.eqb_spec k v) as [->|_]; [now left | right; auto].
Qed.

Lemma UpdateMap_at_substituteAll sub update v :
  UpdateMap_at (substituteAll sub update) v = option_map (subs sub) (UpdateMap_at update v).
Proof.
  induction update as [|[k e] rest IH]; cbn; [reflexivity|].
  destruct (Nat.eqb k v); [reflexivity | exact IH].
Qed.

(** A substitution that binds no symbol of the expression leaves it. *)
Lemma subs_id m e :
  (forall s, In s (symbolsOf e) -> exmap_find m s = None) -> subs m e = e.
Proof.
  induction e as [z|s|a IHa b IHb|a IHa b IHb|a IHa b IHb]; cbn; intros H;
    try reflexivity;
    try (rewrite IHa, IHb; [reflexivity | |]; intros s Hs; apply H, in_or_app; auto).
  rewrite H; [reflexivity | now left].
Qed.

Lemma respectsDependencies_nil update : respectsDependencies update [].
Proof. intros [|x l1] v l2 H; discriminate. Qed.

Lemma respectsDependencies_snoc update ordering v :
  respectsDependencies update ordering ->
  (forall w, dependsOn update v w -> In w ordering) ->
  respectsDependencies update (ordering ++ [v]).
Proof.
  intros Hresp Hv l1 x l2 Heq w Hdep.
  destruct (exists_last (l := x :: l2)) as (l2' & y & Hlast); [discriminate|].
  rewrite Hlast, app_assoc in Heq. apply app_inj_tail in Heq as [Hord ->].
  destruct l2' as [|z l2'].
  - cbn in Hlast. injection Hlast as -> _. rewrite app_nil_r in Hord. subst l1. auto.
  - cbn in Hlast. injection Hlast as <- ->. eapply Hresp; eauto.
Qed.

Lemma unresolved_false update oV up :
  unresolved update oV up = false <->
  (forall w, In w (VarMan.getVarIdxs (snd up)) -> w <> fst up -> In w (keys update) ->
             w ∈ oV).
Proof.
  unfold unresolved. split.
  - intros Hex w Hw Hne Hk. destruct (decide (w ∈ oV)) as [Hin|Hnot]; [exact Hin|].
    exfalso. apply not_true_iff_false in Hex. apply Hex, existsb_exists.
    exists w. split; [exact Hw|].
    rewrite (proj2 (UpdateMap_count_In update w) Hk).
    rewrite (proj2 (Nat.eqb_neq w (fst up)) Hne). cbn.
    now rewrite bool_decide_eq_false_2.
  - intros H. apply not_true_is_false. intros Hex.
    apply existsb_exists in Hex as (w & Hw & Hcond).
    apply andb_prop in Hcond as [Hcond Hnot]. apply andb_prop in Hcond as [Hne Hk].
    apply negb_true_iff, Nat.eqb_neq in Hne. apply UpdateMap_count_In in Hk.
    apply negb_true_iff, bool_decide_eq_false in Hnot. apply Hnot, H; auto.
Qed.

Lemma PassInv_snoc update ordering oV v :
  PassInv update ordering oV -> v ∉ oV -> In v (keys update) ->
  PassInv update (ordering ++ [v]) ({[v]} ∪ oV).
Proof.
  intros [Hnd Hset Hkeys] Hnot Hk. split.
  - apply List.NoDup_app; [exact Hnd | apply List.NoDup_cons; [intros [] | apply List.NoDup_nil] |].
    intros x Hx; cbn. intros [<-|[]]. apply Hnot, Hset, Hx.
  - intros x. rewrite elem_of_union, elem_of_singleton, in_app_iff, Hset. cbn. intuition.
  - intros x Hx. apply in_app_iff in Hx as [Hx|[<-|[]]]; auto.
Qed.

Lemma orderPass_respects update :
  List.NoDup (keys update) ->
  forall todo ordering oV changed,
    incl todo update -> PassInv update ordering oV ->
    respectsDependencies update ordering ->
    respectsDependencies update (fst (fst (orderPass update todo ordering oV changed))).
Proof.
  intros Hnd. induction todo as [|up rest IH]; intros ordering oV changed Hincl Hinv Hresp;
    cbn [orderPass]; [exact Hresp|].
  assert (Hrest : incl rest update) by (intros x Hx; apply Hincl; now right).
  case_bool_decide as Hmem; [now apply IH|].
  destruct (unresolved update oV up) eqn:Hres; [now apply IH|].
  assert (Hup : In up update) by (apply Hincl; now left).
  apply IH; [exact Hrest | |].
  - apply PassInv_snoc; auto. apply in_map_iff. exists up. auto.
  - apply respectsDependencies_snoc; [exact Hresp|].
    intros w (e & Hat & Hw & Hk & Hne).
    destruct up as [v e0]. cbn [fst snd] in *.
    rewrite (UpdateMap_at_In update v e0 Hnd Hup) in Hat. injection Hat as <-.
    apply (inv_set _ _ _ Hinv). eapply unresolved_false; eauto.
Qed.

Lemma substituteAll_respects update ordering oV t others :
  PassInv update ordering oV ->
  unorderedKeys update oV = t :: others ->
  respectsDependencies update ordering ->
  respectsDependencies (substituteAll (cycleSubs t others) update) ordering.
Proof.
  intros Hinv Hun Hresp l1 v l2 Heq w (e' & Hat & Hw & Hk & Hne).
  rewrite UpdateMap_at_substituteAll in Hat.
  destruct (UpdateMap_at update v) as [e|] eqn:Hv; [|discriminate]. injection Hat as <-.
  rewrite keys_substituteAll in Hk.
  assert (Hid : subs (cycleSubs t others) e = e).
  { apply subs_id. intros s Hs. rewrite exmap_find_cycleSubs.
    destruct s as [o| | |]; try reflexivity.
    destruct (existsb (Nat.eqb o) others) eqn:Hex; [|reflexivity]. exfalso.
    apply existsb_exists in Hex as (o' & Ho' & Heqo). apply Nat.eqb_eq in Heqo. subst o'.
    assert (Hunord : In o (keys update) /\ o ∉ oV).
    { apply unorderedKeys_In. rewrite Hun. now right. }
    destruct Hunord as [Hko Hnot]. apply Hnot, (inv_set _ _ _ Hinv).
    destruct (Nat.eq_dec o v) as [->|Hov].
    - rewrite Heq. apply in_or_app. right. now left.
    - rewrite Heq. apply in_or_app. left. apply (Hresp l1 v l2 Heq).
      exists e. split; [exact Hv|]. split; [now apply getVarIdxs_In|]. auto. }
  rewrite Hid in Hw. apply (Hresp l1 v l2 Heq). exists e. auto.
Qed.

Lemma dependencyOrderLoop_respects (fuel : nat) :
  forall update ordering oV ag ordering' update' ag',
    List.NoDup (keys update) -> PassInv update ordering oV ->
    respectsDependencies update ordering ->
    dependencyOrderLoop fuel update ordering oV ag = Some (ordering', update', ag') ->
    respectsDependencies update' ordering'.
Proof.
  induction fuel as [|fuel IH]; intros update ordering oV ag o' u' ag' Hnd Hinv Hresp;
    [discriminate|].
  cbn [dependencyOrderLoop].
  destruct (Nat.ltb (length ordering) (length update)); [|intros [= <- <- <-]; exact Hresp].
  pose proof (orderPass_inv update update ordering oV false Hinv (fun v H => H)) as Hpass.
  pose proof (orderPass_respects update Hnd update ordering oV false
                (fun x H => H) Hinv Hresp) as Hresp'.
  destruct (orderPass update update ordering oV false) as [[ordering1 oV1] changed].
  cbn [fst] in Hresp'. destruct Hpass as (Hinv1 & _ & _ & _).
  destruct changed; [now apply IH|].
  rewrite pickTarget_none.
  destruct (unorderedKeys update oV1) as [|t others] eqn:Hun.
  - replace (substituteAll [] update) with update; [now apply IH|].
    unfold substituteAll. rewrite <- (map_id update) at 1. apply map_ext.
    intros [k e]. cbn. f_equal. symmetry. apply subs_id. reflexivity.
  - apply IH.
    + now rewrite keys_substituteAll.
    + eapply PassInv_keys; [|exact Hinv1]. now rewrite keys_substituteAll.
    + eapply substituteAll_respects; eauto.
Qed.

(** For every well-formed update map the ordering that [dependencyOrder]
    returns is a topological order of the update it returns: each variable
    comes after every other updated variable that its right-hand side
    mentions.  So, when [calcIteratedUpdate] sets up the recurrence of a
    variable, the closed forms of all the variables it depends on are
    known. *)
Theorem dependencyOrder_respects (update : UpdateMap) (fuel : nat) :
  UpdateMap_wf update = true ->
  enoughFuel update <= fuel ->
  exists ordering update' st',
    dependencyOrder fuel update init = Some (ordering, update', st')
    /\ keys update' = keys update
    /\ Permutation ordering (keys update)
    /\ respectsDependencies update' ordering.
Proof.
  intros Hwf Hfuel.
  destruct (dependencyOrder_total update init fuel Hwf Hfuel)
    as (ordering & update' & eqs & Hdep & Hpost).
  pose proof (UpdateMap_wf_NoDup _ Hwf) as Hnd.
  destruct (OrderPost_Permutation _ _ _ _ Hnd Hpost) as [Hperm _].
  exists ordering, update', (mkState (addGuard init ++ eqs) (knownPreRecurrences init)
                                     (queries init)).
  split; [exact Hdep|]. split; [now destruct Hpost as (_ & _ & _ & Hk & _)|].
  split; [exact Hperm|].
  unfold dependencyOrder in Hdep.
  destruct (dependencyOrderLoop fuel update [] ∅ (addGuard init))
    as [[[o u] ag]|] eqn:Hloop; [|discriminate].
  injection Hdep as -> -> _.
  eapply dependencyOrderLoop_respects; [exact Hnd | | apply respectsDependencies_nil | exact Hloop].
  split; [apply List.NoDup_nil | | intros v []].
  intros v. split; [intros H; now apply not_elem_of_empty in H | intros []].
Qed.

(** The theorem at the update [x <- y, y <- z + 1]. *)
Lemma dependencyOrder_respects_witness :
  dependencyOrder 5 chainUpdate init = Some ([1; 0], chainUpdate, init)
  /\ exists ordering update' st',
       dependencyOrder 5 chainUpdate init = Some (ordering, update', st')
       /\ respectsDependencies update' ordering.
Proof.
  split; [reflexivity|].
  assert (Hfuel : enoughFuel chainUpdate <= 5) by (cbn; lia).
  destruct (dependencyOrder_respects chainUpdate 5 eq_refl Hfuel)
    as (ordering & update' & st' & Hrun & _ & _ & Hresp).
  exists ordering, update', st'. split; assumption.
Defined.

(** *** Updates without cycles *)

(** The first variable of the list that is not ordered yet. *)
Lemma first_unordered (oV : gset VariableIdx) (ord : list VariableIdx) :
  (exists v, In v ord /\ v ∉ oV) ->
  exists l1 v l2, ord = l1 ++ v :: l2 /\ (v ∉ oV) /\ forall w, In w l1 -> w ∈ oV.
Proof.
  induction ord as [|x ord IH]; intros (v & Hin & Hnot); [destruct Hin|].
  destruct (decide (x ∈ oV)) as [Hx|Hx].
  - destruct IH as (l1 & y & l2 & -> & Hy & Hl1).
    { exists v. split; [|exact Hnot]. destruct Hin as [->|Hin]; [contradiction | exact Hin]. }
    exists (x :: l1), y, l2. split; [reflexivity|]. split; [exact Hy|].
    intros w [<-|Hw]; auto.
  - exists [], x, ord. split; [reflexivity|]. split; [exact Hx|]. intros w [].
Qed.

Lemma orderPass_acyclic update ord ordering oV :
  List.NoDup (keys update) -> PassInv update ordering oV ->
  Permutation ord (keys update) -> respectsDependencies update ord ->
  length ordering < length update ->
  snd (orderPass update update ordering oV false) = true.
Proof.
  intros Hnd Hinv Hperm Hresp Hlt.
  pose proof (unorderedKeys_nonempty update ordering oV Hnd Hinv Hlt) as Hne.
  destruct (unorderedKeys update oV) as [|u others] eqn:Hun; [congruence|].
  assert (Hu : In u (keys update) /\ u ∉ oV).
  { apply unorderedKeys_In. rewrite Hun. now left. }
  destruct (first_unordered oV ord) as (l1 & v & l2 & Hord & Hv & Hl1).
  { exists u. split; [|apply Hu]. eapply Permutation_in; [symmetry; exact Hperm | apply Hu]. }
  assert (Hkey : In v (keys update)).
  { eapply Permutation_in; [exact Hperm|]. rewrite Hord. apply in_or_app. right. now left. }
  destruct (UpdateMap_at_Some update v Hkey) as [e He].
  assert (Hin : In (v, e) update).
  { clear -He. induction update as [|[k e'] rest IH]; cbn in *; [discriminate|].
    destruct (Nat.eqb_spec k v) as [->|_]; [injection He as ->; now left | right; auto]. }
  apply (orderPass_progress update update ordering oV false (v, e) Hin Hv).
  apply unresolved_false. cbn [fst snd]. intros w Hw Hne' Hk.
  apply Hl1, (Hresp l1 v l2 Hord). exists e. auto.
Qed.

Lemma dependencyOrderLoop_acyclic (fuel : nat) (ord : list VariableIdx) :
  forall update ordering oV ag ordering' update' ag',
    List.NoDup (keys update) -> PassInv update ordering oV ->
    Permutation ord (keys update) -> respectsDependencies update ord ->
    dependencyOrderLoop fuel update ordering oV ag = Some (ordering', update', ag') ->
    update' = update /\ ag' = ag.
Proof.
  induction fuel as [|fuel IH]; intros update ordering oV ag o' u' ag' Hnd Hinv Hperm Hresp;
    [discriminate|].
  cbn [dependencyOrderLoop].
  destruct (Nat.ltb (length ordering) (length update)) eqn:Hlt;
    [|intros [= <- <- <-]; auto].
  apply Nat.ltb_lt in Hlt.
  pose proof (orderPass_inv update update ordering oV false Hinv (fun v H => H)) as Hpass.
  pose proof (orderPass_acyclic update ord ordering oV Hnd Hinv Hperm Hresp Hlt) as Hprog.
  destruct (orderPass update update ordering oV false) as [[ordering1 oV1] changed].
  cbn [snd] in Hprog. subst changed. destruct Hpass as (Hinv1 & _ & _ & _).
  now apply IH.
Qed.

(** When the dependencies of an update form no cycle, that is, when some
    order of its variables puts each variable after the ones it depends
    on, [dependencyOrder] leaves the update as it is and adds no constraint
    to the guard. *)
Theorem dependencyOrder_acyclic (update : UpdateMap) (ord : list VariableIdx) (fuel : nat) :
  UpdateMap_wf update = true ->
  enoughFuel update <= fuel ->
  Permutation ord (keys update) ->
  respectsDependencies update ord ->
  exists ordering,
    dependencyOrder fuel update init = Some (ordering, update, init)
    /\ Permutation ordering (keys update)
    /\ respectsDependencies update ordering.
Proof.
  intros Hwf Hfuel Hperm Hresp.
  destruct (dependencyOrder_total update init fuel Hwf Hfuel)
    as (ordering & update' & eqs & Hdep & Hpost).
  pose proof (UpdateMap_wf_NoDup _ Hwf) as Hnd.
  destruct (OrderPost_Permutation _ _ _ _ Hnd Hpost) as [Hperm' _].
  assert (Hinv0 : PassInv update [] ∅).
  { split; [apply List.NoDup_nil | | intros v []].
    intros v. split; [intros H; now apply not_elem_of_empty in H | intros []]. }
  pose proof Hdep as Hrun. unfold dependencyOrder in Hrun.
  destruct (dependencyOrderLoop fuel update [] ∅ (addGuard init))
    as [[[o u] ag]|] eqn:Hloop; [|discriminate].
  destruct (dependencyOrderLoop_acyclic fuel ord update [] ∅ (addGuard init) o u ag
              Hnd Hinv0 Hperm Hresp Hloop) as [-> ->].
  pose proof (dependencyOrderLoop_respects fuel update [] ∅ (addGuard init) o update
                (addGuard init) Hnd Hinv0 (respectsDependencies_nil update) Hloop) as Hro.
  injection Hrun as Ho _ _. subst o.
  exists ordering. split; [|split; [exact Hperm' | exact Hro]].
  unfold dependencyOrder. rewrite Hloop. now destruct init.
Qed.

(** The theorem at the update [x <- y, y <- z + 1], with the order [y, x]. *)
Lemma dependencyOrder_acyclic_witness :
  exists ordering,
    dependencyOrder 5 chainUpdate init = Some (ordering, chainUpdate, init)
    /\ Permutation ordering (keys chainUpdate)
    /\ respectsDependencies chainUpdate ordering.
Proof.
  assert (Hfuel : enoughFuel chainUpdate <= 5) by (cbn; lia).
  assert (Hperm : Permutation [1; 0] (keys chainUpdate)) by apply perm_swap.
  apply (dependencyOrder_acyclic chainUpdate [1; 0] 5 eq_refl Hfuel Hperm).
  intros l1 v l2 Heq w (e & Hat & Hw & Hk & Hne).
  destruct l1 as [|a [|b l1]].
  - injection Heq as <- _. cbn in Hat. injection Hat as <-.
    cbn in Hw, Hk. intuition lia.
  - injection Heq as <- <- _. cbn in Hat. injection Hat as <-.
    cbn in Hw. destruct Hw as [<-|[]]. now left.
  - exfalso. injection Heq as _ _ Heq. destruct l1; discriminate.
Defined.

End OrderFacts.

(** ** The recurrence engine: one iteration *)

Module IterationFacts.
Import Recurrence RecurrenceFacts OrderFacts.

Lemma orderPass_mono update todo : forall ordering oV changed v,
  v ∈ oV -> v ∈ snd (fst (orderPass update todo ordering oV changed)).
Proof.
  induction todo as [|up rest IH]; intros ordering oV changed v Hv; cbn [orderPass];
    [exact Hv|].
  case_bool_decide; [now apply IH|].
  destruct (unresolved update oV up); [now apply IH|].
  apply IH. apply elem_of_union. now right.
Qed.

Lemma orderPass_orders update todo : forall ordering oV changed up,
  In up todo -> selfContained update (fst up) (snd up) ->
  fst up ∈ snd (fst (orderPass update todo ordering oV changed)).
Proof.
  induction todo as [|hd rest IH]; intros ordering oV changed up Hin Hself; [destruct Hin|].
  cbn [orderPass]. destruct Hin as [->|Hin].
  - case_bool_decide as Hmem; [now apply orderPass_mono|].
    assert (Hres : unresolved update oV up = false).
    { apply unresolved_false. intros w Hw Hne Hk. destruct Hne. now apply Hself. }
    rewrite Hres. apply orderPass_mono. apply elem_of_union. left. now apply elem_of_singleton.
  - case_bool_decide; [now apply IH|].
    destruct (unresolved update oV hd); now apply IH.
Qed.

Lemma UpdateMap_at_In_inv update v e : UpdateMap_at update v = Some e -> In (v, e) update.
Proof.
  induction update as [|[k e'] rest IH]; cbn; [discriminate|].
  destruct (Nat.eqb_spec k v) as [->|_]; [intros [= ->]; now left | right; auto].
Qed.

Lemma substituteAll_nil update : substituteAll [] update = update.
Proof.
  unfold substituteAll. rewrite <- (map_id update) at 2. apply map_ext.
  intros [k e]. cbn. f_equal. apply subs_id. reflexivity.
Qed.

(** [dependencyOrder] leaves the right-hand side of a variable that
    depends on no other updated variable as it is. *)
Lemma dependencyOrderLoop_keeps (v : VariableIdx) (e : Expression) (fuel : nat) :
  forall update ordering oV ag ordering' update' ag',
    PassInv update ordering oV ->
    UpdateMap_at update v = Some e -> selfContained update v e ->
    dependencyOrderLoop fuel update ordering oV ag = Some (ordering', update', ag') ->
    UpdateMap_at update' v = Some e.
Proof.
  induction fuel as [|fuel IH]; intros update ordering oV ag o' u' ag' Hinv Hat Hself;
    [discriminate|].
  cbn [dependencyOrderLoop].
  destruct (Nat.ltb (length ordering) (length update)); [|intros [= <- <- <-]; exact Hat].
  pose proof (orderPass_inv update update ordering oV false Hinv (fun v H => H)) as Hpass.
  pose proof (orderPass_orders update update ordering oV false (v, e)
                (UpdateMap_at_In_inv _ _ _ Hat) Hself) as Hord.
  destruct (orderPass update update ordering oV false) as [[ordering1 oV1] changed].
  cbn [fst snd] in Hord. destruct Hpass as (Hinv1 & _ & _ & _).
  destruct changed; [now apply IH|].
  rewrite pickTarget_none.
  destruct (unorderedKeys update oV1) as [|t others] eqn:Hun.
  - rewrite substituteAll_nil. now apply IH.
  - apply IH.
    + eapply PassInv_keys; [|exact Hinv1]. now rewrite keys_substituteAll.
    + rewrite UpdateMap_at_substituteAll, Hat. cbn. f_equal.
      apply subs_id. intros s Hs. rewrite exmap_find_cycleSubs.
      destruct s as [o| | |]; try reflexivity.
      destruct (existsb (Nat.eqb o) others) eqn:Hex; [|reflexivity]. exfalso.
      apply existsb_exists in Hex as (o2 & Ho2 & Heqo). apply Nat.eqb_eq in Heqo. subst o2.
      assert (Hunord : In o (keys update) /\ o ∉ oV1).
      { apply unorderedKeys_In. rewrite Hun. now right. }
      destruct Hunord as [Hko Hnot]. apply Hnot.
      rewrite (Hself o); [exact Hord | now apply getVarIdxs_In | exact Hko].
    + unfold selfContained. now rewrite keys_substituteAll.
Qed.

Lemma UpdateMap_at_set_eq update v x : UpdateMap_at (UpdateMap_set update v x) v = Some x.
Proof.
  induction update as [|[k e] rest IH]; cbn [UpdateMap_set UpdateMap_at];
    [now rewrite Nat.eqb_refl|].
  destruct (Nat.eqb k v) eqn:Hk; [cbn [UpdateMap_at]; now rewrite Hk|].
  destruct (Nat.ltb v k); cbn [UpdateMap_at]; [now rewrite Nat.eqb_refl | now rewrite Hk].
Qed.

Lemma UpdateMap_at_set_ne update v w x :
  v <> w -> UpdateMap_at (UpdateMap_set update w x) v = UpdateMap_at update v.
Proof.
  intros Hne. assert (Hwv : Nat.eqb w v = false) by (apply Nat.eqb_neq; auto).
  induction update as [|[k e] rest IH]; cbn [UpdateMap_set UpdateMap_at].
  - now rewrite Hwv.
  - destruct (Nat.eqb k w) eqn:Hk.
    + apply Nat.eqb_eq in Hk. subst k. cbn [UpdateMap_at]. now rewrite Hwv.
    + destruct (Nat.ltb w k); cbn [UpdateMap_at].
      * now rewrite Hwv.
      * now rewrite IH.
Qed.

Lemma eval_ext (sigma tau : Valuation) e :
  (forall s, In s (symbolsOf e) -> sigma s = tau s) -> eval sigma e = eval tau e.
Proof.
  induction e as [z|s|a IHa b IHb|a IHa b IHb|a IHa b IHb]; cbn; intros H;
    try reflexivity;
    try (rewrite IHa, IHb; [reflexivity | |]; intros s Hs; apply H, in_or_app; auto).
  apply H. now left.
Qed.

Lemma mentions_false s e : mentions s e = false -> ~ In s (symbolsOf e).
Proof.
  unfold mentions. intros Hex Hin. apply not_true_iff_false in Hex. apply Hex.
  apply existsb_exists. exists s. split; [exact Hin | now apply Symbol_eqb_eq].
Qed.

(** The closed form of a solver that respects the initial condition, taken
    at [n = 1]. *)
Lemma eval_at_one purrs rhs e res :
  respectsInitialCondition purrs -> mentions SRecN e = false ->
  purrs rhs 1 e = Some res ->
  forall sigma : Valuation, eval sigma (subs1 SRecN (Num 1) res) = eval sigma e.
Proof.
  intros Hpurrs Hn Hres sigma. unfold subs1. rewrite eval_subs.
  rewrite (Hpurrs rhs 1 e res Hres); [|reflexivity].
  apply eval_ext. intros s Hs. cbn.
  destruct s; try reflexivity. now apply mentions_false in Hn.
Qed.

Lemma solveInOrder_keeps purrs (update : UpdateMap) (v : VariableIdx) (e : Expression) :
  respectsInitialCondition purrs ->
  UpdateMap_at update v = Some e -> selfContained update v e -> mentions SRecN e = false ->
  forall order newUpdate st nu st',
    solveInOrder purrs update (Num 1) order newUpdate st = Some (true, nu, st') ->
    List.NoDup order ->
    (forall s, exmap_find (knownPreRecurrences st) s <> None ->
               exists w, s = SVar w /\ In w (keys update) /\ ~ In w order) ->
    In v order
    \/ (exists e', UpdateMap_at newUpdate v = Some e'
                   /\ forall sigma : Valuation, eval sigma e' = eval sigma e) ->
    exists e', UpdateMap_at nu v = Some e'
               /\ forall sigma : Valuation, eval sigma e' = eval sigma e.
Proof.
  intros Hpurrs Hat Hself Hn.
  induction order as [|vi rest IH]; intros newUpdate st nu st' Hrun Hnd Hknown Hcase.
  - cbn in Hrun. injection Hrun as <- _. destruct Hcase as [[]|H]; exact H.
  - cbn [solveInOrder] in Hrun.
    destruct (UpdateMap_at update vi) as [rhs_vi|] eqn:Hvi; [|discriminate].
    unfold findUpdateRecurrence in Hrun.
    cbn [addGuard knownPreRecurrences queries] in Hrun.
    destruct (purrs _ 1 (subs (knownPreRecurrences st) rhs_vi)) as [res|] eqn:Hsol;
      [|discriminate].
    apply List.NoDup_cons_iff in Hnd as [Hfresh Hnd].
    apply IH in Hrun; [exact Hrun | exact Hnd | |].
    + cbn [knownPreRecurrences exmap_set exmap_find]. intros s Hs.
      destruct (Symbol_eqb (VarMan.getGinacSymbol vi) s) eqn:Heq.
      * apply Symbol_eqb_eq in Heq. exists vi. split; [now symmetry|].
        split; [eapply UpdateMap_at_keys; eauto | exact Hfresh].
      * destruct (Hknown s Hs) as (w & -> & Hk & Hw). exists w.
        split; [reflexivity|]. split; [exact Hk|]. intros Hin. apply Hw. now right.
    + destruct (Nat.eq_dec v vi) as [<-|Hne].
      * right. rewrite UpdateMap_at_set_eq. eexists. split; [reflexivity|].
        rewrite Hat in Hvi. injection Hvi as <-.
        assert (Hid : subs (knownPreRecurrences st) e = e).
        { apply subs_id. intros s Hs.
          destruct (exmap_find (knownPreRecurrences st) s) eqn:Hf; [|reflexivity].
          exfalso. destruct (Hknown s) as (w & -> & Hk & Hw); [congruence|].
          apply Hw. left. symmetry. apply Hself; [now apply getVarIdxs_In | exact Hk]. }
        rewrite Hid in Hsol. eapply eval_at_one; eauto.
      * destruct Hcase as [[Heq|Hin]|(e' & He' & Heval)]; [congruence | now left |].
        right. exists e'. split; [|exact Heval]. now rewrite UpdateMap_at_set_ne.
Qed.

Lemma Expression_eqb_eq a : forall b, Expression_eqb a b = true -> a = b.
Proof.
  induction a as [z|s|a1 IH1 a2 IH2|a1 IH1 a2 IH2|a1 IH1 a2 IH2]; intros [y|t|b1 b2|b1 b2|b1 b2];
    cbn; try discriminate.
  - intros H. apply Z.eqb_eq in H. now subst.
  - intros H. apply Symbol_eqb_eq in H. now subst.
  - intros H. apply andb_prop in H as [H1 H2]. f_equal; auto.
  - intros H. apply andb_prop in H as [H1 H2]. f_equal; auto.
  - intros H. apply andb_prop in H as [H1 H2]. f_equal; auto.
Qed.

(** The sample solver respects the initial condition. *)
Lemma sampleSolver_initial : respectsInitialCondition sampleSolver.
Proof.
  intros rhs k init0 res Hres sigma Hn. unfold sampleSolver in Hres.
  destruct (negb (mentions SRecPrev rhs)).
  - destruct (Expression_eqb rhs init0 && negb (mentions SRecN rhs)) eqn:Hc; [|discriminate].
    injection Hres as <-. apply andb_prop in Hc as [Hc _].
    now rewrite (Expression_eqb_eq _ _ Hc).
  - destruct rhs as [z|s|a b|a b|a b]; try discriminate.
    + destruct s; try discriminate.
      destruct (mentions SRecN init0); [discriminate|]. now injection Hres as <-.
    + destruct a as [z|s|a1 a2|a1 a2|a1 a2]; try discriminate.
      destruct s; try discriminate.
      destruct (mentions SRecPrev b || mentions SRecN b || mentions SRecN init0);
        [discriminate|].
      injection Hres as <-. cbn. rewrite Hn. lia.
Qed.

(** The accelerated update at one iteration.  Let the solver respect the
    initial condition that [findUpdateRecurrence] sets, and let [v] be a
    variable whose right-hand side [e] mentions no updated variable but
    [v] itself.  When [calcIterated] succeeds with the metering function 1,
    the update that it stores for [v] has the value of [e] in every
    valuation: one accelerated iteration is one iteration of the rule. *)
Theorem calcIterated_one_iteration (purrs : Solver) (fuel : nat) (rule rule' : LinearRule)
    (qs : list Query) (v : VariableIdx) (e : Expression) :
  respectsInitialCondition purrs ->
  UpdateMap_wf (lr_update rule) = true ->
  enoughFuel (lr_update rule) <= fuel ->
  UpdateMap_at (lr_update rule) v = Some e ->
  selfContained (lr_update rule) v e ->
  mentions SRecN e = false ->
  calcIterated purrs fuel rule (Num 1) = Some (true, rule', qs) ->
  exists e', UpdateMap_at (lr_update rule') v = Some e'
             /\ forall sigma : Valuation, eval sigma e' = eval sigma e.
Proof.
  intros Hpurrs Hwf Hfuel Hat Hself Hn Hrun.
  destruct (dependencyOrder_total (lr_update rule) init fuel Hwf Hfuel)
    as (ordering & update' & eqs & Hdep & Hpost).
  pose proof (UpdateMap_wf_NoDup _ Hwf) as Hnd.
  destruct (OrderPost_Permutation _ _ _ _ Hnd Hpost) as [Hperm _].
  destruct Hpost as (Hndo & _ & _ & Hkeys & _).
  assert (Hat' : UpdateMap_at update' v = Some e).
  { pose proof Hdep as Hloop. unfold dependencyOrder in Hloop.
    destruct (dependencyOrderLoop fuel (lr_update rule) [] ∅ (addGuard init))
      as [[[o u] ag]|] eqn:Hl; [|discriminate].
    injection Hloop as -> -> _.
    eapply dependencyOrderLoop_keeps; [| exact Hat | exact Hself | exact Hl].
    split; [apply List.NoDup_nil | | intros x []].
    intros x. split; [intros H; now apply not_elem_of_empty in H | intros []]. }
  unfold calcIterated, calcIteratedUpdate in Hrun. rewrite Hdep in Hrun.
  destruct (solveInOrder purrs update' (Num 1) ordering [] _) as [[[b nu] st'']|] eqn:Hsolve;
    [|discriminate].
  destruct b; [|discriminate].
  assert (Hnu : exists e', UpdateMap_at nu v = Some e'
                           /\ forall sigma : Valuation, eval sigma e' = eval sigma e).
  { eapply (solveInOrder_keeps purrs update' v e Hpurrs Hat'); [| exact Hn | exact Hsolve
                                                                  | exact Hndo | |].
    - unfold selfContained. now rewrite Hkeys.
    - cbn. intros s Hs. now destruct Hs.
    - left. eapply Permutation_in; [symmetry; exact Hperm|].
      eapply UpdateMap_at_keys; eauto. }
  destruct (calcIteratedCost purrs (lr_cost rule) (Num 1) st'') as [[newCost|] rec];
    [|discriminate].
  injection Hrun as <- _. exact Hnu.
Qed.

(** The theorem at the rule with the update [x <- x + 2, y <- 7] and the
    sample solver: the update stored for [x] has the value of [x + 2]. *)
Lemma calcIterated_one_iteration_witness :
  exists rule' qs,
    calcIterated sampleSolver 5 independentRule (Num 1) = Some (true, rule', qs)
    /\ exists e', UpdateMap_at (lr_update rule') 0 = Some e'
                  /\ forall sigma : Valuation,
                       eval sigma e' = eval sigma (Add (Sym (SVar 0)) (Num 2)).
Proof.
  assert (Hrun : { r : LinearRule & { q : list Query |
            calcIterated sampleSolver 5 independentRule (Num 1) = Some (true, r, q) } }).
  { eexists. eexists. vm_compute. reflexivity. }
  destruct Hrun as (r & q & Hrun). exists r, q. split; [exact Hrun|].
  assert (Hfuel : enoughFuel (lr_update independentRule) <= 5) by (cbn; lia).
  apply (calcIterated_one_iteration sampleSolver 5 independentRule r q 0
           (Add (Sym (SVar 0)) (Num 2)) sampleSolver_initial eq_refl Hfuel eq_refl);
    [| reflexivity | exact Hrun].
  intros w Hw Hk. cbn in Hw. destruct Hw as [<-|[]]. reflexivity.
Defined.

(** No iteration costs nothing.  The recurrence of the cost has the
    initial condition [x(0) = 0]; for a solver that respects it, the cost
    that [calcIterated] stores with the metering function 0 has the value 0
    in every valuation. *)
Theorem calcIterated_zero_iterations (purrs : Solver) (fuel : nat)
    (rule rule' : LinearRule) (qs : list Query) :
  respectsInitialCondition purrs ->
  calcIterated purrs fuel rule (Num 0) = Some (true, rule', qs) ->
  forall sigma : Valuation, eval sigma (lr_cost rule') = 0%Z.
Proof.
  intros Hpurrs Hrun sigma. unfold calcIterated in Hrun.
  destruct (calcIteratedUpdate purrs fuel (lr_update rule) (Num 0) [] init)
    as [[[b nu] st]|]; [|discriminate].
  destruct b; [|discriminate].
  unfold calcIteratedCost, findCostRecurrence in Hrun.
  destruct (purrs _ 0 (Num 0)) as [costRec|] eqn:Hsol; [|discriminate].
  injection Hrun as <- _. cbn [lr_cost]. unfold subs1. rewrite eval_subs.
  now rewrite (Hpurrs _ 0 (Num 0) costRec Hsol).
Qed.

(** The theorem at the rule with the update [x <- x + 2, y <- 7] and the
    cost 1. *)
Lemma calcIterated_zero_iterations_witness :
  exists rule' qs,
    calcIterated sampleSolver 5 independentRule (Num 0) = Some (true, rule', qs)
    /\ forall sigma : Valuation, eval sigma (lr_cost rule') = 0%Z.
Proof.
  assert (Hrun : { r : LinearRule & { q : list Query |
            calcIterated sampleSolver 5 independentRule (Num 0) = Some (true, r, q) } }).
  { eexists. eexists. vm_compute. reflexivity. }
  destruct Hrun as (r & q & Hrun). exists r, q. split; [exact Hrun|].
  exact (calcIterated_zero_iterations sampleSolver 5 independentRule r q
           sampleSolver_initial Hrun).
Defined.

End IterationFacts.

(** ** The complexity computation: the result is a maximum *)
Module ComplexityFacts.
Import StoreFacts Analysis.

Lemma Cpx_ltb_spec (a b : Complexity) :
  Cpx.ltb a b = true
  <-> Cpx.tier a < Cpx.tier b
      \/ (Cpx.tier a = Cpx.tier b /\ Cpx.degree a < Cpx.degree b).
Proof.
  unfold Cpx.ltb. rewrite orb_true_iff, andb_true_iff, !Nat.ltb_lt, Nat.eqb_eq. tauto.
Qed.

Lemma Cpx_leb_spec (a b : Complexity) :
  Cpx.leb a b = true
  <-> Cpx.tier a < Cpx.tier b
      \/ (Cpx.tier a = Cpx.tier b /\ Cpx.degree a <= Cpx.degree b).
Proof.
  unfold Cpx.leb. rewrite negb_true_iff, <- not_true_iff_false, Cpx_ltb_spec. lia.
Qed.

Lemma Cpx_leb_refl (a : Complexity) : Cpx.leb a a = true.
Proof. apply Cpx_leb_spec. lia. Qed.

Lemma Cpx_leb_trans (a b c : Complexity) :
  Cpx.leb a b = true -> Cpx.leb b c = true -> Cpx.leb a c = true.
Proof. rewrite !Cpx_leb_spec. lia. Qed.

Lemma Cpx_ltb_leb (a b : Complexity) : Cpx.ltb a b = true -> Cpx.leb a b = true.
Proof. rewrite Cpx_ltb_spec, Cpx_leb_spec. lia. Qed.

Lemma Cpx_leb_ltb_trans (a b c : Complexity) :
  Cpx.leb a b = true -> Cpx.ltb b c = true -> Cpx.ltb a c = true.
Proof. rewrite Cpx_leb_spec, !Cpx_ltb_spec. lia. Qed.

Lemma Cpx_ltb_trans (a b c : Complexity) :
  Cpx.ltb a b = true -> Cpx.ltb b c = true -> Cpx.ltb a c = true.
Proof. rewrite !Cpx_ltb_spec. lia. Qed.

Lemma Cpx_not_gtb_leb (a b : Complexity) : Cpx.gtb a b = false -> Cpx.leb a b = true.
Proof. unfold Cpx.gtb, Cpx.leb. now intros ->. Qed.

Lemma Cpx_leb_Infty (a : Complexity) : Cpx.leb a Infty = true.
Proof. now destruct a. Qed.

Lemma Cpx_Unknown_leb (a : Complexity) : Cpx.leb Unknown a = true.
Proof. now destruct a. Qed.

Section Maximum.

Variable ext : Collaborators.
Variable its : ITSProblem.

(** The loop of [getMaxComplexity], from any result [res0]. *)
Lemma getMaxComplexity_spec (rules : list TransIdx) :
  forall res0,
    (forall i, In i rules -> is_Some (ITS.getRule its i)) ->
    exists res,
      getMaxComplexity ext its rules res0 = Some res
      /\ Cpx.leb (cpx res0) (cpx res) = true
      /\ (forall idx rule, In idx rules -> ITS.getRule its idx = Some rule ->
            Cpx.leb (getComplexity ext (cost rule)) (cpx res) = true)
      /\ (res = res0
          \/ exists l1 idx l2 rule,
               rules = l1 ++ idx :: l2
               /\ ITS.getRule its idx = Some rule
               /\ res = mkResult (getComplexity ext (cost rule)) (cost rule)
                                 (reducedCpx res0) (guard rule)
               /\ Cpx.ltb (cpx res0) (getComplexity ext (cost rule)) = true
               /\ forall idx' rule', In idx' l1 -> ITS.getRule its idx' = Some rule' ->
                    Cpx.ltb (getComplexity ext (cost rule'))
                            (getComplexity ext (cost rule)) = true).
Proof.
  induction rules as [|i rest IH]; intros res0 Hall; cbn [getMaxComplexity].
  - exists res0. split; [reflexivity|]. split; [apply Cpx_leb_refl|].
    split; [intros idx rule []|now left].
  - destruct (Hall i) as [r Hr]; [now left|]. rewrite Hr.
    assert (Hrest : forall j, In j rest -> is_Some (ITS.getRule its j)).
    { intros j Hj. apply Hall. now right. }
    destruct (Cpx.gtb (getComplexity ext (cost r)) (cpx res0)) eqn:Hgt.
    + destruct (IH (mkResult (getComplexity ext (cost r)) (cost r) (reducedCpx res0)
                             (guard r)) Hrest)
        as (res & Hrun & Hle & Hmax & Hcase).
      cbn [cpx reducedCpx] in *. exists res. split; [exact Hrun|].
      split; [eapply Cpx_leb_trans; [apply Cpx_ltb_leb; exact Hgt | exact Hle]|].
      split.
      * intros idx rule [<-|Hin] Hrule; [|eauto].
        rewrite Hr in Hrule. injection Hrule as <-. exact Hle.
      * right. destruct Hcase as [->|(l1 & idx & l2 & rule & -> & Hrule & -> & Hlt & Hfirst)].
        -- exists [], i, rest, r. split; [reflexivity|]. split; [exact Hr|].
           split; [reflexivity|]. split; [exact Hgt|]. intros idx' rule' [].
        -- exists (i :: l1), idx, l2, rule. split; [reflexivity|]. split; [exact Hrule|].
           split; [reflexivity|].
           split; [eapply Cpx_ltb_trans; [exact Hgt | exact Hlt]|].
           intros idx' rule' [<-|Hin] Hrule'; [|eauto].
           rewrite Hr in Hrule'. injection Hrule' as <-. exact Hlt.
    + destruct (IH res0 Hrest) as (res & Hrun & Hle & Hmax & Hcase).
      exists res. split; [exact Hrun|]. split; [exact Hle|]. split.
      * intros idx rule [<-|Hin] Hrule; [|eauto].
        rewrite Hr in Hrule. injection Hrule as <-.
        eapply Cpx_leb_trans; [apply Cpx_not_gtb_leb; exact Hgt | exact Hle].
      * destruct Hcase as [->|(l1 & idx & l2 & rule & -> & Hrule & -> & Hlt & Hfirst)];
          [now left|].
        right. exists (i :: l1), idx, l2, rule. split; [reflexivity|]. split; [exact Hrule|].
        split; [reflexivity|]. split; [exact Hlt|].
        intros idx' rule' [<-|Hin] Hrule'; [|eauto].
        rewrite Hr in Hrule'. injection Hrule' as <-.
        eapply Cpx_leb_ltb_trans; [apply Cpx_not_gtb_leb; exact Hgt | exact Hlt].
Qed.

(** In a list that is sorted strictly, what is smaller than an element
    stands before it. *)
Lemma sorted_before (l1 l2 : list TransIdx) (idx idx' : TransIdx) :
  StronglySorted Nat.lt (l1 ++ idx :: l2) -> In idx' (l1 ++ idx :: l2) -> idx' < idx ->
  In idx' l1.
Proof.
  induction l1 as [|x l1 IH]; cbn; intros Hs Hin Hlt.
  - apply StronglySorted_inv in Hs as [_ Hall]. rewrite List.Forall_forall in Hall.
    destruct Hin as [->|Hin]; [lia|]. specialize (Hall _ Hin). lia.
  - apply StronglySorted_inv in Hs as [Hs _]. destruct Hin as [->|Hin]; [now left|].
    right. now apply IH.
Qed.

End Maximum.

(** Without the final asymptotic check [getMaxRuntime] calls no prover and
    polls no timeout: it writes the warning and returns the result of
    [getMaxComplexity].  The class of this result is the greatest of the
    classes that [getComplexity] gives to the costs of the rules leaving
    the initial location.  The result is the default one when no class is
    above [Unknown]; otherwise its class is above [Unknown], and its bound
    and its guard are the cost and the guard of the rule of the least index
    that has the greatest class. *)
Theorem getMaxRuntime_unchecked (ext : Collaborators) (cfg : AnalysisSettings)
    (its : ITSProblem) (clk : Clock) :
  FINAL_INFINITY_CHECK cfg = false ->
  exists res,
    getMaxRuntime ext cfg its clk = Some (mkScan res clk [Unsound])
    /\ (forall idx rule, initialRule its idx rule ->
          Cpx.leb (getComplexity ext (cost rule)) (cpx res) = true)
    /\ ((forall idx rule, initialRule its idx rule ->
           Cpx.leb (getComplexity ext (cost rule)) Unknown = true) ->
        res = defaultResult)
    /\ (res = defaultResult
        \/ exists idx rule,
             initialRule its idx rule
             /\ Cpx.gtb (getComplexity ext (cost rule)) Unknown = true
             /\ res = mkResult (getComplexity ext (cost rule)) (cost rule) Unknown (guard rule)
             /\ forall idx' rule', initialRule its idx' rule' -> idx' < idx ->
                  Cpx.ltb (getComplexity ext (cost rule'))
                          (getComplexity ext (cost rule)) = true).
Proof.
  intros Hcheck. unfold getMaxRuntime. rewrite Hcheck. cbn [negb].
  set (rules := ITS.getTransitionsFrom its (ITS.getInitialLocation its)).
  assert (Hall : forall i, In i rules -> is_Some (ITS.getRule its i)).
  { intros i Hi. apply getTransitionsFrom_In in Hi as (r & Hr & _). rewrite Hr. eauto. }
  destruct (getMaxComplexity_spec ext its rules defaultResult Hall)
    as (res & Hrun & _ & Hmax & Hcase).
  exists res. rewrite Hrun. split; [reflexivity|]. split.
  { intros idx rule [Hrule Hfrom]. apply (Hmax idx rule); [|exact Hrule].
    apply getTransitionsFrom_In. eauto. }
  assert (Hinitial : forall l1 idx l2 rule,
             rules = l1 ++ idx :: l2 -> ITS.getRule its idx = Some rule ->
             initialRule its idx rule).
  { intros l1 idx l2 rule Hsplit Hrule.
    assert (Hin : In idx rules) by (rewrite Hsplit; apply in_or_app; right; now left).
    apply getTransitionsFrom_In in Hin as (r & Hr & Hfrom).
    rewrite Hrule in Hr. injection Hr as <-. split; assumption. }
  split.
  - intros Hlow.
    destruct Hcase as [->|(l1 & idx & l2 & rule & Hsplit & Hrule & _ & Hlt & _)];
      [reflexivity|].
    pose proof (Hlow idx rule (Hinitial l1 idx l2 rule Hsplit Hrule)) as Hle.
    cbn [cpx defaultResult] in Hlt. unfold Cpx.leb in Hle. rewrite Hlt in Hle. discriminate.
  - destruct Hcase as [->|(l1 & idx & l2 & rule & Hsplit & Hrule & -> & Hlt & Hfirst)];
      [now left|].
    right. exists idx, rule.
    split; [exact (Hinitial l1 idx l2 rule Hsplit Hrule)|].
    split; [exact Hlt|]. split; [reflexivity|].
    intros idx' rule' [Hrule' Hfrom'] Hlt'. apply (Hfirst idx' rule'); [|exact Hrule'].
    apply (sorted_before l1 l2 idx idx'); [| |exact Hlt'].
    + rewrite <- Hsplit. apply ScanFacts.getTransitionsFrom_sorted.
    + rewrite <- Hsplit. apply getTransitionsFrom_In. eauto.
Qed.

(** The theorem at the store with three parallel rules of the costs 1,
    [x] and [x + 1]: the result is the cost [x] of the rule 1. *)
Lemma getMaxRuntime_unchecked_witness :
  getMaxRuntime sampleCollaborators uncheckedSettings parallelStore quietClock
  = Some (mkScan (mkResult (Poly 1) (Sym (SVar 0)) Unknown []) quietClock [Unsound])
  /\ exists res,
       getMaxRuntime sampleCollaborators uncheckedSettings parallelStore quietClock
       = Some (mkScan res quietClock [Unsound])
       /\ forall idx rule, initialRule parallelStore idx rule ->
            Cpx.leb (getComplexity sampleCollaborators (cost rule)) (cpx res) = true.
Proof.
  split; [vm_compute; reflexivity|].
  destruct (getMaxRuntime_unchecked sampleCollaborators uncheckedSettings parallelStore
              quietClock eq_refl) as (res & Hrun & Hmax & _).
  exists res. split; assumption.
Defined.

(** *** The scan with the prover *)

Lemma hardQuiet_poll (n : nat) (clk : Clock) :
  hardQuiet (S n) clk ->
  exists clk', Timeout.hard clk = (false, clk') /\ hardQuiet n clk'.
Proof.
  intros [rest Hpolls]. unfold Timeout.hard. rewrite Hpolls. cbn.
  eexists. split; [reflexivity|]. now exists rest.
Qed.

Lemma hardQuiet_S (n : nat) (clk : Clock) : hardQuiet (S n) clk -> hardQuiet n clk.
Proof.
  intros [rest Hpolls]. exists (false :: rest). rewrite Hpolls.
  change (S n) with (1 + n). rewrite Nat.add_comm, repeat_app, <- app_assoc. reflexivity.
Qed.

Section Complete.

Variable ext : Collaborators.
Variable its : ITSProblem.

(** The scan of [getMaxRuntime] when the hard timeout does not fire. *)
Lemma scanRules_complete (rules : list TransIdx) :
  forall st,
    (forall idx, In idx rules -> exists rule, initialRule its idx rule) ->
    upperBounded ext its ->
    hardQuiet (length rules) (clock st) ->
    exists st' stop,
      scanRules ext its rules st = Some (st', stop)
      /\ Cpx.leb (cpx (best st)) (cpx (best st')) = true
      /\ (forall idx rule, In idx rules -> ITS.getRule its idx = Some rule ->
            Cpx.leb (a_cpx (proverAnswer ext its rule)) (cpx (best st')) = true)
      /\ (best st' = best st
          \/ exists idx rule, In idx rules /\ ITS.getRule its idx = Some rule
                              /\ best st' = proverResult ext its rule).
Proof.
  induction rules as [|i rest IH]; intros st Hall Hub Hquiet; cbn [scanRules].
  - exists st, false. split; [reflexivity|]. split; [apply Cpx_leb_refl|].
    split; [intros idx rule []| now left].
  - destruct (Hall i) as (r & Hr & Hfrom); [now left|].
    assert (Hrest : forall idx, In idx rest -> exists rule, initialRule its idx rule).
    { intros idx Hidx. apply Hall. now right. }
    assert (Hbound : Cpx.leb (a_cpx (proverAnswer ext its r)) (getComplexity ext (cost r))
                     = true) by (apply (Hub i); split; assumption).
    cbn [length] in Hquiet.
    unfold visitRule. rewrite Hr.
    destruct (Cpx.leb (getComplexity ext (cost r)) (cpx (best st))
              && negb (hasTempVar its (cost r))) eqn:Hskip.
    + (* the rule is skipped *)
      apply andb_prop in Hskip as [Hle _].
      destruct (IH (mkScan (best st) (clock st) (output st ++ [Skipping i])) Hrest Hub
                   (hardQuiet_S _ _ Hquiet))
        as (st' & stop & Hrun & Hmono & Hmax & Hcase).
      cbn [best] in *. exists st', stop. split; [exact Hrun|]. split; [exact Hmono|].
      split.
      * intros idx rule [<-|Hin] Hrule; [|eauto].
        rewrite Hr in Hrule. injection Hrule as <-.
        eapply Cpx_leb_trans; [exact Hbound|]. eapply Cpx_leb_trans; eauto.
      * destruct Hcase as [Hsame|(idx & rule & Hin & Hrule & Hbest)]; [now left|].
        right. exists idx, rule. split; [now right | auto].
    + (* the prover is called *)
      unfold checkRule. fold (proverAnswer ext its r).
      destruct (hardQuiet_poll _ _ Hquiet) as (clk' & Hpoll & Hquiet').
      destruct (Cpx.gtb (a_cpx (proverAnswer ext its r)) (cpx (best st))) eqn:Hgt.
      * cbn [cpx].
        destruct (Cpx.geb (a_cpx (proverAnswer ext its r)) Infty) eqn:Hinf.
        -- apply ScanFacts.Cpx_geb_Infty in Hinf.
           eexists _, true. split; [reflexivity|]. cbn [best cpx]. rewrite Hinf.
           split; [apply Cpx_leb_Infty|]. split; [intros; apply Cpx_leb_Infty|].
           right. exists i, r. split; [now left|]. split; [exact Hr|].
           unfold proverResult. now rewrite Hinf.
        -- rewrite Hpoll.
           match goal with |- context [scanRules _ _ rest ?s] =>
             destruct (IH s Hrest Hub Hquiet') as (st' & stop & Hrun & Hmono & Hmax & Hcase)
           end.
           cbn [best cpx] in *. exists st', stop. split; [exact Hrun|].
           split; [eapply Cpx_leb_trans; [apply Cpx_ltb_leb; exact Hgt | exact Hmono]|].
           split.
           ++ intros idx rule [<-|Hin] Hrule; [|eauto].
              rewrite Hr in Hrule. injection Hrule as <-. exact Hmono.
           ++ right. destruct Hcase as [->|(idx & rule & Hin & Hrule & Hbest)].
              ** exists i, r. split; [now left|]. split; [exact Hr | reflexivity].
              ** exists idx, rule. split; [now right | auto].
      * rewrite Hpoll.
        match goal with |- context [scanRules _ _ rest ?s] =>
          destruct (IH s Hrest Hub Hquiet') as (st' & stop & Hrun & Hmono & Hmax & Hcase)
        end.
        cbn [best cpx] in *. exists st', stop. split; [exact Hrun|]. split; [exact Hmono|].
        split.
        -- intros idx rule [<-|Hin] Hrule; [|eauto].
           rewrite Hr in Hrule. injection Hrule as <-.
           eapply Cpx_leb_trans; [apply Cpx_not_gtb_leb; exact Hgt | exact Hmono].
        -- destruct Hcase as [Hsame|(idx & rule & Hin & Hrule & Hbest)]; [now left|].
           right. exists idx, rule. split; [now right | auto].
Qed.

End Complete.

(** Skipping loses nothing.  Let the final asymptotic check be enabled, let
    [getComplexity] be an upper bound of the class that the prover answers
    for each rule leaving the initial location, and let the hard timeout
    not fire while these rules are scanned.  Then the class of the result
    of [getMaxRuntime] is the greatest of the classes that the prover
    answers for these rules, also for the rules that the scan skipped or
    did not reach; and the result is the default one or the answer of the
    prover for one of these rules, with the guard of that rule. *)
Theorem getMaxRuntime_complete (ext : Collaborators) (cfg : AnalysisSettings)
    (its : ITSProblem) (clk : Clock) :
  FINAL_INFINITY_CHECK cfg = true ->
  upperBounded ext its ->
  hardQuiet (length (ITS.getTransitionsFrom its (ITS.getInitialLocation its))) clk ->
  exists st,
    getMaxRuntime ext cfg its clk = Some st
    /\ (forall idx rule, initialRule its idx rule ->
          Cpx.leb (a_cpx (proverAnswer ext its rule)) (cpx (best st)) = true)
    /\ (best st = defaultResult
        \/ exists idx rule, initialRule its idx rule /\ best st = proverResult ext its rule).
Proof.
  intros Hcheck Hub Hquiet. unfold getMaxRuntime. rewrite Hcheck. cbn [negb].
  set (rules := ITS.getTransitionsFrom its (ITS.getInitialLocation its)) in *.
  assert (Hall : forall idx, In idx rules -> exists rule, initialRule its idx rule).
  { intros idx Hidx. apply getTransitionsFrom_In in Hidx as (r & Hr & Hfrom).
    exists r. split; assumption. }
  destruct (scanRules_complete ext its rules (mkScan defaultResult clk []) Hall Hub Hquiet)
    as (st & stop & Hrun & _ & Hmax & Hcase).
  exists st. rewrite Hrun. split; [reflexivity|]. split.
  - intros idx rule [Hrule Hfrom]. apply (Hmax idx rule); [|exact Hrule].
    apply getTransitionsFrom_In. eauto.
  - destruct Hcase as [Hsame|(idx & rule & Hin & Hrule & Hbest)]; [now left|].
    right. exists idx, rule. split; [|exact Hbest].
    apply getTransitionsFrom_In in Hin as (r & Hr & Hfrom).
    rewrite Hrule in Hr. injection Hr as <-. split; assumption.
Qed.

(** The theorem at the store with three parallel rules of the costs 1,
    [x] and [x + 1], where the rule of cost [x + 1] is skipped. *)
Lemma getMaxRuntime_complete_witness :
  (exists st,
     getMaxRuntime sampleCollaborators defaultSettings parallelStore quietClock = Some st
     /\ In (Skipping 2) (output st)
     /\ best st = mkResult (Poly 1) (Sym (SVar 0)) (Poly 1) [])
  /\ exists st,
       getMaxRuntime sampleCollaborators defaultSettings parallelStore quietClock = Some st
       /\ forall idx rule, initialRule parallelStore idx rule ->
            Cpx.leb (a_cpx (proverAnswer sampleCollaborators parallelStore rule))
                    (cpx (best st)) = true.
Proof.
  split.
  { eexists. split; [vm_compute; reflexivity|]. split; [|reflexivity].
    cbn. tauto. }
  assert (Hub : upperBounded sampleCollaborators parallelStore).
  { intros idx rule _. apply Cpx_leb_refl. }
  assert (Hquiet : hardQuiet
            (length (ITS.getTransitionsFrom parallelStore
                       (ITS.getInitialLocation parallelStore))) quietClock).
  { exists (repeat false 17). vm_compute. reflexivity. }
  destruct (getMaxRuntime_complete sampleCollaborators defaultSettings parallelStore
              quietClock eq_refl Hub Hquiet) as (st & Hrun & Hmax & _).
  exists st. split; assumption.
Defined.

End ComplexityFacts.

(** ** Preprocessing and the end of the simplification *)
Module PreprocessFacts.
Import StoreFacts Analysis.

(** The store is fully simplified exactly when every rule leaves the
    initial location; the rules that [getMaxRuntime] scans are then all the
    rules of the store. *)
Theorem isFullySimplified_spec (its : ITSProblem) :
  ITS.wf its = true ->
  (isFullySimplified its = true
   <-> forall idx rule, ITS.getRule its idx = Some rule ->
         lhsLoc rule = ITS.getInitialLocation its)
  /\ (isFullySimplified its = true ->
      ITS.getTransitionsFrom its (ITS.getInitialLocation its) = ITS.indices its).
Proof.
  intros Hwf. destruct (wf_spec its Hwf) as [_ Hrules].
  assert (Hiff : isFullySimplified its = true
                 <-> forall idx rule, ITS.getRule its idx = Some rule ->
                       lhsLoc rule = ITS.getInitialLocation its).
  { unfold isFullySimplified. rewrite forallb_forall. split.
    - intros Hall idx rule Hrule. destruct (Hrules idx rule Hrule) as (Hloc & _ & _).
      specialize (Hall (lhsLoc rule) Hloc). apply orb_prop in Hall as [Hinit|Hnone].
      + now apply Nat.eqb_eq in Hinit.
      + apply negb_true_iff in Hnone. apply not_true_iff_false in Hnone.
        destruct Hnone. apply hasTransitionsFrom_true. eauto.
    - intros Hall node _. unfold ITS.isInitialLocation.
      destruct (Nat.eqb_spec node (initialLocation its)) as [|Hne]; [reflexivity|].
      cbn. apply negb_true_iff, not_true_iff_false. intros Hfrom.
      apply hasTransitionsFrom_true in Hfrom as (idx & r & Hr & Hloc).
      apply Hne. rewrite <- Hloc. now apply (Hall idx). }
  split; [exact Hiff|]. intros Hfull.
  unfold ITS.getTransitionsFrom.
  rewrite <- (filter_ext_in (fun _ => true)).
  - clear. induction (ITS.indices its) as [|x l IH]; cbn; [reflexivity | now rewrite IH].
  - intros idx Hidx. symmetry. apply indices_In in Hidx as [r Hr].
    apply ruleHas_true. exists r. split; [exact Hr|]. unfold ITS.isFrom.
    apply Nat.eqb_eq. now apply (proj1 Hiff Hfull idx).
Qed.

(** The theorem at the store with one rule, which leaves the initial
    location. *)
Lemma isFullySimplified_spec_witness :
  isFullySimplified oneRuleStore = true
  /\ ITS.getTransitionsFrom oneRuleStore (ITS.getInitialLocation oneRuleStore)
     = ITS.indices oneRuleStore.
Proof.
  split; [reflexivity|].
  apply (isFullySimplified_spec oneRuleStore eq_refl). reflexivity.
Defined.

(** *** The flag of [preprocessRules] *)

Lemma setRule_same (its : ITSProblem) (idx : TransIdx) (rule : Rule) :
  ITS.getRule its idx = Some rule -> ITS.setRule its idx rule = its.
Proof.
  unfold ITS.getRule, ITS.setRule. intros H. rewrite (insert_id _ _ _ H). now destruct its.
Qed.

Section Flag.

Variable ext : Collaborators.
Variable cfg : AnalysisSettings.
Hypothesis Hhonest : honestFlags ext.

Lemma simplifyRules_flag (idxs : list TransIdx) :
  forall its clk changed its' clk' t,
    simplifyRules ext cfg idxs its clk changed = Some (false, its', clk', t) ->
    its' = its /\ changed = false.
Proof.
  induction idxs as [|idx rest IH]; intros its clk changed its' clk' t; cbn [simplifyRules].
  - intros [= -> -> _ _]. auto.
  - destruct (Timeout.preprocessing clk) as [[|] clk1]; [intros [= -> -> _ _]; auto|].
    destruct (ITS.getRule its idx) as [rule|] eqn:Hrule; [|discriminate].
    destruct (eliminateCostConstraints cfg).
    + pose proof (honest_removeCost ext Hhonest (guard rule)) as Hcost.
      destruct (Preprocess_tryToRemoveCost ext (guard rule)) as [c g]. cbn [fst snd] in Hcost.
      pose proof (honest_simplifyRule ext Hhonest its
                    (mkRule (lhsLoc rule) g (cost rule) (rhss rule))) as Hsimp.
      destruct (Preprocess_simplifyRule ext its _) as [c2 rule2]. cbn [fst snd] in Hsimp.
      intros Hrun. apply IH in Hrun as [-> Hflags].
      apply orb_false_elim in Hflags as [-> Hflags].
      apply orb_false_elim in Hflags as [-> ->].
      rewrite (Hsimp eq_refl), (Hcost eq_refl).
      split; [|reflexivity]. apply setRule_same. rewrite Hrule. now destruct rule.
    + pose proof (honest_simplifyRule ext Hhonest its rule) as Hsimp.
      destruct (Preprocess_simplifyRule ext its rule) as [c2 rule2]. cbn [fst snd] in Hsimp.
      intros Hrun. apply IH in Hrun as [-> Hflags].
      apply orb_false_elim in Hflags as [-> ->].
      rewrite (Hsimp eq_refl). split; [|reflexivity]. now apply setRule_same.
Qed.

Lemma simplifyLocations_flag (nodes : list LocationIdx) :
  forall its clk changed its' clk' t,
    simplifyLocations ext cfg nodes its clk changed = Some (false, its', clk', t) ->
    its' = its /\ changed = false.
Proof.
  induction nodes as [|node rest IH]; intros its clk changed its' clk' t;
    cbn [simplifyLocations].
  - intros [= -> -> _ _]. auto.
  - destruct (simplifyRules ext cfg _ its clk changed) as [[[[c its1] clk1] [|]]|] eqn:Hrules;
      [| |discriminate].
    + intros [= -> -> _ _]. eapply simplifyRules_flag; eauto.
    + intros Hrun. apply IH in Hrun as [-> ->]. eapply simplifyRules_flag; eauto.
Qed.

Lemma removeDuplicatesTo_flag (node : LocationIdx) (succs : list LocationIdx) :
  forall its clk changed its' clk' t,
    removeDuplicatesTo ext node succs its clk changed = (false, its', clk', t) ->
    its' = its /\ changed = false.
Proof.
  induction succs as [|succ rest IH]; intros its clk changed its' clk' t;
    cbn [removeDuplicatesTo].
  - intros [= -> -> _ _]. auto.
  - destruct (Timeout.preprocessing clk) as [[|] clk1]; [intros [= -> -> _ _]; auto|].
    pose proof (honest_removeDuplicates ext Hhonest its
                  (ITS.getTransitionsFromTo its node succ) true) as Hdup.
    destruct (Pruning_removeDuplicateRules ext its _ true) as [c its1]. cbn [fst snd] in Hdup.
    intros Hrun. apply IH in Hrun as [-> Hflags].
    apply orb_false_elim in Hflags as [-> ->]. auto.
Qed.

Lemma removeDuplicatesAt_flag (nodes : list LocationIdx) :
  forall its clk changed its' clk',
    removeDuplicatesAt ext nodes its clk changed = (false, its', clk') ->
    its' = its /\ changed = false.
Proof.
  induction nodes as [|node rest IH]; intros its clk changed its' clk';
    cbn [removeDuplicatesAt].
  - intros [= -> -> _]. auto.
  - destruct (removeDuplicatesTo ext node _ its clk changed) as [[[c its1] clk1] [|]] eqn:Hto.
    + intros [= -> -> _]. eapply removeDuplicatesTo_flag; eauto.
    + intros Hrun. apply IH in Hrun as [-> ->]. eapply removeDuplicatesTo_flag; eauto.
Qed.

End Flag.

(** When every transformation that [preprocessRules] calls returns [false]
    only if it has changed nothing, so does [preprocessRules]: a call that
    returns [false] leaves the store as it was. *)
Theorem preprocessRules_flag (ext : Collaborators) (cfg : AnalysisSettings)
    (its its' : ITSProblem) (clk clk' : Clock) :
  honestFlags ext ->
  preprocessRules ext cfg its clk = Some (false, its', clk') ->
  its' = its.
Proof.
  intros Hhonest. unfold preprocessRules.
  pose proof (honest_removeLeafs ext Hhonest its) as Hleafs.
  destruct (Pruning_removeLeafsAndUnreachable ext its) as [c its1]. cbn [fst snd] in Hleafs.
  destruct (simplifyLocations ext cfg _ its1 clk c) as [[[[c2 its2] clk2] [|]]|] eqn:Hloc;
    [| |discriminate].
  - intros [= -> -> _].
    apply (simplifyLocations_flag ext cfg Hhonest) in Hloc as [-> ->]. auto.
  - intros [= Hdup].
    apply (removeDuplicatesAt_flag ext Hhonest) in Hdup as [-> ->].
    apply (simplifyLocations_flag ext cfg Hhonest) in Hloc as [-> ->]. auto.
Qed.

Lemma sampleCollaborators_honest : honestFlags sampleCollaborators.
Proof. split; intros; reflexivity. Qed.

(** The theorem at the sample collaborators, which change nothing. *)
Lemma preprocessRules_flag_witness :
  exists its' clk',
    preprocessRules sampleCollaborators defaultSettings loopStore quietClock
    = Some (false, its', clk')
    /\ its' = loopStore.
Proof.
  assert (Hrun : { s : ITSProblem & { c : Clock |
            preprocessRules sampleCollaborators defaultSettings loopStore quietClock
            = Some (false, s, c) } }).
  { eexists. eexists. vm_compute. reflexivity. }
  destruct Hrun as (s & c & Hrun). exists s, c. split; [exact Hrun|].
  exact (preprocessRules_flag sampleCollaborators defaultSettings loopStore s quietClock c
           sampleCollaborators_honest Hrun).
Defined.

(** *** The driver without the preprocessing *)

Lemma soft_pre (c : Clock) :
  preprocessingPolls (snd (Timeout.soft c)) = preprocessingPolls c.
Proof. unfold Timeout.soft. now destruct (softPolls c). Qed.

Lemma hard_pre (c : Clock) :
  preprocessingPolls (snd (Timeout.hard c)) = preprocessingPolls c.
Proof. unfold Timeout.hard. now destruct (hardPolls c). Qed.

(** A poll of the soft or the hard timeout: the two answers, with the
    preprocessing polls of the new clock rewritten to the old ones. *)
Ltac poll_soft c t c' :=
  let H := fresh "Hpoll" in
  pose proof (soft_pre c) as H;
  destruct (Timeout.soft c) as [t c']; cbn [snd] in H.

Ltac poll_hard c t c' :=
  let H := fresh "Hpoll" in
  pose proof (hard_pre c) as H;
  destruct (Timeout.hard c) as [t c']; cbn [snd] in H.

Section Driver.

Variable ext : Collaborators.
Variable cfg : AnalysisSettings.

Lemma accelerateAt_pre (nodes : list LocationIdx) :
  forall its clk acc res r its' clk' acc',
    accelerateAt ext nodes its clk acc res = (r, its', clk', acc') ->
    preprocessingPolls clk' = preprocessingPolls clk.
Proof.
  induction nodes as [|node rest IH]; intros its clk acc res r its' clk' acc';
    cbn [accelerateAt].
  - now intros [= _ _ <- _].
  - destruct (Accelerator_accelerateSimpleLoops ext its node acc) as [[r1 its1] acc1].
    poll_soft clk t clk1. destruct t.
    + now intros [= _ _ <- _].
    + intros Hrun. apply IH in Hrun. congruence.
Qed.

Lemma simplifyRound_pre (its : ITSProblem) (clk : Clock) (a nl : bool)
    changed its' clk' a' nl' broke :
  simplifyRound ext its clk a nl = (changed, its', clk', a', nl', broke) ->
  preprocessingPolls clk' = preprocessingPolls clk.
Proof.
  unfold simplifyRound.
  destruct (if nl then _ else _) as [c0 its0].
  poll_soft clk t1 clk1. destruct t1; [intros [= _ _ <- _ _ _]; congruence|].
  unfold accelerateSimpleLoops.
  destruct (accelerateAt ext _ its0 clk1 [] false) as [[[r its1] clk2] acc] eqn:Hacc.
  apply accelerateAt_pre in Hacc.
  poll_soft clk2 t2 clk3. destruct t2; [intros [= _ _ <- _ _ _]; congruence|].
  destruct (chainAcceleratedLoops ext its1 acc) as [r2 its2].
  poll_soft clk3 t3 clk4. destruct t3; [intros [= _ _ <- _ _ _]; congruence|].
  destruct (Pruning_removeLeafsAndUnreachable ext its2) as [r3 its3].
  poll_soft clk4 t4 clk5. destruct t4; [intros [= _ _ <- _ _ _]; congruence|].
  destruct (chainLinearPaths ext its3) as [r4 its4].
  poll_soft clk5 t5 clk6. destruct t5; intros [= _ _ <- _ _ _]; congruence.
Qed.

Lemma simplifyLoop_pre (fuel : nat) :
  forall its clk a nl its' clk' a' nl',
    simplifyLoop ext fuel its clk a nl = Some (its', clk', a', nl') ->
    preprocessingPolls clk' = preprocessingPolls clk.
Proof.
  induction fuel as [|fuel IH]; intros its clk a nl its' clk' a' nl'; [discriminate|].
  cbn [simplifyLoop].
  destruct (simplifyRound ext its clk a nl) as [[[[[changed its1] clk1] a1] nl1] broke]
    eqn:Hround.
  apply simplifyRound_pre in Hround.
  destruct broke; [intros [= _ <- _ _]; exact Hround|].
  destruct changed; [|intros [= _ <- _ _]; exact Hround].
  intros Hrun. apply IH in Hrun. congruence.
Qed.

Lemma mainLoop_pre (fuel : nat) :
  forall its clk a nl its' clk',
    mainLoop ext cfg fuel its clk a nl = Some (its', clk') ->
    preprocessingPolls clk' = preprocessingPolls clk.
Proof.
  induction fuel as [|fuel IH]; intros its clk a nl its' clk'; [discriminate|].
  cbn [mainLoop].
  destruct (isFullySimplified its); [now intros [= _ <-]|].
  destruct (simplifyLoop ext (S fuel) its clk a nl) as [[[[its1 clk1] a1] nl1]|] eqn:Hloop;
    [|discriminate].
  apply simplifyLoop_pre in Hloop.
  destruct (isFullySimplified its1); [intros [= _ <-]; exact Hloop|].
  destruct (chainTreePaths ext its1) as [r its2].
  poll_soft clk1 t1 clk2. destruct t1; [intros [= _ <-]; congruence|].
  poll_soft clk2 t2 clk3. destruct t2; [intros [= _ <-]; congruence|].
  intros Hrun. apply IH in Hrun. congruence.
Qed.

Lemma checkRule_pre (its : ITSProblem) (idx : TransIdx) (rule : Rule) (st : Scan) :
  preprocessingPolls (clock (fst (checkRule ext its idx rule st)))
  = preprocessingPolls (clock st).
Proof.
  unfold checkRule. poll_hard (clock st) t clk1.
  destruct (Cpx.gtb _ _); [destruct (Cpx.geb _ _)|]; cbn; congruence.
Qed.

Lemma scanRules_pre (its : ITSProblem) (rules : list TransIdx) :
  forall st st' stop,
    scanRules ext its rules st = Some (st', stop) ->
    preprocessingPolls (clock st') = preprocessingPolls (clock st).
Proof.
  induction rules as [|idx rest IH]; intros st st' stop; cbn [scanRules].
  - now intros [= <- _].
  - unfold visitRule. destruct (ITS.getRule its idx) as [rule|]; [|discriminate].
    destruct (_ && _).
    + intros Hrun. apply IH in Hrun. exact Hrun.
    + pose proof (checkRule_pre its idx rule st) as Hcheck.
      destruct (checkRule ext its idx rule st) as [st1 [|]]; cbn [fst] in Hcheck.
      * now intros [= <- _].
      * intros Hrun. apply IH in Hrun. congruence.
Qed.

Lemma getMaxRuntime_pre (its : ITSProblem) (clk : Clock) (st : Scan) :
  getMaxRuntime ext cfg its clk = Some st ->
  preprocessingPolls (clock st) = preprocessingPolls clk.
Proof.
  unfold getMaxRuntime. destruct (negb (FINAL_INFINITY_CHECK cfg)).
  - destruct (getMaxComplexity ext its _ defaultResult); [|discriminate].
    now intros [= <-].
  - destruct (scanRules ext its _ _) as [[st1 stop]|] eqn:Hscan; [|discriminate].
    intros [= <-]. now apply scanRules_pre in Hscan.
Qed.

Lemma visitSuccessors_pre
    (impl : ITSProblem -> Clock -> LocationIdx -> gset LocationIdx ->
            option (bool * ITSProblem * Clock * gset LocationIdx))
    (curr : LocationIdx) :
  (forall its clk next V b its' clk' V',
     impl its clk next V = Some (b, its', clk', V') ->
     preprocessingPolls clk' = preprocessingPolls clk) ->
  forall succs its clk V b its' clk' V',
    visitSuccessors ext impl curr succs its clk V = Some (b, its', clk', V') ->
    preprocessingPolls clk' = preprocessingPolls clk.
Proof.
  intros Himpl. induction succs as [|next rest IH]; intros its clk V b its' clk' V';
    cbn [visitSuccessors].
  - now intros [= _ _ <- _].
  - poll_hard clk t clk1. destruct t; [intros [= _ _ <- _]; congruence|].
    destruct (impl its clk1 next V) as [[[[b1 its1] clk2] V1]|] eqn:Hcall; [|discriminate].
    apply Himpl in Hcall. destruct b1.
    + destruct (removeConstantRules ext _ its1) as [its2|]; [|discriminate].
      intros Hrun. apply IH in Hrun. congruence.
    + intros Hrun. apply IH in Hrun. congruence.
Qed.

Lemma removeConstantPathsImpl_pre (fuel : nat) :
  forall its clk curr V b its' clk' V',
    removeConstantPathsImpl ext fuel its clk curr V = Some (b, its', clk', V') ->
    preprocessingPolls clk' = preprocessingPolls clk.
Proof.
  induction fuel as [|fuel IH]; intros its clk curr V b its' clk' V'; [discriminate|].
  cbn [removeConstantPathsImpl]. case_bool_decide; [now intros [= _ _ <- _]|].
  apply visitSuccessors_pre. exact IH.
Qed.

Lemma scanRulesPartial_pre (its : ITSProblem) (rules : list TransIdx) :
  forall st st' e,
    scanRulesPartial ext its rules st = Some (st', e) ->
    preprocessingPolls (clock st') = preprocessingPolls (clock st).
Proof.
  induction rules as [|idx rest IH]; intros st st' e; cbn [scanRulesPartial].
  - now intros [= <- _].
  - assert (Hvisit : forall st1 e1, visitRulePartial ext its idx st = Some (st1, e1) ->
                       preprocessingPolls (clock st1) = preprocessingPolls (clock st)).
    { unfold visitRulePartial. intros st1 e1.
      destruct (ITS.getLinearRule its idx) as [rule|]; [|discriminate].
      poll_hard (clock st) t clk1.
      destruct (_ && _); [now intros [= <- _]|].
      destruct (Cpx.gtb _ _); [destruct (Cpx.geb _ _)|]; intros [= <- _]; cbn; congruence. }
    destruct (visitRulePartial ext its idx st) as [[st1 e1]|]; [|discriminate].
    specialize (Hvisit st1 e1 eq_refl).
    destruct e1; [| intros [= <- _]; exact Hvisit | intros [= <- _]; exact Hvisit].
    intros Hrun. apply IH in Hrun. congruence.
Qed.

Lemma chainWithSeconds_pre (first : TransIdx) (seconds : list TransIdx) :
  forall its clk its' clk' e,
    chainWithSeconds ext first seconds its clk = Some (its', clk', e) ->
    preprocessingPolls clk' = preprocessingPolls clk.
Proof.
  induction seconds as [|second rest IH]; intros its clk its' clk' e;
    cbn [chainWithSeconds].
  - now intros [= _ <- _].
  - destruct (ITS.getRule its first) as [r1|]; [|discriminate].
    destruct (ITS.getRule its second) as [r2|]; [|discriminate].
    poll_hard clk t clk1. destruct t; [intros [= _ <- _]; congruence|].
    intros Hrun. apply IH in Hrun. congruence.
Qed.

Lemma chainFirsts_pre (succ : LocationIdx) (firsts : list TransIdx) :
  forall its clk its' clk' e,
    chainFirsts ext succ firsts its clk = Some (its', clk', e) ->
    preprocessingPolls clk' = preprocessingPolls clk.
Proof.
  induction firsts as [|first rest IH]; intros its clk its' clk' e; cbn [chainFirsts].
  - now intros [= _ <- _].
  - destruct (chainWithSeconds ext first _ its clk) as [[[its1 clk1] e1]|] eqn:Hchain;
      [|discriminate].
    apply chainWithSeconds_pre in Hchain.
    destruct e1; [| intros [= _ <- _]; exact Hchain | intros [= _ <- _]; exact Hchain].
    intros Hrun. apply IH in Hrun. congruence.
Qed.

Lemma chainSuccessors_pre (initial : LocationIdx) (succs : list LocationIdx) :
  forall its clk its' clk' e,
    chainSuccessors ext initial succs its clk = Some (its', clk', e) ->
    preprocessingPolls clk' = preprocessingPolls clk.
Proof.
  induction succs as [|succ rest IH]; intros its clk its' clk' e; cbn [chainSuccessors].
  - now intros [= _ <- _].
  - destruct (chainFirsts ext succ _ its clk) as [[[its1 clk1] e1]|] eqn:Hchain;
      [|discriminate].
    apply chainFirsts_pre in Hchain.
    destruct e1; [| intros [= _ <- _]; exact Hchain | intros [= _ <- _]; exact Hchain].
    intros Hrun. apply IH in Hrun. congruence.
Qed.

Lemma partialLoop_pre (fuel : nat) (initial : LocationIdx) :
  forall its st st' its',
    partialLoop ext fuel initial its st = Some (st', its') ->
    preprocessingPolls (clock st') = preprocessingPolls (clock st).
Proof.
  induction fuel as [|fuel IH]; intros its st st' its'; [discriminate|].
  cbn [partialLoop]. poll_hard (clock st) t clk1.
  destruct t; [intros [= <- _]; exact Hpoll|].
  destruct (scanRulesPartial ext its _ _) as [[st1 e1]|] eqn:Hscan; [|discriminate].
  apply scanRulesPartial_pre in Hscan. cbn [clock] in Hscan.
  destruct e1; [| intros [= <- _]; congruence | intros [= <- _]; congruence].
  destruct (emptyList _); [intros [= <- _]; congruence|].
  destruct (chainSuccessors ext initial _ its (clock st1)) as [[[its1 clk2] e2]|] eqn:Hchain;
    [|discriminate].
  apply chainSuccessors_pre in Hchain.
  destruct e2; [| intros [= <- _]; cbn; congruence | intros [= <- _]; cbn; congruence].
  intros Hrun. apply IH in Hrun. cbn [clock] in Hrun. congruence.
Qed.

End Driver.

(** With the preprocessing switched off, [run] never polls the
    preprocessing timeout: whatever the run does, and however it ends, the
    answers that the clock holds for this timeout are all left. *)
Theorem run_without_preprocessing (ext : Collaborators) (cfg : AnalysisSettings)
    (fuel : nat) (its its' : ITSProblem) (clk clk' : Clock)
    (res : RuntimeResult) (out : list Event) :
  doPreprocessing cfg = false ->
  run ext cfg fuel its clk = Some (res, its', clk', out) ->
  preprocessingPolls clk' = preprocessingPolls clk.
Proof.
  intros Hoff. unfold run. rewrite Hoff.
  destruct (ensureProperInitialLocation its) as [c0 its0].
  destruct (Pruning_removeUnsatInitialRules ext its0) as [c1 its1].
  destruct (ITS.isEmpty its1); [now intros [= _ _ <- _]|].
  destruct (mainLoop ext cfg fuel its1 clk false _) as [[its2 clk2]|] eqn:Hmain;
    [|discriminate].
  apply mainLoop_pre in Hmain.
  poll_soft clk2 t clk3.
  match goal with |- context [negb (isFullySimplified ?s)] =>
    destruct (negb (isFullySimplified s)) end.
  - unfold removeConstantPathsAfterTimeout.
    destruct (removeConstantPathsImpl ext fuel _ clk3 _ ∅) as [[[[b its4] clk4] V]|] eqn:Hrem;
      [|discriminate].
    apply removeConstantPathsImpl_pre in Hrem.
    unfold getMaxPartialResult.
    destruct (partialLoop ext fuel _ its4 _) as [[st its5]|] eqn:Hpart; [|discriminate].
    apply partialLoop_pre in Hpart. cbn [clock] in Hpart.
    intros [= _ _ <- _]. congruence.
  - destruct (getMaxRuntime ext cfg _ clk3) as [st|] eqn:Hmax; [|discriminate].
    apply getMaxRuntime_pre in Hmax. intros [= _ _ <- _]. congruence.
Qed.

(** The theorem at the store with a loop behind the initial location. *)
Lemma run_without_preprocessing_witness :
  exists res its' clk' out,
    run sampleCollaborators plainSettings 20 loopStore quietClock
    = Some (res, its', clk', out)
    /\ preprocessingPolls clk' = preprocessingPolls quietClock.
Proof.
  assert (Hrun : { r : RuntimeResult & { s : ITSProblem & { c : Clock & { o : list Event |
            run sampleCollaborators plainSettings 20 loopStore quietClock
            = Some (r, s, c, o) } } } }).
  { eexists. eexists. eexists. eexists. vm_compute. reflexivity. }
  destruct Hrun as (r & s & c & o & Hrun). exists r, s, c, o. split; [exact Hrun|].
  exact (run_without_preprocessing sampleCollaborators plainSettings 20 loopStore s
           quietClock c r o eq_refl Hrun).
Defined.

End PreprocessFacts.

(** ** The declaration of the variables *)
Module DeclarationFacts.
Import ITRS FunappFacts VariableFacts.

Local Open Scope nat_scope.

Lemma addVariable_consistent (p : Problem) (name : string) :
  consistent p -> varMap p !! name = None -> consistent (snd (addVariable p name)).
Proof.
  intros Hcons Hfresh name' vi. unfold consistent in Hcons. cbn.
  destruct (decide (name = name')) as [<-|Hne].
  - rewrite lookup_insert_eq. split.
    + intros [= <-]. rewrite lookup_app_r by lia. now rewrite Nat.sub_diag.
    + intros Hv. apply lookup_app_Some in Hv as [Hv|[Hge Hv]].
      * apply Hcons in Hv. congruence.
      * apply list_lookup_singleton_Some in Hv as [Hv _]. f_equal. lia.
  - rewrite lookup_insert_ne by exact Hne. rewrite Hcons. split.
    + intros Hv. now apply lookup_app_l_Some.
    + intros Hv. apply lookup_app_Some in Hv as [Hv|[Hge Hv]]; [exact Hv|].
      apply list_lookup_singleton_Some in Hv as [_ Hv]. congruence.
Qed.

Lemma consistent_NoDup (p : Problem) : consistent p -> NoDup (vars p).
Proof.
  intros Hcons. apply NoDup_alt. intros i j x Hi Hj.
  apply Hcons in Hi, Hj. congruence.
Qed.

Lemma addFreshVariable_bound (p : Problem) (basename : string) (fuel : nat) :
  size (varMap p) < fuel ->
  (Z.of_nat (size (varMap p)) < INT_MAX)%Z ->
  exists k,
    varMap p !! candidate basename k = None
    /\ addFreshVariable fuel p basename false
       = Some (List.length (vars p), snd (addVariable p (candidate basename k))).
Proof.
  intros Hfuel Hmax.
  destruct (getFreshNameLoop_spec p basename fuel 0) as (k & _ & Hrun & Hfresh & _);
    [lia | lia | exact Hmax |].
  exists k. split; [exact Hfresh|].
  unfold addFreshVariable, getFreshName.
  change (getFreshNameLoop fuel p basename basename 1 = Some (candidate basename k)) in Hrun.
  now rewrite Hrun.
Qed.

Lemma getVarname_addVariable (p : Problem) (name : string) :
  getVarname (snd (addVariable p name)) (List.length (vars p)) = Some name.
Proof.
  unfold getVarname. cbn. rewrite lookup_app_r by lia. now rewrite Nat.sub_diag.
Qed.

Lemma declareVars_run (fuel : nat) (varnames : list string) :
  forall res,
    consistent (problem res) ->
    size (varMap (problem res)) + List.length varnames <= fuel ->
    (Z.of_nat (size (varMap (problem res)) + List.length varnames) <= INT_MAX)%Z ->
    exists res' newnames,
      declareVars fuel varnames res = Some res'
      /\ vars (problem res') = vars (problem res) ++ newnames
      /\ Forall2 registeredFor varnames newnames
      /\ consistent (problem res')
      /\ (forall i n, newnames !! i = Some n ->
            knownVars res' !! n = Some (List.length (vars (problem res)) + i))
      /\ (forall n, n ∉ newnames -> knownVars res' !! n = knownVars res !! n).
Proof.
  induction varnames as [|w rest IH]; intros res Hcons Hfuel Hmax.
  - exists res, []. cbn. rewrite app_nil_r.
    split; [reflexivity|]. split; [reflexivity|]. split; [constructor|].
    split; [exact Hcons|]. split; [intros i n Hn; discriminate | reflexivity].
  - cbn [List.length] in Hfuel, Hmax. cbn [declareVars].
    destruct (addFreshVariable_bound (problem res) (escapeVarname w) fuel)
      as (k & Hfresh & Hadd); [lia | lia |].
    rewrite Hadd, getVarname_addVariable.
    set (name := candidate (escapeVarname w) k) in *.
    match goal with |- context [declareVars fuel rest ?r] => set (res1 := r) end.
    assert (Hcons1 : consistent (problem res1))
      by (apply (addVariable_consistent (problem res) name Hcons Hfresh)).
    assert (Hsize : size (varMap (problem res1)) = S (size (varMap (problem res)))).
    { cbn. now rewrite map_size_insert_None. }
    destruct (IH res1) as (res' & newnames & Hdecl & Hvars & Hreg & Hcons' & Hknown & Hkeep);
      [exact Hcons1 | lia | lia |].
    exists res', (name :: newnames). split; [exact Hdecl|].
    cbn [res1 problem addVariable snd vars] in Hvars. rewrite <- app_assoc in Hvars.
    cbn [app] in Hvars.
    split; [exact Hvars|].
    split; [constructor; [now exists k | exact Hreg]|].
    split; [exact Hcons'|].
    assert (Hnotin : name ∉ newnames).
    { pose proof (consistent_NoDup _ Hcons') as Hnd. rewrite Hvars in Hnd.
      apply NoDup_app in Hnd as (_ & _ & Hnd). now apply NoDup_cons in Hnd as [Hnd _]. }
    split.
    + intros [|i] m Hm; cbn in Hm.
      * injection Hm as Hm. rewrite <- Hm.
        etransitivity; [exact (Hkeep name Hnotin)|]. cbn.
        rewrite lookup_insert_eq. f_equal. lia.
      * etransitivity; [exact (Hknown i m Hm)|]. cbn. rewrite length_app. cbn.
        f_equal. lia.
    + intros m Hm. apply not_elem_of_cons in Hm as [Hne Hm].
      etransitivity; [exact (Hkeep m Hm)|]. cbn. now rewrite lookup_insert_ne.
Qed.

(** Each declared name gets a variable of its own, also when two declared
    names are equal or have the same escaped name.  For a problem whose two
    maps of the variables agree, the loop over the declared names appends
    one name per declared name to the variables: the escaped name, or the
    escaped name with a counter.  The names of the variables are pairwise
    different afterwards, and [knownVars] maps each new name to the index
    of its variable.  The map must not get more than [INT_MAX] keys. *)
Theorem declareVars_spec (fuel : nat) (varnames : list string) (res : Declarations) :
  consistent (problem res) ->
  size (varMap (problem res)) + List.length varnames <= fuel ->
  (Z.of_nat (size (varMap (problem res)) + List.length varnames) <= INT_MAX)%Z ->
  exists res' newnames,
    declareVars fuel varnames res = Some res'
    /\ vars (problem res') = vars (problem res) ++ newnames
    /\ Forall2 registeredFor varnames newnames
    /\ NoDup (vars (problem res'))
    /\ consistent (problem res')
    /\ forall i n, newnames !! i = Some n ->
         knownVars res' !! n = Some (List.length (vars (problem res)) + i)
         /\ getVarname (problem res') (List.length (vars (problem res)) + i) = Some n.
Proof.
  intros Hcons Hfuel Hmax.
  destruct (declareVars_run fuel varnames res Hcons Hfuel Hmax)
    as (res' & newnames & Hdecl & Hvars & Hreg & Hcons' & Hknown & _).
  exists res', newnames. split; [exact Hdecl|]. split; [exact Hvars|].
  split; [exact Hreg|]. split; [now apply consistent_NoDup|]. split; [exact Hcons'|].
  intros i n Hn. split; [now apply Hknown|].
  unfold getVarname. rewrite Hvars, lookup_app_r by lia.
  now replace (List.length (vars (problem res)) + i - List.length (vars (problem res)))
    with i by lia.
Qed.

(** The theorem at the line [(VAR x I x)]: the variables are [x], [Q] and
    [x_1]. *)
Lemma declareVars_spec_witness :
  (exists res',
     declareLine 10 "(VAR x I x)" emptyDeclarations = Some res'
     /\ vars (problem res') = ["x"; "Q"; "x_1"]%string)
  /\ exists res' newnames,
       declareVars 10 ["x"; "I"; "x"]%string emptyDeclarations = Some res'
       /\ vars (problem res') = newnames
       /\ NoDup (vars (problem res')).
Proof.
  split.
  { eexists. split; [vm_compute; reflexivity | reflexivity]. }
  assert (Hsize : size (varMap (problem emptyDeclarations)) = 0) by reflexivity.
  destruct (declareVars_spec 10 ["x"; "I"; "x"]%string emptyDeclarations)
    as (res' & newnames & Hdecl & Hvars & _ & Hnd & _).
  - intros name vi. cbn. rewrite lookup_empty. split; discriminate.
  - rewrite Hsize. cbn. lia.
  - rewrite Hsize. cbn. unfold INT_MAX. lia.
  - exists res', newnames. split; [exact Hdecl|]. split; [exact Hvars | exact Hnd].
Defined.

End DeclarationFacts.

(** ** The free variables of a rule *)
Module FreeVarFacts.
Import ITRS ITRSParser FunappFacts VariableFacts DeclarationFacts.

Local Open Scope nat_scope.

Lemma isBound_spec (st : RuleParser) (s : Symbol) :
  isBound st s = true <-> In s (boundSymbols st).
Proof.
  unfold isBound. rewrite existsb_exists. split.
  - intros (t & Ht & Heq). apply RecurrenceFacts.Symbol_eqb_eq in Heq. now subst.
  - intros Hin. exists s. split; [exact Hin | now apply RecurrenceFacts.Symbol_eqb_eq].
Qed.

Lemma isFreeVar_spec (p : Problem) (v : VariableIndex) :
  isFreeVar p (SVar v) = true <-> v ∈ freeVars p.
Proof.
  unfold isFreeVar. rewrite existsb_exists. split.
  - intros (i & Hi & Heq). apply Nat.eqb_eq in Heq. subst i.
    now apply list_elem_of_In, elem_of_elements in Hi.
  - intros Hin. exists v. split; [|apply Nat.eqb_refl].
    now apply list_elem_of_In, elem_of_elements.
Qed.

Lemma Symbol_eq_dec (a b : Symbol) : {a = b} + {a <> b}.
Proof. decide equality. apply Nat.eq_dec. Qed.

Lemma symbolsOf_subs (m : exmap) (e : Expression) (t : Symbol) :
  In t (symbolsOf (subs m e)) ->
  exists s, In s (symbolsOf e)
            /\ ((exmap_find m s = None /\ t = s)
                \/ exists e', exmap_find m s = Some e' /\ In t (symbolsOf e')).
Proof.
  induction e as [z|s|a IHa b IHb|a IHa b IHb|a IHa b IHb]; cbn [subs symbolsOf].
  - intros [].
  - intros Hin. exists s. split; [now left|].
    destruct (exmap_find m s) as [e'|]; [right; eauto|].
    left. destruct Hin as [<-|[]]. auto.
  - intros Hin. apply in_app_or in Hin as [Hin|Hin];
      [destruct (IHa Hin) as (s & Hs & H) | destruct (IHb Hin) as (s & Hs & H)];
      exists s; (split; [apply in_or_app; auto | exact H]).
  - intros Hin. apply in_app_or in Hin as [Hin|Hin];
      [destruct (IHa Hin) as (s & Hs & H) | destruct (IHb Hin) as (s & Hs & H)];
      exists s; (split; [apply in_or_app; auto | exact H]).
  - intros Hin. apply in_app_or in Hin as [Hin|Hin];
      [destruct (IHa Hin) as (s & Hs & H) | destruct (IHb Hin) as (s & Hs & H)];
      exists s; (split; [apply in_or_app; auto | exact H]).
Qed.

Lemma replaceUnboundedWithFresh_run (fuel : nat) (checkSymbols : list Symbol) :
  forall st added,
    consistent (rp_problem st) ->
    (forall s, In s checkSymbols -> knownSymbol (rp_problem st) s) ->
    boundedSubs st ->
    size (varMap (rp_problem st)) + List.length checkSymbols <= fuel ->
    (Z.of_nat (size (varMap (rp_problem st)) + List.length checkSymbols) <= INT_MAX)%Z ->
    exists b st',
      replaceUnboundedWithFresh fuel checkSymbols st added = Some (b, st')
      /\ (b = true <->
          added = true \/ exists s, In s checkSymbols /\ ~ In s (boundSymbols st))
      /\ ((forall s, In s checkSymbols -> In s (boundSymbols st)) -> st' = st)
      /\ incl (boundSymbols st) (boundSymbols st')
      /\ freeVars (rp_problem st) ⊆ freeVars (rp_problem st')
      /\ List.length (vars (rp_problem st)) <= List.length (vars (rp_problem st'))
      /\ boundedSubs st'
      /\ (forall s, ~ In s checkSymbols \/ In s (boundSymbols st) ->
            exmap_find (symbolSubs st') s = exmap_find (symbolSubs st) s)
      /\ (forall s, In s checkSymbols -> ~ In s (boundSymbols st) ->
            exists v,
              exmap_find (symbolSubs st') s = Some (Sym (SVar v))
              /\ List.length (vars (rp_problem st)) <= v
              /\ v ∈ freeVars (rp_problem st')
              /\ In (SVar v) (boundSymbols st')).
Proof.
  induction checkSymbols as [|sym rest IH]; intros st added Hcons Hknown Hsubs Hfuel Hmax.
  - exists added, st. cbn [replaceUnboundedWithFresh]. split; [reflexivity|].
    split; [split; [auto | intros [H|(s & [] & _)]; exact H]|].
    split; [reflexivity|]. split; [apply incl_refl|]. split; [reflexivity|].
    split; [lia|]. split; [exact Hsubs|]. split; [reflexivity|]. intros s [].
  - cbn [List.length] in Hfuel, Hmax. cbn [replaceUnboundedWithFresh].
    assert (Hrest : forall s, In s rest -> knownSymbol (rp_problem st) s).
    { intros s Hs. apply Hknown. now right. }
    destruct (isBound st sym) eqn:Hb.
    + apply isBound_spec in Hb.
      destruct (IH st added Hcons Hrest Hsubs) as
        (b & st' & Hrun & Hflag & Hsame & Hincl & Hfree & Hlen & Hsubs' & Hframe & Hfresh);
        [lia | lia |].
      exists b, st'. split; [exact Hrun|]. split.
      { rewrite Hflag. split; (intros [H|(s & Hs & Hn)]; [now left|right]).
        - exists s. split; [now right | exact Hn].
        - exists s. split; [|exact Hn]. destruct Hs as [<-|Hs]; [contradiction | exact Hs]. }
      split; [intros Hall; apply Hsame; intros s Hs; apply Hall; now right|].
      split; [exact Hincl|]. split; [exact Hfree|]. split; [exact Hlen|].
      split; [exact Hsubs'|]. split.
      * intros s [Hs|Hs]; apply Hframe; [left|now right].
        intros Hin. apply Hs. now right.
      * intros s [<-|Hs] Hn; [contradiction|]. now apply Hfresh.
    + assert (Hunbound : ~ In sym (boundSymbols st)).
      { intros Hin. apply isBound_spec in Hin. congruence. }
      destruct (addFreshVariable_bound (rp_problem st) "free" fuel)
        as (k & Hfreshname & Hadd); [lia | lia |].
      rewrite Hadd. cbn [snd addVariable vars varMap varSymbols freeVars functionSymbols
                         functionSymbolVars].
      set (n := List.length (vars (rp_problem st))).
      set (name := candidate "free" k) in *.
      match goal with |- context [replaceUnboundedWithFresh fuel rest ?s true] =>
        set (st1 := s) end.
      assert (Hcons1 : consistent (rp_problem st1))
        by (exact (addVariable_consistent (rp_problem st) name Hcons Hfreshname)).
      assert (Hlen1 : List.length (vars (rp_problem st1)) = S n).
      { cbn. rewrite length_app. cbn. unfold n. lia. }
      assert (Hknown1 : forall s, In s rest -> knownSymbol (rp_problem st1) s).
      { intros s Hs. destruct (Hrest s Hs) as (i & -> & Hi). exists i.
        split; [reflexivity|]. rewrite Hlen1. unfold n. lia. }
      assert (Hsubs1 : boundedSubs st1).
      { intros s e. cbn [st1 symbolSubs boundSymbols exmap_set exmap_find].
        destruct (Symbol_eqb sym s).
        - intros [= <-] t [<-|[]]. now left.
        - intros He t Ht. right. eapply Hsubs; eauto. }
      assert (Hsize1 : size (varMap (rp_problem st1)) = S (size (varMap (rp_problem st)))).
      { cbn. now rewrite map_size_insert_None. }
      destruct (IH st1 true Hcons1 Hknown1 Hsubs1) as
        (b & st' & Hrun & Hflag & _ & Hincl & Hfree & Hlen & Hsubs' & Hframe & Hfresh);
        [lia | lia |].
      assert (Hfind1 : forall s, s <> sym ->
                exmap_find (symbolSubs st1) s = exmap_find (symbolSubs st) s).
      { intros s Hne. cbn [st1 symbolSubs exmap_set exmap_find].
        destruct (Symbol_eqb sym s) eqn:Heq; [|reflexivity].
        apply RecurrenceFacts.Symbol_eqb_eq in Heq. congruence. }
      assert (Hnew : forall s, knownSymbol (rp_problem st) s -> s <> SVar n).
      { intros s (i & -> & Hi) [= ->]. unfold n in Hi. lia. }
      exists b, st'. split; [exact Hrun|]. split.
      { split; [intros _; right; exists sym; split; [now left | exact Hunbound]|].
        intros _. apply Hflag. now left. }
      split; [intros Hall; destruct Hunbound; apply Hall; now left|].
      split; [intros s Hs; apply Hincl; now right|].
      split; [etransitivity; [|exact Hfree]; cbn; apply union_subseteq_r|].
      split; [rewrite Hlen1 in Hlen; unfold n in Hlen; lia|].
      split; [exact Hsubs'|]. split.
      * intros s Hs.
        assert (Hne : s <> sym).
        { intros ->. destruct Hs as [Hs|Hs]; [apply Hs; now left | contradiction]. }
        rewrite <- (Hfind1 s Hne). apply Hframe.
        destruct Hs as [Hs|Hs]; [left; intros Hin; apply Hs; now right | right; now right].
      * intros s Hs Hn.
        assert (Hn1 : ~ In s (boundSymbols st1)).
        { intros [Heq|Hin]; [|contradiction].
          apply (Hnew s (Hknown s Hs)). now symmetry. }
        destruct (in_dec Symbol_eq_dec s rest) as [Hin|Hnotin].
        -- destruct (Hfresh s Hin Hn1) as (v & Hv & Hle & Hvfree & Hvbound).
           exists v. rewrite Hlen1 in Hle. fold n. repeat split; auto; lia.
        -- destruct Hs as [<-|Hs]; [|contradiction].
           exists n. split.
           { rewrite (Hframe sym (or_introl Hnotin)).
             cbn [st1 symbolSubs exmap_set exmap_find].
             now rewrite (proj2 (RecurrenceFacts.Symbol_eqb_eq sym sym) eq_refl). }
           split; [unfold n; lia|]. split.
           { apply Hfree. cbn. apply elem_of_union. left. now apply elem_of_singleton. }
           apply Hincl. now left.
Qed.

(** After [replaceUnboundedWithFresh] the checked symbols lead to bound
    symbols only.  Let the checked symbols be symbols of variables of the
    problem, and let the substitution lead to bound symbols before the
    call.  Then the call returns [true] exactly when a checked symbol is
    not bound, and changes nothing otherwise.  Each checked symbol that is
    not bound is mapped to the symbol of a new variable, which is a free
    variable and bound; the substitution is the same at all other symbols.
    So every symbol of a term over the checked symbols is bound once the
    substitution is applied. *)
Theorem replaceUnboundedWithFresh_spec (fuel : nat) (checkSymbols : list Symbol)
    (st : RuleParser) :
  consistent (rp_problem st) ->
  (forall s, In s checkSymbols -> knownSymbol (rp_problem st) s) ->
  boundedSubs st ->
  size (varMap (rp_problem st)) + List.length checkSymbols <= fuel ->
  (Z.of_nat (size (varMap (rp_problem st)) + List.length checkSymbols) <= INT_MAX)%Z ->
  exists b st',
    replaceUnboundedWithFresh fuel checkSymbols st false = Some (b, st')
    /\ (b = true <-> exists s, In s checkSymbols /\ isBound st s = false)
    /\ (b = false -> st' = st)
    /\ (forall s, ~ In s checkSymbols \/ isBound st s = true ->
          exmap_find (symbolSubs st') s = exmap_find (symbolSubs st) s)
    /\ (forall s, In s checkSymbols -> isBound st s = false ->
          exists v,
            exmap_find (symbolSubs st') s = Some (Sym (getGinacSymbol v))
            /\ List.length (vars (rp_problem st)) <= v
            /\ isFreeVar (rp_problem st') (getGinacSymbol v) = true
            /\ isBound st' (getGinacSymbol v) = true)
    /\ (forall e, (forall s, In s (symbolsOf e) -> In s checkSymbols) ->
          forall t, In t (symbolsOf (subs (symbolSubs st') e)) -> isBound st' t = true).
Proof.
  intros Hcons Hknown Hsubs Hfuel Hmax.
  destruct (replaceUnboundedWithFresh_run fuel checkSymbols st false
              Hcons Hknown Hsubs Hfuel Hmax)
    as (b & st' & Hrun & Hflag & Hsame & Hincl & _ & _ & Hsubs' & Hframe & Hfresh).
  assert (Hnot : forall s, isBound st s = false <-> ~ In s (boundSymbols st)).
  { intros s. rewrite <- isBound_spec. now destruct (isBound st s). }
  exists b, st'. split; [exact Hrun|]. split.
  { rewrite Hflag. split.
    - intros [H|(s & Hs & Hn)]; [discriminate|]. exists s. now rewrite Hnot.
    - intros (s & Hs & Hn). right. exists s. now rewrite <- Hnot. }
  split.
  { intros Hb. apply Hsame. intros s Hs.
    destruct (isBound st s) eqn:Hbs; [now apply isBound_spec|].
    assert (Htrue : b = true) by (apply Hflag; right; exists s; now rewrite <- Hnot).
    congruence. }
  split.
  { intros s [Hs|Hs]; apply Hframe; [now left | right; now apply isBound_spec]. }
  split.
  { intros s Hs Hn. apply Hnot in Hn.
    destruct (Hfresh s Hs Hn) as (v & Hv & Hle & Hvfree & Hvbound).
    exists v. split; [exact Hv|]. split; [exact Hle|].
    split; [now apply isFreeVar_spec | now apply isBound_spec]. }
  intros e He t Ht. apply isBound_spec.
  apply symbolsOf_subs in Ht as (s & Hs & [[Hnone ->]|(e' & Hsome & Ht)]).
  - destruct (isBound st s) eqn:Hbs.
    + apply Hincl. now apply isBound_spec.
    + apply Hnot in Hbs. destruct (Hfresh s (He s Hs) Hbs) as (v & Hv & _). congruence.
  - eapply Hsubs'; eauto.
Qed.

Lemma sampleProblem_consistent : consistent sampleProblem.
Proof.
  intros name vi. cbn.
  destruct (decide (name = "x"%string)) as [->|Hx].
  - rewrite lookup_insert_eq. split; [now intros [= <-]|].
    destruct vi as [|[|vi]]; cbn; intros [=]; reflexivity.
  - rewrite lookup_insert_ne by auto.
    destruct (decide (name = "y"%string)) as [->|Hy].
    + rewrite lookup_insert_eq. split; [now intros [= <-]|].
      destruct vi as [|[|vi]]; cbn; intros [=]; reflexivity.
    + rewrite lookup_insert_ne by auto. rewrite lookup_empty. split; [discriminate|].
      destruct vi as [|[|vi]]; cbn; intros [=]; congruence.
Qed.

(** The theorem at the symbols [x] and [y], of which [x] is bound. *)
Lemma replaceUnboundedWithFresh_spec_witness :
  exists b st',
    replaceUnboundedWithFresh 10 [SVar 0; SVar 1] sampleParser false = Some (b, st')
    /\ (b = true <-> exists s, In s [SVar 0; SVar 1] /\ isBound sampleParser s = false)
    /\ forall t, In t (symbolsOf (subs (symbolSubs st') (Add (Sym (SVar 0)) (Sym (SVar 1))))) ->
         isBound st' t = true.
Proof.
  assert (Hsize : size (varMap (rp_problem sampleParser)) = 2) by reflexivity.
  destruct (replaceUnboundedWithFresh_spec 10 [SVar 0; SVar 1] sampleParser)
    as (b & st' & Hrun & Hflag & _ & _ & _ & Hclosed).
  - exact sampleProblem_consistent.
  - intros s [<-|[<-|[]]]; [exists 0 | exists 1]; cbn; split; auto; lia.
  - intros s e He. discriminate.
  - rewrite Hsize. cbn. lia.
  - rewrite Hsize. cbn. unfold INT_MAX. lia.
  - exists b, st'. split; [exact Hrun|]. split; [exact Hflag|].
    apply Hclosed. cbn. tauto.
Defined.

End FreeVarFacts.
